(** * secp256k1: a shallow embedding of [src/secp251k1/index.ts]

    The TypeScript module is modelled function by function.  [bigint]
    values are [Z]; JavaScript's truncating [/] and [%] on [bigint] are
    [Z.quot] and [Z.rem]; a [Uint8Array] is a [list byte]; a JavaScript
    string is a [string] (code units above 255 are outside the model);
    a [throw] is the [Throw] constructor of [result]. *)

From Stdlib Require Import ZArith Znumtheory Lia List String Ascii Bool.
From Stdlib Require Import Init.Byte.
From Stdlib Require Zmod.ZmodInv.
From Stdlib Require Zmod.Zmod.
From Bignums Require Import BigZ.
Import ListNotations.

Local Open Scope Z_scope.

(** ** Exceptions *)

Inductive exn : Type :=
| Error (msg : string)
| TypeError (msg : string)
| SyntaxError (msg : string)
| RangeError (msg : string)
| OutOfFuel.

Inductive result (A : Type) : Type :=
| Ok (a : A)
| Throw (e : exn).

Arguments Ok {A} a.
Arguments Throw {A} e.

Definition bind {A B : Type} (r : result A) (k : A -> result B) : result B :=
  match r with
  | Ok a => k a
  | Throw e => Throw e
  end.

Notation "'let*' x ':=' r 'in' k" := (bind r (fun x => k))
  (at level 10, x pattern, r at level 200, k at level 200).

Definition is_ok {A : Type} (r : result A) : bool :=
  match r with Ok _ => true | Throw _ => false end.

(** [try { ... } catch (error) { handler }] *)
Definition try_catch {A : Type} (r : result A) (handler : result A) : result A :=
  match r with
  | Ok a => Ok a
  | Throw _ => handler
  end.

(** ** Constants *)

(** [const pow = (a, b) => { let result = 1n; for (let i = 0, e = b; i < e; i++) result *= a; return result }] *)
Fixpoint pow_loop (count : nat) (a result : Z) : Z :=
  match count with
  | O => result
  | S count' => pow_loop count' a (result * a)
  end.

Definition pow (a b : Z) : Z := pow_loop (Z.to_nat b) a 1.

Definition _0n : Z := 0.
Definition _1n : Z := 1.
Definition _2n : Z := 2.
Definition _3n : Z := 3.
Definition _8n : Z := 8.

Definition POW_2_256 : Z := pow _2n 256.

Module CURVE.
Definition a : Z := _0n.
Definition b : Z := 7.
Definition P : Z := POW_2_256 - pow _2n 32 - 977.
Definition n : Z := POW_2_256 - 432420386565659656852420866394968145599.
Definition h : Z := _1n.
Definition Gx : Z :=
  55066263022277343669578718895168534326250603453777594175500187360389116729240.
Definition Gy : Z :=
  32670510020758816978083085130507043184471273380659243275938904335757337482424.
Definition beta : Z :=
  0x7ae96a2b657c07106e64479eac3434e99cf0497512f58995c1396c28719501ee.
End CURVE.

Definition USE_ENDOMORPHISM : bool := CURVE.a =? _0n.

(** ** Field arithmetic *)

(** [function mod(a, b = CURVE.P) { const result = a % b; return result >= 0 ? result : b + result }].
    The division by zero that [%] raises for [b = 0] is not modelled
    here; callers that can pass an unchecked modulus use [modE]. *)
Definition mod_ (a b : Z) : Z :=
  let result := Z.rem a b in
  if 0 <=? result then result else b + result.

(** [mod] with its default modulus [CURVE.P]. *)
Definition modP (a : Z) : Z := mod_ a CURVE.P.

Definition modE (a b : Z) : result Z :=
  if b =? 0 then Throw (RangeError "Division by zero") else Ok (mod_ a b).

(** [function pow2(x, power) { let res = x; while (power-- > 0n) { res *= res; res %= P }; return res }] *)
Fixpoint pow2_loop (count : nat) (res : Z) : Z :=
  match count with
  | O => res
  | S count' => pow2_loop count' (Z.rem (res * res) CURVE.P)
  end.

Definition pow2 (x power : Z) : Z := pow2_loop (Z.to_nat power) x.

Definition sqrtMod (x : Z) : Z :=
  let P := CURVE.P in
  let _6n := 6 in
  let _11n := 11 in
  let _22n := 22 in
  let _23n := 23 in
  let _44n := 44 in
  let _88n := 88 in
  let b2 := Z.rem (x * x * x) P in
  let b3 := Z.rem (b2 * b2 * x) P in
  let b6 := Z.rem (pow2 b3 _3n * b3) P in
  let b9 := Z.rem (pow2 b6 _3n * b3) P in
  let b11 := Z.rem (pow2 b9 _2n * b2) P in
  let b22 := Z.rem (pow2 b11 _11n * b11) P in
  let b44 := Z.rem (pow2 b22 _22n * b22) P in
  let b88 := Z.rem (pow2 b44 _44n * b44) P in
  let b176 := Z.rem (pow2 b88 _88n * b88) P in
  let b220 := Z.rem (pow2 b176 _44n * b44) P in
  let b223 := Z.rem (pow2 b220 _3n * b3) P in
  let t1 := Z.rem (pow2 b223 _23n * b22) P in
  let t2 := Z.rem (pow2 t1 _6n * b2) P in
  pow2 t2 _2n.

(** The [while (a !== 0n)] loop of [invert].  The state is
    [(a, b, x, y, u, v)]; the loop exits with [(b, x)], the gcd and the
    Bezout coefficient.  [fuel] bounds the number of iterations; see
    [invert_loop_fuel] for why the bound is never reached. *)
Fixpoint invert_loop (fuel : nat) (a b x y u v : Z) : option (Z * Z) :=
  if a =? _0n then Some (b, x)
  else
    match fuel with
    | O => None
    | S fuel' =>
        let q := Z.quot b a in
        let r := Z.rem b a in
        let m := x - u * q in
        let n := y - v * q in
        invert_loop fuel' r a u v m n
    end.

Definition invert_fuel (modulo : Z) : nat := Z.to_nat (2 * Z.log2 modulo + 2).

(** [function invert(number, modulo = CURVE.P)] *)
Definition invert (number modulo : Z) : result Z :=
  if (number =? _0n) || (modulo <=? _0n) then
    Throw (Error "invert: expected positive integers")
  else
    match invert_loop (invert_fuel modulo) (mod_ number modulo) modulo _0n _1n _1n _0n with
    | None => Throw OutOfFuel
    | Some (gcd, x) =>
        if negb (gcd =? _1n) then Throw (Error "invert: does not exist")
        else Ok (mod_ x modulo)
    end.

(** *** [invertBatch], with the calls to [invert] counted *)

(** A computation that counts its calls to [invert]. *)
Definition Counted (A : Type) : Type := nat -> A * nat.

Definition invert_counted (number modulo : Z) : Counted (result Z) :=
  fun calls => (invert number modulo, S calls).

(** First loop: [for (i = 0; i < len; i++) { if (nums[i] === 0n) continue; scratch[i] = acc; acc = mod(acc * nums[i], n) }].
    [scratch] keeps a hole ([None]) where [nums[i]] is zero. *)
Fixpoint invertBatch_scan (nums : list Z) (acc n : Z) : result (list (option Z) * Z) :=
  match nums with
  | [] => Ok ([], acc)
  | num :: rest =>
      if num =? _0n then
        let* (scratch, acc') := invertBatch_scan rest acc n in
        Ok (None :: scratch, acc')
      else
        let* acc1 := modE (acc * num) n in
        let* (scratch, acc') := invertBatch_scan rest acc1 n in
        Ok (Some acc :: scratch, acc')
  end.

(** Second loop: [for (i = len - 1; i >= 0; i--) { if (nums[i] === 0n) continue; const tmp = mod(acc * nums[i], n); nums[i] = mod(acc * scratch[i], n); acc = tmp }].
    The entries are visited from the last one; the function returns the
    rewritten [nums] and the accumulator left after index 0. *)
Fixpoint invertBatch_unwind (nums : list Z) (scratch : list (option Z)) (acc n : Z)
  : result (list Z * Z) :=
  match nums, scratch with
  | num :: rest, s :: scratch' =>
      let* (rest', acc1) := invertBatch_unwind rest scratch' acc n in
      if num =? _0n then Ok (num :: rest', acc1)
      else
        match s with
        | None => Throw (TypeError "Cannot mix BigInt and other types")
        | Some sc =>
            let* tmp := modE (acc1 * num) n in
            let* inv := modE (acc1 * sc) n in
            Ok (inv :: rest', tmp)
        end
  | _, _ => Ok ([], acc)
  end.

Definition invertBatch_counted (nums : list Z) (n : Z) : Counted (result (list Z)) :=
  fun calls =>
    match invertBatch_scan nums _1n n with
    | Throw e => (Throw e, calls)
    | Ok (scratch, acc) =>
        let '(inverted, calls') := invert_counted acc n calls in
        (let* acc' := inverted in
         let* (nums', _) := invertBatch_unwind nums scratch acc' n in
         Ok nums',
         calls')
    end.

(** [function invertBatch(nums, n = CURVE.P)] *)
Definition invertBatch (nums : list Z) (n : Z) : result (list Z) :=
  fst (invertBatch_counted nums n O).

(** ** Strings, bytes and hexadecimal *)

From Stdlib Require Strings.Byte.

Definition byte_to_Z (b : byte) : Z := Z.of_N (Byte.to_N b).

(** Storing a number into a [Uint8Array] keeps its low eight bits. *)
Definition byte_of_Z (z : Z) : byte :=
  match Byte.of_N (Z.to_N (z mod 256)) with
  | Some b => b
  | None => x00
  end.

Definition str_length (s : string) : Z := Z.of_nat (String.length s).
Definition bytes_length (bytes : list byte) : Z := Z.of_nat (List.length bytes).

(** [s.slice(start, end)] and [bytes.slice(start, end)] / [subarray], for
    [0 <= start <= end]. *)
Definition str_slice (s : string) (start stop : nat) : string :=
  String.substring start (stop - start) s.

Definition bytes_slice (bytes : list byte) (start stop : nat) : list byte :=
  firstn (stop - start) (skipn start bytes).

Definition bytes_slice_from (bytes : list byte) (start : nat) : list byte :=
  skipn start bytes.

(** The white space that [parseInt] and [BigInt] skip, among 8-bit code units:
    TAB, LF, VT, FF, CR, SP and NBSP. *)
Definition isWhiteSpace (c : ascii) : bool :=
  let k := Z.of_N (N_of_ascii c) in
  ((9 <=? k) && (k <=? 13)) || (k =? 32) || (k =? 160).

Fixpoint trimStart (s : string) : string :=
  match s with
  | String c rest => if isWhiteSpace c then trimStart rest else s
  | EmptyString => EmptyString
  end.

Fixpoint trimEnd (s : string) : string :=
  match s with
  | String c rest =>
      match trimEnd rest with
      | EmptyString => if isWhiteSpace c then EmptyString else String c EmptyString
      | rest' => String c rest'
      end
  | EmptyString => EmptyString
  end.

(** The value of a hexadecimal digit, in either case. *)
Definition hexDigitValue (c : ascii) : option Z :=
  let k := Z.of_N (N_of_ascii c) in
  if (48 <=? k) && (k <=? 57) then Some (k - 48)
  else if (97 <=? k) && (k <=? 102) then Some (k - 87)
  else if (65 <=? k) && (k <=? 70) then Some (k - 55)
  else None.

(** Reads the longest prefix of hexadecimal digits: its value, the number
    of digits read and the rest of the string. *)
Fixpoint readHexDigits (s : string) (acc : Z) (count : nat) : Z * nat * string :=
  match s with
  | String c rest =>
      match hexDigitValue c with
      | Some d => readHexDigits rest (acc * 16 + d) (S count)
      | None => (acc, count, s)
      end
  | EmptyString => (acc, count, s)
  end.

(** [Number.parseInt(s, 16)]; [None] is [NaN].  Leading white space is
    skipped, then one sign, then one [0x] or [0X] prefix; the digits end at
    the first character that is not hexadecimal.  The result is exact for
    the one- and two-character strings the library passes. *)
Definition parseInt16 (s : string) : option Z :=
  let S := trimStart s in
  let '(sign, S1) :=
    match S with
    | String "-"%char rest => (-1, rest)
    | String "+"%char rest => (1, rest)
    | _ => (1, S)
    end in
  let S2 :=
    match S1 with
    | String "0"%char (String "x"%char rest) => rest
    | String "0"%char (String "X"%char rest) => rest
    | _ => S1
    end in
  let '(value, count, _) := readHexDigits S2 0 O in
  match count with
  | O => None
  | _ => Some (sign * value)
  end.

Definition hexDigit (d : Z) : ascii :=
  if d <? 10 then ascii_of_N (Z.to_N (48 + d)) else ascii_of_N (Z.to_N (87 + d)).

Fixpoint toString16_loop (fuel : nat) (num : Z) (acc : string) : string :=
  match fuel with
  | O => acc
  | S fuel' =>
      let acc' := String (hexDigit (num mod 16)) acc in
      if num <? 16 then acc' else toString16_loop fuel' (num / 16) acc'
  end.

(** [num.toString(16)] for a [bigint] or an integral [number]. *)
Definition toString16 (num : Z) : string :=
  if num <? 0 then
    String "-"%char (toString16_loop (S (Z.to_nat (Z.log2 (- num)))) (- num) EmptyString)
  else toString16_loop (S (Z.to_nat (Z.log2 num))) num EmptyString.

Fixpoint repeat_char (c : ascii) (count : nat) : string :=
  match count with
  | O => EmptyString
  | S count' => String c (repeat_char c count')
  end.

(** [s.padStart(targetLength, '0')] *)
Definition padStart0 (targetLength : nat) (s : string) : string :=
  (repeat_char "0"%char (targetLength - String.length s) ++ s)%string.

(** [const hexes = Array.from({ length: 256 }, (v, i) => i.toString(16).padStart(2, '0'))] *)
Definition hexes : list string :=
  map (fun i => padStart0 2 (toString16 (Z.of_nat i))) (seq 0 256).

(** [function bytesToHex(uint8a)] *)
Definition bytesToHex (uint8a : list byte) : string :=
  fold_left (fun hex b => (hex ++ nth (Z.to_nat (byte_to_Z b)) hexes EmptyString)%string)
    uint8a EmptyString.

(** [function numTo32bStr(num)] *)
Definition numTo32bStr (num : Z) : result string :=
  if POW_2_256 <? num then Throw (Error "Expected number < 2^256")
  else Ok (padStart0 64 (toString16 num)).

(** [function numberToHex(num)] *)
Definition numberToHex (num : Z) : string :=
  let hex := toString16 num in
  if Z.odd (str_length hex) then String "0"%char hex else hex.

Definition isHexDigit (c : ascii) : bool :=
  match hexDigitValue c with Some _ => true | None => false end.

Fixpoint str_forallb (f : ascii -> bool) (s : string) : bool :=
  match s with
  | String c rest => f c && str_forallb f rest
  | EmptyString => true
  end.

(** [function hexToNumber(hex) { return BigInt(`0x${hex}`) }].  [BigInt]
    ignores white space at the end of the string and raises a
    [SyntaxError] unless what is left after [0x] is one hexadecimal digit or
    more. *)
Definition hexToNumber (hex : string) : result Z :=
  let digits := trimEnd hex in
  match digits with
  | EmptyString => Throw (SyntaxError "Cannot convert 0x to a BigInt")
  | _ =>
      if str_forallb isHexDigit digits
      then Ok (fst (fst (readHexDigits digits 0 O)))
      else Throw (SyntaxError "Cannot convert string to a BigInt")
  end.

(** The loop of [hexToBytes]: every two characters go through [parseInt]. *)
Fixpoint hexToBytes_loop (hex : string) : result (list byte) :=
  match hex with
  | String c1 (String c2 rest) =>
      let hexByte := String c1 (String c2 EmptyString) in
      match parseInt16 hexByte with
      | None => Throw (Error "Invalid byte sequence")
      | Some byte =>
          if byte <? 0 then Throw (Error "Invalid byte sequence")
          else
            let* array := hexToBytes_loop rest in
            Ok (byte_of_Z byte :: array)
      end
  | _ => Ok []
  end.

(** [function hexToBytes(hex)] *)
Definition hexToBytes (hex : string) : result (list byte) :=
  if negb (str_length hex mod 2 =? 0) then
    Throw (Error "hexToBytes: received invalid unpadded hex")
  else hexToBytes_loop hex.

(** [function bytesToNumber(bytes)] *)
Definition bytesToNumber (bytes : list byte) : result Z :=
  hexToNumber (bytesToHex bytes).

(** [type Hex = Uint8Array | string] *)
Inductive Hex : Type :=
| HexString (s : string)
| HexBytes (bytes : list byte).

(** [function ensureBytes(hex)] *)
Definition ensureBytes (hex : Hex) : result (list byte) :=
  match hex with
  | HexBytes bytes => Ok bytes
  | HexString s => hexToBytes s
  end.

Definition Hex_length (hex : Hex) : Z :=
  match hex with
  | HexBytes bytes => bytes_length bytes
  | HexString s => str_length s
  end.

(** [function isWithinCurveOrder(num)] and [function isValidFieldElement(num)] *)
Definition isWithinCurveOrder (num : Z) : bool := (_0n <? num) && (num <? CURVE.n).
Definition isValidFieldElement (num : Z) : bool := (_0n <? num) && (num <? CURVE.P).

(** [function normalizeScalar(num)], for a [bigint] argument. *)
Definition normalizeScalar (num : Z) : result Z :=
  if isWithinCurveOrder num then Ok num
  else Throw (TypeError "Expected valid private scalar: 0 < scalar < curve.n").

(** ** DER codec and the [Signature] class *)

(** [function sliceDER(s) { return Number.parseInt(s[0], 16) >= 8 ? '00' + s : s }] *)
Definition sliceDER (s : string) : string :=
  match s with
  | String c _ =>
      match parseInt16 (String c EmptyString) with
      | Some d => if 8 <=? d then String "0"%char (String "0"%char s) else s
      | None => s
      end
  | EmptyString => s
  end.

(** [function parseDERInt(data)]; the result is [(data, left)]. *)
Definition parseDERInt (data : list byte) : result (Z * list byte) :=
  match data with
  | tag :: len_byte :: _ =>
      if negb (byte_to_Z tag =? 0x02) then Throw (Error "Invalid signature integer tag")
      else
        let len := Z.to_nat (byte_to_Z len_byte) in
        let res := bytes_slice data 2 (len + 2) in
        if (byte_to_Z len_byte =? 0) || negb (Nat.eqb (List.length res) len) then
          Throw (Error "Invalid signature integer: wrong length")
        else
          let nonMinimal :=
            match res with
            | res0 :: res1 :: _ => (byte_to_Z res0 =? 0x00) && (byte_to_Z res1 <=? 0x7f)
            | _ => false
            end in
          if nonMinimal then Throw (Error "Invalid signature integer: trailing length")
          else
            let* num := bytesToNumber res in
            Ok (num, bytes_slice_from data (len + 2))
  | _ => Throw (Error "Invalid signature integer tag")
  end.

(** [function parseDERSignature(data)]; the result is [(r, s)]. *)
Definition parseDERSignature (data : list byte) : result (Z * Z) :=
  match data with
  | tag :: len_byte :: _ =>
      if negb (byte_to_Z tag =? 0x30) then Throw (Error "Invalid signature tag")
      else if negb (byte_to_Z len_byte =? bytes_length data - 2) then
        Throw (Error "Invalid signature: incorrect length")
      else
        let* (r, sBytes) := parseDERInt (bytes_slice_from data 2) in
        let* (s, rBytesLeft) := parseDERInt sBytes in
        match rBytesLeft with
        | _ :: _ => Throw (Error "Invalid signature: left bytes after parsing")
        | [] => Ok (r, s)
        end
  | _ => Throw (Error "Invalid signature tag")
  end.

Record Signature : Type := mkSignature { sig_r : Z; sig_s : Z }.

(** [Signature.assertValidity()] *)
Definition Signature_assertValidity (sig : Signature) : result unit :=
  if negb (isWithinCurveOrder (sig_r sig)) then
    Throw (Error "Invalid Signature: r must be 0 < r < n")
  else if negb (isWithinCurveOrder (sig_s sig)) then
    Throw (Error "Invalid Signature: s must be 0 < s < n")
  else Ok tt.

(** [new Signature(r, s)]: the constructor asserts validity. *)
Definition new_Signature (r s : Z) : result Signature :=
  let sig := mkSignature r s in
  let* _ := Signature_assertValidity sig in
  Ok sig.

(** [Signature.fromCompact(hex)] *)
Definition Signature_fromCompact (hex : Hex) : result Signature :=
  let str := match hex with HexBytes bytes => bytesToHex bytes | HexString s => s end in
  if negb (str_length str =? 128) then
    Throw (Error "Signature.fromCompact: Expected 64-byte hex")
  else
    let* r := hexToNumber (str_slice str 0 64) in
    let* s := hexToNumber (str_slice str 64 128) in
    new_Signature r s.

(** [Signature.fromDER(hex)] *)
Definition Signature_fromDER (hex : Hex) : result Signature :=
  let* bytes := match hex with HexBytes bytes => Ok bytes | HexString s => hexToBytes s end in
  let* (r, s) := parseDERSignature bytes in
  new_Signature r s.

Definition Signature_fromHex (hex : Hex) : result Signature := Signature_fromDER hex.

(** [hasHighS() { const HALF = CURVE.n >> 1n; return this.s > HALF }] *)
Definition Signature_hasHighS (sig : Signature) : bool :=
  let HALF := Z.shiftr CURVE.n _1n in
  HALF <? sig_s sig.

Definition Signature_normalizeS (sig : Signature) : result Signature :=
  if Signature_hasHighS sig then new_Signature (sig_r sig) (CURVE.n - sig_s sig)
  else Ok sig.

(** [toDERHex(isCompressed = false)] *)
Definition Signature_toDERHex (sig : Signature) (isCompressed : bool) : string :=
  let sHex := sliceDER (numberToHex (sig_s sig)) in
  if isCompressed then sHex
  else
    let rHex := sliceDER (numberToHex (sig_r sig)) in
    let rLen := numberToHex (str_length rHex / 2) in
    let sLen := numberToHex (str_length sHex / 2) in
    let length := numberToHex (str_length rHex / 2 + str_length sHex / 2 + 4) in
    ("30" ++ length ++ "02" ++ rLen ++ rHex ++ "02" ++ sLen ++ sHex)%string.

Definition Signature_toDERRawBytes (sig : Signature) (isCompressed : bool)
  : result (list byte) :=
  hexToBytes (Signature_toDERHex sig isCompressed).

Definition Signature_toCompactHex (sig : Signature) : result string :=
  let* r := numTo32bStr (sig_r sig) in
  let* s := numTo32bStr (sig_s sig) in
  Ok (r ++ s)%string.

Definition Signature_toCompactRawBytes (sig : Signature) : result (list byte) :=
  let* hex := Signature_toCompactHex sig in
  hexToBytes hex.

(** [type Sig = Hex | Signature] *)
Inductive Sig : Type :=
| SigHex (hex : Hex)
| SigObject (sig : Signature).

(** [function normalizeSignature(signature)] *)
Definition normalizeSignature (signature : Sig) : result Signature :=
  match signature with
  | SigObject sig =>
      let* _ := Signature_assertValidity sig in
      Ok sig
  | SigHex hex => try_catch (Signature_fromDER hex) (Signature_fromCompact hex)
  end.

(** [function truncateHash(hash)] *)
Definition truncateHash (hash : list byte) : result Z :=
  let n := CURVE.n in
  let byteLength := bytes_length hash in
  let delta := byteLength * 8 - 256 in
  let* h := bytesToNumber hash in
  let h := if 0 <? delta then Z.shiftr h delta else h in
  let h := if n <=? h then h - n else h in
  Ok h.

(** ** Points *)

(** [function weistrass(x)]: the right-hand side [x^3 + a x + b]. *)
Definition weistrass (x : Z) : Z :=
  let a := CURVE.a in
  let b := CURVE.b in
  let x2 := modP (x * x) in
  let x3 := modP (x2 * x) in
  modP (x3 + a * x + b).

(** [class Point]: affine coordinates and the optional [_WINDOW_SIZE]. *)
Record Point : Type := mkPoint { Px : Z; Py : Z; _WINDOW_SIZE : option Z }.

(** [new Point(x, y)] *)
Definition new_Point (x y : Z) : Point := mkPoint x y None.

(** [class JacobianPoint] *)
Record JacobianPoint : Type := mkJacobianPoint { Jx : Z; Jy : Z; Jz : Z }.

Definition JacobianPoint_BASE : JacobianPoint := mkJacobianPoint CURVE.Gx CURVE.Gy _1n.
Definition JacobianPoint_ZERO : JacobianPoint := mkJacobianPoint _0n _1n _0n.

(** [Point.BASE], after [Point.BASE._setWindowSize(8)] was run at the end of
    the module. *)
Definition Point_BASE : Point := mkPoint CURVE.Gx CURVE.Gy (Some 8).
Definition Point_ZERO : Point := new_Point _0n _0n.

Definition JacobianPoint_fromAffine (p : Point) : JacobianPoint :=
  mkJacobianPoint (Px p) (Py p) _1n.

Definition JacobianPoint_equals (a b : JacobianPoint) : bool :=
  let az2 := modP (Jz a * Jz a) in
  let az3 := modP (Jz a * az2) in
  let bz2 := modP (Jz b * Jz b) in
  let bz3 := modP (Jz b * bz2) in
  (modP (Jx a * bz2) =? modP (az2 * Jx b)) && (modP (Jy a * bz3) =? modP (az3 * Jy b)).

Definition JacobianPoint_negate (this : JacobianPoint) : JacobianPoint :=
  mkJacobianPoint (Jx this) (modP (- Jy this)) (Jz this).

Definition JacobianPoint_double (this : JacobianPoint) : JacobianPoint :=
  let X1 := Jx this in
  let Y1 := Jy this in
  let Z1 := Jz this in
  let A := modP (pow X1 _2n) in
  let B := modP (pow Y1 _2n) in
  let C := modP (pow B _2n) in
  let D := modP (_2n * (modP (modP (pow (X1 + B) _2n)) - A - C)) in
  let E := modP (_3n * A) in
  let F := modP (pow E _2n) in
  let X3 := modP (F - _2n * D) in
  let Y3 := modP (E * (D - X3) - _8n * C) in
  let Z3 := modP (_2n * Y1 * Z1) in
  mkJacobianPoint X3 Y3 Z3.

Definition JacobianPoint_add (this other : JacobianPoint) : JacobianPoint :=
  let X1 := Jx this in
  let Y1 := Jy this in
  let Z1 := Jz this in
  let X2 := Jx other in
  let Y2 := Jy other in
  let Z2 := Jz other in
  if (X2 =? _0n) || (Y2 =? _0n) then this
  else if (X1 =? _0n) || (Y1 =? _0n) then other
  else
    let Z1Z1 := modP (pow Z1 _2n) in
    let Z2Z2 := modP (pow Z2 _2n) in
    let U1 := modP (X1 * Z2Z2) in
    let U2 := modP (X2 * Z1Z1) in
    let S1 := modP (Y1 * Z2 * Z2Z2) in
    let S2 := modP (modP (Y2 * Z1) * Z1Z1) in
    let H := modP (U2 - U1) in
    let r := modP (S2 - S1) in
    if H =? _0n then
      if r =? _0n then JacobianPoint_double this else JacobianPoint_ZERO
    else
      let HH := modP (pow H _2n) in
      let HHH := modP (H * HH) in
      let V := modP (U1 * HH) in
      let X3 := modP (pow r _2n - HHH - _2n * V) in
      let Y3 := modP (r * (V - X3) - S1 * HHH) in
      let Z3 := modP (Z1 * Z2 * H) in
      mkJacobianPoint X3 Y3 Z3.

Definition JacobianPoint_subtract (this other : JacobianPoint) : JacobianPoint :=
  JacobianPoint_add this (JacobianPoint_negate other).

(** [toAffine(invZ)] with the inverse of [z] supplied. *)
Definition JacobianPoint_toAffine_with (this : JacobianPoint) (invZ : Z) : Point :=
  let invZ2 := pow invZ _2n in
  let x := modP (Jx this * invZ2) in
  let y := modP (Jy this * invZ2 * invZ) in
  new_Point x y.

(** [toAffine(invZ = invert(this.z))] with the default argument. *)
Definition JacobianPoint_toAffine (this : JacobianPoint) : result Point :=
  let* invZ := invert (Jz this) CURVE.P in
  Ok (JacobianPoint_toAffine_with this invZ).

(** [static toAffineBatch(points)] *)
Definition JacobianPoint_toAffineBatch (points : list JacobianPoint) : result (list Point) :=
  let* toInv := invertBatch (map Jz points) CURVE.P in
  Ok (map (fun pi => JacobianPoint_toAffine_with (fst pi) (snd pi)) (combine points toInv)).

(** [static normalizeZ(points)] *)
Definition JacobianPoint_normalizeZ (points : list JacobianPoint)
  : result (list JacobianPoint) :=
  let* affine := JacobianPoint_toAffineBatch points in
  Ok (map JacobianPoint_fromAffine affine).

(** *** Scalar decomposition *)

(** [const divNearest = (a, b) => (a + b / 2n) / b] *)
Definition divNearest (a b : Z) : Z := Z.quot (a + Z.quot b _2n) b.

Definition POW_2_128 : Z := pow _2n 128.

Record SplitScalar : Type :=
  mkSplitScalar { k1neg : bool; k1 : Z; k2neg : bool; k2 : Z }.

(** [function splitScalarEndo(k)] *)
Definition splitScalarEndo (k : Z) : result SplitScalar :=
  let n := CURVE.n in
  let a1 := 0x3086d221a7d46bcde86c90e49284eb15 in
  let b1 := - _1n * 0xe4437ed6010e88286f547fa90abfe4c3 in
  let a2 := 0x114ca50f7a8e2f3f657c1108d9d44cfd8 in
  let b2 := a1 in
  let c1 := divNearest (b2 * k) n in
  let c2 := divNearest (- b1 * k) n in
  let k1 := mod_ (k - c1 * a1 - c2 * a2) n in
  let k2 := mod_ (- c1 * b1 - c2 * b2) n in
  let k1neg := POW_2_128 <? k1 in
  let k2neg := POW_2_128 <? k2 in
  let k1 := if k1neg then n - k1 else k1 in
  let k2 := if k2neg then n - k2 else k2 in
  if (POW_2_128 <? k1) || (POW_2_128 <? k2) then
    Throw (Error "splitScalarEndo: Endomorphism failed")
  else Ok (mkSplitScalar k1neg k1 k2neg k2).

(** *** Double-and-add *)

(** The loop [while (n > 0n) { if (n & 1n) p = p.add(d); d = d.double(); n >>= 1n }]
    of the branch without endomorphism. *)
Fixpoint multiplyUnsafe_loop1 (fuel : nat) (n : Z) (p d : JacobianPoint)
  : option JacobianPoint :=
  if negb (_0n <? n) then Some p
  else
    match fuel with
    | O => None
    | S fuel' =>
        let p := if negb (Z.land n _1n =? 0) then JacobianPoint_add p d else p in
        multiplyUnsafe_loop1 fuel' (Z.shiftr n _1n) p (JacobianPoint_double d)
    end.

(** The loop [while (k1 > 0n || k2 > 0n) { ... }]; it returns [(k1p, k2p)]. *)
Fixpoint multiplyUnsafe_loop (fuel : nat) (k1 k2 : Z) (k1p k2p d : JacobianPoint)
  : option (JacobianPoint * JacobianPoint) :=
  if negb ((_0n <? k1) || (_0n <? k2)) then Some (k1p, k2p)
  else
    match fuel with
    | O => None
    | S fuel' =>
        let k1p := if negb (Z.land k1 _1n =? 0) then JacobianPoint_add k1p d else k1p in
        let k2p := if negb (Z.land k2 _1n =? 0) then JacobianPoint_add k2p d else k2p in
        multiplyUnsafe_loop fuel' (Z.shiftr k1 _1n) (Z.shiftr k2 _1n) k1p k2p
          (JacobianPoint_double d)
    end.

(** One more than the bit length of the larger scalar: the loops above halve
    their scalars at every turn. *)
Definition bits_fuel (k1 k2 : Z) : nat := S (S (Z.to_nat (Z.log2 (Z.max k1 k2)))).

(** [multiplyUnsafe(scalar)] *)
Definition JacobianPoint_multiplyUnsafe (this : JacobianPoint) (scalar : Z)
  : result JacobianPoint :=
  let* n := normalizeScalar scalar in
  if negb USE_ENDOMORPHISM then
    match multiplyUnsafe_loop1 (bits_fuel n 0) n JacobianPoint_ZERO this with
    | Some p => Ok p
    | None => Throw OutOfFuel
    end
  else
    let* split := splitScalarEndo n in
    match multiplyUnsafe_loop (bits_fuel (k1 split) (k2 split)) (k1 split) (k2 split)
            JacobianPoint_ZERO JacobianPoint_ZERO this with
    | None => Throw OutOfFuel
    | Some (k1p, k2p) =>
        let k1p := if k1neg split then JacobianPoint_negate k1p else k1p in
        let k2p := if k2neg split then JacobianPoint_negate k2p else k2p in
        let k2p := mkJacobianPoint (modP (Jx k2p * CURVE.beta)) (Jy k2p) (Jz k2p) in
        Ok (JacobianPoint_add k1p k2p)
    end.

(** *** wNAF *)

(** The number of windows, [USE_ENDOMORPHISM ? 128 / W + 1 : 256 / W + 1];
    the quotient is exact for every window size that divides 128. *)
Definition window_count (W : Z) : nat :=
  Z.to_nat (if USE_ENDOMORPHISM then 128 / W + 1 else 256 / W + 1).

(** Inner loop of [precomputeWindow]: [for (i = 1; i < 2 ** (W - 1); i++) { base = base.add(p); points.push(base) }] *)
Fixpoint precomputeWindow_inner (count : nat) (base p : JacobianPoint)
  (points : list JacobianPoint) : JacobianPoint * list JacobianPoint :=
  match count with
  | O => (base, points)
  | S count' =>
      let base := JacobianPoint_add base p in
      precomputeWindow_inner count' base p (points ++ [base])
  end.

(** Outer loop of [precomputeWindow]. *)
Fixpoint precomputeWindow_outer (windows : nat) (W : Z) (p : JacobianPoint)
  (points : list JacobianPoint) : list JacobianPoint :=
  match windows with
  | O => points
  | S windows' =>
      let base := p in
      let points := points ++ [base] in
      let '(base, points) :=
        precomputeWindow_inner (Z.to_nat (2 ^ (W - 1) - 1)) base p points in
      precomputeWindow_outer windows' W (JacobianPoint_double base) points
  end.

(** [private precomputeWindow(W)] *)
Definition JacobianPoint_precomputeWindow (this : JacobianPoint) (W : Z)
  : list JacobianPoint :=
  precomputeWindow_outer (window_count W) W this [].

(** [precomputes[i]]; reading past the end gives [undefined], on which the
    method call that follows raises a [TypeError]. *)
Definition precomputes_get (precomputes : list JacobianPoint) (i : Z)
  : result JacobianPoint :=
  match nth_error precomputes (Z.to_nat i) with
  | Some pr => if i <? 0 then Throw (TypeError "undefined precompute") else Ok pr
  | None => Throw (TypeError "undefined precompute")
  end.

(** The [for (let window = 0; window < windows; window++)] loop of [wNAF];
    [window] counts up while [count] counts the turns left. *)
Fixpoint wNAF_loop (count : nat) (window : Z) (W : Z) (precomputes : list JacobianPoint)
  (n : Z) (p f : JacobianPoint) : result (JacobianPoint * JacobianPoint) :=
  match count with
  | O => Ok (p, f)
  | S count' =>
      let windowSize := 2 ^ (W - 1) in
      let mask := 2 ^ W - 1 in
      let maxNumber := 2 ^ W in
      let shiftBy := W in
      let offset := window * windowSize in
      let wbits := Z.land n mask in
      let n := Z.shiftr n shiftBy in
      let '(wbits, n) :=
        if windowSize <? wbits then (wbits - maxNumber, n + _1n) else (wbits, n) in
      if wbits =? 0 then
        let* pr := precomputes_get precomputes offset in
        let pr := if negb (Z.rem window 2 =? 0) then JacobianPoint_negate pr else pr in
        wNAF_loop count' (window + 1) W precomputes n p (JacobianPoint_add f pr)
      else
        let* cached := precomputes_get precomputes (offset + Z.abs wbits - 1) in
        let cached := if wbits <? 0 then JacobianPoint_negate cached else cached in
        wNAF_loop count' (window + 1) W precomputes n (JacobianPoint_add p cached) f
  end.

(** [private wNAF(n, affinePoint?)].  The [WeakMap] [pointPrecomputes] only
    memoises the table computed on the first run for a point whose window
    size is not 1 ([_setWindowSize] drops the entry when the size changes),
    so the table is recomputed here on every call. *)
Definition JacobianPoint_wNAF (this : JacobianPoint) (n : Z) (affinePoint : option Point)
  : result (JacobianPoint * JacobianPoint) :=
  let affinePoint :=
    match affinePoint with
    | None => if JacobianPoint_equals this JacobianPoint_BASE then Some Point_BASE else None
    | Some _ => affinePoint
    end in
  let W :=
    match affinePoint with
    | Some ap => match _WINDOW_SIZE ap with Some w => if w =? 0 then 1 else w | None => 1 end
    | None => 1
    end in
  if negb (Z.rem 256 W =? 0) then
    Throw (Error "Point#wNAF: Invalid precomputation window, must be power of 2")
  else
    let precomputes := JacobianPoint_precomputeWindow this W in
    let* precomputes :=
      match affinePoint with
      | Some _ => if negb (W =? 1) then JacobianPoint_normalizeZ precomputes else Ok precomputes
      | None => Ok precomputes
      end in
    wNAF_loop (window_count W) 0 W precomputes n JacobianPoint_ZERO JacobianPoint_ZERO.

(** [multiply(scalar, affinePoint?)] *)
Definition JacobianPoint_multiply (this : JacobianPoint) (scalar : Z)
  (affinePoint : option Point) : result JacobianPoint :=
  let* n := normalizeScalar scalar in
  let* (point, fake) :=
    if USE_ENDOMORPHISM then
      let* split := splitScalarEndo n in
      let* (k1p, f1p) := JacobianPoint_wNAF this (k1 split) affinePoint in
      let* (k2p, f2p) := JacobianPoint_wNAF this (k2 split) affinePoint in
      let k1p := if k1neg split then JacobianPoint_negate k1p else k1p in
      let k2p := if k2neg split then JacobianPoint_negate k2p else k2p in
      let k2p := mkJacobianPoint (modP (Jx k2p * CURVE.beta)) (Jy k2p) (Jz k2p) in
      Ok (JacobianPoint_add k1p k2p, JacobianPoint_add f1p f2p)
    else JacobianPoint_wNAF this n affinePoint in
  let* normalized := JacobianPoint_normalizeZ [point; fake] in
  match normalized with
  | real :: _ => Ok real
  | [] => Throw (TypeError "undefined point")
  end.

(** *** The [Point] class *)

(** [assertValidity()] *)
Definition Point_assertValidity (this : Point) : result unit :=
  let x := Px this in
  let y := Py this in
  if negb (isValidFieldElement x) || negb (isValidFieldElement y) then
    Throw (Error "Point is not on elliptic curve")
  else
    let left := modP (y * y) in
    let right := weistrass x in
    if negb (modP (left - right) =? _0n) then Throw (Error "Point is not on elliptic curve")
    else Ok tt.

(** [private static fromCompressedHex(bytes)] *)
Definition Point_fromCompressedHex (bytes : list byte) : result Point :=
  let isShort := bytes_length bytes =? 32 in
  let* x := bytesToNumber (if isShort then bytes else bytes_slice_from bytes 1) in
  if negb (isValidFieldElement x) then Throw (Error "Point is not on curve")
  else
    let y2 := weistrass x in
    let y := sqrtMod y2 in
    let isYOdd := Z.land y _1n =? _1n in
    let y :=
      if isShort then (if isYOdd then modP (- y) else y)
      else
        let isFirstByteOdd :=
          match bytes with
          | b0 :: _ => Z.land (byte_to_Z b0) 1 =? 1
          | [] => false
          end in
        if negb (Bool.eqb isFirstByteOdd isYOdd) then modP (- y) else y in
    let point := new_Point x y in
    let* _ := Point_assertValidity point in
    Ok point.

(** [private static fromUncompressedHex(bytes)] *)
Definition Point_fromUncompressedHex (bytes : list byte) : result Point :=
  let* x := bytesToNumber (bytes_slice bytes 1 33) in
  let* y := bytesToNumber (bytes_slice_from bytes 33) in
  let point := new_Point x y in
  let* _ := Point_assertValidity point in
  Ok point.

(** [static fromHex(hex)] *)
Definition Point_fromHex (hex : Hex) : result Point :=
  let* bytes := ensureBytes hex in
  let header := match bytes with b0 :: _ => byte_to_Z b0 | [] => -1 end in
  if (bytes_length bytes =? 32)
     || ((bytes_length bytes =? 33) && ((header =? 0x02) || (header =? 0x03)))
  then Point_fromCompressedHex bytes
  else if (bytes_length bytes =? 65) && (header =? 0x04) then Point_fromUncompressedHex bytes
  else Throw (Error "Point.fromHex: received invalid point")
.

(** [type PrivKey = Hex | bigint | number] *)
Inductive PrivKey : Type :=
| PrivHex (hex : Hex)
| PrivBigint (key : Z)
| PrivNumber (key : Z).

Definition MAX_SAFE_INTEGER : Z := 2 ^ 53 - 1.

(** [function normalizePrivateKey(key)] *)
Definition normalizePrivateKey (key : PrivKey) : result Z :=
  let* num :=
    match key with
    | PrivBigint key => Ok key
    | PrivNumber key =>
        if (key <=? MAX_SAFE_INTEGER) && (0 <? key) then Ok key
        else Throw (TypeError "Expected valid private key")
    | PrivHex (HexString key) =>
        if negb (str_length key =? 64) then Throw (Error "Expected 32 bytes of private key")
        else hexToNumber key
    | PrivHex (HexBytes key) =>
        if negb (bytes_length key =? 32) then Throw (Error "Expected 32 bytes of private key")
        else bytesToNumber key
    end in
  if negb (isWithinCurveOrder num) then Throw (Error "Expected private key: 0 < key < n")
  else Ok num.

(** [multiply(scalar) { return JacobianPoint.fromAffine(this).multiply(scalar, this).toAffine() }] *)
Definition Point_multiply (this : Point) (scalar : Z) : result Point :=
  let* j := JacobianPoint_multiply (JacobianPoint_fromAffine this) scalar (Some this) in
  JacobianPoint_toAffine j.

(** [static fromPrivateKey(privateKey)] *)
Definition Point_fromPrivateKey (privateKey : PrivKey) : result Point :=
  let* key := normalizePrivateKey privateKey in
  Point_multiply Point_BASE key.

(** [toHex(isCompressed = false)] *)
Definition Point_toHex (this : Point) (isCompressed : bool) : result string :=
  let* x := numTo32bStr (Px this) in
  if isCompressed then
    let isYOdd := negb (Z.land (Py this) _1n =? 0) in
    Ok ((if isYOdd then "03" else "02") ++ x)%string
  else
    let* y := numTo32bStr (Py this) in
    Ok ("04" ++ x ++ y)%string.

Definition Point_toRawBytes (this : Point) (isCompressed : bool) : result (list byte) :=
  let* hex := Point_toHex this isCompressed in
  hexToBytes hex.

Definition Point_toHexX (this : Point) : result string :=
  let* hex := Point_toHex this true in
  Ok (String.substring 2 (String.length hex - 2) hex).

Definition Point_toRawX (this : Point) : result (list byte) :=
  let* bytes := Point_toRawBytes this true in
  Ok (bytes_slice_from bytes 1).

Definition Point_equals (this other : Point) : bool :=
  (Px this =? Px other) && (Py this =? Py other).

Definition Point_negate (this : Point) : Point :=
  new_Point (Px this) (modP (- Py this)).

Definition Point_double (this : Point) : result Point :=
  JacobianPoint_toAffine (JacobianPoint_double (JacobianPoint_fromAffine this)).

Definition Point_add (this other : Point) : result Point :=
  JacobianPoint_toAffine
    (JacobianPoint_add (JacobianPoint_fromAffine this) (JacobianPoint_fromAffine other)).

Definition Point_subtract (this other : Point) : result Point :=
  Point_add this (Point_negate other).

(** [static fromSignature(msgHash, signature, recovery)] *)
Definition Point_fromSignature (msgHash : Hex) (signature : Sig) (recovery : Z)
  : result Point :=
  let* msgHash := ensureBytes msgHash in
  let* h := truncateHash msgHash in
  let* sig := normalizeSignature signature in
  let r := sig_r sig in
  let s := sig_s sig in
  if negb (recovery =? 0) && negb (recovery =? 1) then
    Throw (Error "Cannot recover signature: invalid recovery bit")
  else if h =? _0n then Throw (Error "Cannot recover signature: msgHash cannot be 0")
  else
    let prefix := 2 + Z.land recovery 1 in
    let* r32 := numTo32bStr r in
    let* P_ := Point_fromHex (HexString ("0" ++ toString16 prefix ++ r32)) in
    let* sP := JacobianPoint_multiplyUnsafe (JacobianPoint_fromAffine P_) s in
    let* hG := JacobianPoint_multiply JacobianPoint_BASE h None in
    let* rinv := invert r CURVE.n in
    let* Q := JacobianPoint_multiplyUnsafe (JacobianPoint_subtract sP hG) rinv in
    let* point := JacobianPoint_toAffine Q in
    let* _ := Point_assertValidity point in
    Ok point.

(** [type PubKey = Hex | Point] *)
Inductive PubKey : Type :=
| PubHex (hex : Hex)
| PubPoint (p : Point).

(** [function normalizePublicKey(publicKey)] *)
Definition normalizePublicKey (publicKey : PubKey) : result Point :=
  match publicKey with
  | PubPoint p =>
      let* _ := Point_assertValidity p in
      Ok p
  | PubHex hex => Point_fromHex hex
  end.

(** ** ECDSA *)

(** [export function getPublicKey(privateKey, isCompressed = false)] *)
Definition getPublicKey (privateKey : PrivKey) (isCompressed : bool) : result (list byte) :=
  let* p := Point_fromPrivateKey privateKey in
  Point_toRawBytes p isCompressed.

(** [export function recoverPublicKey(msgHash, signature, recovery): Uint8Array | undefined].
    The declared result type allows [undefined], which is [None] here. *)
Definition recoverPublicKey (msgHash : Hex) (signature : Sig) (recovery : Z)
  : result (option (list byte)) :=
  let* p := Point_fromSignature msgHash signature recovery in
  let* bytes := Point_toRawBytes p false in
  Ok (Some bytes).

(** [type VOpts = { strict?: boolean }] *)
Record VOpts : Type := mkVOpts { strict : option bool }.
Definition vopts : VOpts := mkVOpts (Some true).

(** [export function verify(signature, msgHash, publicKey, opts = vopts)] *)
Definition verify (signature : Sig) (msgHash : Hex) (publicKey : PubKey) (opts : VOpts)
  : result bool :=
  match (let* sig := normalizeSignature signature in
         let* msgHash := ensureBytes msgHash in
         Ok (sig, msgHash)) with
  | Throw _ => Ok false
  | Ok (sig, msgHash) =>
      let r := sig_r sig in
      let s := sig_s sig in
      if match strict opts with Some b => b | None => false end && Signature_hasHighS sig
      then Ok false
      else
        let* h := truncateHash msgHash in
        if h =? _0n then Ok false
        else
          match normalizePublicKey publicKey with
          | Throw _ => Ok false
          | Ok pk =>
              let pubKey := JacobianPoint_fromAffine pk in
              let n := CURVE.n in
              let* s1 := invert s n in
              let u1 := mod_ (h * s1) n in
              let u2 := mod_ (r * s1) n in
              let* Ghs1 := JacobianPoint_multiply JacobianPoint_BASE u1 None in
              let* Prs1 := JacobianPoint_multiplyUnsafe pubKey u2 in
              let* R := JacobianPoint_toAffine (JacobianPoint_add Ghs1 Prs1) in
              let v := mod_ (Px R) n in
              Ok (v =? r)
          end
  end.

(** ** Schnorr signatures (BIP-340) *)

(** [function concatBytes(...arrays)] *)
Definition concatBytes (arrays : list (list byte)) : list byte :=
  match arrays with
  | [single] => single
  | _ => List.concat arrays
  end.

(** [function numTo32b(num)] *)
Definition numTo32b (num : Z) : result (list byte) :=
  let* hex := numTo32bStr num in
  hexToBytes hex.

(** [function hasEvenY(point)] *)
Definition hasEvenY (point : Point) : bool := mod_ (Py point) _2n =? _0n.

(** [class SchnorrSignature] *)
Record SchnorrSignature : Type := mkSchnorrSignature { schnorr_r : Z; schnorr_s : Z }.

(** [constructor(r, s) { if (!isValidFieldElement(r) || !isWithinCurveOrder(s)) throw new Error('Invalid signature') }] *)
Definition new_SchnorrSignature (r s : Z) : result SchnorrSignature :=
  if negb (isValidFieldElement r) || negb (isWithinCurveOrder s) then
    Throw (Error "Invalid signature")
  else Ok (mkSchnorrSignature r s).

(** [static fromHex(hex)] *)
Definition SchnorrSignature_fromHex (hex : Hex) : result SchnorrSignature :=
  let* bytes := ensureBytes hex in
  if negb (bytes_length bytes =? 64) then
    Throw (TypeError "SchnorrSignature.fromHex: expected 64 bytes")
  else
    let* r := bytesToNumber (bytes_slice bytes 0 32) in
    let* s := bytesToNumber (bytes_slice bytes 32 64) in
    new_SchnorrSignature r s.

Definition SchnorrSignature_toHex (sig : SchnorrSignature) : result string :=
  let* r := numTo32bStr (schnorr_r sig) in
  let* s := numTo32bStr (schnorr_s sig) in
  Ok (r ++ s)%string.

Definition SchnorrSignature_toRawBytes (sig : SchnorrSignature) : result (list byte) :=
  let* hex := SchnorrSignature_toHex sig in
  hexToBytes hex.

(** The first argument of [schnorrVerify]: a [Hex], or an instance of
    [SchnorrSignature] (which its constructor has validated). *)
Inductive SchnorrSig : Type :=
| SchnorrSigHex (hex : Hex)
| SchnorrSigObject (sig : SchnorrSignature).

Section Schnorr.

(** The injected primitive [utils.sha256]; a rejected promise is a [Throw]. *)
Variable sha256 : list byte -> result (list byte).

(** [async function taggedHash(tag, ...messages)] *)
Definition taggedHash (tag : string) (messages : list (list byte)) : result Z :=
  let tagB := map byte_of_ascii (list_ascii_of_string tag) in
  let* tagH := sha256 tagB in
  let* h := sha256 (concatBytes (tagH :: tagH :: messages)) in
  bytesToNumber h.

(** [async function createChallenge(x, P, message)] *)
Definition createChallenge (x : Z) (P : Point) (message : list byte) : result Z :=
  let* rx := numTo32b x in
  let* px := Point_toRawX P in
  let* t := taggedHash "BIP0340/challenge" [rx; px; message] in
  Ok (mod_ t CURVE.n).

(** [function schnorrGetPublicKey(privateKey)] *)
Definition schnorrGetPublicKey (privateKey : PrivKey) : result (list byte) :=
  let* p := Point_fromPrivateKey privateKey in
  Point_toRawX p.

(** [async function schnorrVerify(signature, message, publicKey)] *)
Definition schnorrVerify (signature : SchnorrSig) (message : Hex) (publicKey : Hex)
  : result bool :=
  let* sig :=
    match signature with
    | SchnorrSigObject sig => Ok sig
    | SchnorrSigHex hex => SchnorrSignature_fromHex hex
    end in
  let* m := ensureBytes message in
  let* P := normalizePublicKey (PubHex publicKey) in
  let* e := createChallenge (schnorr_r sig) P m in
  let* sG := Point_fromPrivateKey (PrivBigint (schnorr_s sig)) in
  let* eP := Point_multiply P e in
  let* R := Point_subtract sG eP in
  if Point_equals R Point_BASE || negb (hasEvenY R) || negb (Px R =? schnorr_r sig)
  then Ok false
  else Ok true.

End Schnorr.

(** * Definitions used by the proofs *)

(** [pw x v e]: the value [v] is non-negative and congruent to [x ^ e]. *)
Definition pw (x v e : Z) : Prop :=
  0 <= v /\ 0 <= e /\ v mod CURVE.P = x ^ e mod CURVE.P.

(** The accumulator that the first loop of [invertBatch] ends with. *)
Fixpoint scan_acc (nums : list Z) (acc m : Z) : Z :=
  match nums with
  | [] => acc
  | x :: rest => if x =? 0 then scan_acc rest acc m else scan_acc rest ((acc * x) mod m) m
  end.

(** What [invertBatch] leaves at an index: zero stays zero, anything else
    becomes its inverse. *)
Definition inverted_entry (m x o : Z) : Prop :=
  (x = 0 /\ o = 0) \/ (x <> 0 /\ 0 <= o < m /\ (o * x) mod m = 1).

(** Square-and-multiply, to evaluate the certificates. *)
Fixpoint powmod_pos (a : Z) (e : positive) (m : Z) : Z :=
  match e with
  | xH => a mod m
  | xO e' => let r := powmod_pos a e' m in (r * r) mod m
  | xI e' => let r := powmod_pos a e' m in ((r * r) mod m * a) mod m
  end.

Definition powmod (a e m : Z) : Z :=
  match e with
  | Zpos e' => powmod_pos a e' m
  | _ => 1 mod m
  end.

(** One line of a certificate: the prime [q] divides [N - 1] and [a] is a
    witness for it. *)
Definition pock_witness (N a q : Z) : bool :=
  ((N - 1) mod q =? 0)
  && (powmod a (N - 1) N =? 1)
  && (Z.gcd (powmod a ((N - 1) / q) N - 1) N =? 1).

Fixpoint all_distinct (qs : list Z) : bool :=
  match qs with
  | [] => true
  | q :: rest => negb (existsb (Z.eqb q) rest) && all_distinct rest
  end.

Definition product (qs : list Z) : Z := fold_right Z.mul 1 qs.

(** A certificate for [N]: distinct primes [qs], each with witness [a],
    whose product exceeds the square root of [N]. *)
Definition pock_check (N a : Z) (qs : list Z) : bool :=
  (1 <? N) && forallb (pock_witness N a) qs && all_distinct qs
  && (N <? product qs * product qs).

(** Small primes are checked by trial division. *)
Fixpoint no_divisor_from (fuel : nat) (d n : Z) : bool :=
  match fuel with
  | O => n <? d * d
  | S fuel' =>
      if n <? d * d then true
      else if n mod d =? 0 then false
      else no_divisor_from fuel' (d + 1) n
  end.

Definition trial_prime (n : Z) : bool :=
  (1 <? n) && no_divisor_from (Z.to_nat (Z.sqrt n)) 2 n.

(** The two lower-case hexadecimal digits of a byte. *)
Definition hex2 (b : byte) : string :=
  String (hexDigit (byte_to_Z b / 16)) (String (hexDigit (byte_to_Z b mod 16)) EmptyString).

Fixpoint hex_of_bytes (bytes : list byte) : string :=
  match bytes with
  | [] => EmptyString
  | b :: rest => (hex2 b ++ hex_of_bytes rest)%string
  end.

(** The big-endian value of a byte string, continuing from [acc]. *)
Fixpoint be_value_from (acc : Z) (bytes : list byte) : Z :=
  match bytes with
  | [] => acc
  | b :: rest => be_value_from (acc * 256 + byte_to_Z b) rest
  end.

Definition be_value (bytes : list byte) : Z := be_value_from 0 bytes.

(** A string of hexadecimal digits given by their values. *)
Fixpoint digits_str (ds : list Z) : string :=
  match ds with
  | [] => EmptyString
  | d :: rest => String (hexDigit d) (digits_str rest)
  end.

Fixpoint digits_value_from (acc : Z) (ds : list Z) : Z :=
  match ds with
  | [] => acc
  | d :: rest => digits_value_from (acc * 16 + d) rest
  end.

Definition digits_value (ds : list Z) : Z := digits_value_from 0 ds.

Definition is_digit (d : Z) : Prop := 0 <= d < 16.

(** Pairs of digits as bytes. *)
Fixpoint bytes_of_digits (ds : list Z) : list byte :=
  match ds with
  | d1 :: d2 :: rest => byte_of_Z (16 * d1 + d2) :: bytes_of_digits rest
  | _ => []
  end.

(** The digits of a byte string. *)
Fixpoint digits_of_bytes (bytes : list byte) : list Z :=
  match bytes with
  | [] => []
  | b :: rest => byte_to_Z b / 16 :: byte_to_Z b mod 16 :: digits_of_bytes rest
  end.

(** *** The DER layout, after the words of the specification *)

(** [30 len body] and [02 len payload]. *)
Definition DER_sequence (body : list byte) : list byte :=
  x30 :: byte_of_Z (Z.of_nat (List.length body)) :: body.

Definition DER_integer (payload : list byte) : list byte :=
  x02 :: byte_of_Z (Z.of_nat (List.length payload)) :: payload.

(** The minimal big-endian bytes of [v]: the first byte is not zero. *)
Definition minimal_be (v : Z) (bytes : list byte) : Prop :=
  be_value bytes = v /\ 0 < byte_to_Z (hd x00 bytes).

(** The payload of a DER integer: the minimal big-endian bytes, after a
    leading [0x00] iff the most significant bit of their first byte is set. *)
Definition DER_payload (v : Z) (payload : list byte) : Prop :=
  exists bytes,
    minimal_be v bytes
    /\ payload = (if 0x80 <=? byte_to_Z (hd x00 bytes) then x00 :: bytes else bytes).

(** The check of [parseDERInt] on the first two bytes of a payload. *)
Definition DER_minimal (payload : list byte) : bool :=
  match payload with
  | b0 :: b1 :: _ => negb ((byte_to_Z b0 =? 0x00) && (byte_to_Z b1 <=? 0x7f))
  | _ => true
  end.

(** * The point arithmetic on machine-word integers

    The definitions below repeat the field and point arithmetic of the
    model on [bigZ], the integers of the Bignums library, which the kernel
    evaluates quickly.  They are used only to evaluate the model on
    concrete inputs: each is shown to compute the same values as the model
    function it repeats. *)

Module Fast.

Definition P : bigZ := Eval vm_compute in BigZ.of_Z CURVE.P.

Definition mod_ (a b : bigZ) : bigZ :=
  let result := BigZ.rem a b in
  if BigZ.leb BigZ.zero result then result else BigZ.add b result.

Definition modP (a : bigZ) : bigZ := mod_ a P.

Definition modE (a b : bigZ) : result bigZ :=
  if BigZ.eqb b BigZ.zero then Throw (RangeError "Division by zero") else Ok (mod_ a b).

(** [pow(a, 2n)] *)
Definition pow_2 (a : bigZ) : bigZ := BigZ.mul (BigZ.mul BigZ.one a) a.

Fixpoint invert_loop (fuel : nat) (a b x y u v : bigZ) : option (bigZ * bigZ) :=
  if BigZ.eqb a BigZ.zero then Some (b, x)
  else
    match fuel with
    | O => None
    | S fuel' =>
        let q := BigZ.quot b a in
        let r := BigZ.rem b a in
        let m := BigZ.sub x (BigZ.mul u q) in
        let n := BigZ.sub y (BigZ.mul v q) in
        invert_loop fuel' r a u v m n
    end.

Definition invert (number modulo : bigZ) : result bigZ :=
  if BigZ.eqb number BigZ.zero || BigZ.leb modulo BigZ.zero then
    Throw (Error "invert: expected positive integers")
  else
    match invert_loop (invert_fuel (BigZ.to_Z modulo)) (mod_ number modulo) modulo
            BigZ.zero BigZ.one BigZ.one BigZ.zero with
    | None => Throw OutOfFuel
    | Some (gcd, x) =>
        if negb (BigZ.eqb gcd BigZ.one) then Throw (Error "invert: does not exist")
        else Ok (mod_ x modulo)
    end.

Fixpoint invertBatch_scan (nums : list bigZ) (acc n : bigZ)
  : result (list (option bigZ) * bigZ) :=
  match nums with
  | [] => Ok ([], acc)
  | num :: rest =>
      if BigZ.eqb num BigZ.zero then
        let* (scratch, acc') := invertBatch_scan rest acc n in
        Ok (None :: scratch, acc')
      else
        let* acc1 := modE (BigZ.mul acc num) n in
        let* (scratch, acc') := invertBatch_scan rest acc1 n in
        Ok (Some acc :: scratch, acc')
  end.

Fixpoint invertBatch_unwind (nums : list bigZ) (scratch : list (option bigZ)) (acc n : bigZ)
  : result (list bigZ * bigZ) :=
  match nums, scratch with
  | num :: rest, s :: scratch' =>
      let* (rest', acc1) := invertBatch_unwind rest scratch' acc n in
      if BigZ.eqb num BigZ.zero then Ok (num :: rest', acc1)
      else
        match s with
        | None => Throw (TypeError "Cannot mix BigInt and other types")
        | Some sc =>
            let* tmp := modE (BigZ.mul acc1 num) n in
            let* inv := modE (BigZ.mul acc1 sc) n in
            Ok (inv :: rest', tmp)
        end
  | _, _ => Ok ([], acc)
  end.

Definition invertBatch (nums : list bigZ) (n : bigZ) : result (list bigZ) :=
  let* (scratch, acc) := invertBatch_scan nums BigZ.one n in
  let* acc' := invert acc n in
  let* (nums', _) := invertBatch_unwind nums scratch acc' n in
  Ok nums'.

Record JPoint : Type := mkJPoint { fx : bigZ; fy : bigZ; fz : bigZ }.

Definition ZERO : JPoint := mkJPoint BigZ.zero BigZ.one BigZ.zero.

Definition negate (this : JPoint) : JPoint :=
  mkJPoint (fx this) (modP (BigZ.opp (fy this))) (fz this).

Definition double (this : JPoint) : JPoint :=
  let X1 := fx this in
  let Y1 := fy this in
  let Z1 := fz this in
  let A := modP (pow_2 X1) in
  let B := modP (pow_2 Y1) in
  let C := modP (pow_2 B) in
  let D := modP (BigZ.mul 2 (BigZ.sub (BigZ.sub (modP (modP (pow_2 (BigZ.add X1 B)))) A) C)) in
  let E := modP (BigZ.mul 3 A) in
  let F := modP (pow_2 E) in
  let X3 := modP (BigZ.sub F (BigZ.mul 2 D)) in
  let Y3 := modP (BigZ.sub (BigZ.mul E (BigZ.sub D X3)) (BigZ.mul 8 C)) in
  let Z3 := modP (BigZ.mul (BigZ.mul 2 Y1) Z1) in
  mkJPoint X3 Y3 Z3.

Definition add (this other : JPoint) : JPoint :=
  let X1 := fx this in
  let Y1 := fy this in
  let Z1 := fz this in
  let X2 := fx other in
  let Y2 := fy other in
  let Z2 := fz other in
  if BigZ.eqb X2 BigZ.zero || BigZ.eqb Y2 BigZ.zero then this
  else if BigZ.eqb X1 BigZ.zero || BigZ.eqb Y1 BigZ.zero then other
  else
    let Z1Z1 := modP (pow_2 Z1) in
    let Z2Z2 := modP (pow_2 Z2) in
    let U1 := modP (BigZ.mul X1 Z2Z2) in
    let U2 := modP (BigZ.mul X2 Z1Z1) in
    let S1 := modP (BigZ.mul (BigZ.mul Y1 Z2) Z2Z2) in
    let S2 := modP (BigZ.mul (modP (BigZ.mul Y2 Z1)) Z1Z1) in
    let H := modP (BigZ.sub U2 U1) in
    let r := modP (BigZ.sub S2 S1) in
    if BigZ.eqb H BigZ.zero then
      if BigZ.eqb r BigZ.zero then double this else ZERO
    else
      let HH := modP (pow_2 H) in
      let HHH := modP (BigZ.mul H HH) in
      let V := modP (BigZ.mul U1 HH) in
      let X3 := modP (BigZ.sub (BigZ.sub (pow_2 r) HHH) (BigZ.mul 2 V)) in
      let Y3 := modP (BigZ.sub (BigZ.mul r (BigZ.sub V X3)) (BigZ.mul S1 HHH)) in
      let Z3 := modP (BigZ.mul (BigZ.mul Z1 Z2) H) in
      mkJPoint X3 Y3 Z3.

(** [fromAffine(toAffine(invZ))]: the point with [z = 1] that [normalizeZ]
    produces from a point and the inverse of its [z]. *)
Definition normalize_with (this : JPoint) (invZ : bigZ) : JPoint :=
  let invZ2 := pow_2 invZ in
  let x := modP (BigZ.mul (fx this) invZ2) in
  let y := modP (BigZ.mul (BigZ.mul (fy this) invZ2) invZ) in
  mkJPoint x y BigZ.one.

Definition normalizeZ (points : list JPoint) : result (list JPoint) :=
  let* toInv := invertBatch (map fz points) P in
  Ok (map (fun pi => normalize_with (fst pi) (snd pi)) (combine points toInv)).

Fixpoint precomputeWindow_inner (count : nat) (base p : JPoint)
  (points : list JPoint) : JPoint * list JPoint :=
  match count with
  | O => (base, points)
  | S count' =>
      let base := add base p in
      precomputeWindow_inner count' base p (points ++ [base])
  end.

Fixpoint precomputeWindow_outer (windows : nat) (W : Z) (p : JPoint)
  (points : list JPoint) : list JPoint :=
  match windows with
  | O => points
  | S windows' =>
      let base := p in
      let points := points ++ [base] in
      let '(base, points) :=
        precomputeWindow_inner (Z.to_nat (2 ^ (W - 1) - 1)) base p points in
      precomputeWindow_outer windows' W (double base) points
  end.

Definition precomputeWindow (this : JPoint) (W : Z) : list JPoint :=
  precomputeWindow_outer (window_count W) W this [].

Definition precomputes_get (precomputes : list JPoint) (i : Z)
  : result JPoint :=
  match nth_error precomputes (Z.to_nat i) with
  | Some pr => if (i <? 0)%Z then Throw (TypeError "undefined precompute") else Ok pr
  | None => Throw (TypeError "undefined precompute")
  end.

Fixpoint wNAF_loop (count : nat) (window : Z) (W : Z) (precomputes : list JPoint)
  (n : Z) (p f : JPoint) : result (JPoint * JPoint) :=
  match count with
  | O => Ok (p, f)
  | S count' =>
      let windowSize := 2 ^ (W - 1) in
      let mask := 2 ^ W - 1 in
      let maxNumber := 2 ^ W in
      let shiftBy := W in
      let offset := window * windowSize in
      let wbits := Z.land n mask in
      let n := Z.shiftr n shiftBy in
      let '(wbits, n) :=
        if windowSize <? wbits then (wbits - maxNumber, n + _1n) else (wbits, n) in
      if wbits =? 0 then
        let* pr := precomputes_get precomputes offset in
        let pr := if negb (Z.rem window 2 =? 0) then negate pr else pr in
        wNAF_loop count' (window + 1) W precomputes n p (add f pr)
      else
        let* cached := precomputes_get precomputes (offset + Z.abs wbits - 1) in
        let cached := if wbits <? 0 then negate cached else cached in
        wNAF_loop count' (window + 1) W precomputes n (add p cached) f
  end.

Definition beta : bigZ := Eval vm_compute in BigZ.of_Z CURVE.beta.

Definition toJ (f : JPoint) : JacobianPoint :=
  mkJacobianPoint (BigZ.to_Z (fx f)) (BigZ.to_Z (fy f)) (BigZ.to_Z (fz f)).

Definition wNAF (this : JPoint) (n : Z) (affinePoint : option Point)
  : result (JPoint * JPoint) :=
  let affinePoint :=
    match affinePoint with
    | None => if JacobianPoint_equals (toJ this) JacobianPoint_BASE then Some Point_BASE else None
    | Some _ => affinePoint
    end in
  let W :=
    match affinePoint with
    | Some ap => match _WINDOW_SIZE ap with Some w => if w =? 0 then 1 else w | None => 1 end
    | None => 1
    end in
  if negb (Z.rem 256 W =? 0) then
    Throw (Error "Point#wNAF: Invalid precomputation window, must be power of 2")
  else
    let precomputes := precomputeWindow this W in
    let* precomputes :=
      match affinePoint with
      | Some _ => if negb (W =? 1) then normalizeZ precomputes else Ok precomputes
      | None => Ok precomputes
      end in
    wNAF_loop (window_count W) 0 W precomputes n ZERO ZERO.

Definition multiply (this : JPoint) (scalar : Z) (affinePoint : option Point)
  : result JPoint :=
  let* n := normalizeScalar scalar in
  let* (point, fake) :=
    if USE_ENDOMORPHISM then
      let* split := splitScalarEndo n in
      let* (k1p, f1p) := wNAF this (k1 split) affinePoint in
      let* (k2p, f2p) := wNAF this (k2 split) affinePoint in
      let k1p := if k1neg split then negate k1p else k1p in
      let k2p := if k2neg split then negate k2p else k2p in
      let k2p := mkJPoint (modP (BigZ.mul (fx k2p) beta)) (fy k2p) (fz k2p) in
      Ok (add k1p k2p, add f1p f2p)
    else wNAF this n affinePoint in
  let* normalized := normalizeZ [point; fake] in
  match normalized with
  | real :: _ => Ok real
  | [] => Throw (TypeError "undefined point")
  end.

End Fast.

(** The results of the arithmetic on [bigZ] are read back with the maps
    below. *)
Definition rmap {A B : Type} (f : A -> B) (r : result A) : result B :=
  match r with Ok a => Ok (f a) | Throw e => Throw e end.

Definition to_Z_scan (p : list (option bigZ) * bigZ) : list (option Z) * Z :=
  (map (option_map BigZ.to_Z) (fst p), BigZ.to_Z (snd p)).

Definition to_Z_unwind (p : list bigZ * bigZ) : list Z * Z :=
  (map BigZ.to_Z (fst p), BigZ.to_Z (snd p)).

Definition toJ2 (pf : Fast.JPoint * Fast.JPoint) : JacobianPoint * JacobianPoint :=
  (Fast.toJ (fst pf), Fast.toJ (snd pf)).

Definition fBASE : Fast.JPoint :=
  Eval vm_compute in Fast.mkJPoint (BigZ.of_Z CURVE.Gx) (BigZ.of_Z CURVE.Gy) BigZ.one.

(** * SHA-256, the primitive behind [utils.sha256]

    The library takes its hash from the platform ([crypto.subtle.digest] or
    Node's [createHash]); the Schnorr functions of the model take it as a
    parameter.  To run them on concrete inputs the parameter is instantiated
    with the function below, SHA-256 as FIPS 180-4 defines it, on 32-bit
    words held in [Z]. *)

Module SHA256.

Definition w32 (x : Z) : Z := Z.land x 4294967295.

Definition add32 (x y : Z) : Z := w32 (x + y).

Definition rotr (n x : Z) : Z := Z.lor (Z.shiftr x n) (w32 (Z.shiftl x (32 - n))).

Definition not32 (x : Z) : Z := Z.lxor x 4294967295.

Definition Ch (x y z : Z) : Z := Z.lxor (Z.land x y) (Z.land (not32 x) z).

Definition Maj (x y z : Z) : Z :=
  Z.lxor (Z.lxor (Z.land x y) (Z.land x z)) (Z.land y z).

Definition Sigma0 (x : Z) : Z := Z.lxor (Z.lxor (rotr 2 x) (rotr 13 x)) (rotr 22 x).

Definition Sigma1 (x : Z) : Z := Z.lxor (Z.lxor (rotr 6 x) (rotr 11 x)) (rotr 25 x).

Definition sigma0 (x : Z) : Z := Z.lxor (Z.lxor (rotr 7 x) (rotr 18 x)) (Z.shiftr x 3).

Definition sigma1 (x : Z) : Z := Z.lxor (Z.lxor (rotr 17 x) (rotr 19 x)) (Z.shiftr x 10).

(** The largest [r] below [2 ^ bits] with [r ^ k <= n]. *)
Fixpoint root_loop (bits : nat) (k n r : Z) : Z :=
  match bits with
  | O => r
  | S bits' =>
      let r' := r + 2 ^ Z.of_nat bits' in
      root_loop bits' k n (if r' ^ k <=? n then r' else r)
  end.

(** The first 32 bits of the fractional part of the [k]-th root of [p]. *)
Definition root_fraction (k p : Z) : Z := w32 (root_loop 40 k (p * 2 ^ (32 * k)) 0).

Definition primes_below (bound : nat) : list Z :=
  filter trial_prime (map Z.of_nat (seq 2 (bound - 2))).

(** The round constants: the fractions of the cube roots of the first 64
    primes. *)
Definition K : list Z := Eval vm_compute in map (root_fraction 3) (primes_below 312).

(** The initial hash value: the fractions of the square roots of the first
    8 primes. *)
Definition H0 : list Z := Eval vm_compute in map (root_fraction 2) (primes_below 20).

(** The message followed by the byte [0x80], zero bytes up to 56 modulo 64,
    and the length in bits on eight bytes. *)
Definition be_bytes (count : nat) (v : Z) : list byte :=
  map (fun i => byte_of_Z (Z.shiftr v (8 * Z.of_nat (count - 1 - i)))) (seq 0 count).

Definition pad (msg : list byte) : list byte :=
  let len := Z.of_nat (List.length msg) in
  let zeros := Z.to_nat ((55 - len) mod 64) in
  msg ++ [x80] ++ repeat x00 zeros ++ be_bytes 8 (8 * len).

Fixpoint words (count : nat) (bytes : list byte) : list Z :=
  match count, bytes with
  | S count', b0 :: b1 :: b2 :: b3 :: rest =>
      (byte_to_Z b0 * 16777216 + byte_to_Z b1 * 65536 + byte_to_Z b2 * 256 + byte_to_Z b3)
        :: words count' rest
  | _, _ => []
  end.

(** The message schedule, most recent word first. *)
Fixpoint schedule (count : nat) (rev_w : list Z) : list Z :=
  match count with
  | O => rev_w
  | S count' =>
      let w := add32 (add32 (sigma1 (nth 1 rev_w 0)) (nth 6 rev_w 0))
                 (add32 (sigma0 (nth 14 rev_w 0)) (nth 15 rev_w 0)) in
      schedule count' (w :: rev_w)
  end.

Record State : Type := mkState { sa : Z; sb : Z; sc : Z; sd : Z; se : Z; sf : Z; sg : Z; sh : Z }.

Definition round (s : State) (kw : Z * Z) : State :=
  let T1 := add32 (add32 (add32 (sh s) (Sigma1 (se s))) (Ch (se s) (sf s) (sg s)))
              (add32 (fst kw) (snd kw)) in
  let T2 := add32 (Sigma0 (sa s)) (Maj (sa s) (sb s) (sc s)) in
  mkState (add32 T1 T2) (sa s) (sb s) (sc s) (add32 (sd s) T1) (se s) (sf s) (sg s).

Definition compress (h : State) (block : list byte) : State :=
  let w := rev (schedule 48 (rev (words 16 block))) in
  let s := fold_left round (combine K w) h in
  mkState (add32 (sa h) (sa s)) (add32 (sb h) (sb s)) (add32 (sc h) (sc s)) (add32 (sd h) (sd s))
          (add32 (se h) (se s)) (add32 (sf h) (sf s)) (add32 (sg h) (sg s)) (add32 (sh h) (sh s)).

Fixpoint blocks (count : nat) (h : State) (bytes : list byte) : State :=
  match count with
  | O => h
  | S count' => blocks count' (compress h (firstn 64 bytes)) (skipn 64 bytes)
  end.

Definition digest (msg : list byte) : list byte :=
  let padded := pad msg in
  let h := blocks (Nat.div (List.length padded) 64)
             (mkState (nth 0 H0 0) (nth 1 H0 0) (nth 2 H0 0) (nth 3 H0 0)
                      (nth 4 H0 0) (nth 5 H0 0) (nth 6 H0 0) (nth 7 H0 0)) padded in
  List.concat (map (be_bytes 4) [sa h; sb h; sc h; sd h; se h; sf h; sg h; sh h]).

End SHA256.

(** [utils.sha256], which never rejects. *)
Definition sha256 (message : list byte) : result (list byte) := Ok (SHA256.digest message).

(** * Inputs on which the verification functions are run

    [base_x_hex] is the x-only public key of the base point; [challenge_e]
    is the BIP-340 challenge of the all-zero 32-byte message for that key
    and [r = Gx]; [sig_R_base] and [sig_R_zero] are the 64-byte signatures
    [(Gx, e + 1)] and [(Gx, e)]; [point_e] and [point_e1] are [e G] and
    [(e + 1) G]; [hash_n_minus_1] is the message hash [n - 1] and
    [neg_base] the base point negated. *)

Definition base_x_hex : string :=
  "79be667ef9dcbbac55a06295ce870b07029bfcdb2dce28d959f2815b16f81798".

Definition challenge_e : Z :=
  0x3d1c0a93ea772cdcd4989503c354eb8dcb9a1c6563aaab4ac6a069eefdd0db3c.

Definition sig_R_base : string :=
  base_x_hex ++ "3d1c0a93ea772cdcd4989503c354eb8dcb9a1c6563aaab4ac6a069eefdd0db3d".

Definition sig_R_zero : string :=
  base_x_hex ++ "3d1c0a93ea772cdcd4989503c354eb8dcb9a1c6563aaab4ac6a069eefdd0db3c".

Definition zero_message : list byte := repeat x00 32.

Definition point_e : Point :=
  new_Point 101095641890585566176128247222781687834360470830754314204991481926365750425085
            91285206970067043684740356708878134270909375883565521331192974991617254167974.

Definition point_e1 : Point :=
  new_Point 95426042158538554604331064713516518378492218396998278838049892035857220235652
            115108996919173975742381083886321273956906404212927700747773050592885532300795.

Definition hash_n_minus_1 : string :=
  "fffffffffffffffffffffffffffffffebaaedce6af48a03bbfd25e8cd0364140".

Definition neg_base : JacobianPoint :=
  mkJacobianPoint CURVE.Gx
    83121579216557378445487899878180864668798711284981320763518679672151497189239 1.

(** ** ECDSA signing (RFC 6979) *)

(** [type RecoveredSig = { sig: Signature; recovery: number }] *)
Record RecoveredSig : Type := mkRecoveredSig { rec_sig : Signature; rec_recovery : Z }.

(** [function kmdToSig(kBytes, m, d): RecoveredSig | undefined]; [undefined]
    is [None]. *)
Definition kmdToSig (kBytes : list byte) (m d : Z) : result (option RecoveredSig) :=
  let* k := bytesToNumber kBytes in
  if negb (isWithinCurveOrder k) then Ok None
  else
    let n := CURVE.n in
    let* q := Point_multiply Point_BASE k in
    let r := mod_ (Px q) n in
    if r =? _0n then Ok None
    else
      let* ik := invert k n in
      let s := mod_ (ik * mod_ (m + d * r) n) n in
      if s =? _0n then Ok None
      else
        let* sig := new_Signature r s in
        let recovery := Z.lor (if Px q =? sig_r sig then 0 else 2) (Z.land (Py q) _1n) in
        Ok (Some (mkRecoveredSig sig recovery)).

(** [function isPub(item: PrivKey | PubKey)]: the argument is a string, a
    byte array, a [bigint], a [number] or a [Point]. *)
Inductive KeyItem : Type :=
| ItemHex (hex : Hex)
| ItemBigint (key : Z)
| ItemNumber (key : Z)
| ItemPoint (p : Point).

Definition PrivKey_item (key : PrivKey) : KeyItem :=
  match key with
  | PrivHex hex => ItemHex hex
  | PrivBigint key => ItemBigint key
  | PrivNumber key => ItemNumber key
  end.

Definition PubKey_item (key : PubKey) : KeyItem :=
  match key with
  | PubHex hex => ItemHex hex
  | PubPoint p => ItemPoint p
  end.

Definition isPub (item : KeyItem) : bool :=
  match item with
  | ItemHex (HexBytes arr) => (bytes_length arr =? 33) || (bytes_length arr =? 65)
  | ItemHex (HexString str) => (str_length str =? 66) || (str_length str =? 130)
  | ItemPoint _ => true
  | _ => false
  end.

(** [export function getSharedSecret(privateA, publicB, isCompressed = false)] *)
Definition getSharedSecret (privateA : PrivKey) (publicB : PubKey) (isCompressed : bool)
  : result (list byte) :=
  if isPub (PrivKey_item privateA) then
    Throw (TypeError "getSharedSecret: first arg must be private key")
  else if negb (isPub (PubKey_item publicB)) then
    Throw (TypeError "getSharedSecret: second arg must be public key")
  else
    let* b := normalizePublicKey publicB in
    let* _ := Point_assertValidity b in
    let* a := normalizePrivateKey privateA in
    let* p := Point_multiply b a in
    Point_toRawBytes p isCompressed.

(** [type Ent = Hex | true] *)
Inductive Ent : Type :=
| EntHex (hex : Hex)
| EntTrue.

(** [type Opts = { recovered?, canonical?, der?, extraEntropy? }]; an absent
    property is [None]. *)
Record Opts : Type :=
  mkOpts { recovered : option bool; canonical : option bool; der : option bool;
           extraEntropy : option Ent }.

(** [type SignOutput = Uint8Array | [Uint8Array, number]] *)
Inductive SignOutput : Type :=
| SignBytes (hashed : list byte)
| SignRecovered (hashed : list byte) (recovery : Z).

(** [function bits2int(bytes)] *)
Definition bits2int (bytes : list byte) : result Z :=
  let slice := if 32 <? bytes_length bytes then bytes_slice bytes 0 32 else bytes in
  bytesToNumber slice.

(** [function int2octets(num)] *)
Definition int2octets (num : Z) : result (list byte) :=
  let* hex := numTo32bStr num in
  hexToBytes hex.

(** [function bits2octets(bytes)] *)
Definition bits2octets (bytes : list byte) : result (list byte) :=
  let* z1 := bits2int bytes in
  let z2 := mod_ z1 CURVE.n in
  int2octets (if z2 <? _0n then z1 else z2).

(** [function finalizeSig(recSig, opts)]; the defaults
    [{ canonical: true, der: true }] stand for the absent properties. *)
Definition finalizeSig (recSig : RecoveredSig) (opts : Opts) : result SignOutput :=
  let sig := rec_sig recSig in
  let recovery := rec_recovery recSig in
  let canonical := match canonical opts with Some c => c | None => true end in
  let der := match der opts with Some c => c | None => true end in
  let recovered := match recovered opts with Some c => c | None => false end in
  let* (sig, recovery) :=
    if canonical && Signature_hasHighS sig then
      let* sig := Signature_normalizeS sig in
      Ok (sig, Z.lxor recovery 1)
    else Ok (sig, recovery) in
  let* hashed :=
    if der then Signature_toDERRawBytes sig false else Signature_toCompactRawBytes sig in
  Ok (if recovered then SignRecovered hashed recovery else SignBytes hashed).

(** [utils.isValidPrivateKey(privateKey)] *)
Definition isValidPrivateKey (privateKey : PrivKey) : bool :=
  is_ok (normalizePrivateKey privateKey).

(** [class HmacDrbg] *)
Record HmacDrbg : Type :=
  mkHmacDrbg { drbg_k : list byte; drbg_v : list byte; drbg_counter : Z }.

(** [constructor()] *)
Definition new_HmacDrbg : HmacDrbg := mkHmacDrbg (repeat x00 32) (repeat x01 32) 0.

(** [incr()] *)
Definition HmacDrbg_incr (this : HmacDrbg) : result HmacDrbg :=
  if 1000 <=? drbg_counter this then
    Throw (Error "Tried 1,000 k values for sign(), all were invalid")
  else Ok (mkHmacDrbg (drbg_k this) (drbg_v this) (drbg_counter this + 1)).

Section Sign.

(** The injected primitives: [utils.hmacSha256(key, ...messages)], whose
    rejected promise is a [Throw]; [utils.hmacSha256Sync], which is
    [undefined] until the user sets it; and [utils.randomBytes(bytesLength)]. *)
Variable hmacSha256 : list byte -> list (list byte) -> result (list byte).
Variable hmacSha256Sync : option (list byte -> list (list byte) -> result (list byte)).
Variable randomBytes : Z -> result (list byte).

(** [private hmac(...values)] *)
Definition HmacDrbg_hmac (this : HmacDrbg) (values : list (list byte)) : result (list byte) :=
  hmacSha256 (drbg_k this) values.

(** [private hmacSync(...values)]; the function that the user sets returns
    bytes, not a promise, so the second check of the method cannot fail. *)
Definition HmacDrbg_hmacSync (this : HmacDrbg) (values : list (list byte))
  : result (list byte) :=
  match hmacSha256Sync with
  | None => Throw (Error "utils.hmacSha256Sync is undefined, you need to set it")
  | Some hmac => hmac (drbg_k this) values
  end.

(** [reseed(seed)] and [reseedSync(seed)] have the same body, over [hmac]
    and [hmacSync]. *)
Definition reseed_with (hmac : HmacDrbg -> list (list byte) -> result (list byte))
  (this : HmacDrbg) (seed : list byte) : result HmacDrbg :=
  let* k := hmac this [drbg_v this; [x00]; seed] in
  let this := mkHmacDrbg k (drbg_v this) (drbg_counter this) in
  let* v := hmac this [drbg_v this] in
  let this := mkHmacDrbg (drbg_k this) v (drbg_counter this) in
  if bytes_length seed =? 0 then Ok this
  else
    let* k := hmac this [drbg_v this; [x01]; seed] in
    let this := mkHmacDrbg k (drbg_v this) (drbg_counter this) in
    let* v := hmac this [drbg_v this] in
    Ok (mkHmacDrbg (drbg_k this) v (drbg_counter this)).

(** [generate()] and [generateSync()]: the new state and the bytes returned. *)
Definition generate_with (hmac : HmacDrbg -> list (list byte) -> result (list byte))
  (this : HmacDrbg) : result (HmacDrbg * list byte) :=
  let* this := HmacDrbg_incr this in
  let* v := hmac this [drbg_v this] in
  Ok (mkHmacDrbg (drbg_k this) v (drbg_counter this), v).

Definition HmacDrbg_reseed := reseed_with HmacDrbg_hmac.
Definition HmacDrbg_reseedSync := reseed_with HmacDrbg_hmacSync.
Definition HmacDrbg_generate := generate_with HmacDrbg_hmac.
Definition HmacDrbg_generateSync := generate_with HmacDrbg_hmacSync.

(** [function initSigArgs(msgHash, privateKey, extraEntropy?)]; it returns
    [{ seed, m, d }].  A [Hex] is never [null], the case of the first check. *)
Definition initSigArgs (msgHash : Hex) (privateKey : PrivKey) (extraEntropy : option Ent)
  : result (list byte * Z * Z) :=
  let* h1 := ensureBytes msgHash in
  let* d := normalizePrivateKey privateKey in
  let* dOctets := int2octets d in
  let* hOctets := bits2octets h1 in
  let seedArgs := [dOctets; hOctets] in
  let* seedArgs :=
    match extraEntropy with
    | None => Ok seedArgs
    | Some extraEntropy =>
        let* extraEntropy :=
          match extraEntropy with
          | EntTrue => let* bytes := randomBytes 32 in Ok (HexBytes bytes)
          | EntHex hex => Ok hex
          end in
        let* e := ensureBytes extraEntropy in
        if negb (bytes_length e =? 32) then
          Throw (Error "sign: Expected 32 bytes of extra data")
        else Ok (seedArgs ++ [e])
    end in
  let seed := concatBytes seedArgs in
  let* m := bits2int h1 in
  Ok (seed, m, d).

(** The loop [while (!(sig = kmdToSig(drbg.generate(), m, d))) drbg.reseed()]. *)
Fixpoint sign_loop (hmac : HmacDrbg -> list (list byte) -> result (list byte))
  (fuel : nat) (drbg : HmacDrbg) (m d : Z) : result RecoveredSig :=
  match fuel with
  | O => Throw OutOfFuel
  | S fuel' =>
      let* (drbg, kBytes) := generate_with hmac drbg in
      let* sig := kmdToSig kBytes m d in
      match sig with
      | Some sig => Ok sig
      | None =>
          let* drbg := reseed_with hmac drbg [] in
          sign_loop hmac fuel' drbg m d
      end
  end.

(** [incr] lets [generate] run 1000 times. *)
Definition sign_fuel : nat := 1001.

(** The body that [sign] and [signSync] share, over [hmac] and [hmacSync]. *)
Definition sign_with (hmac : HmacDrbg -> list (list byte) -> result (list byte))
  (msgHash : Hex) (privKey : PrivKey) (opts : Opts) : result SignOutput :=
  let* (seed_m, d) := initSigArgs msgHash privKey (extraEntropy opts) in
  let (seed, m) := seed_m in
  let drbg := new_HmacDrbg in
  let* drbg := reseed_with hmac drbg seed in
  let* sig := sign_loop hmac sign_fuel drbg m d in
  finalizeSig sig opts.

(** [async function sign(msgHash, privKey, opts = {})] *)
Definition sign := sign_with HmacDrbg_hmac.

(** [function signSync(msgHash, privKey, opts = {})] *)
Definition signSync := sign_with HmacDrbg_hmacSync.

End Sign.

(** HMAC-SHA256 (RFC 2104) over [SHA256.digest]: what
    [createHmac('sha256', key)] of Node returns once every message was
    passed to [update], the branch [crypto.node] of [utils.hmacSha256]. *)
Definition hmacSha256 (key : list byte) (messages : list (list byte)) : result (list byte) :=
  let key := if (64 <? List.length key)%nat then SHA256.digest key else key in
  let key := key ++ repeat x00 (64 - List.length key) in
  let pad c := map (fun b => byte_of_Z (Z.lxor (byte_to_Z b) c)) key in
  Ok (SHA256.digest (pad 0x5c ++ SHA256.digest (pad 0x36 ++ List.concat messages))).

(** [utils.randomBytes] where neither [crypto.web] nor [crypto.node] is there. *)
Definition no_randomBytes (bytesLength : Z) : result (list byte) :=
  Throw (Error "The environment doesn't have randomBytes function").

(** An input of [sign]: the SHA-256 hash of a message, and the options [{}]. *)
Definition satoshi_hash : list byte :=
  SHA256.digest (map byte_of_ascii (list_ascii_of_string "Satoshi Nakamoto")).

Definition no_opts : Opts := mkOpts None None None None.



(** An HMAC function that returns 32 zero bytes, whatever it is given. *)
Definition zero_hmac (key : list byte) (messages : list (list byte)) : result (list byte) :=
  Ok (repeat x00 32).

(** ** Definitions used by the properties of the curve arithmetic *)

Import Zmod.ZmodDef Zmod.ZmodBase.

(** The scalar by which the endomorphism [(x, y) -> (beta * x, y)] multiplies
    a point: a cube root of unity modulo [CURVE.n].  [splitScalarEndo]
    writes a scalar as [k1 + k2 * lambda]. *)
Definition lambda : Z := 0x5363ad4cc05c30e0a5261c028812645a122e22ea20816678df02967c1b23bd72.

(** *** The curve equation in Jacobian coordinates *)

(** The class of an integer in the field of [CURVE.P] elements. *)
Definition inj (z : Z) : Zmod CURVE.P := Zmod.of_Z CURVE.P z.

(** The three coordinates are residues of [CURVE.P]. *)
Definition reduced (j : JacobianPoint) : Prop :=
  0 <= Jx j < CURVE.P /\ 0 <= Jy j < CURVE.P /\ 0 <= Jz j < CURVE.P.

(** [Y^2 = X^3 + 7 Z^6] modulo [CURVE.P]. *)
Definition satisfies_curve (j : JacobianPoint) : Prop :=
  (Jy j * Jy j) mod CURVE.P
  = (Jx j * Jx j * Jx j + 7 * (Jz j * Jz j * Jz j * (Jz j * Jz j * Jz j))) mod CURVE.P.

(** A point at infinity ([z = 0]) or a point of the curve. *)
Definition on_curve_or_infinity (j : JacobianPoint) : Prop :=
  reduced j /\ (Jz j = 0 \/ satisfies_curve j).

(** As above, or the triple [(0, 0, z)] that [normalizeZ] makes of a point at
    infinity and that [add] takes for the neutral element. *)
Definition on_curve_or_neutral (j : JacobianPoint) : Prop :=
  reduced j /\ (Jz j = 0 \/ satisfies_curve j \/ (Jx j = 0 /\ Jy j = 0)).

(** * Proofs *)

(** ** Arithmetic of the model *)

Lemma P_value :
  CURVE.P = 115792089237316195423570985008687907853269984665640564039457584007908834671663.
Proof. reflexivity. Qed.

Lemma n_value :
  CURVE.n = 115792089237316195423570985008687907852837564279074904382605163141518161494337.
Proof. reflexivity. Qed.

Lemma POW_2_256_value : POW_2_256 = 2 ^ 256.
Proof. reflexivity. Qed.

Lemma rem_sign_bounds (a b : Z) :
  0 < b -> - b < Z.rem a b < b /\ (0 <= a -> 0 <= Z.rem a b) /\ (a <= 0 -> Z.rem a b <= 0).
Proof.
  intros Hb. repeat split.
  - pose proof (Z.rem_bound_abs a b ltac:(lia)). lia.
  - pose proof (Z.rem_bound_abs a b ltac:(lia)). lia.
  - intros Ha. apply (Z.rem_bound_pos_pos a b); lia.
  - intros Ha. pose proof (Z.rem_bound_pos_pos (- a) b Hb ltac:(lia)) as H.
    rewrite Z.rem_opp_l' in H. lia.
Qed.

Lemma mod__spec (a b : Z) : 0 < b -> mod_ a b = a mod b.
Proof.
  intros Hb. unfold mod_. cbv zeta.
  pose proof (Z.quot_rem' a b) as Hqr.
  destruct (rem_sign_bounds a b Hb) as (Hbd & Hpos & Hneg).
  destruct (Z.leb_spec 0 (Z.rem a b)) as [Hr | Hr].
  - apply Z.mod_unique with (q := Z.quot a b); lia.
  - apply Z.mod_unique with (q := Z.quot a b - 1); lia.
Qed.

Lemma modP_spec (a : Z) : modP a = a mod CURVE.P.
Proof. unfold modP. apply mod__spec. reflexivity. Qed.

Lemma pow_loop_spec (count : nat) (a result : Z) :
  pow_loop count a result = result * a ^ Z.of_nat count.
Proof.
  revert result. induction count as [| count IH]; intros result.
  - simpl. lia.
  - cbn [pow_loop]. rewrite IH, Nat2Z.inj_succ, Z.pow_succ_r by lia. lia.
Qed.

Lemma pow_spec (a b : Z) : 0 <= b -> pow a b = a ^ b.
Proof.
  intros Hb. unfold pow. rewrite pow_loop_spec, Z2Nat.id by lia. lia.
Qed.

(** ** [sqrtMod]: the addition chain *)

Lemma rem_P_nonneg (v : Z) : 0 <= v -> Z.rem v CURVE.P = v mod CURVE.P.
Proof. intros H. apply Z.rem_mod_nonneg; [assumption | reflexivity]. Qed.

Lemma P_pos : 0 < CURVE.P.
Proof. reflexivity. Qed.

Lemma pw_mul (x u a v b : Z) :
  pw x u a -> pw x v b -> pw x (Z.rem (u * v) CURVE.P) (a + b).
Proof.
  intros (Hu & Ha & Eu) (Hv & Hb & Ev).
  assert (0 <= u * v) as Huv by lia.
  rewrite rem_P_nonneg by assumption.
  repeat split.
  - apply Z.mod_pos_bound, P_pos.
  - lia.
  - rewrite Z.mod_mod by (pose proof P_pos; lia).
    rewrite Z.pow_add_r by assumption.
    rewrite Z.mul_mod, Eu, Ev, <- Z.mul_mod by (pose proof P_pos; lia).
    reflexivity.
Qed.

Lemma pw_mul3 (x u a v b w c : Z) :
  pw x u a -> pw x v b -> pw x w c -> pw x (Z.rem (u * v * w) CURVE.P) (a + b + c).
Proof.
  intros (Hu & Ha & Eu) (Hv & Hb & Ev) (Hw & Hc & Ew).
  assert (0 <= u * v * w) as Huv by (apply Z.mul_nonneg_nonneg; lia).
  rewrite rem_P_nonneg by assumption.
  pose proof P_pos.
  repeat split.
  - apply Z.mod_pos_bound, P_pos.
  - lia.
  - rewrite Z.mod_mod by lia.
    rewrite !Z.pow_add_r by lia.
    rewrite Z.mul_mod, (Z.mul_mod u v), Eu, Ev, Ew, <- (Z.mul_mod (x ^ a)), <- Z.mul_mod by lia.
    reflexivity.
Qed.

Lemma pw_pow2_loop (x : Z) (count : nat) (v e : Z) :
  pw x v e -> pw x (pow2_loop count v) (e * 2 ^ Z.of_nat count).
Proof.
  revert v e. induction count as [| count IH]; intros v e H.
  - cbn [pow2_loop]. change (2 ^ Z.of_nat 0) with 1. rewrite Z.mul_1_r. exact H.
  - cbn [pow2_loop]. 
    replace (e * 2 ^ Z.of_nat (S count)) with ((e + e) * 2 ^ Z.of_nat count)
      by (rewrite Nat2Z.inj_succ, Z.pow_succ_r by lia; lia).
    apply IH. apply pw_mul; assumption.
Qed.

Lemma pw_pow2 (x v e power : Z) :
  0 <= power -> pw x v e -> pw x (pow2 v power) (e * 2 ^ power).
Proof.
  intros Hp H. unfold pow2.
  rewrite <- (Z2Nat.id power) at 2 by assumption.
  apply pw_pow2_loop, H.
Qed.

Lemma pw_base (x : Z) : 0 <= x -> pw x x 1.
Proof. intros H. unfold pw. rewrite Z.pow_1_r. repeat split; lia. Qed.

(** [sqrtMod] raises its argument to the power [(P + 1) / 4]. *)
Lemma sqrtMod_pw (x : Z) : 0 <= x -> pw x (sqrtMod x) ((CURVE.P + 1) / 4).
Proof.
  intros Hx. pose proof (pw_base x Hx) as H1.
  unfold sqrtMod. cbv zeta.
  pose proof (pw_mul3 _ _ _ _ _ _ _ H1 H1 H1) as H2.
  pose proof (pw_mul3 _ _ _ _ _ _ _ H2 H2 H1) as H3.
  set (b2 := Z.rem (x * x * x) CURVE.P) in *.
  set (b3 := Z.rem (b2 * b2 * x) CURVE.P) in *.
  pose proof (pw_mul _ _ _ _ _ (pw_pow2 _ _ _ _3n ltac:(discriminate) H3) H3) as H6.
  set (b6 := Z.rem (pow2 b3 _3n * b3) CURVE.P) in *.
  pose proof (pw_mul _ _ _ _ _ (pw_pow2 _ _ _ _3n ltac:(discriminate) H6) H3) as H9.
  set (b9 := Z.rem (pow2 b6 _3n * b3) CURVE.P) in *.
  pose proof (pw_mul _ _ _ _ _ (pw_pow2 _ _ _ _2n ltac:(discriminate) H9) H2) as H11.
  set (b11 := Z.rem (pow2 b9 _2n * b2) CURVE.P) in *.
  pose proof (pw_mul _ _ _ _ _ (pw_pow2 _ _ _ 11 ltac:(discriminate) H11) H11) as H22.
  set (b22 := Z.rem (pow2 b11 11 * b11) CURVE.P) in *.
  pose proof (pw_mul _ _ _ _ _ (pw_pow2 _ _ _ 22 ltac:(discriminate) H22) H22) as H44.
  set (b44 := Z.rem (pow2 b22 22 * b22) CURVE.P) in *.
  pose proof (pw_mul _ _ _ _ _ (pw_pow2 _ _ _ 44 ltac:(discriminate) H44) H44) as H88.
  set (b88 := Z.rem (pow2 b44 44 * b44) CURVE.P) in *.
  pose proof (pw_mul _ _ _ _ _ (pw_pow2 _ _ _ 88 ltac:(discriminate) H88) H88) as H176.
  set (b176 := Z.rem (pow2 b88 88 * b88) CURVE.P) in *.
  pose proof (pw_mul _ _ _ _ _ (pw_pow2 _ _ _ 44 ltac:(discriminate) H176) H44) as H220.
  set (b220 := Z.rem (pow2 b176 44 * b44) CURVE.P) in *.
  pose proof (pw_mul _ _ _ _ _ (pw_pow2 _ _ _ _3n ltac:(discriminate) H220) H3) as H223.
  set (b223 := Z.rem (pow2 b220 _3n * b3) CURVE.P) in *.
  pose proof (pw_mul _ _ _ _ _ (pw_pow2 _ _ _ 23 ltac:(discriminate) H223) H22) as Ht1.
  set (t1 := Z.rem (pow2 b223 23 * b22) CURVE.P) in *.
  pose proof (pw_mul _ _ _ _ _ (pw_pow2 _ _ _ 6 ltac:(discriminate) Ht1) H2) as Ht2.
  set (t2 := Z.rem (pow2 t1 6 * b2) CURVE.P) in *.
  pose proof (pw_pow2 _ _ _ _2n ltac:(discriminate) Ht2) as Hr.
  exact Hr.
Qed.

(** ** [invert]: the extended Euclidean loop *)

Lemma invert_loop_spec (num m : Z) (fuel : nat) :
  forall a b x y u v,
    0 <= a < b ->
    a * b < 2 ^ Z.of_nat fuel ->
    (m | b - x * num) ->
    (m | a - u * num) ->
    exists x', invert_loop fuel a b x y u v = Some (Z.gcd a b, x')
               /\ (m | Z.gcd a b - x' * num).
Proof.
  induction fuel as [| fuel IH]; intros a b x y u v Hab Hfuel Hb Ha.
  - change (2 ^ Z.of_nat 0) with 1 in Hfuel.
    assert (a = 0) as -> by nia.
    cbn. exists x. rewrite Z.abs_eq by lia. split; [reflexivity | assumption].
  - cbn [invert_loop]. unfold _0n.
    destruct (Z.eqb_spec a 0) as [-> | Hnz].
    + exists x. cbn. rewrite Z.abs_eq by lia. split; [reflexivity | assumption].
    + cbv zeta.
      assert (0 < a) as Hapos by lia.
      rewrite (Z.rem_mod_nonneg b a) by lia.
      rewrite (Z.quot_div_nonneg b a) by lia.
      pose proof (Z.mod_pos_bound b a Hapos) as Hr.
      pose proof (Z.div_mod b a ltac:(lia)) as Hdm.
      assert (1 <= b / a) as Hq.
      { apply Z.div_le_lower_bound; lia. }
      destruct (IH (b mod a) a u v (x - u * (b / a)) (y - v * (b / a))) as (x' & E & D).
      * lia.
      * rewrite Nat2Z.inj_succ, Z.pow_succ_r in Hfuel by lia. nia.
      * assumption.
      * replace (b mod a - (x - u * (b / a)) * num)
          with ((b - x * num) - (b / a) * (a - u * num)) by lia.
        apply Z.divide_sub_r; [assumption | apply Z.divide_mul_r; assumption].
      * exists x'. rewrite E.
        replace (Z.gcd (b mod a) a) with (Z.gcd a b) in *
          by (symmetry; apply Z.gcd_mod; lia).
        split; [reflexivity | assumption].
Qed.

Lemma invert_fuel_enough (a m : Z) :
  0 <= a < m -> a * m < 2 ^ Z.of_nat (invert_fuel m).
Proof.
  intros H. unfold invert_fuel.
  pose proof (Z.log2_nonneg m).
  rewrite Z2Nat.id by lia.
  pose proof (Z.log2_spec m ltac:(lia)) as [_ Hup].
  replace (2 * Z.log2 m + 2) with (Z.succ (Z.log2 m) + Z.succ (Z.log2 m)) by lia.
  rewrite Z.pow_add_r by lia. nia.
Qed.

(** [invert] returns the inverse of any number coprime to the modulus, and
    never runs out of fuel. *)
Lemma invert_spec (number m : Z) :
  1 < m -> Z.gcd number m = 1 ->
  exists x, invert number m = Ok x /\ 0 <= x < m /\ (x * number) mod m = 1.
Proof.
  intros Hm Hg. unfold invert, _0n, _1n.
  assert (number <> 0) as Hnz.
  { intros ->. rewrite Z.gcd_0_l, Z.abs_eq in Hg; lia. }
  destruct (Z.eqb_spec number 0) as [? | _]; [contradiction |].
  destruct (Z.leb_spec m 0) as [? | _]; [lia |]. cbn [orb].
  rewrite mod__spec by lia.
  pose proof (Z.mod_pos_bound number m ltac:(lia)) as Hr.
  destruct (invert_loop_spec number m (invert_fuel m) (number mod m) m 0 1 1 0)
    as (x & E & D).
  - lia.
  - apply invert_fuel_enough. lia.
  - exists 1. lia.
  - exists (- (number / m)). pose proof (Z.div_mod number m ltac:(lia)). lia.
  - assert (Z.gcd (number mod m) m = 1) as Hg'.
    { rewrite Z.gcd_mod, Z.gcd_comm by lia. exact Hg. }
    rewrite Hg' in E, D. rewrite E. cbn [Z.eqb negb Pos.eqb].
    exists (mod_ x m). rewrite mod__spec by lia. split; [reflexivity |].
    split; [apply Z.mod_pos_bound; lia |].
    rewrite Z.mul_mod_idemp_l by lia.
    destruct D as [k Hk].
    replace (x * number) with (1 + (- k) * m) by lia.
    rewrite Z.mod_add by lia. apply Z.mod_small. lia.
Qed.

(** The inverse modulo [m] is unique among the residues. *)
Lemma inverse_unique (m x y z : Z) :
  1 < m -> 0 <= y < m -> 0 <= z < m ->
  (y * x) mod m = 1 -> (z * x) mod m = 1 -> y = z.
Proof.
  intros Hm Hy Hz Ey Ez.
  assert (y mod m = z mod m) as E.
  { rewrite <- (Z.mul_1_r y), <- Ez, Z.mul_mod_idemp_r by lia.
    replace (y * (z * x)) with (z * (y * x)) by lia.
    rewrite <- Z.mul_mod_idemp_r, Ey, Z.mul_1_r by lia. reflexivity. }
  rewrite !Z.mod_small in E; assumption.
Qed.

(** ** [invertBatch] *)

Lemma modE_ok (a m : Z) : 0 < m -> modE a m = Ok (a mod m).
Proof.
  intros Hm. unfold modE. destruct (Z.eqb_spec m 0); [lia |].
  rewrite mod__spec by assumption. reflexivity.
Qed.

Lemma invertBatch_scan_ok (m : Z) (nums : list Z) :
  0 < m ->
  forall acc, exists scratch,
    invertBatch_scan nums acc m = Ok (scratch, scan_acc nums acc m).
Proof.
  intros Hm. induction nums as [| x rest IH]; intros acc.
  - exists []. reflexivity.
  - cbn [invertBatch_scan scan_acc]. unfold _0n.
    destruct (x =? 0).
    + destruct (IH acc) as (scratch & E). rewrite E. cbn. eauto.
    + rewrite modE_ok by assumption. cbn [bind].
      destruct (IH ((acc * x) mod m)) as (scratch & E). rewrite E. cbn. eauto.
Qed.

Lemma scan_acc_coprime (m : Z) (nums : list Z) :
  0 < m ->
  Forall (fun x => x = 0 \/ Z.gcd x m = 1) nums ->
  forall acc, Z.gcd acc m = 1 -> Z.gcd (scan_acc nums acc m) m = 1.
Proof.
  intros Hm H. induction H as [| x rest Hx _ IH]; intros acc Hacc.
  - exact Hacc.
  - cbn [scan_acc]. destruct (Z.eqb_spec x 0) as [-> | Hnz].
    + apply IH, Hacc.
    + apply IH. destruct Hx as [? | Hx]; [contradiction |].
      rewrite Z.gcd_mod, Z.gcd_comm by lia.
      apply Z.coprime_mul_l; assumption.
Qed.

Lemma invertBatch_unwind_spec (m : Z) (nums : list Z) :
  1 < m ->
  forall acc scratch accF inv,
    invertBatch_scan nums acc m = Ok (scratch, accF) ->
    (inv * accF) mod m = 1 ->
    exists out inv',
      invertBatch_unwind nums scratch inv m = Ok (out, inv')
      /\ (inv' * acc) mod m = 1
      /\ Forall2 (inverted_entry m) nums out.
Proof.
  intros Hm. induction nums as [| x rest IH]; intros acc scratch accF inv Hscan Hinv.
  - cbn in Hscan. injection Hscan as <- <-.
    exists [], inv. cbn. auto.
  - cbn [invertBatch_scan] in Hscan. unfold _0n in *.
    destruct (Z.eqb_spec x 0) as [-> | Hnz].
    + destruct (invertBatch_scan rest acc m) as [[scratch' acc'] | e] eqn:E;
        cbn in Hscan; [| discriminate].
      injection Hscan as <- <-.
      destruct (IH _ _ _ _ E Hinv) as (out & inv' & Eu & Ei & Hall).
      exists (0 :: out), inv'. cbn [invertBatch_unwind]. rewrite Eu. cbn.
      repeat split; try assumption. constructor; [left; auto | assumption].
    + rewrite modE_ok in Hscan by lia. cbn [bind] in Hscan.
      destruct (invertBatch_scan rest ((acc * x) mod m) m) as [[scratch' acc'] | e] eqn:E;
        cbn in Hscan; [| discriminate].
      injection Hscan as <- <-.
      destruct (IH _ _ _ _ E Hinv) as (out & acc1 & Eu & Ei & Hall).
      exists ((acc1 * acc) mod m :: out), ((acc1 * x) mod m).
      cbn [invertBatch_unwind]. rewrite Eu. cbn [bind]. unfold _0n.
      destruct (Z.eqb_spec x 0) as [? | _]; [contradiction |].
      rewrite !modE_ok by lia. cbn [bind].
      rewrite Z.mul_mod_idemp_r in Ei by lia.
      assert (((acc1 * x) mod m * acc) mod m = 1) as E1.
      { rewrite Z.mul_mod_idemp_l by lia. rewrite <- Ei. f_equal. lia. }
      repeat split; try assumption.
      constructor; [| assumption].
      right. repeat split; try assumption; try (apply Z.mod_pos_bound; lia).
      rewrite Z.mul_mod_idemp_l by lia. rewrite <- Ei. f_equal. lia.
Qed.

Lemma residue_coprime (m x : Z) : Z.prime m -> 0 <= x < m -> x = 0 \/ Z.gcd x m = 1.
Proof.
  intros Hp Hx. destruct (Z.eq_dec x 0) as [? | Hnz]; [left; assumption | right].
  rewrite Z.gcd_comm. apply Z.coprime_prime_small; [assumption | lia].
Qed.

Lemma invertBatch_counted_spec (m : Z) (nums : list Z) :
  Z.prime m ->
  Forall (fun x => 0 <= x < m) nums ->
  exists out,
    invertBatch_counted nums m O = (Ok out, 1%nat)
    /\ Forall2 (inverted_entry m) nums out.
Proof.
  intros Hp Hnums.
  pose proof (Z.prime_ge_2 m Hp) as Hm.
  unfold invertBatch_counted, invert_counted.
  destruct (invertBatch_scan_ok m nums ltac:(lia) _1n) as (scratch & Escan).
  rewrite Escan.
  assert (Z.gcd (scan_acc nums _1n m) m = 1) as Hg.
  { apply scan_acc_coprime; [lia | | apply Z.gcd_1_l].
    eapply Forall_impl; [| exact Hnums]. intros x Hx. apply residue_coprime; assumption. }
  destruct (invert_spec _ m ltac:(lia) Hg) as (inv & Einv & _ & Hinv).
  rewrite Einv. cbn [bind].
  destruct (invertBatch_unwind_spec m nums ltac:(lia) _ _ _ _ Escan Hinv)
    as (out & inv' & Eu & _ & Hall).
  rewrite Eu. cbn [bind]. exists out. split; [reflexivity | assumption].
Qed.

(** ** Primality of the field modulus and of the group order

[CURVE.P] and [CURVE.n] are shown prime by Pocklington's criterion:
    if [q] is a prime divisor of [N - 1] and some [a] has
    [a ^ (N - 1) = 1] and [gcd (a ^ ((N - 1) / q) - 1) N = 1] modulo [N],
    then [q] divides [p - 1] for every prime divisor [p] of [N]. *)

Lemma pow_mod_one_gcd (p a : Z) (bound : nat) :
  1 < p ->
  forall x y, 0 < x -> 0 < y -> x + y <= Z.of_nat bound ->
    a ^ x mod p = 1 -> a ^ y mod p = 1 -> a ^ Z.gcd x y mod p = 1.
Proof.
  intros Hp. induction bound as [| bound IH]; intros x y Hx Hy Hb Ex Ey; [lia |].
  destruct (Z.lt_trichotomy x y) as [Hlt | [-> | Hgt]].
  - rewrite <- (Z.gcd_sub_diag_r x y).
    apply IH; try lia; try assumption.
    replace y with (x + (y - x)) in Ey by lia.
    rewrite Z.pow_add_r, <- Z.mul_mod_idemp_l, Ex, Z.mul_1_l in Ey by lia.
    exact Ey.
  - rewrite Z.gcd_diag, Z.abs_eq by lia. exact Ex.
  - rewrite Z.gcd_comm, <- (Z.gcd_sub_diag_r y x).
    apply IH; try lia; try assumption.
    replace x with (y + (x - y)) in Ex by lia.
    rewrite Z.pow_add_r, <- Z.mul_mod_idemp_l, Ey, Z.mul_1_l in Ex by lia.
    exact Ex.
Qed.

Lemma pow_mod_one_multiple (p a g t : Z) :
  1 < p -> 0 <= g -> 0 <= t -> a ^ g mod p = 1 -> a ^ (g * t) mod p = 1.
Proof.
  intros Hp Hg Ht E.
  rewrite Z.pow_mul_r by assumption.
  rewrite <- Z.mod_pow_l, E, Z.pow_1_l by lia. apply Z.mod_small. lia.
Qed.

Lemma mod_one_divisor (N p v : Z) :
  1 < p -> (p | N) -> v mod N = 1 -> v mod p = 1.
Proof.
  intros Hp Hd E.
  rewrite <- (Z.mod_mod_divide v N p Hd), E. apply Z.mod_small. lia.
Qed.

Lemma exists_prime_divisor (bound : nat) :
  forall n, 1 < n -> n <= Z.of_nat bound -> exists p, Z.prime p /\ (p | n).
Proof.
  induction bound as [| bound IH]; intros n Hn Hb; [lia |].
  destruct (prime_dec n) as [Hp | Hnp].
  - exists n. split; [apply prime_alt, Hp | apply Z.divide_refl].
  - destruct (not_prime_divide n Hn Hnp) as (d & Hd & Hdiv).
    destruct (IH d ltac:(lia) ltac:(lia)) as (p & Hp & Hpd).
    exists p. split; [assumption | eapply Z.divide_trans; eassumption].
Qed.

Lemma pocklington_divisor (N q a p : Z) :
  1 < N -> Z.prime q -> (q | N - 1) ->
  a ^ (N - 1) mod N = 1 ->
  Z.gcd (a ^ ((N - 1) / q) mod N - 1) N = 1 ->
  Z.prime p -> (p | N) -> (q | p - 1).
Proof.
  intros HN Hq Hqd Ha Hg Hp Hpd.
  pose proof (Z.prime_ge_2 p Hp) as Hp2.
  pose proof (Z.prime_ge_2 q Hq) as Hq2.
  assert (a ^ (N - 1) mod p = 1) as Ea by (eapply mod_one_divisor; eauto; lia).
  assert (a mod p <> 0) as Hanz.
  { intros E0. rewrite <- Z.mod_pow_l, E0, Z.pow_0_l, Z.mod_0_l in Ea; lia. }
  pose proof (ZmodInv.Z.fermat_nz p a Hp Hanz) as Ef.
  assert (p <> 2 -> a ^ Z.gcd (N - 1) (p - 1) mod p = 1) as Egcd.
  { intros Hne. apply pow_mod_one_gcd with (bound := Z.to_nat (N - 1 + (p - 1))); lia || assumption. }
  destruct (Z.eq_dec p 2) as [-> | Hne].
  { (* p = 2: then a is odd and so is every power of a; N is even *)
    exfalso. destruct Hqd as [m Hm].
    rewrite Hm, Z.div_mul in Hg by lia.
    assert (a ^ m mod 2 = 1) as E2.
    { rewrite <- Z.mod_pow_l.
      assert (a mod 2 = 1) as -> by (pose proof (Z.mod_pos_bound a 2); lia).
      assert (0 <= m) by nia. rewrite Z.pow_1_l by assumption. reflexivity. }
    assert ((2 | a ^ m mod N - 1)) as D2.
    { apply Z.mod_divide; [lia |].
      rewrite Zminus_mod.
      rewrite (Z.mod_mod_divide _ _ _ Hpd), E2. reflexivity. }
    pose proof (Z.gcd_greatest _ _ 2 D2 Hpd) as D. rewrite Hg in D.
    apply Z.divide_1_r_nonneg in D; lia. }
  specialize (Egcd Hne).
  set (g := Z.gcd (N - 1) (p - 1)) in *.
  assert (0 < g) as Hgpos.
  { pose proof (Z.gcd_nonneg (N - 1) (p - 1)).
    assert (g <> 0); [| lia]. unfold g. intros E0. apply Z.gcd_eq_0 in E0. lia. }
  destruct (Z.eq_dec (g mod q) 0) as [Hqg%Z.mod_divide | Hqg]; [| lia |].
  - eapply Z.divide_trans; [exact Hqg | apply Z.gcd_divide_r].
  - exfalso.
    assert (Z.gcd g q = 1) as Hcop.
    { rewrite Z.gcd_comm. apply Z.coprime_prime_l; [assumption |].
      intros Hd. apply Hqg. apply Z.mod_divide; [lia | assumption]. }
    destruct Hqd as [m Hm].
    assert (0 < m) as Hmpos by nia.
    assert ((g | m)) as Hgm.
    { apply Z.gauss with (m := q); [| exact Hcop].
      rewrite Z.mul_comm, <- Hm. apply Z.gcd_divide_l. }
    rewrite Hm, Z.div_mul in Hg by lia.
    destruct Hgm as [t Ht].
    assert (a ^ m mod p = 1) as Em.
    { rewrite Ht, Z.mul_comm. apply pow_mod_one_multiple; try lia; try assumption; nia. }
    assert ((p | a ^ m mod N - 1)) as Dp.
    { apply Z.mod_divide; [lia |].
      rewrite Zminus_mod.
      rewrite (Z.mod_mod_divide _ _ _ Hpd), Em.
      rewrite (Z.mod_small 1) by lia. reflexivity. }
    pose proof (Z.gcd_greatest _ _ p Dp Hpd) as D. rewrite Hg in D.
    apply Z.divide_1_r_nonneg in D; lia.
Qed.

Lemma powmod_pos_spec (a : Z) (e : positive) (m : Z) :
  powmod_pos a e m = a ^ Zpos e mod m.
Proof.
  destruct (Z.eq_dec m 0) as [-> | Hm].
  { induction e as [e IH | e IH |]; cbn [powmod_pos].
    all: rewrite ?Z.mod_0_r; try reflexivity.
    - rewrite IH, !Z.mod_0_r, Pos2Z.inj_xI.
      rewrite Z.pow_add_r, Z.pow_1_r, Z.pow_twice_r by lia. reflexivity.
    - rewrite IH, !Z.mod_0_r, Pos2Z.inj_xO, Z.pow_twice_r. reflexivity.
    - rewrite Z.pow_1_r. reflexivity. }
  induction e as [e IH | e IH |]; cbn [powmod_pos]; cbv zeta.
  - rewrite IH, Pos2Z.inj_xI, Z.pow_add_r, Z.pow_1_r, Z.pow_twice_r by lia.
    rewrite <- Z.mul_mod by assumption.
    rewrite Z.mul_mod_idemp_l by assumption. reflexivity.
  - rewrite IH, Pos2Z.inj_xO, Z.pow_twice_r.
    rewrite <- Z.mul_mod by assumption. reflexivity.
  - rewrite Z.pow_1_r. reflexivity.
Qed.

Lemma powmod_spec (a e m : Z) : 0 <= e -> powmod a e m = a ^ e mod m.
Proof.
  intros He. destruct e as [| e | e]; [reflexivity | apply powmod_pos_spec | lia].
Qed.

Lemma mul_divide_coprime (a b c : Z) :
  (a | c) -> (b | c) -> Z.gcd a b = 1 -> (a * b | c).
Proof.
  intros [k ->] Hb Hg.
  rewrite (Z.mul_comm a b). apply Z.mul_divide_mono_r.
  apply Z.gauss with (m := a); [| rewrite Z.gcd_comm; exact Hg].
  rewrite Z.mul_comm. exact Hb.
Qed.

Lemma product_divides (m : Z) (qs : list Z) :
  Forall Z.prime qs -> all_distinct qs = true ->
  Forall (fun q => (q | m)) qs -> (product qs | m).
Proof.
  induction qs as [| q rest IH]; intros Hp Hd Hdiv.
  - apply Z.divide_1_l.
  - cbn [product fold_right]. fold (product rest).
    cbn [all_distinct] in Hd. apply andb_true_iff in Hd as [Hq Hd].
    inversion Hp as [| ? ? Hpq Hprest]; subst.
    inversion Hdiv as [| ? ? Hdq Hdrest]; subst.
    apply mul_divide_coprime; [assumption | apply IH; assumption |].
    clear IH Hd Hdrest Hdq Hdiv Hp.
    induction rest as [| r rest IH].
    + apply Z.gcd_1_r.
    + cbn [product fold_right]. fold (product rest).
      cbn [existsb] in Hq. rewrite negb_orb in Hq. apply andb_true_iff in Hq as [Hqr Hq].
      inversion Hprest; subst.
      apply Z.coprime_mul_r; [| apply IH; assumption].
      apply Z.coprime_prime_l; [assumption |].
      intros Hdvd. apply negb_true_iff, Z.eqb_neq in Hqr. apply Hqr.
      apply Z.divide_prime_prime; assumption.
Qed.

Lemma product_pos (qs : list Z) : Forall Z.prime qs -> 0 < product qs.
Proof.
  induction 1 as [| q rest Hq _ IH]; cbn [product fold_right]; [lia |].
  fold (product rest). pose proof (Z.prime_ge_2 q Hq). nia.
Qed.

(** Pocklington's criterion. *)
Theorem pocklington (N a : Z) (qs : list Z) :
  Forall Z.prime qs -> pock_check N a qs = true -> Z.prime N.
Proof.
  intros Hqs Hc. unfold pock_check in Hc.
  repeat (apply andb_true_iff in Hc as [Hc ?]).
  apply Z.ltb_lt in Hc. rename Hc into HN.
  assert (forall p, Z.prime p -> (p | N) -> product qs < p) as Hbig.
  { intros p Hp Hpd.
    assert ((product qs | p - 1)) as Hdiv.
    { apply product_divides; try assumption.
      rewrite Forall_forall in Hqs |- *. intros q Hin.
      rewrite forallb_forall in H1. specialize (H1 q Hin). unfold pock_witness in H1.
      repeat (apply andb_true_iff in H1 as [H1 ?]).
      apply Z.eqb_eq in H1, H3, H2.
      pose proof (Z.prime_ge_2 q (Hqs q Hin)).
      rewrite powmod_spec in H3 by lia.
      rewrite powmod_spec in H2 by (apply Z.div_pos; lia).
      apply (pocklington_divisor N q a p); try assumption; auto.
      apply Z.mod_divide; [lia | assumption]. }
    pose proof (Z.prime_ge_2 p Hp).
    pose proof (product_pos qs Hqs).
    apply Z.divide_pos_le in Hdiv; lia. }
  apply Z.ltb_lt in H.
  apply prime_alt.
  destruct (prime_dec N) as [Hp | Hnp]; [assumption | exfalso].
  destruct (not_prime_divide N HN Hnp) as (d & Hd & [e He]).
  assert (1 < e) as He1 by nia.
  destruct (exists_prime_divisor (Z.to_nat d) d ltac:(lia) ltac:(lia)) as (p1 & Hp1 & Hd1).
  destruct (exists_prime_divisor (Z.to_nat e) e ltac:(lia) ltac:(lia)) as (p2 & Hp2 & Hd2).
  pose proof (Hbig p1 Hp1 ltac:(subst N; apply Z.divide_mul_r; assumption)).
  pose proof (Hbig p2 Hp2 ltac:(subst N; apply Z.divide_mul_l; assumption)).
  apply Z.divide_pos_le in Hd1, Hd2; try lia.
  pose proof (product_pos qs Hqs). nia.
Qed.

Lemma no_divisor_from_spec (fuel : nat) :
  forall d n, 1 < d -> no_divisor_from fuel d n = true ->
    forall k, d <= k -> k * k <= n -> ~ (k | n).
Proof.
  induction fuel as [| fuel IH]; intros d n Hd H k Hk Hkk.
  - cbn in H. apply Z.ltb_lt in H. nia.
  - cbn [no_divisor_from] in H.
    destruct (Z.ltb_spec n (d * d)); [nia |].
    destruct (Z.eqb_spec (n mod d) 0) as [| Hnz]; [discriminate |].
    destruct (Z.eq_dec k d) as [-> | Hne].
    + intros Hdiv. apply Hnz. apply Z.mod_divide; [lia | assumption].
    + apply (IH (d + 1) n); try assumption; lia.
Qed.

Lemma trial_prime_spec (n : Z) : trial_prime n = true -> Z.prime n.
Proof.
  unfold trial_prime. intros H. apply andb_true_iff in H as [H1 H2].
  apply Z.ltb_lt in H1. split; [assumption |].
  intros k Hk [e He].
  assert (1 < e < n) as Hen by nia.
  destruct (Z.le_gt_cases (k * k) n) as [Hle | Hgt].
  - apply (no_divisor_from_spec _ 2 n ltac:(lia) H2 k); [lia | assumption |].
    exists e. assumption.
  - apply (no_divisor_from_spec _ 2 n ltac:(lia) H2 e); [lia | nia |].
    exists k. lia.
Qed.

Create HintDb primes.

Ltac prime_by_trial := apply trial_prime_spec; vm_compute; reflexivity.

Ltac prime_by_certificate a qs :=
  apply (pocklington _ a qs);
  [ repeat (apply Forall_cons; [solve [auto with primes] |]); apply Forall_nil
  | vm_compute; reflexivity ].

Lemma prime_7 : Z.prime 7. Proof. prime_by_trial. Qed.
Lemma prime_29 : Z.prime 29. Proof. prime_by_trial. Qed.
Lemma prime_53 : Z.prime 53. Proof. prime_by_trial. Qed.
Lemma prime_101 : Z.prime 101. Proof. prime_by_trial. Qed.
Lemma prime_239 : Z.prime 239. Proof. prime_by_trial. Qed.
Lemma prime_20113 : Z.prime 20113. Proof. prime_by_trial. Qed.
#[local] Hint Resolve prime_7 prime_29 prime_53 prime_101 prime_239 prime_20113 : primes.

Lemma prime_96557 : Z.prime 96557.
Proof. prime_by_certificate 2 [239; 101]. Qed.

Lemma prime_1206781 : Z.prime 1206781.
Proof. prime_by_certificate 2 [20113]. Qed.
#[local] Hint Resolve prime_96557 prime_1206781 : primes.

Lemma prime_7240687 : Z.prime 7240687.
Proof. prime_by_certificate 2 [1206781]. Qed.

Lemma prime_107590001 : Z.prime 107590001.
Proof. prime_by_certificate 2 [53; 29; 7]. Qed.
#[local] Hint Resolve prime_7240687 prime_107590001 : primes.

Lemma prime_P_factor_39 : Z.prime 255515944373312847190720520512484175977.
Proof. prime_by_certificate 2 [107590001; 7240687; 96557]. Qed.
#[local] Hint Resolve prime_P_factor_39 : primes.

Lemma prime_P_factor_72 :
  Z.prime 205115282021455665897114700593932402728804164701536103180137503955397371.
Proof. prime_by_certificate 2 [255515944373312847190720520512484175977]. Qed.
#[local] Hint Resolve prime_P_factor_72 : primes.

(** The field modulus is prime. *)
Theorem prime_P : Z.prime CURVE.P.
Proof.
  prime_by_certificate 2
    [205115282021455665897114700593932402728804164701536103180137503955397371].
Qed.

(** ** Claims about field arithmetic *)

Lemma pow2_loop_range (count : nat) (v : Z) :
  0 <= v < CURVE.P -> 0 <= pow2_loop count v < CURVE.P.
Proof.
  revert v. induction count as [| count IH]; intros v Hv; [exact Hv |].
  cbn [pow2_loop]. apply IH.
  rewrite rem_P_nonneg by nia. apply Z.mod_pos_bound, P_pos.
Qed.

Lemma sqrtMod_range (x : Z) : 0 <= x -> 0 <= sqrtMod x < CURVE.P.
Proof.
  intros Hx. unfold sqrtMod. cbv zeta.
  match goal with |- 0 <= pow2 ?t _ < _ => generalize t end.
  intros t. unfold pow2, _2n. change (Z.to_nat 2) with 2%nat.
  cbn [pow2_loop].
  destruct (rem_sign_bounds (t * t) CURVE.P P_pos) as (_ & Hpos & _).
  specialize (Hpos ltac:(nia)).
  set (u := Z.rem (t * t) CURVE.P) in *.
  rewrite rem_P_nonneg by nia. apply Z.mod_pos_bound, P_pos.
Qed.

(** C9: for every field element [x], [sqrtMod x] is [x ^ ((P + 1) / 4) mod P]
    (the addition chain computes exactly this exponent); hence for every
    quadratic residue [x] the square of [sqrtMod x] is [x] modulo [P]. *)
Theorem C9_sqrtMod_exponent_and_root (x : Z) :
  0 <= x < CURVE.P ->
  sqrtMod x = x ^ ((CURVE.P + 1) / 4) mod CURVE.P
  /\ ((exists y, (y * y) mod CURVE.P = x) ->
      (sqrtMod x * sqrtMod x) mod CURVE.P = x).
Proof.
  intros Hx.
  destruct (sqrtMod_pw x ltac:(lia)) as (_ & _ & Epw).
  pose proof (sqrtMod_range x ltac:(lia)) as Hr.
  rewrite Z.mod_small in Epw by assumption.
  split; [exact Epw |].
  intros (y & Hy).
  pose proof P_pos as HP.
  rewrite Epw, <- Z.mul_mod, <- Z.pow_add_r by (try lia; apply Z.div_pos; lia).
  replace ((CURVE.P + 1) / 4 + (CURVE.P + 1) / 4) with ((CURVE.P + 1) / 2) by reflexivity.
  rewrite <- Hy at 1.
  rewrite Z.mod_pow_l, <- Z.pow_2_r, <- Z.pow_mul_r by (try lia; apply Z.div_pos; lia).
  replace (2 * ((CURVE.P + 1) / 2)) with (CURVE.P + 1) by reflexivity.
  rewrite Z.pow_add_r, Z.pow_1_r by lia.
  rewrite <- Z.mul_mod_idemp_l, (ZmodInv.Z.fermat CURVE.P y prime_P) by lia.
  rewrite Z.mul_mod_idemp_l by lia. exact Hy.
Qed.

Lemma C9_witness :
  0 <= 4 < CURVE.P
  /\ (sqrtMod 4 = 4 ^ ((CURVE.P + 1) / 4) mod CURVE.P
      /\ ((exists y, (y * y) mod CURVE.P = 4) -> (sqrtMod 4 * sqrtMod 4) mod CURVE.P = 4)).
Proof.
  assert (0 <= 4 < CURVE.P) as H by (rewrite P_value; lia).
  split; [exact H | exact (C9_sqrtMod_exponent_and_root 4 H)].
Defined.

Lemma Forall2_nth_error {A B : Type} (R : A -> B -> Prop) (l : list A) (l' : list B) :
  Forall2 R l l' ->
  forall i x, nth_error l i = Some x -> exists y, nth_error l' i = Some y /\ R x y.
Proof.
  induction 1 as [| a b l l' Hab _ IH]; intros i x E.
  - destruct i; discriminate.
  - destruct i as [| i]; cbn in *.
    + injection E as <-. eauto.
    + apply IH, E.
Qed.

(** C6: for every list of field elements (residues of a prime modulus),
    [invertBatch] returns a list of the same length in which every zero entry
    stays zero and every other entry is replaced by its modular inverse, the
    value [invert] returns for it, with exactly one call to [invert]. *)
Theorem C6_invertBatch_inverts (m : Z) (nums : list Z) :
  Z.prime m ->
  Forall (fun x => 0 <= x < m) nums ->
  exists out,
    invertBatch nums m = Ok out
    /\ snd (invertBatch_counted nums m O) = 1%nat
    /\ List.length out = List.length nums
    /\ forall i x, nth_error nums i = Some x ->
         exists o, nth_error out i = Some o
                   /\ (x = 0 -> o = 0)
                   /\ (x <> 0 -> (o * x) mod m = 1 /\ invert x m = Ok o).
Proof.
  intros Hp Hnums.
  destruct (invertBatch_counted_spec m nums Hp Hnums) as (out & E & Hall).
  pose proof (Z.prime_ge_2 m Hp) as Hm.
  exists out. unfold invertBatch. rewrite E. cbn [fst snd].
  repeat split.
  - symmetry. eapply Forall2_length, Hall.
  - intros i x Ei.
    destruct (Forall2_nth_error _ _ _ Hall i x Ei) as (o & Eo & Hr).
    exists o. split; [assumption |].
    destruct Hr as [[-> ->] | (Hnz & Ho & Hinv)]; split; try tauto.
    intros _. split; [assumption |].
    rewrite Forall_forall in Hnums. pose proof (Hnums x (nth_error_In _ _ Ei)) as Hx.
    destruct (residue_coprime m x Hp Hx) as [? | Hg]; [contradiction |].
    destruct (invert_spec x m ltac:(lia) Hg) as (y & Ey & Hy & Hyx).
    rewrite Ey. f_equal. eapply inverse_unique; eauto. lia.
Qed.

Lemma C6_witness :
  Z.prime CURVE.P /\ Forall (fun x => 0 <= x < CURVE.P) [2; 0; 3]
  /\ exists out,
      invertBatch [2; 0; 3] CURVE.P = Ok out
      /\ snd (invertBatch_counted [2; 0; 3] CURVE.P O) = 1%nat
      /\ List.length out = List.length [2; 0; 3]
      /\ forall i x, nth_error [2; 0; 3] i = Some x ->
           exists o, nth_error out i = Some o
                     /\ (x = 0 -> o = 0)
                     /\ (x <> 0 -> (o * x) mod CURVE.P = 1 /\ invert x CURVE.P = Ok o).
Proof.
  assert (Forall (fun x => 0 <= x < CURVE.P) [2; 0; 3]) as H
    by (rewrite P_value; repeat constructor; lia).
  split; [exact prime_P |].
  split; [exact H |].
  exact (C6_invertBatch_inverts CURVE.P [2; 0; 3] prime_P H).
Defined.

(** ** Hexadecimal strings and bytes *)

Lemma str_app_assoc (s1 s2 s3 : string) :
  ((s1 ++ s2) ++ s3 = s1 ++ (s2 ++ s3))%string.
Proof. induction s1 as [| c s1 IH]; cbn; [reflexivity | rewrite IH; reflexivity]. Qed.

Lemma str_app_nil_r (s : string) : (s ++ EmptyString)%string = s.
Proof. induction s as [| c s IH]; cbn; [reflexivity | rewrite IH; reflexivity]. Qed.

Lemma str_app_length (s1 s2 : string) :
  String.length (s1 ++ s2) = (String.length s1 + String.length s2)%nat.
Proof. induction s1 as [| c s1 IH]; cbn; [reflexivity | rewrite IH; reflexivity]. Qed.

Lemma byte_to_Z_range (b : byte) : 0 <= byte_to_Z b < 256.
Proof.
  unfold byte_to_Z. pose proof (Byte.to_N_bounded b). lia.
Qed.

Lemma byte_of_to_Z (b : byte) : byte_of_Z (byte_to_Z b) = b.
Proof.
  unfold byte_of_Z. rewrite Z.mod_small by apply byte_to_Z_range.
  unfold byte_to_Z. rewrite N2Z.id, Byte.of_to_N. reflexivity.
Qed.

Lemma byte_to_of_Z (z : Z) : 0 <= z < 256 -> byte_to_Z (byte_of_Z z) = z.
Proof.
  intros Hz. unfold byte_of_Z, byte_to_Z. rewrite Z.mod_small by assumption.
  destruct (Byte.of_N (Z.to_N z)) as [b |] eqn:E.
  - apply Byte.to_of_N in E. rewrite E. lia.
  - apply Byte.of_N_None_iff in E. lia.
Qed.

Lemma hexDigitValue_hexDigit (d : Z) : is_digit d -> hexDigitValue (hexDigit d) = Some d.
Proof.
  unfold is_digit. intros Hd.
  assert (d = 0 \/ d = 1 \/ d = 2 \/ d = 3 \/ d = 4 \/ d = 5 \/ d = 6 \/ d = 7 \/ d = 8
          \/ d = 9 \/ d = 10 \/ d = 11 \/ d = 12 \/ d = 13 \/ d = 14 \/ d = 15) as H by lia.
  repeat (destruct H as [-> | H]; [reflexivity |]). subst. reflexivity.
Qed.

Lemma hexDigit_not_space (d : Z) : is_digit d -> isWhiteSpace (hexDigit d) = false.
Proof.
  unfold is_digit. intros Hd.
  assert (d = 0 \/ d = 1 \/ d = 2 \/ d = 3 \/ d = 4 \/ d = 5 \/ d = 6 \/ d = 7 \/ d = 8
          \/ d = 9 \/ d = 10 \/ d = 11 \/ d = 12 \/ d = 13 \/ d = 14 \/ d = 15) as H by lia.
  repeat (destruct H as [-> | H]; [reflexivity |]). subst. reflexivity.
Qed.

(** *** Strings of digits *)

Lemma digits_str_app (ds ds' : list Z) :
  digits_str (ds ++ ds') = (digits_str ds ++ digits_str ds')%string.
Proof. induction ds as [| d ds IH]; cbn; [reflexivity | rewrite IH; reflexivity]. Qed.

Lemma digits_str_length (ds : list Z) : String.length (digits_str ds) = List.length ds.
Proof. induction ds as [| d ds IH]; cbn; [reflexivity | rewrite IH; reflexivity]. Qed.

Lemma digits_value_from_app (ds ds' : list Z) (acc : Z) :
  digits_value_from acc (ds ++ ds') = digits_value_from (digits_value_from acc ds) ds'.
Proof. revert acc. induction ds as [| d ds IH]; intros acc; cbn; [reflexivity | apply IH]. Qed.

Lemma digits_value_from_acc (ds : list Z) (acc : Z) :
  digits_value_from acc ds = acc * 16 ^ Z.of_nat (List.length ds) + digits_value ds.
Proof.
  unfold digits_value. revert acc. induction ds as [| d ds IH]; intros acc.
  - cbn. lia.
  - cbn [digits_value_from List.length]. rewrite IH, (IH (0 * 16 + d)).
    rewrite Nat2Z.inj_succ, Z.pow_succ_r by lia. lia.
Qed.

Lemma digits_value_range (ds : list Z) :
  Forall is_digit ds -> 0 <= digits_value ds < 16 ^ Z.of_nat (List.length ds).
Proof.
  induction 1 as [| d ds Hd _ IH].
  - cbn. lia.
  - unfold digits_value. cbn [digits_value_from List.length].
    rewrite digits_value_from_acc, Nat2Z.inj_succ, Z.pow_succ_r by lia.
    unfold is_digit in Hd. 
    assert (0 < 16 ^ Z.of_nat (List.length ds)) by (apply Z.pow_pos_nonneg; lia).
    nia.
Qed.

(** A digit string whose first digit is not zero stands for a number with
    exactly that many digits. *)
Lemma digits_value_lower (ds : list Z) (d : Z) :
  is_digit d -> d <> 0 -> Forall is_digit ds ->
  16 ^ Z.of_nat (List.length ds) <= digits_value (d :: ds).
Proof.
  intros Hd Hnz Hds. unfold digits_value. cbn [digits_value_from].
  rewrite digits_value_from_acc.
  pose proof (digits_value_range ds Hds).
  assert (0 < 16 ^ Z.of_nat (List.length ds)) by (apply Z.pow_pos_nonneg; lia).
  unfold is_digit in Hd. nia.
Qed.

Lemma readHexDigits_digits (ds : list Z) :
  Forall is_digit ds ->
  forall acc count,
    readHexDigits (digits_str ds) acc count
    = (digits_value_from acc ds, (count + List.length ds)%nat, EmptyString).
Proof.
  induction 1 as [| d ds Hd _ IH]; intros acc count.
  - cbn. rewrite Nat.add_0_r. reflexivity.
  - cbn [digits_str readHexDigits]. rewrite hexDigitValue_hexDigit by assumption.
    rewrite IH. cbn [digits_value_from List.length]. f_equal. f_equal. lia.
Qed.

Lemma forallb_digits (ds : list Z) :
  Forall is_digit ds -> str_forallb isHexDigit (digits_str ds) = true.
Proof.
  induction 1 as [| d ds Hd _ IH]; [reflexivity |].
  cbn [digits_str str_forallb]. unfold isHexDigit at 1.
  rewrite hexDigitValue_hexDigit by assumption. exact IH.
Qed.

Lemma trimEnd_digits (ds : list Z) :
  Forall is_digit ds -> trimEnd (digits_str ds) = digits_str ds.
Proof.
  induction 1 as [| d ds Hd Hds IH]; [reflexivity |].
  cbn [digits_str trimEnd]. rewrite IH.
  rewrite hexDigit_not_space by assumption.
  destruct ds; reflexivity.
Qed.

(** [BigInt] reads back a non-empty string of digits. *)
Lemma hexToNumber_digits (ds : list Z) :
  Forall is_digit ds -> ds <> [] -> hexToNumber (digits_str ds) = Ok (digits_value ds).
Proof.
  intros Hds Hne. unfold hexToNumber.
  rewrite trimEnd_digits by assumption.
  destruct ds as [| d ds]; [contradiction |].
  change (digits_str (d :: ds)) with (String (hexDigit d) (digits_str ds)) at 1.
  cbv iota.
  rewrite forallb_digits, readHexDigits_digits by assumption.
  reflexivity.
Qed.

(** *** [toString(16)] *)

Lemma digit_mod16 (num : Z) : is_digit (num mod 16).
Proof. unfold is_digit. apply Z.mod_pos_bound. lia. Qed.

(** With enough fuel the digit loop writes the digits of [num], most
    significant first and without a leading zero, in front of [acc]. *)
Lemma toString16_loop_digits (fuel : nat) :
  forall num acc,
    0 <= num < 16 ^ Z.of_nat (S fuel) ->
    exists d ds,
      toString16_loop (S fuel) num acc = (digits_str (d :: ds) ++ acc)%string
      /\ Forall is_digit (d :: ds)
      /\ digits_value (d :: ds) = num
      /\ (0 < num -> d <> 0).
Proof.
  assert (forall num acc, 0 <= num < 16 ->
            exists d ds,
              String (hexDigit (num mod 16)) acc = (digits_str (d :: ds) ++ acc)%string
              /\ Forall is_digit (d :: ds)
              /\ digits_value (d :: ds) = num
              /\ (0 < num -> d <> 0)) as Hsmall.
  { intros num acc Hlt. exists num, []. rewrite Z.mod_small by lia.
    split; [reflexivity |].
    split; [constructor; [unfold is_digit; lia | constructor] |].
    split; [unfold digits_value; cbn; lia | lia]. }
  induction fuel as [| fuel IH]; intros num acc Hnum.
  - change (16 ^ Z.of_nat 1) with 16 in Hnum. cbn [toString16_loop]. cbv zeta.
    destruct (Z.ltb_spec num 16) as [Hlt | Hge]; [| lia].
    apply Hsmall. lia.
  - remember (S fuel) as fuel' eqn:Ef. cbn [toString16_loop]. cbv zeta.
    destruct (Z.ltb_spec num 16) as [Hlt | Hge].
    + apply Hsmall. lia.
    + subst fuel'. rewrite Nat2Z.inj_succ, Z.pow_succ_r in Hnum by lia.
      destruct (IH (num / 16) (String (hexDigit (num mod 16)) acc)) as (d & ds & E & Hds & Hv & Hnz).
      { split; [apply Z.div_pos; lia | apply Z.div_lt_upper_bound; lia]. }
      exists d, (ds ++ [num mod 16]).
      rewrite E. split; [| split; [| split]].
      * change (d :: ds ++ [num mod 16]) with ((d :: ds) ++ [num mod 16]).
        rewrite digits_str_app. cbn [digits_str]. rewrite str_app_assoc. reflexivity.
      * change (d :: ds ++ [num mod 16]) with ((d :: ds) ++ [num mod 16]).
        apply Forall_app. split; [assumption | constructor; [apply digit_mod16 | constructor]].
      * change (d :: ds ++ [num mod 16]) with ((d :: ds) ++ [num mod 16]).
        unfold digits_value in *. rewrite digits_value_from_app, Hv. cbn.
        pose proof (Z.div_mod num 16). lia.
      * intros _. apply Hnz. apply Z.div_str_pos. lia.
Qed.

Lemma toString16_fuel (num : Z) : 0 <= num -> num < 16 ^ Z.of_nat (S (Z.to_nat (Z.log2 num))).
Proof.
  intros Hnum. pose proof (Z.log2_nonneg num).
  rewrite Nat2Z.inj_succ, Z2Nat.id by assumption.
  destruct (Z.eq_dec num 0) as [-> | Hnz].
  - cbn. lia.
  - pose proof (Z.log2_spec num ltac:(lia)) as [_ Hup].
    eapply Z.lt_le_trans; [exact Hup |].
    apply Z.pow_le_mono_l. lia.
Qed.

Lemma toString16_digits (num : Z) :
  0 <= num ->
  exists d ds,
    toString16 num = digits_str (d :: ds)
    /\ Forall is_digit (d :: ds)
    /\ digits_value (d :: ds) = num
    /\ (0 < num -> d <> 0).
Proof.
  intros Hnum. unfold toString16.
  destruct (Z.ltb_spec num 0); [lia |].
  destruct (toString16_loop_digits (Z.to_nat (Z.log2 num)) num EmptyString
              (conj Hnum (toString16_fuel num Hnum)))
    as (d & ds & E & H').
  exists d, ds. rewrite E.
  split; [apply str_app_nil_r | exact H'].
Qed.

Lemma Z_parity_of_nat (k : nat) :
  Z.even (Z.of_nat k) = Nat.even k /\ Z.odd (Z.of_nat k) = Nat.odd k.
Proof.
  induction k as [| k [IHe IHo]]; [split; reflexivity |].
  rewrite Nat2Z.inj_succ, Z.even_succ, Z.odd_succ, Nat.even_succ, Nat.odd_succ. auto.
Qed.

(** [numberToHex] writes an even number of digits: the digits of [num],
    after one zero if there is an odd number of them. *)
Lemma numberToHex_digits (num : Z) :
  0 <= num ->
  exists ds,
    numberToHex num = digits_str ds
    /\ Forall is_digit ds
    /\ Nat.even (List.length ds) = true
    /\ digits_value ds = num
    /\ (0 < num -> exists d1 d2 rest, ds = d1 :: d2 :: rest /\ 16 * d1 + d2 <> 0)
    /\ ds <> [].
Proof.
  intros Hnum. unfold numberToHex.
  destruct (toString16_digits num Hnum) as (d & ds & E & Hds & Hv & Hnz).
  rewrite E. cbv zeta. unfold str_length. rewrite digits_str_length.
  rewrite (proj2 (Z_parity_of_nat _)).
  destruct (Nat.odd (List.length (d :: ds))) eqn:Hodd.
  - exists (0 :: d :: ds).
    split; [reflexivity |].
    split; [constructor; [unfold is_digit; lia | assumption] |].
    split; [change (List.length (0 :: d :: ds)) with (S (List.length (d :: ds)));
            rewrite Nat.even_succ; exact Hodd |].
    split; [unfold digits_value in *; cbn [digits_value_from] in *; exact Hv |].
    split; [| discriminate].
    intros Hpos. exists 0, d, ds. split; [reflexivity |].
    inversion Hds as [| ? ? Hd _]; subst. unfold is_digit in Hd. specialize (Hnz Hpos). lia.
  - exists (d :: ds).
    split; [reflexivity |].
    split; [assumption |].
    split; [rewrite <- Nat.negb_odd, Hodd; reflexivity |].
    split; [assumption |].
    split; [| discriminate].
    intros Hpos. specialize (Hnz Hpos).
    destruct ds as [| d2 rest].
    + exfalso. cbn in Hodd. discriminate.
    + exists d, d2, rest. split; [reflexivity |].
      inversion Hds as [| ? ? Hd Hrest]; subst. inversion Hrest as [| ? ? Hd2 _]; subst.
      unfold is_digit in *. lia.
Qed.

(** *** Bytes and pairs of digits *)

Lemma pair_induction {A : Type} (P : list A -> Prop) :
  P [] ->
  (forall a b l, P l -> P (a :: b :: l)) ->
  forall l, Nat.even (List.length l) = true -> P l.
Proof.
  intros Hnil Hpair l.
  assert (forall n l, (List.length l <= n)%nat -> Nat.even (List.length l) = true -> P l) as H.
  { induction n as [| n IH]; intros l' Hlen Hev.
    - destruct l'; [exact Hnil | cbn in Hlen; lia].
    - destruct l' as [| a [| b l']]; [exact Hnil | discriminate |].
      apply Hpair, IH; [cbn in Hlen; lia | exact Hev]. }
  apply (H (List.length l)). lia.
Qed.

Lemma byte_digits (b : byte) :
  is_digit (byte_to_Z b / 16) /\ is_digit (byte_to_Z b mod 16).
Proof.
  pose proof (byte_to_Z_range b). unfold is_digit. split.
  - split; [apply Z.div_pos; lia | apply Z.div_lt_upper_bound; lia].
  - apply Z.mod_pos_bound. lia.
Qed.

Lemma digits_of_bytes_digits (bytes : list byte) : Forall is_digit (digits_of_bytes bytes).
Proof.
  induction bytes as [| b rest IH]; [constructor |].
  cbn [digits_of_bytes]. destruct (byte_digits b).
  apply Forall_cons; [assumption |]. apply Forall_cons; assumption.
Qed.

Lemma digits_of_bytes_length (bytes : list byte) :
  List.length (digits_of_bytes bytes) = (2 * List.length bytes)%nat.
Proof. induction bytes as [| b rest IH]; cbn [digits_of_bytes List.length]; lia. Qed.

Lemma hex_of_bytes_digits (bytes : list byte) :
  hex_of_bytes bytes = digits_str (digits_of_bytes bytes).
Proof.
  induction bytes as [| b rest IH]; [reflexivity |].
  cbn [hex_of_bytes digits_of_bytes digits_str]. rewrite IH. reflexivity.
Qed.

Lemma digits_value_of_bytes (bytes : list byte) (acc : Z) :
  digits_value_from acc (digits_of_bytes bytes) = be_value_from acc bytes.
Proof.
  revert acc. induction bytes as [| b rest IH]; intros acc; [reflexivity |].
  cbn [digits_of_bytes digits_value_from be_value_from]. rewrite IH. f_equal.
  pose proof (Z.div_mod (byte_to_Z b) 16). lia.
Qed.

Lemma bytes_of_digits_of_bytes (bytes : list byte) :
  bytes_of_digits (digits_of_bytes bytes) = bytes.
Proof.
  induction bytes as [| b rest IH]; [reflexivity |].
  cbn [digits_of_bytes bytes_of_digits]. rewrite IH. f_equal.
  rewrite <- (byte_of_to_Z b) at 3. f_equal.
  pose proof (Z.div_mod (byte_to_Z b) 16). lia.
Qed.

Lemma digits_of_bytes_of_digits (ds : list Z) :
  Forall is_digit ds -> Nat.even (List.length ds) = true ->
  digits_of_bytes (bytes_of_digits ds) = ds.
Proof.
  intros Hds Hev. revert Hds. pattern ds. apply pair_induction; [reflexivity | | exact Hev].
  intros d1 d2 l IH Hds.
  inversion Hds as [| ? ? H1 Hds']; subst. inversion Hds' as [| ? ? H2 Hl]; subst.
  cbn [bytes_of_digits digits_of_bytes]. unfold is_digit in *.
  rewrite byte_to_of_Z by lia. rewrite IH by assumption.
  replace ((16 * d1 + d2) / 16) with d1
    by (apply Z.div_unique with (r := d2); lia).
  replace ((16 * d1 + d2) mod 16) with d2
    by (apply Z.mod_unique with (q := d1); lia).
  reflexivity.
Qed.

Lemma bytes_of_digits_length (ds : list Z) :
  Nat.even (List.length ds) = true ->
  (2 * List.length (bytes_of_digits ds) = List.length ds)%nat.
Proof.
  intros Hev. pattern ds. apply pair_induction; [reflexivity | | exact Hev].
  intros d1 d2 l IH. cbn [bytes_of_digits List.length]. lia.
Qed.

(** *** [bytesToHex], [bytesToNumber] and [hexToBytes] *)

Lemma hexes_nth (b : byte) :
  nth (Z.to_nat (byte_to_Z b)) hexes EmptyString = hex2 b.
Proof. destruct b; reflexivity. Qed.

Lemma bytesToHex_spec (bytes : list byte) : bytesToHex bytes = hex_of_bytes bytes.
Proof.
  unfold bytesToHex.
  assert (forall acc,
           fold_left (fun hex b => (hex ++ nth (Z.to_nat (byte_to_Z b)) hexes EmptyString)%string)
             bytes acc = (acc ++ hex_of_bytes bytes)%string) as H.
  { induction bytes as [| b rest IH]; intros acc.
    - cbn. rewrite str_app_nil_r. reflexivity.
    - cbn [fold_left hex_of_bytes]. rewrite IH, hexes_nth, str_app_assoc. reflexivity. }
  apply H.
Qed.

(** [bytesToNumber] reads a non-empty byte string as a big-endian number. *)
Lemma bytesToNumber_spec (bytes : list byte) :
  bytes <> [] -> bytesToNumber bytes = Ok (be_value bytes).
Proof.
  intros Hne. unfold bytesToNumber.
  rewrite bytesToHex_spec, hex_of_bytes_digits.
  rewrite hexToNumber_digits.
  - unfold digits_value, be_value. rewrite digits_value_of_bytes. reflexivity.
  - apply digits_of_bytes_digits.
  - destruct bytes; [contradiction | discriminate].
Qed.

Lemma bytesToNumber_empty : bytesToNumber [] = Throw (SyntaxError "Cannot convert 0x to a BigInt").
Proof. reflexivity. Qed.

Lemma sixteen_cases (d : Z) :
  is_digit d ->
  d = 0 \/ d = 1 \/ d = 2 \/ d = 3 \/ d = 4 \/ d = 5 \/ d = 6 \/ d = 7 \/ d = 8
  \/ d = 9 \/ d = 10 \/ d = 11 \/ d = 12 \/ d = 13 \/ d = 14 \/ d = 15.
Proof. unfold is_digit. lia. Qed.

Ltac digit_cases d H :=
  let C := fresh "C" in
  pose proof (sixteen_cases d H) as C;
  repeat (destruct C as [-> | C]); [.. | subst d].

Lemma parseInt16_digit (d : Z) :
  is_digit d -> parseInt16 (digits_str [d]) = Some d.
Proof. intros H. digit_cases d H; reflexivity. Qed.

Lemma parseInt16_two_digits (d1 d2 : Z) :
  is_digit d1 -> is_digit d2 -> parseInt16 (digits_str [d1; d2]) = Some (16 * d1 + d2).
Proof. intros H1 H2. digit_cases d1 H1; digit_cases d2 H2; reflexivity. Qed.

Lemma hexToBytes_loop_digits (ds : list Z) :
  Forall is_digit ds -> Nat.even (List.length ds) = true ->
  hexToBytes_loop (digits_str ds) = Ok (bytes_of_digits ds).
Proof.
  intros Hds Hev. revert Hds. pattern ds. apply pair_induction; [reflexivity | | exact Hev].
  intros d1 d2 l IH Hds.
  inversion Hds as [| ? ? H1 Hds']; subst. inversion Hds' as [| ? ? H2 Hl]; subst.
  cbn [digits_str hexToBytes_loop].
  change (String (hexDigit d1) (String (hexDigit d2) EmptyString)) with (digits_str [d1; d2]).
  rewrite parseInt16_two_digits by assumption.
  unfold is_digit in *.
  destruct (Z.ltb_spec (16 * d1 + d2) 0); [lia |].
  rewrite IH by assumption. reflexivity.
Qed.

Lemma hexToBytes_digits (ds : list Z) :
  Forall is_digit ds -> Nat.even (List.length ds) = true ->
  hexToBytes (digits_str ds) = Ok (bytes_of_digits ds).
Proof.
  intros Hds Hev. unfold hexToBytes, str_length. rewrite digits_str_length.
  assert (Z.of_nat (List.length ds) mod 2 = 0) as ->.
  { pose proof (proj1 (Z_parity_of_nat (List.length ds))) as E. rewrite Hev in E.
    apply Z.even_spec in E. destruct E as [k ->]. rewrite Z.mul_comm. apply Z.mod_mul. lia. }
  cbn [Z.eqb negb]. apply hexToBytes_loop_digits; assumption.
Qed.

(** [hexToBytes] reads back what [bytesToHex] writes. *)
Lemma hexToBytes_bytesToHex (bytes : list byte) : hexToBytes (bytesToHex bytes) = Ok bytes.
Proof.
  rewrite bytesToHex_spec, hex_of_bytes_digits, hexToBytes_digits.
  - rewrite bytes_of_digits_of_bytes. reflexivity.
  - apply digits_of_bytes_digits.
  - rewrite digits_of_bytes_length. apply Nat.even_even.
Qed.

(** ** The DER codec *)

Lemma hex_of_bytes_app (a b : list byte) :
  hex_of_bytes (a ++ b) = (hex_of_bytes a ++ hex_of_bytes b)%string.
Proof.
  induction a as [| x a IH]; [reflexivity |].
  cbn [app hex_of_bytes]. rewrite IH, str_app_assoc. reflexivity.
Qed.

Lemma hex_of_bytes_length (bytes : list byte) :
  str_length (hex_of_bytes bytes) = 2 * Z.of_nat (List.length bytes).
Proof.
  unfold str_length. rewrite hex_of_bytes_digits, digits_str_length, digits_of_bytes_length. lia.
Qed.

Lemma numberToHex_byte (b : byte) : numberToHex (byte_to_Z b) = hex2 b.
Proof. destruct b; reflexivity. Qed.

Lemma numberToHex_small (z : Z) :
  0 <= z < 256 -> numberToHex z = hex_of_bytes [byte_of_Z z].
Proof.
  intros Hz. rewrite <- (byte_to_of_Z z Hz) at 1. rewrite numberToHex_byte.
  cbn [hex_of_bytes]. rewrite str_app_nil_r. reflexivity.
Qed.

Lemma be_value_from_acc (bytes : list byte) (acc : Z) :
  be_value_from acc bytes = acc * 256 ^ Z.of_nat (List.length bytes) + be_value bytes.
Proof.
  unfold be_value. revert acc. induction bytes as [| b rest IH]; intros acc.
  - cbn. lia.
  - cbn [be_value_from List.length]. rewrite IH, (IH (0 * 256 + byte_to_Z b)).
    rewrite Nat2Z.inj_succ, Z.pow_succ_r by lia. lia.
Qed.

Lemma be_value_zero_prefix (bytes : list byte) : be_value (x00 :: bytes) = be_value bytes.
Proof. reflexivity. Qed.

(** The digits [numberToHex] writes for a positive number are those of its
    minimal big-endian bytes. *)
Lemma numberToHex_bytes (v : Z) (k : nat) :
  0 < v < 16 ^ Z.of_nat k ->
  exists bytes,
    numberToHex v = hex_of_bytes bytes
    /\ minimal_be v bytes
    /\ (2 * List.length bytes <= S k)%nat.
Proof.
  intros Hv.
  destruct (numberToHex_digits v ltac:(lia)) as (ds & E & Hds & Hev & Hval & Hfirst & _).
  destruct (Hfirst ltac:(lia)) as (d1 & d2 & rest & -> & Hnz).
  exists (bytes_of_digits (d1 :: d2 :: rest)).
  pose proof Hds as Hds0.
  apply Forall_cons_iff in Hds0 as [H1 Hds'].
  pose proof Hds' as Hds1.
  apply Forall_cons_iff in Hds1 as [H2 Hrest].
  split; [| split].
  - rewrite E, hex_of_bytes_digits, digits_of_bytes_of_digits by assumption. reflexivity.
  - split.
    + unfold be_value. rewrite <- digits_value_of_bytes.
      rewrite digits_of_bytes_of_digits by assumption. exact Hval.
    + cbn [bytes_of_digits hd]. unfold is_digit in *. rewrite byte_to_of_Z by lia. lia.
  - rewrite bytes_of_digits_length by assumption.
    (* the first digit that is not zero bounds the number from below *)
    cbn [List.length].
    destruct (Z.eq_dec d1 0) as [-> | Hd1].
    + assert (d2 <> 0) as Hd2 by lia.
      pose proof (digits_value_lower rest d2 H2 Hd2 Hrest) as Hlow.
      assert (digits_value (0 :: d2 :: rest) = digits_value (d2 :: rest)) as E0 by reflexivity.
      rewrite E0 in Hval. rewrite Hval in Hlow.
      assert (Z.of_nat (List.length rest) < Z.of_nat k) as Hlt.
      { apply (Z.pow_lt_mono_r_iff 16); lia. }
      lia.
    + pose proof (digits_value_lower (d2 :: rest) d1 H1 Hd1 Hds') as Hlow.
      rewrite Hval in Hlow.
      assert (Z.of_nat (List.length (d2 :: rest)) < Z.of_nat k) as Hlt.
      { apply (Z.pow_lt_mono_r_iff 16); lia. }
      cbn [List.length] in Hlt. lia.
Qed.

Lemma hex_of_bytes_first (b : byte) (rest : list byte) :
  hex_of_bytes (b :: rest)
  = String (hexDigit (byte_to_Z b / 16))
      (String (hexDigit (byte_to_Z b mod 16)) (hex_of_bytes rest)).
Proof. reflexivity. Qed.

(** [sliceDER] puts a zero byte in front iff the first byte has its most
    significant bit set. *)
Lemma sliceDER_bytes (bytes : list byte) :
  sliceDER (hex_of_bytes bytes)
  = hex_of_bytes (if 0x80 <=? byte_to_Z (hd x00 bytes) then x00 :: bytes else bytes).
Proof.
  destruct bytes as [| b rest]; [reflexivity |].
  rewrite hex_of_bytes_first. cbn [sliceDER hd].
  destruct (byte_digits b) as [Hhi _].
  change (String (hexDigit (byte_to_Z b / 16)) EmptyString)
    with (digits_str [byte_to_Z b / 16]).
  rewrite parseInt16_digit by assumption.
  pose proof (byte_to_Z_range b) as Hb.
  assert ((8 <=? byte_to_Z b / 16) = (0x80 <=? byte_to_Z b)) as ->.
  { destruct (Z.leb_spec 8 (byte_to_Z b / 16)) as [H | H];
      destruct (Z.leb_spec 0x80 (byte_to_Z b)) as [H' | H']; try reflexivity; exfalso.
    - pose proof (Z.div_lt_upper_bound (byte_to_Z b) 16 8 ltac:(lia) ltac:(lia)). lia.
    - pose proof (Z.div_le_lower_bound (byte_to_Z b) 16 8 ltac:(lia) ltac:(lia)). lia. }
  destruct (0x80 <=? byte_to_Z b); reflexivity.
Qed.

(** The payload that [toDERHex] writes for a scalar. *)
Lemma sliceDER_payload (v : Z) :
  0 < v < 2 ^ 256 ->
  exists payload,
    sliceDER (numberToHex v) = hex_of_bytes payload
    /\ DER_payload v payload
    /\ (0 < List.length payload <= 33)%nat.
Proof.
  intros Hv.
  destruct (numberToHex_bytes v 64 Hv) as (bytes & E & Hmin & Hlen).
  exists (if 0x80 <=? byte_to_Z (hd x00 bytes) then x00 :: bytes else bytes).
  split; [rewrite E; apply sliceDER_bytes |].
  split; [exists bytes; split; [assumption | reflexivity] |].
  destruct Hmin as [_ Hhd].
  destruct bytes as [| b rest]; [cbn in Hhd; lia |].
  destruct (0x80 <=? byte_to_Z (hd x00 (b :: rest))); cbn [List.length] in *; lia.
Qed.

Lemma byte_to_Z_inj (a b : byte) : byte_to_Z a = byte_to_Z b -> a = b.
Proof.
  intros E. rewrite <- (byte_of_to_Z a), <- (byte_of_to_Z b), E. reflexivity.
Qed.

Lemma firstn_app_exact {A : Type} (l l' : list A) : firstn (List.length l) (l ++ l') = l.
Proof. induction l as [| x l IH]; cbn; [destruct l'; reflexivity | rewrite IH; reflexivity]. Qed.

Lemma skipn_app_exact {A : Type} (l l' : list A) : skipn (List.length l) (l ++ l') = l'.
Proof. induction l as [| x l IH]; cbn; [reflexivity | exact IH]. Qed.

(** [parseDERInt] reads back a DER integer whose payload passes the
    minimality check, and returns what follows it. *)
Lemma parseDERInt_DER_integer (payload rest : list byte) :
  (0 < List.length payload < 256)%nat ->
  DER_minimal payload = true ->
  parseDERInt (DER_integer payload ++ rest) = Ok (be_value payload, rest).
Proof.
  intros Hlen Hmin. unfold DER_integer, parseDERInt. cbn [app].
  change (byte_to_Z x02 =? 2) with true. cbn [negb].
  rewrite byte_to_of_Z by lia. rewrite Nat2Z.id.
  unfold bytes_slice, bytes_slice_from.
  replace (List.length payload + 2 - 2)%nat with (List.length payload) by lia.
  replace (List.length payload + 2)%nat with (S (S (List.length payload))) by lia.
  cbn [skipn]. rewrite firstn_app_exact, skipn_app_exact.
  destruct (Z.eqb_spec (Z.of_nat (List.length payload)) 0); [lia |].
  rewrite Nat.eqb_refl. cbn [negb orb].
  unfold DER_minimal in Hmin.
  assert ((match payload with
           | res0 :: res1 :: _ => (byte_to_Z res0 =? 0) && (byte_to_Z res1 <=? 127)
           | _ => false
           end) = false) as ->.
  { destruct payload as [| b0 [| b1 ?]]; try reflexivity.
    apply negb_true_iff in Hmin. exact Hmin. }
  rewrite bytesToNumber_spec by (destruct payload; [cbn in Hlen; lia | discriminate]).
  reflexivity.
Qed.

Lemma parseDERSignature_DER_sequence (rp sp : list byte) :
  (0 < List.length rp)%nat -> (0 < List.length sp)%nat ->
  (List.length rp + List.length sp + 4 < 256)%nat ->
  DER_minimal rp = true -> DER_minimal sp = true ->
  parseDERSignature (DER_sequence (DER_integer rp ++ DER_integer sp))
  = Ok (be_value rp, be_value sp).
Proof.
  intros Hr Hs Hlen Hmr Hms. unfold DER_sequence, parseDERSignature.
  change (byte_to_Z x30 =? 48) with true. cbn [negb].
  assert (List.length (DER_integer rp ++ DER_integer sp)
          = (List.length rp + List.length sp + 4)%nat) as El.
  { rewrite length_app. unfold DER_integer. cbn [List.length]. lia. }
  rewrite byte_to_of_Z by (rewrite El; lia).
  unfold bytes_length. cbn [List.length].
  destruct (Z.eqb_spec (Z.of_nat (List.length (DER_integer rp ++ DER_integer sp)))
              (Z.of_nat (S (S (List.length (DER_integer rp ++ DER_integer sp)))) - 2));
    [| lia].
  cbn [negb]. unfold bytes_slice_from. cbn [skipn].
  rewrite parseDERInt_DER_integer by (assumption || lia). cbn [bind].
  rewrite <- (app_nil_r (DER_integer sp)).
  rewrite parseDERInt_DER_integer by (assumption || lia). cbn [bind].
  reflexivity.
Qed.

Lemma DER_payload_minimal (v : Z) (payload : list byte) :
  DER_payload v payload -> DER_minimal payload = true /\ be_value payload = v.
Proof.
  intros (bytes & [Hval Hhd] & ->).
  destruct bytes as [| b rest]; [cbn in Hhd; lia |]. cbn [hd] in *.
  destruct (Z.leb_spec 0x80 (byte_to_Z b)) as [Hmsb | Hmsb].
  - split; [| exact Hval]. cbn [DER_minimal].
    change (byte_to_Z x00 =? 0) with true. cbn [andb].
    destruct (Z.leb_spec (byte_to_Z b) 127); [lia | reflexivity].
  - split; [| exact Hval]. unfold DER_minimal.
    destruct rest as [| b1 rest]; [reflexivity |].
    destruct (Z.eqb_spec (byte_to_Z b) 0); [lia | reflexivity].
Qed.

(** What [toDERHex] writes is the hexadecimal form of the DER sequence of
    the two integers. *)
Lemma toDERHex_layout (r s : Z) :
  0 < r < 2 ^ 256 -> 0 < s < 2 ^ 256 ->
  exists rp sp,
    DER_payload r rp /\ DER_payload s sp
    /\ (0 < List.length rp <= 33)%nat /\ (0 < List.length sp <= 33)%nat
    /\ Signature_toDERHex (mkSignature r s) false
       = hex_of_bytes (DER_sequence (DER_integer rp ++ DER_integer sp)).
Proof.
  intros Hr Hs.
  destruct (sliceDER_payload r Hr) as (rp & Er & Hrp & Hrl).
  destruct (sliceDER_payload s Hs) as (sp & Es & Hsp & Hsl).
  exists rp, sp. repeat (split; [assumption || lia |]).
  unfold Signature_toDERHex. cbn [sig_r sig_s]. cbv zeta.
  rewrite Er, Es, !hex_of_bytes_length.
  rewrite !(Z.mul_comm 2), !Z.div_mul by lia.
  rewrite !numberToHex_small by lia.
  unfold DER_sequence, DER_integer.
  rewrite length_app. cbn [List.length].
  replace (Z.of_nat (S (S (List.length rp)) + S (S (List.length sp))))
    with (Z.of_nat (List.length rp) + Z.of_nat (List.length sp) + 4) by lia.
  change "30"%string with (hex_of_bytes [x30]).
  change "02"%string with (hex_of_bytes [x02]).
  rewrite <- !hex_of_bytes_app. reflexivity.
Qed.

Lemma bind_not_ok {A B : Type} (r : result A) (k : A -> result B) :
  is_ok r = false -> is_ok (bind r k) = false.
Proof. destruct r; [discriminate | reflexivity]. Qed.

Lemma parseDERSignature_wrong_tag (data : list byte) :
  hd_error data <> Some x30 -> is_ok (parseDERSignature data) = false.
Proof.
  intros Htag. destruct data as [| tag [| len rest]]; try reflexivity.
  unfold parseDERSignature.
  destruct (Z.eqb_spec (byte_to_Z tag) 0x30) as [E | _]; [| reflexivity].
  exfalso. apply Htag. cbn. f_equal. apply byte_to_Z_inj. exact E.
Qed.

Lemma parseDERInt_wrong_tag (data : list byte) :
  hd_error data <> Some x02 -> is_ok (parseDERInt data) = false.
Proof.
  intros Htag. destruct data as [| tag [| len rest]]; try reflexivity.
  unfold parseDERInt.
  destruct (Z.eqb_spec (byte_to_Z tag) 0x02) as [E | _]; [| reflexivity].
  exfalso. apply Htag. cbn. f_equal. apply byte_to_Z_inj. exact E.
Qed.

Lemma parseDERSignature_wrong_length (len : byte) (rest : list byte) :
  byte_to_Z len <> Z.of_nat (List.length rest) ->
  is_ok (parseDERSignature (x30 :: len :: rest)) = false.
Proof.
  intros Hlen. unfold parseDERSignature, bytes_length. cbn [List.length].
  change (byte_to_Z x30 =? 48) with true. cbn [negb].
  destruct (Z.eqb_spec (byte_to_Z len) (Z.of_nat (S (S (List.length rest))) - 2));
    [lia | reflexivity].
Qed.

Lemma parseDERInt_non_minimal (len b : byte) (rest : list byte) :
  byte_to_Z len <> 1 -> byte_to_Z b <= 0x7f ->
  is_ok (parseDERInt (x02 :: len :: x00 :: b :: rest)) = false.
Proof.
  intros Hlen Hb. unfold parseDERInt.
  change (byte_to_Z x02 =? 2) with true. cbn [negb].
  destruct ((byte_to_Z len =? 0)
            || negb (Nat.eqb (List.length (bytes_slice (x02 :: len :: x00 :: b :: rest) 2
                                             (Z.to_nat (byte_to_Z len) + 2)))
                             (Z.to_nat (byte_to_Z len)))) eqn:E; [reflexivity |].
  apply orb_false_iff in E as [E0 _]. apply Z.eqb_neq in E0.
  pose proof (byte_to_Z_range len).
  unfold bytes_slice.
  replace (Z.to_nat (byte_to_Z len) + 2 - 2)%nat with (S (S (Z.to_nat (byte_to_Z len) - 2))) by lia.
  cbn [skipn firstn].
  change (byte_to_Z x00 =? 0) with true. cbn [andb].
  destruct (Z.leb_spec (byte_to_Z b) 127); [reflexivity | lia].
Qed.

Lemma DER_sequence_trailing (rp sp extra : list byte) :
  (0 < List.length rp)%nat -> (0 < List.length sp)%nat ->
  (List.length rp + List.length sp + 4 < 256)%nat ->
  DER_minimal rp = true -> DER_minimal sp = true ->
  extra <> [] ->
  is_ok (parseDERSignature (DER_sequence (DER_integer rp ++ DER_integer sp) ++ extra)) = false
  /\ is_ok (parseDERSignature (DER_sequence (DER_integer rp ++ DER_integer sp ++ extra))) = false.
Proof.
  intros Hr Hs Hlen Hmr Hms Hex.
  assert (0 < List.length extra)%nat as Hel by (destruct extra; [contradiction | cbn; lia]).
  split.
  - unfold DER_sequence. cbn [app]. apply parseDERSignature_wrong_length.
    rewrite !length_app. unfold DER_integer. cbn [List.length].
    rewrite byte_to_of_Z by lia. lia.
  - destruct (Nat.lt_ge_cases (List.length (DER_integer rp ++ DER_integer sp ++ extra)) 256)
      as [Hsmall | Hbig].
    + unfold DER_sequence, parseDERSignature.
      change (byte_to_Z x30 =? 48) with true. cbn [negb].
      rewrite byte_to_of_Z by lia.
      unfold bytes_length. cbn [List.length].
      destruct (Z.eqb_spec (Z.of_nat (List.length (DER_integer rp ++ DER_integer sp ++ extra)))
                  (Z.of_nat (S (S (List.length (DER_integer rp ++ DER_integer sp ++ extra)))) - 2));
        [| lia].
      cbn [negb]. unfold bytes_slice_from. cbn [skipn].
      rewrite parseDERInt_DER_integer by (assumption || lia). cbn [bind].
      rewrite parseDERInt_DER_integer by (assumption || lia). cbn [bind].
      destruct extra; [contradiction | reflexivity].
    + unfold DER_sequence. apply parseDERSignature_wrong_length.
      unfold byte_of_Z, byte_to_Z.
      pose proof (Z.mod_pos_bound (Z.of_nat (List.length (DER_integer rp ++ DER_integer sp ++ extra))) 256
                    ltac:(lia)) as Hm.
      destruct (Byte.of_N _) as [b |] eqn:E.
      * apply Byte.to_of_N in E. rewrite E. lia.
      * cbn. lia.
Qed.

(** [parseDERInt] throws when the declared length is zero or exceeds the
    bytes that follow the header. *)
Lemma parseDERInt_wrong_length (len : byte) (rest : list byte) :
  byte_to_Z len = 0 \/ (List.length rest < Z.to_nat (byte_to_Z len))%nat ->
  parseDERInt (x02 :: len :: rest) = Throw (Error "Invalid signature integer: wrong length").
Proof.
  intros H. unfold parseDERInt. change (byte_to_Z x02 =? 2) with true. cbn [negb].
  unfold bytes_slice. cbn [skipn].
  replace (Z.to_nat (byte_to_Z len) + 2 - 2)%nat with (Z.to_nat (byte_to_Z len)) by lia.
  destruct (Z.eqb_spec (byte_to_Z len) 0) as [? | Hnz]; [reflexivity |].
  destruct H as [? | Hshort]; [contradiction |].
  rewrite firstn_all2 by lia.
  destruct (Nat.eqb_spec (List.length rest) (Z.to_nat (byte_to_Z len))); [lia | reflexivity].
Qed.

(** What [parseDERInt] accepts is a DER integer, with the length that its
    header declares and a payload that passes the minimality check, and
    what it leaves is what follows that integer. *)
Lemma parseDERInt_inv (data : list byte) (v : Z) (left : list byte) :
  parseDERInt data = Ok (v, left) ->
  exists payload,
    data = DER_integer payload ++ left
    /\ (0 < List.length payload < 256)%nat
    /\ DER_minimal payload = true /\ be_value payload = v.
Proof.
  destruct data as [| tag [| len rest]]; try discriminate. unfold parseDERInt.
  destruct (Z.eqb_spec (byte_to_Z tag) 2) as [Etag | _]; cbn [negb]; [| discriminate].
  unfold bytes_slice, bytes_slice_from.
  replace (Z.to_nat (byte_to_Z len) + 2 - 2)%nat with (Z.to_nat (byte_to_Z len)) by lia.
  replace (Z.to_nat (byte_to_Z len) + 2)%nat with (S (S (Z.to_nat (byte_to_Z len)))) by lia.
  cbn [skipn].
  pose proof (byte_to_Z_range len) as Hlen.
  destruct (Z.eqb_spec (byte_to_Z len) 0) as [? | Hnz]; cbn [orb]; [discriminate |].
  destruct (Nat.eqb_spec (List.length (firstn (Z.to_nat (byte_to_Z len)) rest))
              (Z.to_nat (byte_to_Z len))) as [El | _]; cbn [negb]; [| discriminate].
  set (res := firstn (Z.to_nat (byte_to_Z len)) rest) in *.
  assert (Hne : res <> []) by (intros E; rewrite E in El; cbn in El; lia).
  destruct (match res with
            | res0 :: res1 :: _ => (byte_to_Z res0 =? 0) && (byte_to_Z res1 <=? 127)
            | _ => false
            end) eqn:Emin; [discriminate |].
  rewrite (bytesToNumber_spec res Hne). cbn [bind]. intros [= <- <-].
  exists res. split; [| split; [lia | split; [| reflexivity]]].
  - unfold DER_integer. cbn [app]. f_equal.
    + apply byte_to_Z_inj. exact Etag.
    + f_equal.
      * rewrite El, Z2Nat.id by lia. symmetry. apply byte_of_to_Z.
      * subst res. symmetry. apply firstn_skipn.
  - unfold DER_minimal. destruct res as [| b0 [| b1 ?]]; try reflexivity.
    rewrite Emin. reflexivity.
Qed.

(** What [parseDERSignature] accepts is the DER sequence of two DER
    integers and nothing else. *)
Lemma parseDERSignature_inv (data : list byte) (r s : Z) :
  parseDERSignature data = Ok (r, s) ->
  exists rp sp,
    data = DER_sequence (DER_integer rp ++ DER_integer sp)
    /\ (0 < List.length rp < 256)%nat /\ (0 < List.length sp < 256)%nat
    /\ DER_minimal rp = true /\ DER_minimal sp = true
    /\ be_value rp = r /\ be_value sp = s.
Proof.
  destruct data as [| tag [| len rest]]; try discriminate. unfold parseDERSignature.
  destruct (Z.eqb_spec (byte_to_Z tag) 48) as [Etag | _]; cbn [negb]; [| discriminate].
  unfold bytes_length. cbn [List.length].
  destruct (Z.eqb_spec (byte_to_Z len) (Z.of_nat (S (S (List.length rest))) - 2))
    as [Elen | _]; cbn [negb]; [| discriminate].
  unfold bytes_slice_from. cbn [skipn].
  destruct (parseDERInt rest) as [[r' sBytes] |] eqn:Er; cbn [bind]; [| discriminate].
  destruct (parseDERInt sBytes) as [[s' left] |] eqn:Es; cbn [bind]; [| discriminate].
  destruct left as [| ? ?]; [| discriminate]. intros [= <- <-].
  destruct (parseDERInt_inv _ _ _ Er) as (rp & -> & Hrl & Hrm & Hrv).
  destruct (parseDERInt_inv _ _ _ Es) as (sp & -> & Hsl & Hsm & Hsv).
  rewrite app_nil_r in *.
  exists rp, sp. split; [| repeat split; first [assumption | lia]].
  unfold DER_sequence. f_equal; [apply byte_to_Z_inj; exact Etag |]. f_equal.
  replace (Z.of_nat (List.length (DER_integer rp ++ DER_integer sp))) with (byte_to_Z len)
    by lia.
  symmetry. apply byte_of_to_Z.
Qed.

(** C5: for every signature [(r, s)] with [0 < r < n] and [0 < s < n],
    parsing the DER encoding written by [toDERHex] recovers exactly [(r, s)]
    and re-encoding gives the same bytes; each encoded integer is minimal
    big-endian, with a leading [0x00] byte iff the most significant bit of
    the first payload byte is set; the parser rejects non-minimal encodings,
    wrong tags, length mismatches and trailing bytes.  The length is checked
    at both levels: the length byte of the sequence must be the number of
    bytes that follow it, and the length byte of an integer must be neither
    zero nor more than the bytes that follow it.  Whatever the parser accepts
    is the sequence of two integers, each with the length its header
    declares, and nothing else. *)
Theorem C5_DER_round_trip (r s : Z) :
  0 < r < CURVE.n -> 0 < s < CURVE.n ->
  exists rp sp,
    DER_payload r rp /\ DER_payload s sp
    /\ Signature_toDERRawBytes (mkSignature r s) false
       = Ok (DER_sequence (DER_integer rp ++ DER_integer sp))
    /\ Signature_fromDER (HexString (Signature_toDERHex (mkSignature r s) false))
       = Ok (mkSignature r s)
    /\ Signature_fromDER (HexBytes (DER_sequence (DER_integer rp ++ DER_integer sp)))
       = Ok (mkSignature r s)
    /\ (let* sig' := Signature_fromDER (HexString (Signature_toDERHex (mkSignature r s) false)) in
        Signature_toDERRawBytes sig' false)
       = Signature_toDERRawBytes (mkSignature r s) false
    /\ (forall extra, extra <> [] ->
          is_ok (Signature_fromDER
                   (HexBytes (DER_sequence (DER_integer rp ++ DER_integer sp) ++ extra))) = false
          /\ is_ok (Signature_fromDER
                      (HexBytes (DER_sequence (DER_integer rp ++ DER_integer sp ++ extra)))) = false)
    /\ (forall data, hd_error data <> Some x30 -> is_ok (parseDERSignature data) = false)
    /\ (forall data, hd_error data <> Some x02 -> is_ok (parseDERInt data) = false)
    /\ (forall len rest, byte_to_Z len <> Z.of_nat (List.length rest) ->
          is_ok (parseDERSignature (x30 :: len :: rest)) = false)
    /\ (forall len b rest, byte_to_Z len <> 1 -> byte_to_Z b <= 0x7f ->
          is_ok (parseDERInt (x02 :: len :: x00 :: b :: rest)) = false)
    /\ (forall len rest,
          byte_to_Z len = 0 \/ (List.length rest < Z.to_nat (byte_to_Z len))%nat ->
          is_ok (parseDERInt (x02 :: len :: rest)) = false)
    /\ (forall data v left,
          parseDERInt data = Ok (v, left) ->
          exists payload,
            data = DER_integer payload ++ left
            /\ (0 < List.length payload < 256)%nat
            /\ DER_minimal payload = true /\ be_value payload = v)
    /\ (forall data r' s',
          parseDERSignature data = Ok (r', s') ->
          exists rp' sp',
            data = DER_sequence (DER_integer rp' ++ DER_integer sp')
            /\ (0 < List.length rp' < 256)%nat /\ (0 < List.length sp' < 256)%nat
            /\ DER_minimal rp' = true /\ DER_minimal sp' = true
            /\ be_value rp' = r' /\ be_value sp' = s').
Proof.
  intros Hr Hs.
  assert (0 < r < 2 ^ 256) as Hr' by (rewrite n_value in Hr; lia).
  assert (0 < s < 2 ^ 256) as Hs' by (rewrite n_value in Hs; lia).
  destruct (toDERHex_layout r s Hr' Hs') as (rp & sp & Hrp & Hsp & Hrl & Hsl & Ehex).
  destruct (DER_payload_minimal r rp Hrp) as [Hmr Evr].
  destruct (DER_payload_minimal s sp Hsp) as [Hms Evs].
  assert (new_Signature r s = Ok (mkSignature r s)) as Enew.
  { unfold new_Signature, Signature_assertValidity, isWithinCurveOrder, _0n. cbn [sig_r sig_s].
    destruct (Z.ltb_spec 0 r); [| lia]. destruct (Z.ltb_spec r CURVE.n); [| lia].
    destruct (Z.ltb_spec 0 s); [| lia]. destruct (Z.ltb_spec s CURVE.n); [| lia].
    reflexivity. }
  assert (Signature_toDERRawBytes (mkSignature r s) false
          = Ok (DER_sequence (DER_integer rp ++ DER_integer sp))) as Eraw.
  { unfold Signature_toDERRawBytes. rewrite Ehex, <- bytesToHex_spec.
    apply hexToBytes_bytesToHex. }
  assert (Signature_fromDER (HexBytes (DER_sequence (DER_integer rp ++ DER_integer sp)))
          = Ok (mkSignature r s)) as Ebytes.
  { unfold Signature_fromDER. cbn [bind].
    rewrite parseDERSignature_DER_sequence by (assumption || lia). cbn [bind].
    rewrite Evr, Evs. exact Enew. }
  assert (Signature_fromDER (HexString (Signature_toDERHex (mkSignature r s) false))
          = Ok (mkSignature r s)) as Estr.
  { unfold Signature_fromDER. unfold Signature_toDERRawBytes in Eraw. rewrite Eraw.
    exact Ebytes. }
  exists rp, sp.
  split; [assumption |]. split; [assumption |]. split; [assumption |].
  split; [assumption |]. split; [assumption |].
  split; [rewrite Estr; reflexivity |].
  split.
  { intros extra Hex.
    destruct (DER_sequence_trailing rp sp extra) as [H1 H2]; try (assumption || lia).
    unfold Signature_fromDER. cbn [bind].
    split; apply bind_not_ok; assumption. }
  split; [exact parseDERSignature_wrong_tag |].
  split; [exact parseDERInt_wrong_tag |].
  split; [exact parseDERSignature_wrong_length |].
  split; [exact parseDERInt_non_minimal |].
  split; [intros len rest H; rewrite (parseDERInt_wrong_length len rest H); reflexivity |].
  split; [exact parseDERInt_inv | exact parseDERSignature_inv].
Qed.

Lemma C5_witness :
  0 < 1 < CURVE.n /\ 0 < 128 < CURVE.n
  /\ Signature_fromDER (HexString (Signature_toDERHex (mkSignature 1 128) false))
     = Ok (mkSignature 1 128).
Proof.
  assert (0 < 1 < CURVE.n) as H1 by (rewrite n_value; lia).
  assert (0 < 128 < CURVE.n) as H2 by (rewrite n_value; lia).
  split; [exact H1 |]. split; [exact H2 |].
  destruct (C5_DER_round_trip 1 128 H1 H2) as (rp & sp & _ & _ & _ & E & _).
  exact E.
Defined.

(** ** 32-byte big-endian numbers *)

Lemma repeat_char_digits (k : nat) : repeat_char "0"%char k = digits_str (repeat 0 k).
Proof. induction k as [| k IH]; cbn; [reflexivity | rewrite IH; reflexivity]. Qed.

Lemma digits_value_zeros (k : nat) (ds : list Z) :
  digits_value (repeat 0 k ++ ds) = digits_value ds.
Proof. induction k as [| k IH]; [reflexivity | exact IH]. Qed.

Lemma zeros_are_digits (k : nat) : Forall is_digit (repeat 0 k).
Proof. induction k; cbn; constructor; [unfold is_digit; lia | assumption]. Qed.

(** [numTo32bStr] writes the 64 digits of the 32 big-endian bytes. *)
Lemma numTo32bStr_spec (v : Z) :
  0 <= v < 2 ^ 256 ->
  exists bytes,
    numTo32bStr v = Ok (hex_of_bytes bytes)
    /\ List.length bytes = 32%nat
    /\ be_value bytes = v.
Proof.
  intros Hv. unfold numTo32bStr. rewrite POW_2_256_value.
  destruct (Z.ltb_spec (2 ^ 256) v); [lia |].
  destruct (Z.eq_dec v 0) as [-> | Hnz].
  { exists (repeat x00 32). repeat split. }
  destruct (toString16_digits v ltac:(lia)) as (d & ds & E & Hds & Hval & Hd).
  specialize (Hd ltac:(lia)).
  pose proof Hds as Hds0. apply Forall_cons_iff in Hds0 as [Hdd Hds'].
  pose proof (digits_value_lower ds d Hdd Hd Hds') as Hlow. rewrite Hval in Hlow.
  assert (Z.of_nat (List.length ds) < 64) as Hlen.
  { apply (Z.pow_lt_mono_r_iff 16); [lia | lia |]. change (16 ^ 64) with (2 ^ 256). lia. }
  set (all := repeat 0 (64 - List.length (d :: ds)) ++ d :: ds).
  assert (List.length all = 64%nat) as Hall.
  { unfold all. rewrite length_app, repeat_length. cbn [List.length]. lia. }
  assert (Forall is_digit all) as Hdig.
  { unfold all. apply Forall_app. split; [apply zeros_are_digits | assumption]. }
  assert (Nat.even (List.length all) = true) as Hev by (rewrite Hall; reflexivity).
  exists (bytes_of_digits all).
  split; [| split].
  - f_equal. unfold padStart0. rewrite E, digits_str_length, repeat_char_digits.
    rewrite <- digits_str_app. fold all.
    rewrite hex_of_bytes_digits, digits_of_bytes_of_digits by assumption. reflexivity.
  - pose proof (bytes_of_digits_length all Hev). lia.
  - unfold be_value. rewrite <- digits_value_of_bytes.
    rewrite digits_of_bytes_of_digits by assumption.
    fold (digits_value all). unfold all. rewrite digits_value_zeros. exact Hval.
Qed.

Lemma hexToBytes_hex_of_bytes (bytes : list byte) : hexToBytes (hex_of_bytes bytes) = Ok bytes.
Proof. rewrite <- bytesToHex_spec. apply hexToBytes_bytesToHex. Qed.

Lemma numTo32b_spec (v : Z) :
  0 <= v < 2 ^ 256 ->
  exists bytes, numTo32b v = Ok bytes /\ List.length bytes = 32%nat /\ be_value bytes = v.
Proof.
  intros Hv. destruct (numTo32bStr_spec v Hv) as (bytes & E & Hlen & Hval).
  exists bytes. unfold numTo32b. rewrite E. cbn [bind].
  rewrite hexToBytes_hex_of_bytes. auto.
Qed.

(** ** Schnorr signature parsing *)

Lemma SchnorrSignature_fromHex_bytes (bytes : list byte) :
  List.length bytes = 64%nat ->
  SchnorrSignature_fromHex (HexBytes bytes)
  = new_SchnorrSignature (be_value (bytes_slice bytes 0 32)) (be_value (bytes_slice bytes 32 64)).
Proof.
  intros Hlen. unfold SchnorrSignature_fromHex, ensureBytes. cbn [bind].
  unfold bytes_length. rewrite Hlen. cbn [Z.of_nat Z.eqb Pos.of_succ_nat Pos.succ Pos.eqb negb].
  change (Z.of_nat 64 =? 64) with true. cbn [negb].
  assert (forall a b, (a < b)%nat -> (b <= List.length bytes)%nat -> bytes_slice bytes a b <> []) as Hne.
  { intros a b Hab Hb E.
    apply (f_equal (@List.length byte)) in E.
    unfold bytes_slice in E. rewrite length_firstn, length_skipn in E. cbn in E. lia. }
  rewrite !bytesToNumber_spec by (apply Hne; lia). cbn [bind]. reflexivity.
Qed.

(** C8, as amended: a 64-byte Schnorr signature [(r, s)] is accepted by the
    parser exactly when [0 < r < P] and [0 < s < n]; every [(r, s)] in those
    ranges has a 64-byte form that parses back to it, and any value outside
    them, zero included, is rejected. *)
Theorem C8_schnorr_signature_range :
  (forall bytes,
      List.length bytes = 64%nat ->
      (0 < be_value (bytes_slice bytes 0 32) < CURVE.P
       /\ 0 < be_value (bytes_slice bytes 32 64) < CURVE.n ->
       SchnorrSignature_fromHex (HexBytes bytes)
       = Ok (mkSchnorrSignature (be_value (bytes_slice bytes 0 32))
               (be_value (bytes_slice bytes 32 64))))
      /\ (~ (0 < be_value (bytes_slice bytes 0 32) < CURVE.P
             /\ 0 < be_value (bytes_slice bytes 32 64) < CURVE.n) ->
          SchnorrSignature_fromHex (HexBytes bytes) = Throw (Error "Invalid signature")))
  /\ (forall r s,
        0 < r < CURVE.P -> 0 < s < CURVE.n ->
        exists bytes,
          SchnorrSignature_toRawBytes (mkSchnorrSignature r s) = Ok bytes
          /\ List.length bytes = 64%nat
          /\ SchnorrSignature_fromHex (HexBytes bytes) = Ok (mkSchnorrSignature r s)).
Proof.
  assert (forall r s,
             new_SchnorrSignature r s
             = if (0 <? r) && (r <? CURVE.P) && ((0 <? s) && (s <? CURVE.n))
               then Ok (mkSchnorrSignature r s) else Throw (Error "Invalid signature")) as Hnew.
  { intros r s. unfold new_SchnorrSignature, isValidFieldElement, isWithinCurveOrder, _0n.
    destruct ((0 <? r) && (r <? CURVE.P)); destruct ((0 <? s) && (s <? CURVE.n)); reflexivity. }
  assert (forall r s, 0 < r < CURVE.P -> 0 < s < CURVE.n ->
                      new_SchnorrSignature r s = Ok (mkSchnorrSignature r s)) as Hin.
  { intros r s Hr Hs. rewrite Hnew.
    destruct (Z.ltb_spec 0 r); [| lia]. destruct (Z.ltb_spec r CURVE.P); [| lia].
    destruct (Z.ltb_spec 0 s); [| lia]. destruct (Z.ltb_spec s CURVE.n); [| lia].
    reflexivity. }
  split.
  - intros bytes Hlen. rewrite (SchnorrSignature_fromHex_bytes bytes Hlen).
    split.
    + intros [Hr Hs]. apply Hin; assumption.
    + intros Hout. rewrite Hnew.
      destruct (Z.ltb_spec 0 (be_value (bytes_slice bytes 0 32)));
        destruct (Z.ltb_spec (be_value (bytes_slice bytes 0 32)) CURVE.P);
        destruct (Z.ltb_spec 0 (be_value (bytes_slice bytes 32 64)));
        destruct (Z.ltb_spec (be_value (bytes_slice bytes 32 64)) CURVE.n);
        try reflexivity.
      exfalso. apply Hout. lia.
  - intros r s Hr Hs.
    destruct (numTo32bStr_spec r ltac:(rewrite P_value in Hr; lia)) as (br & Er & Hlr & Hvr).
    destruct (numTo32bStr_spec s ltac:(rewrite n_value in Hs; lia)) as (bs & Es & Hls & Hvs).
    exists (br ++ bs).
    assert (List.length (br ++ bs) = 64%nat) as Hlen by (rewrite length_app; lia).
    split; [| split; [exact Hlen |]].
    + unfold SchnorrSignature_toRawBytes, SchnorrSignature_toHex. cbn [schnorr_r schnorr_s].
      rewrite Er, Es. cbn [bind]. rewrite <- hex_of_bytes_app. apply hexToBytes_hex_of_bytes.
    + rewrite (SchnorrSignature_fromHex_bytes _ Hlen).
      assert (bytes_slice (br ++ bs) 0 32 = br) as ->.
      { unfold bytes_slice. cbn [skipn Nat.sub]. rewrite <- Hlr. apply firstn_app_exact. }
      assert (bytes_slice (br ++ bs) 32 64 = bs) as ->.
      { unfold bytes_slice. cbn [Nat.sub]. rewrite <- Hlr at 2. rewrite skipn_app_exact.
        rewrite <- Hls. apply firstn_all. }
      rewrite Hvr, Hvs. apply Hin; assumption.
Qed.

(** C8 as stated fails: [r = 0] lies in [[0, P)] and [s = 1] in [[0, n)], yet
    the parser rejects the 64-byte signature. *)
Lemma C8_counterexample :
  be_value (bytes_slice (repeat x00 63 ++ [x01]) 0 32) = 0
  /\ be_value (bytes_slice (repeat x00 63 ++ [x01]) 32 64) = 1
  /\ 0 <= 0 < CURVE.P /\ 0 <= 1 < CURVE.n
  /\ SchnorrSignature_fromHex (HexBytes (repeat x00 63 ++ [x01]))
     = Throw (Error "Invalid signature").
Proof.
  split; [reflexivity |]. split; [reflexivity |].
  split; [rewrite P_value; lia |]. split; [rewrite n_value; lia |].
  reflexivity.
Qed.

Lemma C8_witness :
  List.length (repeat x00 31 ++ [x02] ++ repeat x00 31 ++ [x03]) = 64%nat
  /\ (0 < 2 < CURVE.P /\ 0 < 3 < CURVE.n)
  /\ SchnorrSignature_fromHex (HexBytes (repeat x00 31 ++ [x02] ++ repeat x00 31 ++ [x03]))
     = Ok (mkSchnorrSignature 2 3).
Proof.
  assert (0 < 2 < CURVE.P /\ 0 < 3 < CURVE.n) as H by (rewrite P_value, n_value; lia).
  split; [reflexivity |]. split; [exact H |].
  exact (proj1 (proj1 C8_schnorr_signature_range
                  (repeat x00 31 ++ [x02] ++ repeat x00 31 ++ [x03]) eq_refl) H).
Defined.

(** ** Input normalisation *)

(** C10: the claim is that every string that is not well-formed
    hexadecimal makes [hexToBytes] (and so [ensureBytes]) raise.  The code
    does not do so: [parseInt] reads the digits at the front of each pair
    and ignores what follows, and it skips white space and a sign, so the
    even-length strings below, none of which is hexadecimal, are turned into
    bytes. *)
Theorem C10_hexToBytes_accepts_malformed_hex :
  str_forallb isHexDigit "1g" = false
  /\ hexToBytes "1g" = Ok [x01]
  /\ ensureBytes (HexString "1g") = Ok [x01]
  /\ ensureBytes (HexString " f+a") = Ok [x0f; x0a]
  /\ ensureBytes (HexString "-0") = Ok [x00].
Proof. repeat split. Qed.

(** ** Public-key recovery *)

(** C7, as amended: [recoverPublicKey] does not swallow errors.  It never
    returns an absent value; when the recovery bit is not 0 or 1, when the
    hash truncates to 0, or when the signature or the candidate point is
    invalid, the error raised inside [Point.fromSignature] reaches the
    caller. *)
Theorem C7_recoverPublicKey_raises (msgHash : Hex) (signature : Sig) (recovery : Z) :
  recoverPublicKey msgHash signature recovery <> Ok None
  /\ (recovery <> 0 /\ recovery <> 1 ->
      is_ok (recoverPublicKey msgHash signature recovery) = false)
  /\ ((exists bytes, ensureBytes msgHash = Ok bytes /\ truncateHash bytes = Ok 0) ->
      is_ok (recoverPublicKey msgHash signature recovery) = false)
  /\ (is_ok (normalizeSignature signature) = false ->
      is_ok (recoverPublicKey msgHash signature recovery) = false)
  /\ (forall sig r32,
        normalizeSignature signature = Ok sig ->
        numTo32bStr (sig_r sig) = Ok r32 ->
        is_ok (Point_fromHex
                 (HexString ("0" ++ toString16 (2 + Z.land recovery 1) ++ r32))) = false ->
        is_ok (recoverPublicKey msgHash signature recovery) = false).
Proof.
  unfold recoverPublicKey.
  split.
  { destruct (Point_fromSignature msgHash signature recovery) as [p |]; cbn [bind];
      [| discriminate].
    destruct (Point_toRawBytes p false); cbn [bind]; discriminate. }
  assert (forall r : result Point,
             is_ok r = false ->
             is_ok (let* p := r in let* bytes := Point_toRawBytes p false in Ok (Some bytes))
             = false) as Hfail by (intros r; apply bind_not_ok).
  unfold Point_fromSignature.
  destruct (ensureBytes msgHash) as [bytes |] eqn:Eb; cbn [bind];
    [| repeat split; intros; reflexivity].
  destruct (truncateHash bytes) as [h |] eqn:Eh; cbn [bind];
    [| repeat split; intros; reflexivity].
  destruct (normalizeSignature signature) as [sig |] eqn:Es; cbn [bind];
    [| repeat split; intros; reflexivity].
  split; [| split; [| split]].
  - intros [H0 H1].
    destruct (Z.eqb_spec recovery 0); [contradiction |].
    destruct (Z.eqb_spec recovery 1); [contradiction |]. reflexivity.
  - intros (bytes' & E1 & E2). injection E1 as <-. rewrite Eh in E2. injection E2 as ->.
    destruct (negb (recovery =? 0) && negb (recovery =? 1)); reflexivity.
  - discriminate.
  - intros sig' r32 E1 E2 Hbad. injection E1 as <-.
    destruct (negb (recovery =? 0) && negb (recovery =? 1)); [reflexivity |].
    destruct (h =? _0n); [reflexivity |].
    rewrite E2. cbn [bind].
    destruct (Point_fromHex _); [discriminate | reflexivity].
Qed.

(** C7 as stated fails: with recovery bit 2 the call raises instead of
    returning an absent value. *)
Lemma C7_counterexample :
  recoverPublicKey (HexBytes (repeat x00 31 ++ [x01])) (SigObject (mkSignature 1 1)) 2
  = Throw (Error "Cannot recover signature: invalid recovery bit")
  /\ recoverPublicKey (HexBytes (repeat x00 31 ++ [x01])) (SigObject (mkSignature 1 1)) 2
     <> Ok None.
Proof. split; [reflexivity | discriminate]. Qed.

(** * The arithmetic on [bigZ] computes what the model computes *)

Create Rewrite HintDb bigz.
#[local] Hint Rewrite BigZ.spec_rem BigZ.spec_quot BigZ.spec_leb BigZ.spec_eqb BigZ.spec_add
  BigZ.spec_mul BigZ.spec_sub BigZ.spec_opp BigZ.spec_0 BigZ.spec_1 : bigz.

Lemma Fast_P_value : BigZ.to_Z Fast.P = CURVE.P.
Proof. vm_compute. reflexivity. Qed.

Lemma Fast_mod_ok a b : BigZ.to_Z (Fast.mod_ a b) = mod_ (BigZ.to_Z a) (BigZ.to_Z b).
Proof.
  unfold Fast.mod_, mod_. cbv zeta. rewrite BigZ.spec_leb, BigZ.spec_rem, BigZ.spec_0.
  destruct (0 <=? _); [apply BigZ.spec_rem | rewrite BigZ.spec_add, BigZ.spec_rem; reflexivity].
Qed.

Lemma Fast_modP_ok a : BigZ.to_Z (Fast.modP a) = modP (BigZ.to_Z a).
Proof. unfold Fast.modP, modP. rewrite Fast_mod_ok, Fast_P_value. reflexivity. Qed.

Lemma Fast_pow_2_ok a : BigZ.to_Z (Fast.pow_2 a) = pow (BigZ.to_Z a) _2n.
Proof. unfold Fast.pow_2. rewrite !BigZ.spec_mul, BigZ.spec_1. reflexivity. Qed.

#[local] Hint Rewrite Fast_modP_ok Fast_pow_2_ok Fast_mod_ok : bigz.

Lemma Fast_negate_ok a : Fast.toJ (Fast.negate a) = JacobianPoint_negate (Fast.toJ a).
Proof. unfold Fast.toJ, Fast.negate, JacobianPoint_negate; cbn. autorewrite with bigz. reflexivity. Qed.

Lemma Fast_double_ok a : Fast.toJ (Fast.double a) = JacobianPoint_double (Fast.toJ a).
Proof.
  unfold Fast.toJ, Fast.double, JacobianPoint_double; cbn -[pow modP Fast.modP Fast.pow_2 BigZ.mul BigZ.sub BigZ.add BigZ.to_Z Z.mul Z.sub Z.add].
  autorewrite with bigz. reflexivity.
Qed.

Lemma Fast_eqb_zero x : BigZ.eqb x BigZ.zero = (BigZ.to_Z x =? _0n).
Proof. rewrite BigZ.spec_eqb, BigZ.spec_0. reflexivity. Qed.

Lemma Fast_add_ok a b : Fast.toJ (Fast.add a b) = JacobianPoint_add (Fast.toJ a) (Fast.toJ b).
Proof.
  unfold Fast.add, JacobianPoint_add.
  cbv zeta. rewrite !Fast_eqb_zero. 
  change (Jx (Fast.toJ a)) with (BigZ.to_Z (Fast.fx a)).
  change (Jy (Fast.toJ a)) with (BigZ.to_Z (Fast.fy a)).
  change (Jz (Fast.toJ a)) with (BigZ.to_Z (Fast.fz a)).
  change (Jx (Fast.toJ b)) with (BigZ.to_Z (Fast.fx b)).
  change (Jy (Fast.toJ b)) with (BigZ.to_Z (Fast.fy b)).
  change (Jz (Fast.toJ b)) with (BigZ.to_Z (Fast.fz b)).
  destruct (_ || _); [reflexivity|].
  destruct (_ || _); [reflexivity|].
  autorewrite with bigz.
  destruct (_ =? _0n).
  - destruct (_ =? _0n); [apply Fast_double_ok | reflexivity].
  - unfold Fast.toJ; cbn [Fast.fx Fast.fy Fast.fz]. autorewrite with bigz. reflexivity.
Qed.

Lemma Fast_invert_loop_ok fuel : forall a b x y u v,
  option_map (fun gx => (BigZ.to_Z (fst gx), BigZ.to_Z (snd gx))) (Fast.invert_loop fuel a b x y u v)
  = invert_loop fuel (BigZ.to_Z a) (BigZ.to_Z b) (BigZ.to_Z x) (BigZ.to_Z y) (BigZ.to_Z u) (BigZ.to_Z v).
Proof.
  induction fuel as [|fuel IH]; intros; cbn [Fast.invert_loop invert_loop];
    rewrite BigZ.spec_eqb, BigZ.spec_0; unfold _0n; destruct (_ =? 0); try reflexivity.
  cbv zeta. rewrite IH. autorewrite with bigz. reflexivity.
Qed.

Lemma Fast_invert_ok a m :
  rmap BigZ.to_Z (Fast.invert a m) = invert (BigZ.to_Z a) (BigZ.to_Z m).
Proof.
  unfold Fast.invert, invert.
  rewrite BigZ.spec_eqb, BigZ.spec_leb, BigZ.spec_0. unfold _0n, _1n.
  destruct (_ || _); [reflexivity|].
  pose proof (Fast_invert_loop_ok (invert_fuel (BigZ.to_Z m)) (Fast.mod_ a m) m
                BigZ.zero BigZ.one BigZ.one BigZ.zero) as Hloop.
  rewrite Fast_mod_ok, BigZ.spec_0, BigZ.spec_1 in Hloop. rewrite <- Hloop.
  destruct (Fast.invert_loop _ _ _ _ _ _ _) as [[g x]|]; cbn [option_map fst snd]; [|reflexivity].
  rewrite BigZ.spec_eqb. rewrite !BigZ.spec_1. destruct (negb _); cbn [rmap]; [reflexivity|].
  rewrite Fast_mod_ok. reflexivity.
Qed.

Lemma Fast_modE_ok a b :
  rmap BigZ.to_Z (Fast.modE a b) = modE (BigZ.to_Z a) (BigZ.to_Z b).
Proof.
  unfold Fast.modE, modE. rewrite BigZ.spec_eqb, BigZ.spec_0.
  destruct (_ =? 0); cbn [rmap]; [reflexivity | rewrite Fast_mod_ok; reflexivity].
Qed.

Lemma rmap_bind {A B A' B' : Type} (f : A -> A') (g : B -> B') (r : result A) (r' : result A')
  (k : A -> result B) (k' : A' -> result B') :
  rmap f r = r' -> (forall a, rmap g (k a) = k' (f a)) ->
  rmap g (bind r k) = bind r' k'.
Proof. intros <- Hk. destruct r; cbn; [apply Hk | reflexivity]. Qed.

Lemma Fast_invertBatch_scan_ok nums : forall acc n,
  rmap to_Z_scan (Fast.invertBatch_scan nums acc n)
  = invertBatch_scan (map BigZ.to_Z nums) (BigZ.to_Z acc) (BigZ.to_Z n).
Proof.
  induction nums as [|num rest IH]; intros; [reflexivity|].
  cbn [Fast.invertBatch_scan invertBatch_scan map].
  rewrite BigZ.spec_eqb, BigZ.spec_0. unfold _0n. destruct (_ =? 0).
  - eapply rmap_bind; [apply IH|]. intros [s a']; reflexivity.
  - eapply rmap_bind; [rewrite <- BigZ.spec_mul; apply Fast_modE_ok|]. intros acc1.
    eapply rmap_bind; [apply IH|]. intros [s a']; reflexivity.
Qed.

Lemma Fast_invertBatch_unwind_ok nums : forall scratch acc n,
  rmap to_Z_unwind (Fast.invertBatch_unwind nums scratch acc n)
  = invertBatch_unwind (map BigZ.to_Z nums) (map (option_map BigZ.to_Z) scratch)
      (BigZ.to_Z acc) (BigZ.to_Z n).
Proof.
  induction nums as [|num rest IH]; intros; [reflexivity|].
  destruct scratch as [|s scratch]; [reflexivity|].
  cbn [Fast.invertBatch_unwind invertBatch_unwind map].
  eapply rmap_bind; [apply IH|]. intros [rest' acc1]. cbn [to_Z_unwind fst snd].
  rewrite BigZ.spec_eqb, BigZ.spec_0. unfold _0n. destruct (_ =? 0); [reflexivity|].
  destruct s as [sc|]; [|reflexivity]. cbn [option_map].
  eapply rmap_bind; [rewrite <- BigZ.spec_mul; apply Fast_modE_ok|]. intros tmp.
  eapply rmap_bind; [rewrite <- BigZ.spec_mul; apply Fast_modE_ok|]. intros inv.
  reflexivity.
Qed.

Lemma Fast_invertBatch_ok nums n :
  rmap (map BigZ.to_Z) (Fast.invertBatch nums n) = invertBatch (map BigZ.to_Z nums) (BigZ.to_Z n).
Proof.
  unfold Fast.invertBatch, invertBatch, invertBatch_counted, invert_counted.
  unfold _1n. rewrite <- BigZ.spec_1. rewrite <- Fast_invertBatch_scan_ok.
  destruct (Fast.invertBatch_scan nums BigZ.one n) as [[scratch acc]|e]; [|reflexivity].
  cbn [rmap to_Z_scan fst snd bind].
  eapply rmap_bind; [apply Fast_invert_ok|]. intros acc'.
  eapply rmap_bind; [apply Fast_invertBatch_unwind_ok|]. intros [nums' a]. reflexivity.
Qed.

Lemma Fast_normalize_with_ok p invZ :
  Fast.toJ (Fast.normalize_with p invZ)
  = JacobianPoint_fromAffine (JacobianPoint_toAffine_with (Fast.toJ p) (BigZ.to_Z invZ)).
Proof.
  unfold Fast.normalize_with, JacobianPoint_toAffine_with, JacobianPoint_fromAffine, new_Point,
    Fast.toJ.
  cbn [Px Py Jx Jy Jz Fast.fx Fast.fy Fast.fz]. autorewrite with bigz. reflexivity.
Qed.

Lemma Fast_normalizeZ_ok points :
  rmap (map Fast.toJ) (Fast.normalizeZ points) = JacobianPoint_normalizeZ (map Fast.toJ points).
Proof.
  unfold Fast.normalizeZ, JacobianPoint_normalizeZ, JacobianPoint_toAffineBatch.
  assert (Hz : map Jz (map Fast.toJ points) = map BigZ.to_Z (map Fast.fz points)).
  { rewrite !map_map. reflexivity. }
  rewrite Hz, <- Fast_P_value, <- Fast_invertBatch_ok.
  destruct (Fast.invertBatch _ _) as [toInv|e]; [|reflexivity].
  cbn [rmap bind]. f_equal. rewrite !map_map.
  generalize toInv. clear. induction points as [|p points IH]; intros [|i toInv]; try reflexivity.
  cbn [map combine fst snd]. rewrite IH, Fast_normalize_with_ok. reflexivity.
Qed.

Lemma Fast_precomputeWindow_inner_ok count : forall base p points,
  (let '(b, l) := Fast.precomputeWindow_inner count base p points in (Fast.toJ b, map Fast.toJ l))
  = precomputeWindow_inner count (Fast.toJ base) (Fast.toJ p) (map Fast.toJ points).
Proof.
  induction count as [|count IH]; intros; [reflexivity|].
  cbn [Fast.precomputeWindow_inner precomputeWindow_inner]. cbv zeta.
  rewrite IH, map_app. cbn [map]. rewrite Fast_add_ok. reflexivity.
Qed.

Lemma Fast_precomputeWindow_outer_ok windows W : forall p points,
  map Fast.toJ (Fast.precomputeWindow_outer windows W p points)
  = precomputeWindow_outer windows W (Fast.toJ p) (map Fast.toJ points).
Proof.
  induction windows as [|windows IH]; intros; [reflexivity|].
  cbn [Fast.precomputeWindow_outer precomputeWindow_outer]. cbv zeta.
  pose proof (Fast_precomputeWindow_inner_ok (Z.to_nat (2 ^ (W - 1) - 1)) p p (points ++ [p])) as Hin.
  rewrite map_app in Hin. cbn [map] in Hin. rewrite <- Hin.
  destruct (Fast.precomputeWindow_inner _ _ _ _) as [b l].
  rewrite IH, Fast_double_ok. reflexivity.
Qed.

Lemma Fast_precomputeWindow_ok this W :
  map Fast.toJ (Fast.precomputeWindow this W) = JacobianPoint_precomputeWindow (Fast.toJ this) W.
Proof. apply Fast_precomputeWindow_outer_ok. Qed.

Lemma Fast_precomputes_get_ok precomputes i :
  rmap Fast.toJ (Fast.precomputes_get precomputes i)
  = precomputes_get (map Fast.toJ precomputes) i.
Proof.
  unfold Fast.precomputes_get, precomputes_get. rewrite nth_error_map.
  destruct (nth_error precomputes _); cbn [option_map]; [|reflexivity].
  destruct (i <? 0); reflexivity.
Qed.

Lemma Fast_wNAF_loop_ok count : forall window W precomputes n p f,
  rmap toJ2 (Fast.wNAF_loop count window W precomputes n p f)
  = wNAF_loop count window W (map Fast.toJ precomputes) n (Fast.toJ p) (Fast.toJ f).
Proof.
  induction count as [|count IH]; intros; [reflexivity|].
  cbn [Fast.wNAF_loop wNAF_loop]. cbv zeta.
  destruct (if 2 ^ (W - 1) <? Z.land n (2 ^ W - 1) then _ else _) as [wbits n'].
  destruct (wbits =? 0).
  - eapply rmap_bind; [apply Fast_precomputes_get_ok|]. intros pr.
    rewrite IH, Fast_add_ok. destruct (negb _); [rewrite Fast_negate_ok|]; reflexivity.
  - eapply rmap_bind; [apply Fast_precomputes_get_ok|]. intros pr.
    rewrite IH, Fast_add_ok. destruct (wbits <? 0); [rewrite Fast_negate_ok|]; reflexivity.
Qed.

Lemma Fast_ZERO_ok : Fast.toJ Fast.ZERO = JacobianPoint_ZERO.
Proof. reflexivity. Qed.

Lemma Fast_wNAF_ok this n affinePoint :
  rmap toJ2 (Fast.wNAF this n affinePoint) = JacobianPoint_wNAF (Fast.toJ this) n affinePoint.
Proof.
  unfold Fast.wNAF, JacobianPoint_wNAF. cbv zeta.
  set (ap := match affinePoint with None => _ | Some _ => affinePoint end).
  set (W := match ap with Some _ => _ | None => 1 end).
  destruct (negb (Z.rem 256 W =? 0)); [reflexivity|].
  eapply rmap_bind with (f := map Fast.toJ).
  - destruct ap; [destruct (negb (W =? 1))|].
    + rewrite <- Fast_precomputeWindow_ok. apply Fast_normalizeZ_ok.
    + cbn [rmap]. rewrite Fast_precomputeWindow_ok. reflexivity.
    + cbn [rmap]. rewrite Fast_precomputeWindow_ok. reflexivity.
  - intros pre. rewrite <- Fast_ZERO_ok. apply Fast_wNAF_loop_ok.
Qed.

Lemma Fast_beta_value : BigZ.to_Z Fast.beta = CURVE.beta.
Proof. vm_compute. reflexivity. Qed.

Lemma Fast_multiply_ok this scalar affinePoint :
  rmap Fast.toJ (Fast.multiply this scalar affinePoint)
  = JacobianPoint_multiply (Fast.toJ this) scalar affinePoint.
Proof.
  unfold Fast.multiply, JacobianPoint_multiply.
  destruct (normalizeScalar scalar) as [n|e]; [|reflexivity]. cbn [bind].
  eapply rmap_bind with (f := toJ2).
  - unfold USE_ENDOMORPHISM.
    destruct (splitScalarEndo n) as [split|e]; [|reflexivity]. cbn [bind].
    eapply rmap_bind; [apply Fast_wNAF_ok|]. intros [k1p f1p].
    eapply rmap_bind; [apply Fast_wNAF_ok|]. intros [k2p f2p].
    cbv zeta. cbn [rmap]. unfold toJ2. cbn [fst snd]. rewrite !Fast_add_ok.
    assert (Hneg : forall (c : bool) q,
      Fast.toJ (if c then Fast.negate q else q)
      = if c then JacobianPoint_negate (Fast.toJ q) else Fast.toJ q).
    { intros [|] q; [apply Fast_negate_ok | reflexivity]. }
    rewrite <- !Hneg. unfold Fast.toJ at 2. cbn [Fast.fx Fast.fy Fast.fz].
    rewrite Fast_modP_ok, BigZ.spec_mul, Fast_beta_value. reflexivity.
  - intros [point fake]. cbn [toJ2 fst snd].
    eapply rmap_bind with (f := map Fast.toJ); [apply (Fast_normalizeZ_ok [point; fake])|].
    intros [|real l]; reflexivity.
Qed.

(** * The verification functions on concrete inputs *)

(** The hash function agrees with the test vectors of FIPS 180-4: the empty
    message, one block, and two blocks. *)
Lemma sha256_test_vectors :
  bytesToHex (SHA256.digest [])
  = "e3b0c44298fc1c149afbf4c8996fb92427ae41e4649b934ca495991b7852b855"%string
  /\ bytesToHex (SHA256.digest [x61; x62; x63])
     = "ba7816bf8f01cfea414140de5dae2223b00361a396177a9cb410ff61f20015ad"%string
  /\ bytesToHex (SHA256.digest (map byte_of_ascii (list_ascii_of_string
       "abcdbcdecdefdefgefghfghighijhijkijkljklmklmnlmnomnopnopq")))
     = "248d6a61d20638b8e5c026930c3e6039a33ce45964ff2167f6ecedd419db06c1"%string.
Proof. repeat split; vm_compute; reflexivity. Qed.

Lemma Point_multiply_fast (p : Point) (fp : Fast.JPoint) (k : Z) :
  Fast.toJ fp = JacobianPoint_fromAffine p ->
  Point_multiply p k
  = bind (rmap Fast.toJ (Fast.multiply fp k (Some p))) JacobianPoint_toAffine.
Proof. intros E. unfold Point_multiply. rewrite <- E, Fast_multiply_ok. reflexivity. Qed.

Lemma Point_fromPrivateKey_fast (k : Z) :
  isWithinCurveOrder k = true ->
  Point_fromPrivateKey (PrivBigint k)
  = bind (rmap Fast.toJ (Fast.multiply fBASE k (Some Point_BASE))) JacobianPoint_toAffine.
Proof.
  intros Hk. unfold Point_fromPrivateKey, normalizePrivateKey. cbn [bind]. rewrite Hk.
  cbn [negb bind]. apply Point_multiply_fast. reflexivity.
Qed.

Lemma base_times_e : Point_fromPrivateKey (PrivBigint challenge_e) = Ok point_e.
Proof. rewrite Point_fromPrivateKey_fast by reflexivity. vm_compute. reflexivity. Qed.

Lemma base_times_e1 : Point_fromPrivateKey (PrivBigint (challenge_e + 1)) = Ok point_e1.
Proof. rewrite Point_fromPrivateKey_fast by reflexivity. vm_compute. reflexivity. Qed.

Lemma pub_times_e : Point_multiply (new_Point CURVE.Gx CURVE.Gy) challenge_e = Ok point_e.
Proof. rewrite (Point_multiply_fast _ fBASE) by reflexivity. vm_compute. reflexivity. Qed.

Lemma pub_of_base_x :
  normalizePublicKey (PubHex (HexString base_x_hex)) = Ok (new_Point CURVE.Gx CURVE.Gy).
Proof. vm_compute. reflexivity. Qed.

(** [schnorrVerify], once its inputs are parsed and the two products are
    computed: the result is decided by [R = sG - eP], and the call raises
    when the subtraction does. *)
Lemma schnorrVerify_steps (hash : list byte -> result (list byte))
  (signature : Hex) (message publicKey : Hex)
  (sig : SchnorrSignature) (m : list byte) (P : Point) (e : Z) (sG eP : Point) :
  SchnorrSignature_fromHex signature = Ok sig ->
  ensureBytes message = Ok m ->
  normalizePublicKey (PubHex publicKey) = Ok P ->
  createChallenge hash (schnorr_r sig) P m = Ok e ->
  Point_fromPrivateKey (PrivBigint (schnorr_s sig)) = Ok sG ->
  Point_multiply P e = Ok eP ->
  schnorrVerify hash (SchnorrSigHex signature) message publicKey
  = let* R := Point_subtract sG eP in
    Ok (negb (Point_equals R Point_BASE || negb (hasEvenY R) || negb (Px R =? schnorr_r sig))).
Proof.
  intros Hsig Hm HP He HsG HeP. unfold schnorrVerify.
  rewrite Hsig, Hm, HP. cbn [bind]. rewrite He. cbn [bind]. rewrite HsG. cbn [bind].
  rewrite HeP. cbn [bind].
  destruct (Point_subtract sG eP) as [R|]; cbn [bind]; [|reflexivity].
  destruct (_ || _); reflexivity.
Qed.

(** C3: the claim is that [schnorrVerify] returns false exactly when [R] is
    the identity, or [R.y] is odd, or [R.x <> r], and true otherwise.  The
    code tests [R.equals(Point.BASE)] where the claim has the identity.  For
    the public key [Gx], the all-zero message and the signature
    [(r, s) = (Gx, e + 1)], [R = (e + 1) G - e G] is the base point, which
    is not the identity, has an even [y] and has [x = r]: the claim gives
    true, the code returns false.  For the signature [(Gx, e)] the sum
    [e G + (- e G)] is the identity, and the conversion to affine
    coordinates inside [subtract] raises: the claim gives false, the code
    raises. *)
Theorem C3_schnorrVerify_base_point_and_identity :
  let G := new_Point CURVE.Gx CURVE.Gy in
  normalizePublicKey (PubHex (HexString base_x_hex)) = Ok G
  /\ createChallenge sha256 CURVE.Gx G zero_message = Ok challenge_e
  /\ Point_fromPrivateKey (PrivBigint (challenge_e + 1)) = Ok point_e1
  /\ Point_fromPrivateKey (PrivBigint challenge_e) = Ok point_e
  /\ Point_multiply G challenge_e = Ok point_e
  /\ Point_subtract point_e1 point_e = Ok G
  /\ G <> Point_ZERO /\ hasEvenY G = true /\ Px G = CURVE.Gx
  /\ schnorrVerify sha256 (SchnorrSigHex (HexString sig_R_base)) (HexBytes zero_message)
       (HexString base_x_hex) = Ok false
  /\ JacobianPoint_add (JacobianPoint_fromAffine point_e)
       (JacobianPoint_fromAffine (Point_negate point_e)) = JacobianPoint_ZERO
  /\ schnorrVerify sha256 (SchnorrSigHex (HexString sig_R_zero)) (HexBytes zero_message)
       (HexString base_x_hex) = Throw (Error "invert: expected positive integers").
Proof.
  cbv zeta.
  assert (Hc : createChallenge sha256 CURVE.Gx (new_Point CURVE.Gx CURVE.Gy) zero_message
               = Ok challenge_e) by (vm_compute; reflexivity).
  assert (Hsub : Point_subtract point_e1 point_e = Ok (new_Point CURVE.Gx CURVE.Gy))
    by (vm_compute; reflexivity).
  split; [exact pub_of_base_x|]. split; [exact Hc|]. split; [exact base_times_e1|].
  split; [exact base_times_e|]. split; [exact pub_times_e|]. split; [exact Hsub|].
  split; [discriminate|]. split; [vm_compute; reflexivity|]. split; [reflexivity|].
  split; [|split; [vm_compute; reflexivity|]].
  - rewrite (schnorrVerify_steps sha256 (HexString sig_R_base) (HexBytes zero_message)
               (HexString base_x_hex) (mkSchnorrSignature CURVE.Gx (challenge_e + 1))
               zero_message (new_Point CURVE.Gx CURVE.Gy) challenge_e point_e1 point_e);
      [ | vm_compute; reflexivity | reflexivity | exact pub_of_base_x | exact Hc
        | exact base_times_e1 | exact pub_times_e ].
    rewrite Hsub. vm_compute. reflexivity.
  - rewrite (schnorrVerify_steps sha256 (HexString sig_R_zero) (HexBytes zero_message)
               (HexString base_x_hex) (mkSchnorrSignature CURVE.Gx challenge_e)
               zero_message (new_Point CURVE.Gx CURVE.Gy) challenge_e point_e point_e);
      [ | vm_compute; reflexivity | reflexivity | exact pub_of_base_x | exact Hc
        | exact base_times_e | exact pub_times_e ].
    vm_compute. reflexivity.
Qed.

Lemma base_times_n_minus_1 :
  JacobianPoint_multiply JacobianPoint_BASE (CURVE.n - 1) None = Ok neg_base.
Proof.
  change JacobianPoint_BASE with (Fast.toJ fBASE). rewrite <- Fast_multiply_ok.
  vm_compute. reflexivity.
Qed.

(** [verify], once its inputs are parsed and the two products are
    computed. *)
Lemma verify_steps (signature : Sig) (msgHash : Hex) (publicKey : PubKey) (opts : VOpts)
  (sig : Signature) (bytes : list byte) (h : Z) (pk : Point) (s1 : Z)
  (Ghs1 Prs1 : JacobianPoint) :
  normalizeSignature signature = Ok sig ->
  ensureBytes msgHash = Ok bytes ->
  match strict opts with Some b => b | None => false end && Signature_hasHighS sig = false ->
  truncateHash bytes = Ok h ->
  (h =? _0n) = false ->
  normalizePublicKey publicKey = Ok pk ->
  invert (sig_s sig) CURVE.n = Ok s1 ->
  JacobianPoint_multiply JacobianPoint_BASE (mod_ (h * s1) CURVE.n) None = Ok Ghs1 ->
  JacobianPoint_multiplyUnsafe (JacobianPoint_fromAffine pk) (mod_ (sig_r sig * s1) CURVE.n)
  = Ok Prs1 ->
  verify signature msgHash publicKey opts
  = let* R := JacobianPoint_toAffine (JacobianPoint_add Ghs1 Prs1) in
    Ok (mod_ (Px R) CURVE.n =? sig_r sig).
Proof.
  intros Hsig Hb Hs Hh Hz Hpk Hs1 HG HP. unfold verify.
  rewrite Hsig. cbn [bind]. rewrite Hb. cbn [bind]. rewrite Hs, Hh. cbn [bind].
  rewrite Hz, Hpk, Hs1. cbn [bind]. rewrite HG. cbn [bind]. rewrite HP. reflexivity.
Qed.

(** C2: the claim is that [verify] returns a boolean for every input.  The
    code does not.  The hash is truncated outside the [try] blocks, and an
    empty hash makes [BigInt('0x')] raise a [SyntaxError] that [verify] lets
    through.  And when [R = u1 G + u2 P] is the identity, as for the
    signature [r = s = 1], the hash [n - 1] and the public key [G]
    ([u1 = n - 1], [u2 = 1]), [toAffine] calls [invert(0n)], which
    raises. *)
Theorem C2_verify_raises :
  verify (SigHex (HexString "3006020101020101")) (HexBytes []) (PubPoint Point_BASE) vopts
  = Throw (SyntaxError "Cannot convert 0x to a BigInt")
  /\ verify (SigObject (mkSignature 1 1)) (HexString EmptyString) (PubPoint Point_BASE) vopts
     = Throw (SyntaxError "Cannot convert 0x to a BigInt")
  /\ JacobianPoint_multiply JacobianPoint_BASE (CURVE.n - 1) None = Ok neg_base
  /\ JacobianPoint_multiplyUnsafe JacobianPoint_BASE 1 = Ok JacobianPoint_BASE
  /\ JacobianPoint_add neg_base JacobianPoint_BASE = JacobianPoint_ZERO
  /\ verify (SigHex (HexString "3006020101020101")) (HexString hash_n_minus_1)
       (PubPoint Point_BASE) vopts
     = Throw (Error "invert: expected positive integers").
Proof.
  split; [reflexivity|]. split; [reflexivity|]. split; [exact base_times_n_minus_1|].
  assert (HP : JacobianPoint_multiplyUnsafe JacobianPoint_BASE 1 = Ok JacobianPoint_BASE)
    by (vm_compute; reflexivity).
  split; [exact HP|]. split; [vm_compute; reflexivity|].
  rewrite (verify_steps _ _ _ _ (mkSignature 1 1)
             (map byte_of_Z
                [255; 255; 255; 255; 255; 255; 255; 255; 255; 255; 255; 255; 255; 255; 255; 254;
                 186; 174; 220; 230; 175; 72; 160; 59; 191; 210; 94; 140; 208; 54; 65; 64])
             (CURVE.n - 1) Point_BASE 1 neg_base JacobianPoint_BASE);
    [ | vm_compute; reflexivity | vm_compute; reflexivity | reflexivity
      | vm_compute; reflexivity | reflexivity | vm_compute; reflexivity
      | vm_compute; reflexivity | | ].
  - vm_compute. reflexivity.
  - replace (mod_ ((CURVE.n - 1) * 1) CURVE.n) with (CURVE.n - 1) by (vm_compute; reflexivity).
    exact base_times_n_minus_1.
  - replace (mod_ (sig_r (mkSignature 1 1) * 1) CURVE.n) with 1 by (vm_compute; reflexivity).
    exact HP.
Qed.

(** * Further properties of the code *)


(** ** Field arithmetic *)


(** X1: [mod(a, b)] with a positive modulus is the least non-negative
    residue: it lies in [0, b) and is congruent to [a], also for negative
    [a], where JavaScript's [%] is negative. *)
Theorem mod_least_residue (a b : Z) :
  0 < b -> 0 <= mod_ a b < b /\ mod_ a b = a mod b.
Proof.
  intros Hb. rewrite mod__spec by exact Hb. split; [apply Z.mod_pos_bound; exact Hb | reflexivity].
Qed.

Lemma mod_least_residue_witness : 0 < 5 /\ (0 <= mod_ (-7) 5 < 5 /\ mod_ (-7) 5 = (-7) mod 5).
Proof. split; [lia | apply (mod_least_residue (-7) 5); lia]. Defined.

(** X2: [invert(number, modulo)] raises "expected positive integers" when
    the number is 0 or the modulus is not positive; otherwise it returns the
    inverse of the number, a residue of the modulus, when the two are
    coprime, and raises "does not exist" when they are not.  The loop of the
    model never runs out of fuel. *)
Theorem invert_behaviour (number m : Z) :
  (number = 0 \/ m <= 0 ->
   invert number m = Throw (Error "invert: expected positive integers"))
  /\ (number <> 0 -> 0 < m -> Z.gcd number m = 1 ->
      exists x, invert number m = Ok x /\ 0 <= x < m /\ (x * number) mod m = 1 mod m)
  /\ (number <> 0 -> 0 < m -> Z.gcd number m <> 1 ->
      invert number m = Throw (Error "invert: does not exist")).
Proof.
  split; [| split].
  - intros H. unfold invert, _0n.
    destruct (Z.eqb_spec number 0) as [? | Hn]; [reflexivity |].
    destruct (Z.leb_spec m 0) as [? | Hm]; [reflexivity | lia].
  - intros Hn Hm Hg.
    destruct (Z.eq_dec m 1) as [-> | Hm1].
    + exists 0. split; [| split; [lia | rewrite !Z.mod_1_r; reflexivity]].
      unfold invert, _0n. destruct (Z.eqb_spec number 0) as [? | _]; [contradiction |].
      rewrite mod__spec, Z.mod_1_r by lia. reflexivity.
    + destruct (invert_spec number m ltac:(lia) Hg) as (x & E & Hx & Hinv).
      exists x. rewrite Z.mod_1_l by lia. auto.
  - intros Hn Hm Hg. unfold invert, _0n, _1n.
    destruct (Z.eqb_spec number 0) as [? | _]; [contradiction |].
    destruct (Z.leb_spec m 0) as [? | _]; [lia |]. cbn [orb].
    rewrite mod__spec by lia.
    pose proof (Z.mod_pos_bound number m ltac:(lia)) as Hr.
    destruct (invert_loop_spec number m (invert_fuel m) (number mod m) m 0 1 1 0)
      as (x & E & D).
    + lia.
    + apply invert_fuel_enough. lia.
    + exists 1. lia.
    + exists (- (number / m)). pose proof (Z.div_mod number m ltac:(lia)). lia.
    + rewrite E. replace (Z.gcd (number mod m) m) with (Z.gcd number m)
        by (rewrite Z.gcd_mod, Z.gcd_comm by lia; reflexivity).
      destruct (Z.eqb_spec (Z.gcd number m) 1) as [? | _]; [contradiction | reflexivity].
Qed.


(** ** The order of the base point is prime *)

Lemma prime_19 : Z.prime 19. Proof. prime_by_trial. Qed.
Lemma prime_113 : Z.prime 113. Proof. prime_by_trial. Qed.
Lemma prime_1871 : Z.prime 1871. Proof. prime_by_trial. Qed.
Lemma prime_9349 : Z.prime 9349. Proof. prime_by_trial. Qed.
Lemma prime_28181 : Z.prime 28181. Proof. prime_by_trial. Qed.
#[local] Hint Resolve prime_19 prime_113 prime_1871 prime_9349 prime_28181 : primes.

Lemma prime_120233 : Z.prime 120233.
Proof. prime_by_certificate 2 [113; 19]. Qed.

Lemma prime_1627771 : Z.prime 1627771.
Proof. prime_by_certificate 2 [1871]. Qed.

Lemma prime_44706919 : Z.prime 44706919.
Proof. prime_by_certificate 2 [9349]. Qed.

Lemma prime_545358713 : Z.prime 545358713.
Proof. prime_by_certificate 2 [28181]. Qed.
#[local] Hint Resolve prime_120233 prime_1627771 prime_44706919 prime_545358713 : primes.

Lemma prime_297159362677 : Z.prime 297159362677.
Proof. prime_by_certificate 2 [1627771]. Qed.
#[local] Hint Resolve prime_297159362677 : primes.

Lemma prime_n_factor_21 : Z.prime 174723607534414371449.
Proof. prime_by_certificate 2 [44706919; 120233]. Qed.

Lemma prime_n_factor_29 : Z.prime 29047611873442575647497758179.
Proof. prime_by_certificate 2 [297159362677; 545358713]. Qed.
#[local] Hint Resolve prime_n_factor_21 prime_n_factor_29 : primes.

Lemma prime_n_factor_33 : Z.prime 341948486974166000522343609283189.
Proof. prime_by_certificate 2 [29047611873442575647497758179]. Qed.
#[local] Hint Resolve prime_n_factor_33 : primes.

Lemma prime_n : Z.prime CURVE.n.
Proof.
  prime_by_certificate 2 [341948486974166000522343609283189; 174723607534414371449].
Qed.


(** X3: the field modulus [CURVE.P] and the group order [CURVE.n] are
    prime, so [invert] succeeds on every nonzero residue of either and
    returns its inverse, itself a nonzero residue. *)
Theorem invert_nonzero_residue :
  Z.prime CURVE.P /\ Z.prime CURVE.n
  /\ (forall x, 0 < x < CURVE.P ->
        exists y, invert x CURVE.P = Ok y /\ 0 < y < CURVE.P /\ (y * x) mod CURVE.P = 1)
  /\ (forall x, 0 < x < CURVE.n ->
        exists y, invert x CURVE.n = Ok y /\ 0 < y < CURVE.n /\ (y * x) mod CURVE.n = 1).
Proof.
  assert (H : forall m x, Z.prime m -> 0 < x < m ->
            exists y, invert x m = Ok y /\ 0 < y < m /\ (y * x) mod m = 1).
  { intros m x Hm Hx. pose proof (Z.prime_ge_2 _ Hm) as Hm2.
    destruct (residue_coprime m x Hm ltac:(lia)) as [? | Hg]; [lia |].
    destruct (invert_spec x m ltac:(lia) Hg) as (y & E & Hy & Hinv).
    exists y. split; [exact E | split; [| exact Hinv]].
    assert (y <> 0) by (intros ->; rewrite Z.mul_0_l, Z.mod_0_l in Hinv; lia). lia. }
  split; [exact prime_P | split; [exact prime_n | split]]; intros x Hx.
  - apply H; [exact prime_P | exact Hx].
  - apply H; [exact prime_n | exact Hx].
Qed.

Lemma be_value_range (bytes : list byte) :
  0 <= be_value bytes < 256 ^ Z.of_nat (List.length bytes).
Proof.
  unfold be_value. rewrite <- digits_value_of_bytes.
  pose proof (digits_value_range _ (digits_of_bytes_digits bytes)) as H.
  rewrite digits_of_bytes_length in H.
  replace (256 ^ Z.of_nat (List.length bytes)) with (16 ^ Z.of_nat (2 * List.length bytes)).
  - exact H.
  - rewrite Nat2Z.inj_mul, Z.pow_mul_r by lia. reflexivity.
Qed.

(** X4: [truncateHash] raises on an empty hash (from [BigInt('0x')]); on
    any other hash it returns a value in [0, n): the big-endian value of the
    bytes, shifted right so that 256 bits are left, minus [n] when that is
    not below [n]. *)
Theorem truncateHash_range (hash : list byte) :
  (hash = [] -> truncateHash hash = Throw (SyntaxError "Cannot convert 0x to a BigInt"))
  /\ (hash <> [] ->
      exists h, truncateHash hash = Ok h /\ 0 <= h < CURVE.n
        /\ (let v := be_value hash / 2 ^ Z.max 0 (8 * Z.of_nat (List.length hash) - 256) in
            h = if CURVE.n <=? v then v - CURVE.n else v)).
Proof.
  split.
  - intros ->. reflexivity.
  - intros Hne. unfold truncateHash. rewrite (bytesToNumber_spec hash Hne). cbn [bind].
    unfold bytes_length. set (len := Z.of_nat (List.length hash)).
    pose proof (be_value_range hash) as Hv. fold len in Hv.
    assert (0 < len) as Hlen.
    { unfold len. destruct hash; [contradiction | cbn [List.length]; lia]. }
    set (v := be_value hash / 2 ^ Z.max 0 (8 * len - 256)).
    assert (Hshift : (if 0 <? len * 8 - 256 then Z.shiftr (be_value hash) (len * 8 - 256)
                      else be_value hash) = v).
    { unfold v. destruct (Z.ltb_spec 0 (len * 8 - 256)).
      - rewrite Z.shiftr_div_pow2 by lia. f_equal. f_equal. lia.
      - replace (Z.max 0 (8 * len - 256)) with 0 by lia. rewrite Z.pow_0_r, Z.div_1_r.
        reflexivity. }
    rewrite Hshift.
    assert (Hvr : 0 <= v < 2 ^ 256).
    { unfold v. split; [apply Z.div_pos; [lia | apply Z.pow_pos_nonneg; lia] |].
      apply Z.div_lt_upper_bound; [apply Z.pow_pos_nonneg; lia |].
      rewrite <- Z.pow_add_r by lia.
      replace (256 ^ len) with (2 ^ (8 * len)) in Hv
        by (rewrite Z.pow_mul_r by lia; reflexivity).
      eapply Z.lt_le_trans; [apply Hv |]. apply Z.pow_le_mono_r; lia. }
    exists (if CURVE.n <=? v then v - CURVE.n else v).
    split; [reflexivity |]. split; [| reflexivity].
    destruct (Z.leb_spec CURVE.n v); rewrite n_value in *; lia.
Qed.

Lemma truncateHash_range_witness :
  [x01; x02] <> []
  /\ exists h, truncateHash [x01; x02] = Ok h /\ 0 <= h < CURVE.n
       /\ (let v := be_value [x01; x02] / 2 ^ Z.max 0 (8 * Z.of_nat (List.length [x01; x02]) - 256) in
           h = if CURVE.n <=? v then v - CURVE.n else v).
Proof.
  split; [discriminate | apply (proj2 (truncateHash_range [x01; x02])); discriminate].
Defined.


(** ** Signatures *)


(** X5: for a valid signature [(r, s)], [normalizeS] succeeds and returns
    [(r, s')] with a low [s'] in (0, n): [s' = n - s] when [s] is high and
    [s' = s] otherwise; normalising again changes nothing. *)
Theorem normalizeS_low (r s : Z) :
  0 < r < CURVE.n -> 0 < s < CURVE.n ->
  exists s',
    Signature_normalizeS (mkSignature r s) = Ok (mkSignature r s')
    /\ Signature_hasHighS (mkSignature r s') = false
    /\ 0 < s' < CURVE.n
    /\ s' = (if Signature_hasHighS (mkSignature r s) then CURVE.n - s else s)
    /\ Signature_normalizeS (mkSignature r s') = Ok (mkSignature r s').
Proof.
  intros Hr Hs.
  assert (Hhalf : Z.shiftr CURVE.n _1n = (CURVE.n - 1) / 2).
  { rewrite n_value. reflexivity. }
  assert (Hodd : CURVE.n = 2 * ((CURVE.n - 1) / 2) + 1).
  { rewrite n_value. reflexivity. }
  set (half := (CURVE.n - 1) / 2) in *.
  unfold Signature_normalizeS, Signature_hasHighS, new_Signature, Signature_assertValidity,
    isWithinCurveOrder, _0n.
  cbn [sig_r sig_s]. rewrite Hhalf.
  destruct (Z.ltb_spec half s) as [Hhigh | Hlow].
  - exists (CURVE.n - s).
    destruct (Z.ltb_spec 0 r); [| lia]. destruct (Z.ltb_spec r CURVE.n); [| lia].
    destruct (Z.ltb_spec 0 (CURVE.n - s)); [| lia].
    destruct (Z.ltb_spec (CURVE.n - s) CURVE.n); [| lia].
    cbn [andb negb bind].
    destruct (Z.ltb_spec half (CURVE.n - s)); [lia |].
    repeat split; try reflexivity; lia.
  - exists s. destruct (Z.ltb_spec half s); [lia |].
    repeat split; try reflexivity; lia.
Qed.

Lemma normalizeS_low_witness :
  (0 < 1 < CURVE.n /\ 0 < CURVE.n - 1 < CURVE.n)
  /\ exists s',
      Signature_normalizeS (mkSignature 1 (CURVE.n - 1)) = Ok (mkSignature 1 s')
      /\ Signature_hasHighS (mkSignature 1 s') = false
      /\ 0 < s' < CURVE.n
      /\ s' = (if Signature_hasHighS (mkSignature 1 (CURVE.n - 1))
               then CURVE.n - (CURVE.n - 1) else CURVE.n - 1)
      /\ Signature_normalizeS (mkSignature 1 s') = Ok (mkSignature 1 s').
Proof.
  assert (H : 0 < 1 < CURVE.n /\ 0 < CURVE.n - 1 < CURVE.n) by (rewrite n_value; lia).
  split; [exact H | exact (normalizeS_low 1 (CURVE.n - 1) (proj1 H) (proj2 H))].
Defined.



Lemma substring_app_l (a b : string) :
  String.substring 0 (String.length a) (a ++ b) = a.
Proof.
  induction a as [| c a IH]; cbn.
  - destruct b; reflexivity.
  - rewrite IH. reflexivity.
Qed.

Lemma substring_app_r (a b : string) :
  String.substring (String.length a) (String.length b) (a ++ b) = b.
Proof.
  induction a as [| c a IH]; cbn.
  - induction b as [| c b IHb]; cbn; [reflexivity | rewrite IHb; reflexivity].
  - exact IH.
Qed.

Lemma str_slice_app_l (a b : string) (k : nat) :
  String.length a = k -> str_slice (a ++ b) 0 k = a.
Proof. intros <-. unfold str_slice. rewrite Nat.sub_0_r. apply substring_app_l. Qed.

Lemma str_slice_app_r (a b : string) (k m : nat) :
  String.length a = k -> (k + String.length b = m)%nat -> str_slice (a ++ b) k m = b.
Proof.
  intros <- <-. unfold str_slice. rewrite Nat.add_comm, Nat.add_sub. apply substring_app_r.
Qed.

Lemma hex_of_bytes_str_length (bytes : list byte) :
  String.length (hex_of_bytes bytes) = (2 * List.length bytes)%nat.
Proof.
  rewrite hex_of_bytes_digits, digits_str_length, digits_of_bytes_length. reflexivity.
Qed.

Lemma hexToNumber_hex_of_bytes (bytes : list byte) :
  bytes <> [] -> hexToNumber (hex_of_bytes bytes) = Ok (be_value bytes).
Proof.
  intros H. rewrite <- bytesToHex_spec. exact (bytesToNumber_spec bytes H).
Qed.

(** X7: the compact encoding of a valid signature is 128 hexadecimal
    digits (64 bytes), the 32-byte big-endian [r] followed by [s], and
    [Signature.fromCompact] recovers the signature from the string and from
    the bytes. *)
Theorem compact_round_trip (r s : Z) :
  0 < r < CURVE.n -> 0 < s < CURVE.n ->
  exists hex bytes,
    Signature_toCompactHex (mkSignature r s) = Ok hex
    /\ str_length hex = 128
    /\ Signature_toCompactRawBytes (mkSignature r s) = Ok bytes
    /\ List.length bytes = 64%nat
    /\ be_value (bytes_slice bytes 0 32) = r
    /\ be_value (bytes_slice bytes 32 64) = s
    /\ Signature_fromCompact (HexString hex) = Ok (mkSignature r s)
    /\ Signature_fromCompact (HexBytes bytes) = Ok (mkSignature r s).
Proof.
  intros Hr Hs.
  assert (Hn : CURVE.n < 2 ^ 256) by (rewrite n_value; reflexivity).
  destruct (numTo32bStr_spec r ltac:(lia)) as (rb & Er & Lr & Vr).
  destruct (numTo32bStr_spec s ltac:(lia)) as (sb & Es & Ls & Vs).
  exists (hex_of_bytes rb ++ hex_of_bytes sb)%string, (rb ++ sb).
  assert (Hhex : Signature_toCompactHex (mkSignature r s)
                 = Ok (hex_of_bytes rb ++ hex_of_bytes sb)%string).
  { unfold Signature_toCompactHex. cbn [sig_r sig_s]. rewrite Er, Es. reflexivity. }
  assert (Hlen : str_length (hex_of_bytes rb ++ hex_of_bytes sb) = 128).
  { unfold str_length. rewrite str_app_length, !hex_of_bytes_str_length, Lr, Ls. reflexivity. }
  assert (Hfrom : Signature_fromCompact (HexString (hex_of_bytes rb ++ hex_of_bytes sb))
                  = Ok (mkSignature r s)).
  { unfold Signature_fromCompact. rewrite Hlen. cbn [Z.eqb Pos.eqb negb].
    rewrite str_slice_app_l by (rewrite hex_of_bytes_str_length, Lr; reflexivity).
    rewrite str_slice_app_r by (rewrite !hex_of_bytes_str_length, ?Lr, ?Ls; reflexivity).
    rewrite !hexToNumber_hex_of_bytes by (intros ->; discriminate).
    cbn [bind]. rewrite Vr, Vs.
    unfold new_Signature, Signature_assertValidity, isWithinCurveOrder, _0n. cbn [sig_r sig_s].
    destruct (Z.ltb_spec 0 r); [| lia]. destruct (Z.ltb_spec r CURVE.n); [| lia].
    destruct (Z.ltb_spec 0 s); [| lia]. destruct (Z.ltb_spec s CURVE.n); [| lia].
    reflexivity. }
  split; [exact Hhex |]. split; [exact Hlen |].
  split.
  { unfold Signature_toCompactRawBytes. rewrite Hhex. cbn [bind].
    rewrite <- hex_of_bytes_app. apply hexToBytes_hex_of_bytes. }
  split; [rewrite length_app, Lr, Ls; reflexivity |].
  assert (S1 : bytes_slice (rb ++ sb) 0 32 = rb).
  { unfold bytes_slice. cbn [skipn]. replace (32 - 0)%nat with (List.length rb) by lia.
    apply firstn_app_exact. }
  assert (S2 : bytes_slice (rb ++ sb) 32 64 = sb).
  { unfold bytes_slice. replace (skipn 32 (rb ++ sb)) with sb
      by (rewrite <- Lr; symmetry; apply skipn_app_exact).
    replace (64 - 32)%nat with (List.length sb) by lia. apply firstn_all. }
  rewrite S1, S2. split; [exact Vr |]. split; [exact Vs |]. split; [exact Hfrom |].
  unfold Signature_fromCompact. rewrite bytesToHex_spec, hex_of_bytes_app.
  exact Hfrom.
Qed.

Lemma compact_round_trip_witness :
  (0 < 1 < CURVE.n /\ 0 < 2 < CURVE.n)
  /\ exists hex bytes,
      Signature_toCompactHex (mkSignature 1 2) = Ok hex
      /\ str_length hex = 128
      /\ Signature_toCompactRawBytes (mkSignature 1 2) = Ok bytes
      /\ List.length bytes = 64%nat
      /\ be_value (bytes_slice bytes 0 32) = 1
      /\ be_value (bytes_slice bytes 32 64) = 2
      /\ Signature_fromCompact (HexString hex) = Ok (mkSignature 1 2)
      /\ Signature_fromCompact (HexBytes bytes) = Ok (mkSignature 1 2).
Proof.
  assert (H : 0 < 1 < CURVE.n /\ 0 < 2 < CURVE.n) by (rewrite n_value; lia).
  split; [exact H | exact (compact_round_trip 1 2 (proj1 H) (proj2 H))].
Defined.


(** ** Affine and Jacobian coordinates *)


Lemma invert_one : invert 1 CURVE.P = Ok 1.
Proof. vm_compute. reflexivity. Qed.

(** X8: converting an affine point with coordinates in [0, P) to
    Jacobian coordinates and back gives the point again (without its window
    size); [toAffine] of [JacobianPoint.ZERO] raises, from [invert(0n)]. *)
Theorem toAffine_fromAffine (p : Point) :
  0 <= Px p < CURVE.P -> 0 <= Py p < CURVE.P ->
  JacobianPoint_toAffine (JacobianPoint_fromAffine p) = Ok (new_Point (Px p) (Py p))
  /\ JacobianPoint_toAffine JacobianPoint_ZERO
     = Throw (Error "invert: expected positive integers").
Proof.
  intros Hx Hy. split; [| reflexivity].
  unfold JacobianPoint_toAffine, JacobianPoint_fromAffine. cbn [Jx Jy Jz].
  unfold _1n. rewrite invert_one. cbn [bind]. unfold JacobianPoint_toAffine_with.
  cbn [Jx Jy Jz]. rewrite pow_spec by (unfold _2n; lia). rewrite !modP_spec.
  unfold _2n. rewrite Z.pow_1_l, !Z.mul_1_r by lia. rewrite !Z.mod_small by assumption.
  reflexivity.
Qed.

Lemma toAffine_fromAffine_witness :
  (0 <= Px Point_BASE < CURVE.P /\ 0 <= Py Point_BASE < CURVE.P)
  /\ JacobianPoint_toAffine (JacobianPoint_fromAffine Point_BASE)
     = Ok (new_Point (Px Point_BASE) (Py Point_BASE))
  /\ JacobianPoint_toAffine JacobianPoint_ZERO
     = Throw (Error "invert: expected positive integers").
Proof.
  assert (H : 0 <= Px Point_BASE < CURVE.P /\ 0 <= Py Point_BASE < CURVE.P)
    by (vm_compute; repeat split; discriminate).
  split; [exact H | exact (toAffine_fromAffine Point_BASE (proj1 H) (proj2 H))].
Defined.

Lemma invertBatch_entries (m : Z) (nums : list Z) :
  Z.prime m ->
  Forall (fun x => 0 <= x < m) nums ->
  exists out,
    invertBatch nums m = Ok out
    /\ Forall2 (fun x o => (x = 0 /\ o = 0) \/ (x <> 0 /\ invert x m = Ok o)) nums out.
Proof.
  intros Hm Hr. pose proof (Z.prime_ge_2 _ Hm) as Hm2.
  destruct (invertBatch_counted_spec m nums Hm Hr) as (out & E & Hall).
  exists out. split; [unfold invertBatch; rewrite E; reflexivity |].
  clear E. induction Hall as [| x o nums' out' Hxo Hall IH]; [constructor |].
  apply Forall_cons_iff in Hr as [Hx Hr]. constructor; [| apply IH; exact Hr].
  destruct Hxo as [[-> ->] | (Hnz & Ho & Hinv)]; [left; split; reflexivity | right].
  split; [exact Hnz |].
  destruct (residue_coprime m x Hm Hx) as [? | Hg]; [contradiction |].
  destruct (invert_spec x m ltac:(lia) Hg) as (o' & E' & Ho' & Hinv').
  rewrite E'. f_equal. apply (inverse_unique m x); try assumption; lia.
Qed.

(** X9: for points with [z] in [0, P), [toAffineBatch] succeeds, and
    agrees with [toAffine] on every point whose [z] is not 0; a point with
    [z = 0], on which [toAffine] raises, becomes [Point(0, 0)]. *)
Theorem toAffineBatch_pointwise (points : list JacobianPoint) :
  Forall (fun p => 0 <= Jz p < CURVE.P) points ->
  exists out,
    JacobianPoint_toAffineBatch points = Ok out
    /\ Forall2 (fun p a =>
                  (Jz p = 0 /\ a = new_Point 0 0
                   /\ JacobianPoint_toAffine p
                      = Throw (Error "invert: expected positive integers"))
                  \/ (Jz p <> 0 /\ JacobianPoint_toAffine p = Ok a)) points out.
Proof.
  intros Hz.
  destruct (invertBatch_entries CURVE.P (map Jz points) prime_P) as (inv & E & Hall).
  { apply Forall_map. exact Hz. }
  unfold JacobianPoint_toAffineBatch. rewrite E. cbn [bind]. eexists. split; [reflexivity |].
  clear E Hz. revert inv Hall.
  induction points as [| p points IH]; intros inv Hall.
  - inversion Hall. constructor.
  - cbn [map] in Hall. inversion Hall as [| x o l l' Hxo Hrest]; subst.
    cbn [combine map fst snd]. constructor; [| apply IH; exact Hrest].
    destruct Hxo as [[Hz0 ->] | [Hnz Hinv]].
    + left. split; [exact Hz0 |]. split.
      * unfold JacobianPoint_toAffine_with. rewrite pow_spec by (unfold _2n; lia).
        unfold _2n. rewrite !modP_spec, Z.pow_0_l, !Z.mul_0_r by lia. reflexivity.
      * unfold JacobianPoint_toAffine. rewrite Hz0. reflexivity.
    + right. split; [exact Hnz |]. unfold JacobianPoint_toAffine. rewrite Hinv. reflexivity.
Qed.

Lemma toAffineBatch_pointwise_witness :
  Forall (fun p => 0 <= Jz p < CURVE.P) [JacobianPoint_BASE; JacobianPoint_ZERO]
  /\ exists out,
      JacobianPoint_toAffineBatch [JacobianPoint_BASE; JacobianPoint_ZERO] = Ok out
      /\ Forall2 (fun p a =>
                    (Jz p = 0 /\ a = new_Point 0 0
                     /\ JacobianPoint_toAffine p
                        = Throw (Error "invert: expected positive integers"))
                    \/ (Jz p <> 0 /\ JacobianPoint_toAffine p = Ok a))
           [JacobianPoint_BASE; JacobianPoint_ZERO] out.
Proof.
  assert (H : Forall (fun p => 0 <= Jz p < CURVE.P) [JacobianPoint_BASE; JacobianPoint_ZERO]).
  { repeat constructor; vm_compute; discriminate. }
  split; [exact H | exact (toAffineBatch_pointwise _ H)].
Defined.


(** ** Points and their encodings *)

Lemma sqrtMod_square (x y : Z) :
  0 <= x < CURVE.P -> (y * y) mod CURVE.P = x ->
  (sqrtMod x * sqrtMod x) mod CURVE.P = x.
Proof.
  intros Hx Hy.
  destruct (sqrtMod_pw x ltac:(lia)) as (_ & _ & Epw).
  pose proof (sqrtMod_range x ltac:(lia)) as Hr.
  rewrite Z.mod_small in Epw by assumption.
  pose proof P_pos as HP.
  rewrite Epw, <- Z.mul_mod, <- Z.pow_add_r by (try lia; apply Z.div_pos; lia).
  replace ((CURVE.P + 1) / 4 + (CURVE.P + 1) / 4) with ((CURVE.P + 1) / 2) by reflexivity.
  rewrite <- Hy at 1.
  rewrite Z.mod_pow_l, <- Z.pow_2_r, <- Z.pow_mul_r by (try lia; apply Z.div_pos; lia).
  replace (2 * ((CURVE.P + 1) / 2)) with (CURVE.P + 1) by reflexivity.
  rewrite Z.pow_add_r, Z.pow_1_r by lia.
  rewrite <- Z.mul_mod_idemp_l, (ZmodInv.Z.fermat CURVE.P y prime_P) by lia.
  rewrite Z.mul_mod_idemp_l by lia. exact Hy.
Qed.

Lemma weistrass_spec (x : Z) : weistrass x = (x * x * x + 7) mod CURVE.P.
Proof.
  unfold weistrass. cbv zeta. rewrite !modP_spec.
  change CURVE.a with 0. change CURVE.b with 7. pose proof P_pos.
  rewrite Z.mul_0_l, Z.add_0_r.
  rewrite Z.mul_mod_idemp_l by lia. rewrite Z.add_mod_idemp_l by lia. reflexivity.
Qed.

(** What [assertValidity] checks. *)
Lemma assertValidity_iff (p : Point) :
  Point_assertValidity p = Ok tt
  <-> (0 < Px p < CURVE.P /\ 0 < Py p < CURVE.P
       /\ (Py p * Py p) mod CURVE.P = (Px p * Px p * Px p + 7) mod CURVE.P).
Proof.
  unfold Point_assertValidity, isValidFieldElement, _0n. cbv zeta.
  rewrite weistrass_spec, !modP_spec. pose proof P_pos as HP.
  destruct (Z.ltb_spec 0 (Px p)); cbn [andb negb orb];
    [| split; [discriminate | lia]].
  destruct (Z.ltb_spec (Px p) CURVE.P); cbn [andb negb orb];
    [| split; [discriminate | lia]].
  destruct (Z.ltb_spec 0 (Py p)); cbn [andb negb orb];
    [| split; [discriminate | lia]].
  destruct (Z.ltb_spec (Py p) CURVE.P); cbn [andb negb orb];
    [| split; [discriminate | lia]].
  rewrite Zminus_mod_idemp_l, Zminus_mod_idemp_r.
  destruct (Z.eqb_spec ((Py p * Py p - (Px p * Px p * Px p + 7)) mod CURVE.P) 0) as [E | E];
    cbn [negb].
  - split; [intros _ | reflexivity]. repeat split; try lia.
    apply Z.mod_divide in E; [| lia]. destruct E as [k Hk].
    replace (Py p * Py p) with (Px p * Px p * Px p + 7 + k * CURVE.P) by lia.
    apply Z.mod_add. lia.
  - split; [discriminate |]. intros (_ & _ & Heq). exfalso. apply E.
    rewrite Zminus_mod, Heq, Z.sub_diag. apply Z.mod_0_l. lia.
Qed.

Lemma same_square (y z : Z) :
  0 < y < CURVE.P -> 0 <= z < CURVE.P ->
  (z * z) mod CURVE.P = (y * y) mod CURVE.P ->
  z = y \/ z = CURVE.P - y.
Proof.
  intros Hy Hz E. pose proof P_pos as HP.
  assert (D : (CURVE.P | (z - y) * (z + y))).
  { apply Z.mod_divide; [lia |].
    replace ((z - y) * (z + y)) with (z * z - y * y) by ring.
    rewrite Zminus_mod, E, Z.sub_diag. apply Z.mod_0_l. lia. }
  apply (Z.divide_prime_mul _ _ _ prime_P) in D. destruct D as [[k Hk] | [k Hk]].
  - left. assert (k = 0) by nia. lia.
  - right. assert (k = 1) by nia. lia.
Qed.

Lemma land_1_odd (z : Z) : (Z.land z 1 =? 1) = Z.odd z.
Proof.
  change 1 with (Z.ones 1) at 1. rewrite Z.land_ones by lia. change (2 ^ 1) with 2.
  rewrite Zmod_odd. destruct (Z.odd z); reflexivity.
Qed.

Lemma land_1_even (z : Z) : negb (Z.land z 1 =? 0) = Z.odd z.
Proof.
  change 1 with (Z.ones 1) at 1. rewrite Z.land_ones by lia. change (2 ^ 1) with 2.
  rewrite Zmod_odd. destruct (Z.odd z); reflexivity.
Qed.

Lemma P_odd : Z.odd CURVE.P = true.
Proof. rewrite P_value. reflexivity. Qed.

(** The square root that [fromCompressedHex] picks for a point of the
    curve is the ordinate with the parity asked for. *)
Lemma decompress_y (x y : Z) (odd : bool) :
  0 < x < CURVE.P -> 0 < y < CURVE.P ->
  (y * y) mod CURVE.P = (x * x * x + 7) mod CURVE.P ->
  (if negb (Bool.eqb odd (Z.land (sqrtMod (weistrass x)) _1n =? _1n))
   then modP (- sqrtMod (weistrass x)) else sqrtMod (weistrass x))
  = if Bool.eqb odd (Z.odd y) then y else CURVE.P - y.
Proof.
  intros Hx Hy Hc. pose proof P_pos as HP.
  assert (Hw : 0 <= weistrass x < CURVE.P).
  { rewrite weistrass_spec. apply Z.mod_pos_bound. lia. }
  assert (Hsq : (sqrtMod (weistrass x) * sqrtMod (weistrass x)) mod CURVE.P
                = (y * y) mod CURVE.P).
  { rewrite (sqrtMod_square (weistrass x) y Hw); rewrite weistrass_spec; auto. }
  pose proof (sqrtMod_range (weistrass x) ltac:(lia)) as Hr.
  revert Hsq Hr. generalize (sqrtMod (weistrass x)). intros r Hsq Hr.
  unfold _1n. rewrite land_1_odd, modP_spec.
  assert (Hneg : forall z, 0 < z < CURVE.P -> (- z) mod CURVE.P = CURVE.P - z).
  { intros z Hz. replace (- z) with (CURVE.P - z + (-1) * CURVE.P) by lia.
    rewrite Z.mod_add by lia. apply Z.mod_small. lia. }
  pose proof P_odd as Hodd.
  destruct (same_square y r Hy Hr Hsq) as [-> | ->].
  - destruct odd, (Z.odd y); cbn [Bool.eqb negb]; try reflexivity; apply Hneg; lia.
  - rewrite Z.odd_sub, Hodd.
    destruct odd, (Z.odd y); cbn [Bool.eqb negb xorb]; try reflexivity;
      rewrite Hneg by lia; lia.
Qed.

Lemma decompress_even_y (x y : Z) :
  0 < x < CURVE.P -> 0 < y < CURVE.P ->
  (y * y) mod CURVE.P = (x * x * x + 7) mod CURVE.P ->
  (if Z.land (sqrtMod (weistrass x)) _1n =? _1n
   then modP (- sqrtMod (weistrass x)) else sqrtMod (weistrass x))
  = if Z.odd y then CURVE.P - y else y.
Proof.
  intros Hx Hy Hc. pose proof (decompress_y x y false Hx Hy Hc) as Hd.
  revert Hd. generalize (sqrtMod (weistrass x)). intros r Hd.
  destruct (Z.land r _1n =? _1n), (Z.odd y); cbn [Bool.eqb negb] in Hd; exact Hd.
Qed.


Lemma toHex_layout (p : Point) :
  Point_assertValidity p = Ok tt ->
  exists xb yb,
    List.length xb = 32%nat /\ List.length yb = 32%nat
    /\ be_value xb = Px p /\ be_value yb = Py p
    /\ Point_toHex p false = Ok (hex_of_bytes (x04 :: xb ++ yb))
    /\ Point_toHex p true
       = Ok (hex_of_bytes ((if Z.odd (Py p) then x03 else x02) :: xb)).
Proof.
  intros Hv. apply assertValidity_iff in Hv as (Hx & Hy & _).
  assert (HP : CURVE.P < 2 ^ 256) by (rewrite P_value; reflexivity).
  destruct (numTo32bStr_spec (Px p) ltac:(lia)) as (xb & Ex & Lx & Vx).
  destruct (numTo32bStr_spec (Py p) ltac:(lia)) as (yb & Ey & Ly & Vy).
  exists xb, yb. repeat split; try assumption.
  - unfold Point_toHex. rewrite Ex, Ey. cbn [bind]. f_equal.
    change (x04 :: xb ++ yb) with ([x04] ++ xb ++ yb). rewrite !hex_of_bytes_app. reflexivity.
  - unfold Point_toHex. rewrite Ex. cbn [bind]. unfold _1n. rewrite land_1_even. f_equal.
    destruct (Z.odd (Py p)).
    + change (x03 :: xb) with ([x03] ++ xb). rewrite hex_of_bytes_app. reflexivity.
    + change (x02 :: xb) with ([x02] ++ xb). rewrite hex_of_bytes_app. reflexivity.
Qed.

Lemma fromUncompressed_layout (p : Point) (xb yb : list byte) :
  Point_assertValidity p = Ok tt ->
  List.length xb = 32%nat -> List.length yb = 32%nat ->
  be_value xb = Px p -> be_value yb = Py p ->
  Point_fromHex (HexBytes (x04 :: xb ++ yb)) = Ok (new_Point (Px p) (Py p)).
Proof.
  intros Hv Lx Ly Vx Vy. unfold Point_fromHex. cbn [ensureBytes bind].
  assert (L : bytes_length (x04 :: xb ++ yb) = 65).
  { unfold bytes_length. cbn [List.length]. rewrite length_app, Lx, Ly. reflexivity. }
  rewrite L. cbn [Z.eqb Pos.eqb orb andb byte_to_Z].
  change (byte_to_Z x04 =? 4) with true. cbn [andb].
  unfold Point_fromUncompressedHex.
  assert (S1 : bytes_slice (x04 :: xb ++ yb) 1 33 = xb).
  { unfold bytes_slice. cbn [skipn]. replace (33 - 1)%nat with (List.length xb) by lia.
    apply firstn_app_exact. }
  assert (S2 : bytes_slice_from (x04 :: xb ++ yb) 33 = yb).
  { unfold bytes_slice_from. change (skipn 33 (x04 :: xb ++ yb)) with (skipn 32 (xb ++ yb)).
    rewrite <- Lx. apply skipn_app_exact. }
  rewrite S1, S2.
  rewrite !bytesToNumber_spec by (intros ->; discriminate). cbn [bind].
  rewrite Vx, Vy.
  assert (Hv' : Point_assertValidity (new_Point (Px p) (Py p)) = Ok tt).
  { apply assertValidity_iff. apply assertValidity_iff in Hv. exact Hv. }
  rewrite Hv'. reflexivity.
Qed.

Lemma fromCompressed_layout (p : Point) (xb : list byte) :
  Point_assertValidity p = Ok tt ->
  List.length xb = 32%nat -> be_value xb = Px p ->
  Point_fromHex (HexBytes ((if Z.odd (Py p) then x03 else x02) :: xb))
  = Ok (new_Point (Px p) (Py p))
  /\ Point_fromHex (HexBytes xb)
     = Ok (new_Point (Px p) (if Z.odd (Py p) then CURVE.P - Py p else Py p)).
Proof.
  intros Hv Lx Vx.
  pose proof Hv as Hv0. apply assertValidity_iff in Hv as (Hx & Hy & Hc).
  assert (Hvalid : isValidFieldElement (Px p) = true).
  { unfold isValidFieldElement, _0n.
    destruct (Z.ltb_spec 0 (Px p)); [| lia]. destruct (Z.ltb_spec (Px p) CURVE.P); [| lia].
    reflexivity. }
  split.
  - set (hdr := if Z.odd (Py p) then x03 else x02).
    unfold Point_fromHex. cbn [ensureBytes bind].
    assert (L : bytes_length (hdr :: xb) = 33).
    { unfold bytes_length. cbn [List.length]. rewrite Lx. reflexivity. }
    rewrite L. cbn [Z.eqb Pos.eqb orb andb].
    assert (Hh : (byte_to_Z hdr =? 2) || (byte_to_Z hdr =? 3) = true)
      by (unfold hdr; destruct (Z.odd (Py p)); reflexivity).
    rewrite Hh. unfold Point_fromCompressedHex. rewrite L. cbn [Z.eqb Pos.eqb].
    unfold bytes_slice_from. cbn [skipn].
    rewrite bytesToNumber_spec by (intros ->; discriminate). cbn [bind].
    rewrite Vx, Hvalid. cbn [negb].
    assert (Hodd : (Z.land (byte_to_Z hdr) 1 =? 1) = Z.odd (Py p))
      by (unfold hdr; destruct (Z.odd (Py p)); reflexivity).
    rewrite Hodd.
    rewrite (decompress_y (Px p) (Py p) (Z.odd (Py p)) Hx Hy Hc).
    rewrite Bool.eqb_reflx.
    assert (Hv' : Point_assertValidity (new_Point (Px p) (Py p)) = Ok tt).
    { apply assertValidity_iff. apply assertValidity_iff in Hv0. exact Hv0. }
    rewrite Hv'. reflexivity.
  - unfold Point_fromHex. cbn [ensureBytes bind].
    assert (L : bytes_length xb = 32) by (unfold bytes_length; rewrite Lx; reflexivity).
    rewrite L. cbn [Z.eqb Pos.eqb orb]. unfold Point_fromCompressedHex. rewrite L.
    cbn [Z.eqb Pos.eqb].
    rewrite bytesToNumber_spec by (intros ->; discriminate). cbn [bind].
    rewrite Vx, Hvalid. cbn [negb].
    rewrite (decompress_even_y (Px p) (Py p) Hx Hy Hc).
    assert (Hv' : Point_assertValidity
                    (new_Point (Px p) (if Z.odd (Py p) then CURVE.P - Py p else Py p))
                  = Ok tt).
    { apply assertValidity_iff. cbn [Px Py new_Point].
      destruct (Z.odd (Py p)); [| repeat split; try lia; exact Hc].
      repeat split; try lia. rewrite <- Hc.
      replace ((CURVE.P - Py p) * (CURVE.P - Py p))
        with (Py p * Py p + (CURVE.P - 2 * Py p) * CURVE.P) by ring.
      apply Z.mod_add. lia. }
    rewrite Hv'. reflexivity.
Qed.

(** X10: a point that passes [assertValidity] has a 65-byte uncompressed
    and a 33-byte compressed encoding, and [Point.fromHex] recovers its
    coordinates from either; from the 32-byte x-only encoding it returns the
    point of that abscissa whose ordinate is even. *)
Theorem Point_encoding_round_trip (p : Point) :
  Point_assertValidity p = Ok tt ->
  exists u c x,
    Point_toRawBytes p false = Ok u /\ List.length u = 65%nat
    /\ Point_fromHex (HexBytes u) = Ok (new_Point (Px p) (Py p))
    /\ Point_toRawBytes p true = Ok c /\ List.length c = 33%nat
    /\ Point_fromHex (HexBytes c) = Ok (new_Point (Px p) (Py p))
    /\ Point_toRawX p = Ok x /\ List.length x = 32%nat
    /\ Point_fromHex (HexBytes x)
       = Ok (new_Point (Px p) (if Z.odd (Py p) then CURVE.P - Py p else Py p)).
Proof.
  intros Hv.
  destruct (toHex_layout p Hv) as (xb & yb & Lx & Ly & Vx & Vy & Eu & Ec).
  destruct (fromCompressed_layout p xb Hv Lx Vx) as [Fc Fx].
  exists (x04 :: xb ++ yb), ((if Z.odd (Py p) then x03 else x02) :: xb), xb.
  assert (Hc : Point_toRawBytes p true = Ok ((if Z.odd (Py p) then x03 else x02) :: xb)).
  { unfold Point_toRawBytes. rewrite Ec. cbn [bind]. apply hexToBytes_hex_of_bytes. }
  split; [unfold Point_toRawBytes; rewrite Eu; cbn [bind]; apply hexToBytes_hex_of_bytes |].
  split; [cbn [List.length]; rewrite length_app, Lx, Ly; reflexivity |].
  split; [apply fromUncompressed_layout; assumption |].
  split; [exact Hc |].
  split; [cbn [List.length]; rewrite Lx; reflexivity |].
  split; [exact Fc |].
  split; [unfold Point_toRawX; rewrite Hc; reflexivity |].
  split; [exact Lx | exact Fx].
Qed.

Lemma base_point_valid : Point_assertValidity Point_BASE = Ok tt.
Proof. vm_compute. reflexivity. Qed.

Lemma Point_encoding_round_trip_witness :
  Point_assertValidity Point_BASE = Ok tt
  /\ exists u c x,
      Point_toRawBytes Point_BASE false = Ok u /\ List.length u = 65%nat
      /\ Point_fromHex (HexBytes u) = Ok (new_Point (Px Point_BASE) (Py Point_BASE))
      /\ Point_toRawBytes Point_BASE true = Ok c /\ List.length c = 33%nat
      /\ Point_fromHex (HexBytes c) = Ok (new_Point (Px Point_BASE) (Py Point_BASE))
      /\ Point_toRawX Point_BASE = Ok x /\ List.length x = 32%nat
      /\ Point_fromHex (HexBytes x)
         = Ok (new_Point (Px Point_BASE)
                 (if Z.odd (Py Point_BASE) then CURVE.P - Py Point_BASE else Py Point_BASE)).
Proof.
  split; [exact base_point_valid | exact (Point_encoding_round_trip Point_BASE base_point_valid)].
Defined.

(** ** Properties of the curve arithmetic *)

Lemma checked_point_valid (point p : Point) :
  (let* _ := Point_assertValidity point in Ok point) = Ok p ->
  Point_assertValidity p = Ok tt.
Proof.
  destruct (Point_assertValidity point) as [[] |] eqn:E; cbn [bind]; [| discriminate].
  intros H. injection H as <-. exact E.
Qed.

Lemma fromCompressedHex_valid (bytes : list byte) (p : Point) :
  Point_fromCompressedHex bytes = Ok p -> Point_assertValidity p = Ok tt.
Proof.
  unfold Point_fromCompressedHex. cbv zeta.
  destruct (bytesToNumber _) as [x |]; cbn [bind]; [| discriminate].
  destruct (negb (isValidFieldElement x)); [discriminate |].
  match goal with |- (let* _ := Point_assertValidity ?pt in _) = _ -> _ => generalize pt end.
  intros point. apply checked_point_valid.
Qed.

Lemma fromUncompressedHex_valid (bytes : list byte) (p : Point) :
  Point_fromUncompressedHex bytes = Ok p -> Point_assertValidity p = Ok tt.
Proof.
  unfold Point_fromUncompressedHex.
  destruct (bytesToNumber _) as [x |]; cbn [bind]; [| discriminate].
  destruct (bytesToNumber _) as [y |]; cbn [bind]; [| discriminate].
  cbv zeta. apply checked_point_valid.
Qed.

Lemma fromHex_valid (hex : Hex) (p : Point) :
  Point_fromHex hex = Ok p -> Point_assertValidity p = Ok tt.
Proof.
  unfold Point_fromHex. destruct (ensureBytes hex) as [bytes |]; cbn [bind]; [| discriminate].
  cbv zeta. destruct (_ || _); [apply fromCompressedHex_valid |].
  destruct (_ && _); [apply fromUncompressedHex_valid | discriminate].
Qed.

(** X11: every point that [normalizePublicKey] returns, whether parsed from
    hex or bytes or passed as a [Point], passes [assertValidity]; a hex or
    byte key that is neither 32 bytes, nor 33 bytes with header [02] or [03],
    nor 65 bytes with header [04] is rejected with
    [Point.fromHex: received invalid point]. *)
Theorem public_key_parsing (publicKey : PubKey) :
  (forall p, normalizePublicKey publicKey = Ok p -> Point_assertValidity p = Ok tt)
  /\ (forall hex bytes,
        publicKey = PubHex hex -> ensureBytes hex = Ok bytes ->
        List.length bytes <> 32%nat ->
        ~ (List.length bytes = 33%nat /\ (hd_error bytes = Some x02 \/ hd_error bytes = Some x03)) ->
        ~ (List.length bytes = 65%nat /\ hd_error bytes = Some x04) ->
        normalizePublicKey publicKey = Throw (Error "Point.fromHex: received invalid point")).
Proof.
  split.
  - intros p. destruct publicKey as [hex | q]; cbn [normalizePublicKey].
    + apply fromHex_valid.
    + destruct (Point_assertValidity q) as [[] |] eqn:E; cbn [bind]; [| discriminate].
      intros H. injection H as <-. exact E.
  - intros hex bytes -> Eb H32 H33 H65. cbn [normalizePublicKey]. unfold Point_fromHex.
    rewrite Eb. cbn [bind]. cbv zeta. unfold bytes_length.
    destruct (Z.eqb_spec (Z.of_nat (List.length bytes)) 32) as [E | _]; [lia |].
    cbn [orb].
    assert (Hhd : forall b : byte,
              (match bytes with b0 :: _ => byte_to_Z b0 | [] => -1 end =? byte_to_Z b) = true ->
              hd_error bytes = Some b).
    { intros b E. destruct bytes as [| b0 rest]; [destruct b; discriminate |].
      apply Z.eqb_eq, byte_to_Z_inj in E. subst. reflexivity. }
    destruct ((Z.of_nat (List.length bytes) =? 33) && _) eqn:E33.
    { exfalso. apply andb_prop in E33 as [L E]. apply Z.eqb_eq in L.
      apply H33. split; [lia |]. apply orb_prop in E as [E | E].
      - left. apply (Hhd x02 E).
      - right. apply (Hhd x03 E). }
    cbn [orb].
    destruct ((Z.of_nat (List.length bytes) =? 65) && _) eqn:E65; [| reflexivity].
    exfalso. apply andb_prop in E65 as [L E]. apply Z.eqb_eq in L.
    apply H65. split; [lia | apply (Hhd x04 E)].
Qed.


Lemma divNearest_spec (a : Z) :
  0 <= a ->
  exists c r, divNearest a CURVE.n = c /\ a + (CURVE.n - 1) / 2 = c * CURVE.n + r
              /\ 0 <= r < CURVE.n.
Proof.
  intros Ha. unfold divNearest, _2n.
  assert (Hn : 0 < CURVE.n) by (rewrite n_value; lia).
  assert (Hh : Z.quot CURVE.n 2 = (CURVE.n - 1) / 2) by (rewrite n_value; reflexivity).
  rewrite Hh.
  assert (0 <= (CURVE.n - 1) / 2) by (apply Z.div_pos; lia).
  rewrite Z.quot_div_nonneg by lia.
  exists ((a + (CURVE.n - 1) / 2) / CURVE.n), ((a + (CURVE.n - 1) / 2) mod CURVE.n).
  split; [reflexivity |]. split; [| apply Z.mod_pos_bound; lia].
  rewrite Z.mul_comm. apply Z.div_mod. lia.
Qed.

Lemma splitScalarEndo_spec (k : Z) :
  0 <= k ->
  exists s,
    splitScalarEndo k = Ok s
    /\ 0 <= k1 s <= 2 ^ 128 /\ 0 <= k2 s <= 2 ^ 128
    /\ ((if k1neg s then - k1 s else k1 s) + lambda * (if k2neg s then - k2 s else k2 s))
         mod CURVE.n = k mod CURVE.n.
Proof.
  intros Hk. unfold splitScalarEndo. cbv zeta. unfold _1n.
  set (a1 := 0x3086d221a7d46bcde86c90e49284eb15).
  set (a2 := 0x114ca50f7a8e2f3f657c1108d9d44cfd8).
  match goal with |- context [divNearest (- ?b * k) _] => set (b1 := b) end.
  assert (Hb1 : b1 = - 0xe4437ed6010e88286f547fa90abfe4c3) by reflexivity.
  clearbody b1.
  destruct (divNearest_spec (a1 * k)) as (c1 & r1 & -> & E1 & R1); [unfold a1; lia |].
  destruct (divNearest_spec (- b1 * k)) as (c2 & r2 & -> & E2 & R2); [subst b1; lia |].
  assert (Hn : 0 < CURVE.n) by (rewrite n_value; lia).
  rewrite !mod__spec by exact Hn.
  assert (Hpow : POW_2_128 = 2 ^ 128).
  { unfold POW_2_128. rewrite pow_spec by lia. reflexivity. }
  rewrite Hpow.
  set (K1 := k - c1 * a1 - c2 * a2). set (K2 := - c1 * b1 - c2 * a1).
  assert (Hh : (CURVE.n - 1) / 2
               = 57896044618658097711785492504343953926418782139537452191302581570759080747168)
    by (rewrite n_value; reflexivity).
  rewrite Hh in E1, E2.
  assert (HK1 : - 2 ^ 128 < K1 < 2 ^ 128).
  { assert (I1 : CURVE.n * K1
                 = (r1 - 57896044618658097711785492504343953926418782139537452191302581570759080747168) * a1
                   + (r2 - 57896044618658097711785492504343953926418782139537452191302581570759080747168) * a2).
    { unfold K1. subst b1. rewrite n_value in *. unfold a1, a2 in *. lia. }
    rewrite n_value in *. unfold a1, a2 in *. change (2 ^ 128) with 340282366920938463463374607431768211456. lia. }
  assert (HK2 : - 2 ^ 128 < K2 < 2 ^ 128).
  { assert (I2 : CURVE.n * K2
                 = (r1 - 57896044618658097711785492504343953926418782139537452191302581570759080747168) * b1
                   + (r2 - 57896044618658097711785492504343953926418782139537452191302581570759080747168) * a1).
    { unfold K2. subst b1. rewrite n_value in *. unfold a1, a2 in *. lia. }
    subst b1. rewrite n_value in *. unfold a1, a2 in *. change (2 ^ 128) with 340282366920938463463374607431768211456. lia. }
  assert (Hbig : 2 * 2 ^ 128 < CURVE.n) by (rewrite n_value; reflexivity).
  assert (Hmod : forall K, - 2 ^ 128 < K < 2 ^ 128 ->
            let m := K mod CURVE.n in
            (2 ^ 128 <? m) = (K <? 0)
            /\ (if K <? 0 then CURVE.n - m else m) = Z.abs K).
  { intros K HK. cbv zeta. destruct (Z.ltb_spec K 0).
    - replace (K mod CURVE.n) with (K + CURVE.n).
      + split; [apply Z.ltb_lt; lia | lia].
      + apply Z.mod_unique with (q := -1); lia.
    - rewrite Z.mod_small by lia. split; [apply Z.ltb_ge; lia | lia]. }
  destruct (Hmod K1 HK1) as [N1 A1]. destruct (Hmod K2 HK2) as [N2 A2].
  rewrite N1, N2, A1, A2.
  destruct (Z.ltb_spec (2 ^ 128) (Z.abs K1)); [lia |].
  destruct (Z.ltb_spec (2 ^ 128) (Z.abs K2)); [lia |].
  cbn [orb]. eexists. split; [reflexivity |]. cbn [k1 k2 k1neg k2neg].
  split; [lia |]. split; [lia |].
  assert (S1 : (if K1 <? 0 then - Z.abs K1 else Z.abs K1) = K1)
    by (destruct (Z.ltb_spec K1 0); lia).
  assert (S2 : (if K2 <? 0 then - Z.abs K2 else Z.abs K2) = K2)
    by (destruct (Z.ltb_spec K2 0); lia).
  rewrite S1, S2.
  assert (L1 : (a1 + lambda * b1) mod CURVE.n = 0) by (rewrite Hb1; vm_compute; reflexivity).
  assert (L2 : (a2 + lambda * a1) mod CURVE.n = 0) by (vm_compute; reflexivity).
  apply Z.mod_divide in L1, L2; try lia. destruct L1 as [u1 L1], L2 as [u2 L2].
  replace (K1 + lambda * K2)
    with (k + (- c1) * (a1 + lambda * b1) + (- c2) * (a2 + lambda * a1))
    by (unfold K1, K2; ring).
  rewrite L1, L2.
  replace (k + - c1 * (u1 * CURVE.n) + - c2 * (u2 * CURVE.n))
    with (k + (- c1 * u1 - c2 * u2) * CURVE.n) by ring.
  apply Z.mod_add. lia.
Qed.

(** X12: for every scalar [k >= 0], [splitScalarEndo] does not throw and
    returns two halves [k1], [k2] of at most 128 bits with their signs such
    that [(+-k1) + lambda * (+-k2)] is [k] modulo [n]. *)
Theorem splitScalarEndo_decomposes (k : Z) :
  0 <= k ->
  exists s,
    splitScalarEndo k = Ok s
    /\ 0 <= k1 s <= 2 ^ 128 /\ 0 <= k2 s <= 2 ^ 128
    /\ ((if k1neg s then - k1 s else k1 s) + lambda * (if k2neg s then - k2 s else k2 s))
         mod CURVE.n = k mod CURVE.n.
Proof. exact (splitScalarEndo_spec k). Qed.

Lemma splitScalarEndo_decomposes_witness :
  0 <= 5
  /\ exists s,
      splitScalarEndo 5 = Ok s
      /\ 0 <= k1 s <= 2 ^ 128 /\ 0 <= k2 s <= 2 ^ 128
      /\ ((if k1neg s then - k1 s else k1 s) + lambda * (if k2neg s then - k2 s else k2 s))
           mod CURVE.n = 5 mod CURVE.n.
Proof. split; [lia | apply (splitScalarEndo_decomposes 5); lia]. Defined.

(** ** The curve equation is kept by the point arithmetic *)

Lemma Fp_ring_theory :
  ring_theory (R := Zmod CURVE.P) Zmod.zero Zmod.one Zmod.add Zmod.mul Zmod.sub Zmod.opp eq.
Proof. exact (Zmod.ring_theory CURVE.P). Qed.

Add Ring Fp_ring : Fp_ring_theory.

Lemma inj_modP (z : Z) : inj (modP z) = inj z.
Proof. unfold inj. rewrite modP_spec. apply Zmod.of_Z_mod. Qed.

Lemma inj_add (a b : Z) : inj (a + b) = Zmod.add (inj a) (inj b).
Proof. apply Zmod.of_Z_add. Qed.

Lemma inj_mul (a b : Z) : inj (a * b) = Zmod.mul (inj a) (inj b).
Proof. apply Zmod.of_Z_mul. Qed.

Lemma inj_sub (a b : Z) : inj (a - b) = Zmod.sub (inj a) (inj b).
Proof. apply Zmod.of_Z_sub. Qed.

Lemma inj_opp (a : Z) : inj (- a) = Zmod.opp (inj a).
Proof. apply Zmod.of_Z_opp. Qed.

Lemma inj_pow2 (a : Z) : inj (pow a _2n) = Zmod.mul (inj a) (inj a).
Proof.
  rewrite <- inj_mul. f_equal. rewrite pow_spec by (unfold _2n; lia). apply Z.pow_2_r.
Qed.

Lemma inj_1 : inj 1 = Zmod.one.
Proof. apply Zmod.of_Z_1. Qed.

Lemma inj_0 : inj 0 = Zmod.zero.
Proof. apply Zmod.of_Z_0. Qed.

Lemma inj_2 : inj 2 = Zmod.add Zmod.one Zmod.one.
Proof. change 2 with (1 + 1). rewrite inj_add, inj_1. reflexivity. Qed.

Lemma inj_3 : inj 3 = Zmod.add (Zmod.add Zmod.one Zmod.one) Zmod.one.
Proof. change 3 with (1 + 1 + 1). rewrite !inj_add, inj_1. reflexivity. Qed.

Lemma inj_8 : inj 8 = Zmod.mul (inj 2) (Zmod.mul (inj 2) (inj 2)).
Proof. change 8 with (2 * (2 * 2)). rewrite !inj_mul. reflexivity. Qed.

Lemma inj_7 : inj 7 = Zmod.sub (inj 8) Zmod.one.
Proof. change 7 with (8 - 1). rewrite inj_sub, inj_1. reflexivity. Qed.

Lemma inj_eq (a b : Z) : inj a = inj b <-> a mod CURVE.P = b mod CURVE.P.
Proof. apply Zmod.of_Z_inj. Qed.

Lemma inj_zero (a : Z) : 0 <= a < CURVE.P -> inj a = Zmod.zero -> a = 0.
Proof.
  intros Ha H. rewrite <- inj_0 in H. apply inj_eq in H.
  rewrite Z.mod_small, Z.mod_0_l in H; [exact H | pose proof P_pos; lia | exact Ha].
Qed.

Create Rewrite HintDb inj.
#[local] Hint Rewrite inj_modP inj_pow2 inj_add inj_mul inj_sub inj_opp : inj.

Ltac to_field :=
  autorewrite with inj in *; rewrite ?inj_7, ?inj_8, ?inj_3, ?inj_2, ?inj_1, ?inj_0 in *.

Lemma satisfies_curve_inj (X Y Z : Z) :
  satisfies_curve (mkJacobianPoint X Y Z)
  <-> Zmod.mul (inj Y) (inj Y)
      = Zmod.add (Zmod.mul (Zmod.mul (inj X) (inj X)) (inj X))
          (Zmod.mul (inj 7)
             (Zmod.mul (Zmod.mul (Zmod.mul (inj Z) (inj Z)) (inj Z))
                (Zmod.mul (Zmod.mul (inj Z) (inj Z)) (inj Z)))).
Proof.
  unfold satisfies_curve. cbn [Jx Jy Jz]. rewrite <- inj_eq. autorewrite with inj. reflexivity.
Qed.

Lemma modP_range (z : Z) : 0 <= modP z < CURVE.P.
Proof. rewrite modP_spec. apply Z.mod_pos_bound, P_pos. Qed.

Lemma modP_zero_l (a b : Z) : a = 0 -> modP (a * b) = 0.
Proof. intros ->. rewrite modP_spec. reflexivity. Qed.

Lemma ZERO_ok : on_curve_or_infinity JacobianPoint_ZERO.
Proof.
  split; [| left; reflexivity].
  unfold reduced, JacobianPoint_ZERO, _0n, _1n. cbn [Jx Jy Jz]. rewrite P_value. lia.
Qed.

Lemma double_ok (j : JacobianPoint) :
  on_curve_or_infinity j -> on_curve_or_infinity (JacobianPoint_double j).
Proof.
  destruct j as [X Y Z]. intros [_ H]. cbn [Jz] in H.
  unfold JacobianPoint_double. cbn [Jx Jy Jz] in *.
  cbv zeta. split; [split; [apply modP_range | split; apply modP_range] |]. cbn [Jz].
  destruct H as [-> | H]; [left; rewrite modP_spec, Z.mul_0_r; reflexivity | right].
  apply satisfies_curve_inj. apply satisfies_curve_inj in H.
  unfold _2n, _3n, _8n. to_field.
  revert H. generalize (inj X) (inj Y) (inj Z). intros x y z H. ring [H].
Qed.

Lemma negate_ok (j : JacobianPoint) :
  (on_curve_or_infinity j -> on_curve_or_infinity (JacobianPoint_negate j))
  /\ (on_curve_or_neutral j -> on_curve_or_neutral (JacobianPoint_negate j)).
Proof.
  destruct j as [X Y Z]. unfold JacobianPoint_negate. cbn [Jx Jy Jz].
  assert (R : reduced (mkJacobianPoint X Y Z) ->
              reduced (mkJacobianPoint X (modP (- Y)) Z)).
  { intros (Hx & _ & Hz). split; [exact Hx | split; [apply modP_range | exact Hz]]. }
  assert (E : satisfies_curve (mkJacobianPoint X Y Z) ->
              satisfies_curve (mkJacobianPoint X (modP (- Y)) Z)).
  { intros H. apply satisfies_curve_inj. apply satisfies_curve_inj in H. to_field.
    revert H. generalize (inj X) (inj Y) (inj Z). intros x y z H. ring [H]. }
  split; intros [Hr H]; (split; [apply R, Hr |]); cbn [Jx Jy Jz] in *.
  - destruct H as [H | H]; [left; exact H | right; apply E, H].
  - destruct H as [H | [H | [Hx Hy]]]; [left; exact H | right; left; apply E, H |].
    right. right. split; [exact Hx | subst Y; reflexivity].
Qed.

Lemma add_ok (a b : JacobianPoint) :
  on_curve_or_infinity a -> on_curve_or_neutral b ->
  on_curve_or_infinity (JacobianPoint_add a b).
Proof.
  intros Ha Hb. unfold JacobianPoint_add. cbv zeta. unfold _0n.
  destruct (Z.eqb_spec (Jx b) 0) as [? | Hx2]; [exact Ha |].
  destruct (Z.eqb_spec (Jy b) 0) as [? | Hy2]; [exact Ha |]. cbn [orb].
  assert (Hb' : on_curve_or_infinity b).
  { destruct Hb as [Hr [H | [H | [H _]]]]; [split; auto | split; auto | contradiction]. }
  destruct (Z.eqb_spec (Jx a) 0) as [? | Hx1]; [exact Hb' |].
  destruct (Z.eqb_spec (Jy a) 0) as [? | Hy1]; [exact Hb' |]. cbn [orb].
  match goal with |- context [if ?c then _ else _] => destruct c end.
  { match goal with |- context [if ?c then _ else _] => destruct c end;
      [apply double_ok, Ha | apply ZERO_ok]. }
  destruct a as [X1 Y1 Z1], b as [X2 Y2 Z2]. cbn [Jx Jy Jz] in *.
  split; [split; [apply modP_range | split; apply modP_range] |]. cbn [Jz].
  destruct Ha as [_ Ha]. cbn [Jz] in Ha.
  destruct Ha as [-> | H1]; [left; rewrite modP_spec; reflexivity |].
  destruct Hb' as [_ Hb']. cbn [Jz] in Hb'.
  destruct Hb' as [-> | H2];
    [left; rewrite modP_spec, Z.mul_0_r, Z.mul_0_l; reflexivity |].
  right. apply satisfies_curve_inj. apply satisfies_curve_inj in H1, H2.
  unfold _2n. to_field.
  revert H1 H2. generalize (inj X1) (inj Y1) (inj Z1) (inj X2) (inj Y2) (inj Z2).
  intros x1 y1 z1 x2 y2 z2 H1 H2. ring [H1 H2].
Qed.

Lemma on_curve_weaken (j : JacobianPoint) : on_curve_or_infinity j -> on_curve_or_neutral j.
Proof. intros [Hr [H | H]]; split; auto. Qed.

Lemma invert_Ok_inverse (x m y : Z) :
  1 < m -> invert x m = Ok y -> 0 <= y < m /\ (y * x) mod m = 1.
Proof.
  intros Hm E. unfold invert, _0n, _1n in E.
  destruct (Z.eqb_spec x 0) as [? | Hx]; [discriminate |].
  destruct (Z.leb_spec m 0) as [? | _]; [lia |]. cbn [orb] in E.
  rewrite mod__spec in E by lia.
  pose proof (Z.mod_pos_bound x m ltac:(lia)) as Hr.
  destruct (invert_loop_spec x m (invert_fuel m) (x mod m) m 0 1 1 0) as (x' & E' & D).
  - lia.
  - apply invert_fuel_enough. lia.
  - exists 1. lia.
  - exists (- (x / m)). pose proof (Z.div_mod x m ltac:(lia)). lia.
  - rewrite E' in E.
    destruct (Z.eqb_spec (Z.gcd (x mod m) m) 1) as [Hg | _]; [| discriminate].
    cbn [negb] in E. injection E as <-. rewrite mod__spec by lia.
    split; [apply Z.mod_pos_bound; lia |].
    rewrite Hg in D. rewrite Z.mul_mod_idemp_l by lia.
    destruct D as [k Hk]. replace (x' * x) with (1 + (- k) * m) by lia.
    rewrite Z.mod_add by lia. apply Z.mod_small. lia.
Qed.

Lemma beta_cube : (CURVE.beta * CURVE.beta * CURVE.beta) mod CURVE.P = 1.
Proof. vm_compute. reflexivity. Qed.

Lemma endo_ok (j : JacobianPoint) :
  on_curve_or_infinity j ->
  on_curve_or_infinity (mkJacobianPoint (modP (Jx j * CURVE.beta)) (Jy j) (Jz j)).
Proof.
  destruct j as [X Y Z]. intros [(Hx & Hy & Hz) H]. cbn [Jx Jy Jz] in *.
  split; [split; [apply modP_range | split; cbn [Jx Jy Jz]; lia] |]. cbn [Jz].
  destruct H as [H | H]; [left; exact H | right].
  apply satisfies_curve_inj. apply satisfies_curve_inj in H.
  assert (B : Zmod.mul (Zmod.mul (inj CURVE.beta) (inj CURVE.beta)) (inj CURVE.beta) = Zmod.one).
  { rewrite <- !inj_mul, <- inj_1. apply inj_eq. rewrite beta_cube. reflexivity. }
  to_field. revert H B. generalize (inj X) (inj Y) (inj Z) (inj CURVE.beta).
  intros x y z t H B. ring [H B].
Qed.

(** The point with [z = 1] that [normalizeZ] makes of a point and of the
    inverse of its [z], or of 0 when [z] is 0. *)
Lemma normalized_finite (j : JacobianPoint) (iz : Z) :
  on_curve_or_infinity j -> Jz j <> 0 -> (iz * Jz j) mod CURVE.P = 1 ->
  satisfies_curve (JacobianPoint_fromAffine (JacobianPoint_toAffine_with j iz)).
Proof.
  destruct j as [X Y Z]. intros [_ H] Hz Hinv. cbn [Jz] in *.
  unfold JacobianPoint_fromAffine, JacobianPoint_toAffine_with, new_Point.
  cbn [Jx Jy Jz Px Py]. destruct H as [? | H]; [contradiction |].
  apply satisfies_curve_inj. apply satisfies_curve_inj in H. cbn [Jx Jy Jz] in *.
  assert (I : Zmod.mul (inj iz) (inj Z) = Zmod.one).
  { rewrite <- inj_mul, <- inj_1. apply inj_eq. rewrite Hinv.
    symmetry. apply Z.mod_small. rewrite P_value. lia. }
  unfold _1n. to_field. revert H I. generalize (inj X) (inj Y) (inj Z) (inj iz).
  intros x y z i H I.
  transitivity (Zmod.mul (Zmod.mul (Zmod.mul (Zmod.mul i i) i) (Zmod.mul (Zmod.mul i i) i))
                  (Zmod.mul y y)); [ring |].
  rewrite H.
  transitivity (Zmod.add
                  (Zmod.mul (Zmod.mul (Zmod.mul (Zmod.mul i i) i) (Zmod.mul (Zmod.mul i i) i))
                     (Zmod.mul (Zmod.mul x x) x))
                  (Zmod.mul (Zmod.sub (Zmod.mul (Zmod.add Zmod.one Zmod.one)
                               (Zmod.mul (Zmod.add Zmod.one Zmod.one) (Zmod.add Zmod.one Zmod.one)))
                               Zmod.one)
                     (Zmod.mul
                        (Zmod.mul (Zmod.mul (Zmod.mul i z) (Zmod.mul i z)) (Zmod.mul i z))
                        (Zmod.mul (Zmod.mul (Zmod.mul i z) (Zmod.mul i z)) (Zmod.mul i z)))));
    [ring |].
  rewrite I. ring.
Qed.

Lemma normalized_ok (j : JacobianPoint) (iz : Z) :
  on_curve_or_infinity j ->
  (Jz j = 0 /\ iz = 0) \/ (Jz j <> 0 /\ (iz * Jz j) mod CURVE.P = 1) ->
  let q := JacobianPoint_fromAffine (JacobianPoint_toAffine_with j iz) in
  on_curve_or_neutral q /\ Jz q = 1.
Proof.
  intros Hj Hiz. cbv zeta. split; [| reflexivity].
  split.
  { unfold JacobianPoint_fromAffine, JacobianPoint_toAffine_with, new_Point.
    cbn [Jx Jy Jz Px Py].
    split; [apply modP_range | split; [apply modP_range |]].
    cbn [Jz]. unfold _1n. rewrite P_value. lia. }
  right. destruct Hiz as [[Hz ->] | [Hz Hinv]].
  - right. unfold JacobianPoint_fromAffine, JacobianPoint_toAffine_with, new_Point.
    cbn [Jx Jy Jz Px Py].
    rewrite pow_spec by (unfold _2n; lia). unfold _2n.
    rewrite !modP_spec, Z.pow_0_l, !Z.mul_0_r by lia. split; reflexivity.
  - left. apply normalized_finite; assumption.
Qed.

Lemma normalizeZ_ok (points : list JacobianPoint) :
  Forall on_curve_or_infinity points ->
  exists out,
    JacobianPoint_normalizeZ points = Ok out
    /\ Forall (fun q => on_curve_or_neutral q /\ Jz q = 1) out
    /\ List.length out = List.length points.
Proof.
  intros Hall.
  destruct (invertBatch_entries CURVE.P (map Jz points) prime_P) as (inv & E & Hinv).
  { apply Forall_map. eapply Forall_impl; [| exact Hall]. intros j [(_ & _ & Hz) _]. exact Hz. }
  unfold JacobianPoint_normalizeZ, JacobianPoint_toAffineBatch. rewrite E. cbn [bind].
  eexists. split; [reflexivity |]. clear E. revert inv Hinv.
  induction Hall as [| j points Hj Hall IH]; intros inv Hinv.
  - inversion Hinv. split; constructor.
  - cbn [map] in Hinv. inversion Hinv as [| x o l l' Hxo Hrest]; subst.
    cbn [combine map fst snd List.length]. destruct (IH l' Hrest) as [IH1 IH2].
    split; [| rewrite IH2; reflexivity].
    constructor; [| exact IH1].
    apply (normalized_ok j o Hj).
    destruct Hxo as [[Hz ->] | [Hz Ho]]; [left; split; [exact Hz | reflexivity] | right].
    split; [exact Hz |]. apply (invert_Ok_inverse (Jz j) CURVE.P o); [rewrite P_value; lia | exact Ho].
Qed.

Lemma precomputeWindow_inner_ok (count : nat) :
  forall base p points,
    on_curve_or_infinity base -> on_curve_or_infinity p ->
    Forall on_curve_or_infinity points ->
    on_curve_or_infinity (fst (precomputeWindow_inner count base p points))
    /\ Forall on_curve_or_infinity (snd (precomputeWindow_inner count base p points))
    /\ List.length (snd (precomputeWindow_inner count base p points))
       = (List.length points + count)%nat.
Proof.
  induction count as [| count IH]; intros base p points Hb Hp Hpts; cbn [precomputeWindow_inner].
  - cbn [fst snd]. rewrite Nat.add_0_r. auto.
  - cbv zeta.
    assert (Hb' : on_curve_or_infinity (JacobianPoint_add base p))
      by (apply add_ok; [exact Hb | apply on_curve_weaken, Hp]).
    destruct (IH (JacobianPoint_add base p) p (points ++ [JacobianPoint_add base p]) Hb' Hp)
      as (I1 & I2 & I3).
    { apply Forall_app. split; [exact Hpts | constructor; [exact Hb' | constructor]]. }
    split; [exact I1 |]. split; [exact I2 |].
    rewrite I3, length_app. cbn [List.length]. lia.
Qed.

Lemma precomputeWindow_outer_ok (windows : nat) (W : Z) :
  forall p points,
    on_curve_or_infinity p -> Forall on_curve_or_infinity points ->
    Forall on_curve_or_infinity (precomputeWindow_outer windows W p points)
    /\ List.length (precomputeWindow_outer windows W p points)
       = (List.length points + windows * S (Z.to_nat (2 ^ (W - 1) - 1)))%nat.
Proof.
  induction windows as [| windows IH]; intros p points Hp Hpts; cbn [precomputeWindow_outer].
  - split; [exact Hpts | lia].
  - cbv zeta.
    destruct (precomputeWindow_inner_ok (Z.to_nat (2 ^ (W - 1) - 1)) p p (points ++ [p]) Hp Hp)
      as (I1 & I2 & I3).
    { apply Forall_app. split; [exact Hpts | constructor; [exact Hp | constructor]]. }
    destruct (precomputeWindow_inner _ p p (points ++ [p])) as [base pts]. cbn [fst snd] in *.
    destruct (IH (JacobianPoint_double base) pts (double_ok _ I1) I2) as [J1 J2].
    split; [exact J1 |]. rewrite J2, I3, length_app. cbn [List.length]. lia.
Qed.

Lemma precomputes_get_ok (Q : JacobianPoint -> Prop) (precomputes : list JacobianPoint) (i : Z) :
  Forall Q precomputes -> 0 <= i < Z.of_nat (List.length precomputes) ->
  exists pr, precomputes_get precomputes i = Ok pr /\ Q pr.
Proof.
  intros Hall Hi. unfold precomputes_get.
  destruct (nth_error precomputes (Z.to_nat i)) as [pr |] eqn:E.
  - exists pr. destruct (Z.ltb_spec i 0); [lia |]. split; [reflexivity |].
    rewrite Forall_forall in Hall. apply Hall. eapply nth_error_In, E.
  - apply nth_error_None in E. lia.
Qed.

Lemma wNAF_loop_ok (W : Z) (precomputes : list JacobianPoint) (count : nat) :
  1 <= W ->
  Forall on_curve_or_neutral precomputes ->
  forall window n p f,
    0 <= window ->
    (window + Z.of_nat count) * 2 ^ (W - 1) <= Z.of_nat (List.length precomputes) ->
    on_curve_or_infinity p -> on_curve_or_infinity f ->
    exists p' f',
      wNAF_loop count window W precomputes n p f = Ok (p', f')
      /\ on_curve_or_infinity p' /\ on_curve_or_infinity f'.
Proof.
  intros HW Hpre. induction count as [| count IH]; intros window n p f Hw Hlen Hp Hf.
  - exists p, f. split; [reflexivity | split; [exact Hp | exact Hf]].
  - cbn [wNAF_loop]. cbv zeta.
    assert (Hsize : 0 < 2 ^ (W - 1)) by (apply Z.pow_pos_nonneg; lia).
    assert (Hmax : 2 ^ W = 2 * 2 ^ (W - 1)).
    { replace W with (Z.succ (W - 1)) at 1 by lia. apply Z.pow_succ_r. lia. }
    assert (Hbits : 0 <= Z.land n (2 ^ W - 1) <= 2 ^ W - 1).
    { replace (Z.land n (2 ^ W - 1)) with (n mod 2 ^ W)
        by (rewrite <- Z.land_ones, Z.ones_equiv by lia; reflexivity).
      pose proof (Z.mod_pos_bound n (2 ^ W) ltac:(lia)). lia. }
    set (wbits := Z.land n (2 ^ W - 1)) in *.
    assert (Hcase : exists wb n',
              (if 2 ^ (W - 1) <? wbits then (wbits - 2 ^ W, Z.shiftr n W + _1n)
               else (wbits, Z.shiftr n W)) = (wb, n')
              /\ Z.abs wb <= 2 ^ (W - 1)).
    { destruct (Z.ltb_spec (2 ^ (W - 1)) wbits); eexists; eexists; (split; [reflexivity | lia]). }
    destruct Hcase as (wb & n' & -> & Hwb).
    assert (Hnext : (window + 1 + Z.of_nat count) * 2 ^ (W - 1)
                    <= Z.of_nat (List.length precomputes)) by lia.
    destruct (Z.eqb_spec wb 0) as [Hz | Hnz].
    + destruct (precomputes_get_ok _ precomputes (window * 2 ^ (W - 1)) Hpre) as (pr & -> & Hpr);
        [nia |]. cbn [bind]. apply IH; [lia | exact Hnext | exact Hp |].
      apply add_ok; [exact Hf |].
      destruct (negb (Z.rem window 2 =? 0)); [apply negate_ok, Hpr | exact Hpr].
    + destruct (precomputes_get_ok _ precomputes (window * 2 ^ (W - 1) + Z.abs wb - 1) Hpre)
        as (pr & -> & Hpr); [nia |]. cbn [bind]. apply IH; [lia | exact Hnext | | exact Hf].
      apply add_ok; [exact Hp |]. destruct (wb <? 0); [apply negate_ok, Hpr | exact Hpr].
Qed.

(** The window sizes for which the model is the code: the loop bounds and
    table indices, JavaScript numbers in the code, are then small integers,
    and the table fits an array. *)
Lemma window_sizes (w : Z) :
  In w [1; 2; 4; 8; 16] -> 0 <= w /\ Z.rem 256 (if w =? 0 then 1 else w) = 0.
Proof.
  cbn [In]. intros H.
  repeat (destruct H as [<- | H]; [split; [lia | reflexivity] |]). contradiction.
Qed.

Lemma window_count_pos (W : Z) : 1 <= W -> (1 <= window_count W)%nat.
Proof.
  intros HW. unfold window_count. change USE_ENDOMORPHISM with true. cbv iota.
  pose proof (Z.div_pos 128 W ltac:(lia) ltac:(lia)). lia.
Qed.

Lemma precomputeWindow_ok (this : JacobianPoint) (W : Z) :
  1 <= W -> on_curve_or_infinity this ->
  Forall on_curve_or_infinity (JacobianPoint_precomputeWindow this W)
  /\ Z.of_nat (List.length (JacobianPoint_precomputeWindow this W))
     = Z.of_nat (window_count W) * 2 ^ (W - 1).
Proof.
  intros HW Hthis. unfold JacobianPoint_precomputeWindow.
  destruct (precomputeWindow_outer_ok (window_count W) W this [] Hthis (Forall_nil _)) as [H1 H2].
  split; [exact H1 |]. rewrite H2. cbn [List.length].
  assert (Hsize : 0 < 2 ^ (W - 1)) by (apply Z.pow_pos_nonneg; lia).
  rewrite Nat.add_0_l, Nat2Z.inj_mul. f_equal. lia.
Qed.

Lemma wNAF_ok (this : JacobianPoint) (n : Z) (affinePoint : option Point) :
  on_curve_or_infinity this ->
  (forall ap w, affinePoint = Some ap -> _WINDOW_SIZE ap = Some w ->
                0 <= w /\ Z.rem 256 (if w =? 0 then 1 else w) = 0) ->
  exists p f,
    JacobianPoint_wNAF this n affinePoint = Ok (p, f)
    /\ on_curve_or_infinity p /\ on_curve_or_infinity f.
Proof.
  intros Hthis Hw. unfold JacobianPoint_wNAF. cbv zeta.
  set (ap' := match affinePoint with
              | None => if JacobianPoint_equals this JacobianPoint_BASE then Some Point_BASE
                        else None
              | Some _ => affinePoint
              end).
  set (W := match ap' with
            | Some ap => match _WINDOW_SIZE ap with
                         | Some w => if w =? 0 then 1 else w
                         | None => 1
                         end
            | None => 1
            end).
  assert (HW : 1 <= W /\ Z.rem 256 W = 0).
  { subst W ap'. destruct affinePoint as [ap |].
    - destruct (_WINDOW_SIZE ap) as [w |] eqn:Ew; [| split; [lia | reflexivity]].
      destruct (Hw ap w eq_refl Ew) as [H0 Hr]. split; [| exact Hr].
      destruct (Z.eqb_spec w 0); lia.
    - destruct (JacobianPoint_equals this JacobianPoint_BASE); split; cbn; try lia; reflexivity. }
  clearbody W. destruct HW as [HW Hrem]. rewrite Hrem. cbn [Z.eqb negb].
  destruct (precomputeWindow_ok this W HW Hthis) as [Hpre Hlen].
  assert (Hnorm : exists pre,
            match ap' with
            | Some _ => if negb (W =? 1)
                        then JacobianPoint_normalizeZ (JacobianPoint_precomputeWindow this W)
                        else Ok (JacobianPoint_precomputeWindow this W)
            | None => Ok (JacobianPoint_precomputeWindow this W)
            end = Ok pre
            /\ Forall on_curve_or_neutral pre
            /\ List.length pre = List.length (JacobianPoint_precomputeWindow this W)).
  { assert (Hplain : exists pre,
              Ok (JacobianPoint_precomputeWindow this W) = Ok pre
              /\ Forall on_curve_or_neutral pre
              /\ List.length pre = List.length (JacobianPoint_precomputeWindow this W)).
    { eexists. split; [reflexivity |]. split; [| reflexivity].
      eapply Forall_impl; [| exact Hpre]. exact on_curve_weaken. }
    destruct ap' as [? |]; [| exact Hplain].
    destruct (negb (W =? 1)); [| exact Hplain].
    destruct (normalizeZ_ok _ Hpre) as (out & E & Hout & Hl).
    exists out. split; [exact E |]. split; [| exact Hl].
    eapply Forall_impl; [| exact Hout]. intros q [Hq _]. exact Hq. }
  destruct Hnorm as (pre & -> & Hpre' & Hl). cbn [bind].
  apply wNAF_loop_ok; try assumption; [lia | | exact ZERO_ok | exact ZERO_ok].
  rewrite Hl, Hlen. lia.
Qed.

Lemma multiply_ok (this : JacobianPoint) (scalar : Z) (affinePoint : option Point) :
  on_curve_or_infinity this ->
  (forall ap w, affinePoint = Some ap -> _WINDOW_SIZE ap = Some w ->
                0 <= w /\ Z.rem 256 (if w =? 0 then 1 else w) = 0) ->
  0 < scalar < CURVE.n ->
  exists real,
    JacobianPoint_multiply this scalar affinePoint = Ok real
    /\ on_curve_or_neutral real /\ Jz real = 1.
Proof.
  intros Hthis Hw Hk. unfold JacobianPoint_multiply, normalizeScalar, isWithinCurveOrder.
  destruct (Z.ltb_spec _0n scalar) as [_ | H]; [| unfold _0n in H; lia].
  destruct (Z.ltb_spec scalar CURVE.n) as [_ | H]; [| lia].
  cbn [andb bind]. change USE_ENDOMORPHISM with true. cbv iota.
  destruct (splitScalarEndo_spec scalar ltac:(lia)) as (s & -> & _). cbn [bind].
  destruct (wNAF_ok this (k1 s) affinePoint Hthis Hw) as (p1 & f1 & -> & Hp1 & Hf1).
  destruct (wNAF_ok this (k2 s) affinePoint Hthis Hw) as (p2 & f2 & -> & Hp2 & Hf2).
  cbn [bind]. cbv zeta.
  match goal with
  | |- context [JacobianPoint_normalizeZ [?a; ?b]] =>
      assert (Hall : Forall on_curve_or_infinity [a; b])
  end.
  { constructor; [| constructor; [| constructor]].
    - apply add_ok.
      + destruct (k1neg s); [apply negate_ok, Hp1 | exact Hp1].
      + apply on_curve_weaken, endo_ok.
        destruct (k2neg s); [apply negate_ok, Hp2 | exact Hp2].
    - apply add_ok; [exact Hf1 | apply on_curve_weaken, Hf2]. }
  destruct (normalizeZ_ok _ Hall) as (out & -> & Hout & Hl). cbn [bind].
  destruct out as [| real rest]; [discriminate |].
  exists real. split; [reflexivity |]. inversion Hout; subst. assumption.
Qed.

(** No point of the curve has a zero coordinate: 7 is not a square and -7 is
    not a cube modulo [CURVE.P]. *)
Lemma P_minus_1_half : CURVE.P - 1 = 2 * ((CURVE.P - 1) / 2).
Proof. vm_compute. reflexivity. Qed.

Lemma P_minus_1_third : CURVE.P - 1 = 3 * ((CURVE.P - 1) / 3).
Proof. vm_compute. reflexivity. Qed.

Lemma P_fractions_nonneg : 0 <= (CURVE.P - 1) / 2 /\ 0 <= (CURVE.P - 1) / 3.
Proof. split; vm_compute; discriminate. Qed.

Lemma euler_seven : powmod 7 ((CURVE.P - 1) / 2) CURVE.P = CURVE.P - 1.
Proof. vm_compute. reflexivity. Qed.

Lemma cubic_minus_seven :
  powmod (CURVE.P - 7) ((CURVE.P - 1) / 3) CURVE.P
  = CURVE.beta.
Proof. vm_compute. reflexivity. Qed.

Lemma seven_not_square (y : Z) : (y * y) mod CURVE.P <> 7.
Proof.
  intros E. pose proof P_pos as HP. destruct P_fractions_nonneg as [Hh _].
  assert (Hy : y mod CURVE.P <> 0).
  { intros Hy. rewrite Z.mul_mod, Hy in E by lia. discriminate E. }
  pose proof (ZmodInv.Z.fermat_nz CURVE.P y prime_P Hy) as Ef.
  rewrite P_minus_1_half in Ef. revert Ef. generalize ((CURVE.P - 1) / 2) Hh euler_seven.
  intros h Hh' Eh Ef.
  rewrite Z.pow_mul_r, Z.pow_2_r, <- Z.mod_pow_l, E in Ef by lia.
  rewrite <- powmod_spec, Eh in Ef by lia. rewrite P_value in Ef. discriminate Ef.
Qed.

Lemma minus_seven_not_cube (x : Z) : (x * x * x + 7) mod CURVE.P <> 0.
Proof.
  intros E. pose proof P_pos as HP. destruct P_fractions_nonneg as [_ Hh].
  assert (Hx : x mod CURVE.P <> 0).
  { intros Hx. rewrite Z.add_mod, Z.mul_mod, Hx, Z.mul_0_r in E by lia.
    rewrite P_value in E. discriminate E. }
  assert (E3 : (x * x * x) mod CURVE.P = CURVE.P - 7).
  { replace (x * x * x) with ((x * x * x + 7) - 7) by ring.
    rewrite <- Zminus_mod_idemp_l, E. rewrite P_value. reflexivity. }
  pose proof (ZmodInv.Z.fermat_nz CURVE.P x prime_P Hx) as Ef.
  rewrite P_minus_1_third in Ef. revert Ef. generalize ((CURVE.P - 1) / 3) Hh cubic_minus_seven.
  intros h Hh' Eh Ef.
  rewrite Z.pow_mul_r in Ef by lia.
  replace (x ^ 3) with (x * x * x) in Ef by ring.
  rewrite <- Z.mod_pow_l, E3 in Ef.
  rewrite <- powmod_spec, Eh in Ef by lia. discriminate Ef.
Qed.

Lemma affine_of_normalized (real : JacobianPoint) :
  on_curve_or_neutral real -> Jz real = 1 ->
  JacobianPoint_toAffine real = Ok (new_Point (Jx real) (Jy real))
  /\ (Point_assertValidity (new_Point (Jx real) (Jy real)) = Ok tt
      \/ new_Point (Jx real) (Jy real) = Point_ZERO).
Proof.
  destruct real as [X Y Z]. cbn [Jx Jy Jz]. intros [(Hx & Hy & _) H] ->.
  cbn [Jx Jy Jz] in *. pose proof P_pos as HP.
  split.
  - unfold JacobianPoint_toAffine. cbn [Jz]. rewrite invert_one. cbn [bind].
    unfold JacobianPoint_toAffine_with, _2n. cbn [Jx Jy]. cbv zeta.
    rewrite pow_spec, !modP_spec by lia. change (1 ^ 2) with 1.
    rewrite !Z.mul_1_r, !Z.mod_small by lia. reflexivity.
  - destruct H as [H | [H | [-> ->]]]; [discriminate H | left | right; reflexivity].
    unfold satisfies_curve in H. cbn [Jx Jy Jz] in H.
    change (7 * (1 * 1 * 1 * (1 * 1 * 1))) with 7 in H.
    apply assertValidity_iff. cbn [Px Py new_Point].
    assert (X <> 0).
    { intros ->. apply (seven_not_square Y). rewrite H. reflexivity. }
    assert (Y <> 0).
    { intros ->. apply (minus_seven_not_cube X). rewrite <- H. reflexivity. }
    repeat split; try lia; exact H.
Qed.

Lemma fromAffine_ok (p : Point) :
  Point_assertValidity p = Ok tt -> on_curve_or_infinity (JacobianPoint_fromAffine p).
Proof.
  intros H. apply assertValidity_iff in H. destruct H as (Hx & Hy & Hc).
  split; [unfold reduced, JacobianPoint_fromAffine, _1n; cbn [Jx Jy Jz]; rewrite P_value in *; lia |]. right.
  unfold satisfies_curve. cbn [JacobianPoint_fromAffine Jx Jy Jz]. unfold _1n.
  change (7 * (1 * 1 * 1 * (1 * 1 * 1))) with 7. exact Hc.
Qed.

Lemma Point_multiply_spec (p : Point) (scalar : Z) :
  Point_assertValidity p = Ok tt ->
  (forall w, _WINDOW_SIZE p = Some w -> In w [1; 2; 4; 8; 16]) ->
  0 < scalar < CURVE.n ->
  exists q,
    Point_multiply p scalar = Ok q
    /\ (Point_assertValidity q = Ok tt \/ q = Point_ZERO).
Proof.
  intros Hp Hw Hk. unfold Point_multiply.
  destruct (multiply_ok (JacobianPoint_fromAffine p) scalar (Some p) (fromAffine_ok p Hp))
    as (real & -> & Hreal & Hz); [| exact Hk |].
  { intros ap w [= <-] Ew. apply window_sizes, Hw, Ew. }
  cbn [bind]. destruct (affine_of_normalized real Hreal Hz) as [-> Hq].
  eexists. split; [reflexivity | exact Hq].
Qed.

Lemma multiplyUnsafe_loop_ok (fuel : nat) :
  forall k1 k2 k1p k2p d,
    k1 < 2 ^ Z.of_nat fuel -> k2 < 2 ^ Z.of_nat fuel ->
    on_curve_or_infinity k1p -> on_curve_or_infinity k2p -> on_curve_or_infinity d ->
    exists a b,
      multiplyUnsafe_loop fuel k1 k2 k1p k2p d = Some (a, b)
      /\ on_curve_or_infinity a /\ on_curve_or_infinity b.
Proof.
  induction fuel as [| fuel IH]; intros k1 k2 k1p k2p d H1 H2 Hp1 Hp2 Hd.
  - cbn [multiplyUnsafe_loop]. unfold _0n. change (2 ^ Z.of_nat 0) with 1 in *.
    destruct (Z.ltb_spec 0 k1); [lia |]. destruct (Z.ltb_spec 0 k2); [lia |].
    cbn [orb negb]. eauto.
  - cbn [multiplyUnsafe_loop].
    destruct (negb ((_0n <? k1) || (_0n <? k2))); [eauto |].
    cbv zeta. rewrite Nat2Z.inj_succ, Z.pow_succ_r in * by lia.
    apply IH.
    + unfold _1n. rewrite Z.shiftr_div_pow2 by lia. change (2 ^ 1) with 2.
      apply Z.div_lt_upper_bound; lia.
    + unfold _1n. rewrite Z.shiftr_div_pow2 by lia. change (2 ^ 1) with 2.
      apply Z.div_lt_upper_bound; lia.
    + destruct (negb (Z.land k1 _1n =? 0)); [| exact Hp1].
      apply add_ok; [exact Hp1 | apply on_curve_weaken, Hd].
    + destruct (negb (Z.land k2 _1n =? 0)); [| exact Hp2].
      apply add_ok; [exact Hp2 | apply on_curve_weaken, Hd].
    + apply double_ok, Hd.
Qed.

Lemma bits_fuel_enough (k1 k2 : Z) :
  k1 < 2 ^ Z.of_nat (bits_fuel k1 k2) /\ k2 < 2 ^ Z.of_nat (bits_fuel k1 k2).
Proof.
  unfold bits_fuel. set (m := Z.max k1 k2).
  assert (Hm : m < 2 ^ Z.of_nat (S (S (Z.to_nat (Z.log2 m))))).
  { rewrite !Nat2Z.inj_succ, Z2Nat.id by apply Z.log2_nonneg.
    rewrite Z.pow_succ_r by (pose proof (Z.log2_nonneg m); lia).
    destruct (Z.ltb_spec 0 m) as [Hpos | Hneg].
    - pose proof (Z.log2_spec m Hpos). lia.
    - pose proof (Z.pow_pos_nonneg 2 (Z.succ (Z.log2 m)) ltac:(lia)
                    ltac:(pose proof (Z.log2_nonneg m); lia)). lia. }
  subst m. split; lia.
Qed.

(** X17: [multiplyUnsafe] by a scalar [0 < k < n] returns a point (its loop
    ends within the bit length of the two half scalars), and that point is on
    the curve or at infinity when the argument is. *)
Theorem multiplyUnsafe_on_curve (this : JacobianPoint) (scalar : Z) :
  on_curve_or_infinity this -> 0 < scalar < CURVE.n ->
  exists r, JacobianPoint_multiplyUnsafe this scalar = Ok r /\ on_curve_or_infinity r.
Proof.
  intros Hthis Hk. unfold JacobianPoint_multiplyUnsafe, normalizeScalar, isWithinCurveOrder.
  destruct (Z.ltb_spec _0n scalar) as [_ | H]; [| unfold _0n in H; lia].
  destruct (Z.ltb_spec scalar CURVE.n) as [_ | H]; [| lia].
  cbn [andb bind]. change USE_ENDOMORPHISM with true. cbn [negb].
  destruct (splitScalarEndo_spec scalar ltac:(lia)) as (s & -> & _). cbn [bind].
  destruct (bits_fuel_enough (k1 s) (k2 s)) as [H1 H2].
  destruct (multiplyUnsafe_loop_ok _ (k1 s) (k2 s) JacobianPoint_ZERO JacobianPoint_ZERO this
              H1 H2 ZERO_ok ZERO_ok Hthis) as (a & b & -> & Ha & Hb).
  cbv zeta. eexists. split; [reflexivity |].
  apply add_ok.
  - destruct (k1neg s); [apply negate_ok, Ha | exact Ha].
  - apply on_curve_weaken, endo_ok. destruct (k2neg s); [apply negate_ok, Hb | exact Hb].
Qed.

(** [toAffine] on what the point operations return. *)
Lemma toAffine_infinity (j : JacobianPoint) :
  Jz j = 0 -> JacobianPoint_toAffine j = Throw (Error "invert: expected positive integers").
Proof. intros Hz. unfold JacobianPoint_toAffine, invert. rewrite Hz. reflexivity. Qed.

Lemma toAffine_finite (j : JacobianPoint) :
  on_curve_or_infinity j -> Jz j <> 0 ->
  exists q, JacobianPoint_toAffine j = Ok q /\ Point_assertValidity q = Ok tt.
Proof.
  intros Hj Hz. pose proof Hj as [(_ & _ & Hr) _].
  destruct (residue_coprime CURVE.P (Jz j) prime_P Hr) as [? | Hg]; [contradiction |].
  destruct (invert_spec (Jz j) CURVE.P ltac:(rewrite P_value; lia) Hg) as (iz & E & _ & Hinv).
  unfold JacobianPoint_toAffine. rewrite E. cbn [bind]. eexists. split; [reflexivity |].
  destruct (normalized_ok j iz Hj (or_intror (conj Hz Hinv))) as [Hq _].
  pose proof (normalized_finite j iz Hj Hz Hinv) as Hc.
  destruct (affine_of_normalized _ (conj (proj1 Hq) (or_intror (or_introl Hc))) eq_refl)
    as [_ [Hv | Hzero]].
  - exact Hv.
  - exfalso. revert Hc Hzero. generalize (JacobianPoint_toAffine_with j iz). intros [x y w].
    unfold satisfies_curve, JacobianPoint_fromAffine, Point_ZERO, new_Point, _0n, _1n.
    cbn [Jx Jy Jz Px Py]. intros Hc [= -> ->]. rewrite P_value in Hc. discriminate Hc.
Qed.

Lemma double_residue_nonzero (y : Z) : 0 < y < CURVE.P -> (2 * y) mod CURVE.P <> 0.
Proof.
  intros Hy E. pose proof (Z.div_mod (2 * y) CURVE.P ltac:(rewrite P_value; lia)) as D.
  rewrite E in D. revert D. generalize (2 * y / CURVE.P). intros q D.
  rewrite P_value in *. lia.
Qed.

Lemma add_affine (p q : Point) :
  Point_assertValidity p = Ok tt -> Point_assertValidity q = Ok tt ->
  let s := JacobianPoint_add (JacobianPoint_fromAffine p) (JacobianPoint_fromAffine q) in
  (Px p = Px q /\ Py p <> Py q -> s = JacobianPoint_ZERO)
  /\ (~ (Px p = Px q /\ Py p <> Py q) -> Jz s <> 0).
Proof.
  intros Hp Hq. apply assertValidity_iff in Hp, Hq.
  destruct p as [x1 y1 w1], q as [x2 y2 w2]. cbn [Px Py] in *.
  destruct Hp as (Hx1 & Hy1 & _), Hq as (Hx2 & Hy2 & _). pose proof P_pos as HP.
  cbv zeta. unfold JacobianPoint_add, JacobianPoint_fromAffine, _0n, _1n, _2n.
  cbn [Jx Jy Jz Px Py]. cbv zeta.
  destruct (Z.eqb_spec x2 0); [lia |]. destruct (Z.eqb_spec y2 0); [lia |].
  destruct (Z.eqb_spec x1 0); [lia |]. destruct (Z.eqb_spec y1 0); [lia |].
  cbn [orb]. rewrite !pow_spec by lia. change (1 ^ 2) with 1.
  change (modP 1) with 1. rewrite !Z.mul_1_r.
  assert (Em : forall v, 0 < v < CURVE.P -> modP v = v)
    by (intros v Hv; rewrite modP_spec; apply Z.mod_small; lia).
  repeat rewrite (Em x1) by assumption. repeat rewrite (Em x2) by assumption.
  repeat rewrite (Em y1) by assumption. repeat rewrite (Em y2) by assumption.
  assert (Ed : forall a b, 0 < a < CURVE.P -> 0 < b < CURVE.P -> modP (a - b) = 0 -> a = b).
  { intros a b Ha Hb. rewrite modP_spec.
    intros E. pose proof (Z.div_mod (a - b) CURVE.P ltac:(lia)) as D. rewrite E in D.
    revert D. generalize ((a - b) / CURVE.P). intros k D.
    rewrite P_value in *. lia. }
  assert (Ez : forall a, modP (a - a) = 0) by (intros a; rewrite Z.sub_diag; reflexivity).
  destruct (Z.eqb_spec (modP (x2 - x1)) 0) as [EH | EH].
  - apply Ed in EH; try assumption. subst x2.
    destruct (Z.eqb_spec (modP (y2 - y1)) 0) as [Er | Er].
    + apply Ed in Er; try assumption. subst y2. split; [intros [_ Hne]; congruence |].
      intros _. unfold JacobianPoint_double, _2n. cbn [Jx Jy Jz]. cbv zeta. cbn [Jz].
      rewrite modP_spec, Z.mul_1_r. apply double_residue_nonzero. assumption.
    + split; [reflexivity |]. intros Hn Hz. apply Hn. split; [reflexivity |].
      intros ->. apply Er, Ez.
  - split.
    + intros [-> _]. exfalso. apply EH, Ez.
    + intros _. cbn [Jz]. rewrite ?Z.mul_1_l, ?Z.mul_1_r. rewrite !modP_spec in *.
      rewrite Z.mod_mod by lia. exact EH.
Qed.

Lemma Point_add_spec (p q : Point) :
  Point_assertValidity p = Ok tt -> Point_assertValidity q = Ok tt ->
  (Px p = Px q /\ Py p <> Py q ->
   Point_add p q = Throw (Error "invert: expected positive integers"))
  /\ (~ (Px p = Px q /\ Py p <> Py q) ->
      exists r, Point_add p q = Ok r /\ Point_assertValidity r = Ok tt).
Proof.
  intros Hp Hq. destruct (add_affine p q Hp Hq) as [Hzero Hfin]. unfold Point_add. split.
  - intros H. rewrite (Hzero H). apply toAffine_infinity. reflexivity.
  - intros H. apply toAffine_finite; [| exact (Hfin H)].
    apply add_ok; [apply fromAffine_ok, Hp | apply on_curve_weaken, fromAffine_ok, Hq].
Qed.

Lemma Point_negate_valid (p : Point) :
  Point_assertValidity p = Ok tt ->
  Point_assertValidity (Point_negate p) = Ok tt
  /\ Px (Point_negate p) = Px p /\ Py (Point_negate p) = CURVE.P - Py p.
Proof.
  intros Hp. apply assertValidity_iff in Hp. destruct Hp as (Hx & Hy & Hc).
  assert (E : modP (- Py p) = CURVE.P - Py p).
  { rewrite modP_spec. symmetry. apply Z.mod_unique with (q := -1); lia. }
  split; [| split; [reflexivity | exact E]].
  apply assertValidity_iff. unfold Point_negate, new_Point. cbn [Px Py]. rewrite E.
  split; [exact Hx |]. split; [lia |]. rewrite <- Hc.
  replace ((CURVE.P - Py p) * (CURVE.P - Py p))
    with (Py p * Py p + (CURVE.P - 2 * Py p) * CURVE.P) by ring.
  apply Z.mod_add. lia.
Qed.

Lemma Point_double_spec (p : Point) :
  Point_assertValidity p = Ok tt ->
  exists r, Point_double p = Ok r /\ Point_assertValidity r = Ok tt.
Proof.
  intros Hp. unfold Point_double. apply toAffine_finite; [apply double_ok, fromAffine_ok, Hp |].
  apply assertValidity_iff in Hp. destruct Hp as (_ & Hy & _).
  unfold JacobianPoint_double, JacobianPoint_fromAffine, _1n, _2n. cbn [Jx Jy Jz]. cbv zeta.
  cbn [Jz]. rewrite modP_spec, Z.mul_1_r. apply double_residue_nonzero, Hy.
Qed.

Lemma BASE_ok : on_curve_or_infinity JacobianPoint_BASE.
Proof. exact (fromAffine_ok Point_BASE base_point_valid). Qed.

Lemma BASE_window (w : Z) : _WINDOW_SIZE Point_BASE = Some w -> In w [1; 2; 4; 8; 16].
Proof. intros [= <-]. cbn [In]. tauto. Qed.

(** X13: the Jacobian operations keep the curve: if the arguments have
    coordinates in [0, P) and are points at infinity ([z = 0]) or satisfy
    [Y^2 = X^3 + 7 Z^6] modulo [P], so do the results of [negate], [double],
    [add] and [subtract]. *)
Theorem jacobian_operations_closed (a b : JacobianPoint) :
  on_curve_or_infinity a -> on_curve_or_infinity b ->
  on_curve_or_infinity (JacobianPoint_negate a)
  /\ on_curve_or_infinity (JacobianPoint_double a)
  /\ on_curve_or_infinity (JacobianPoint_add a b)
  /\ on_curve_or_infinity (JacobianPoint_subtract a b).
Proof.
  intros Ha Hb. split; [apply negate_ok, Ha |]. split; [apply double_ok, Ha |].
  split; [apply add_ok; [exact Ha | apply on_curve_weaken, Hb] |].
  unfold JacobianPoint_subtract. apply add_ok; [exact Ha |].
  apply on_curve_weaken. apply negate_ok, Hb.
Qed.

Lemma jacobian_operations_closed_witness :
  on_curve_or_infinity JacobianPoint_BASE /\ on_curve_or_infinity JacobianPoint_ZERO
  /\ (on_curve_or_infinity (JacobianPoint_negate JacobianPoint_BASE)
      /\ on_curve_or_infinity (JacobianPoint_double JacobianPoint_BASE)
      /\ on_curve_or_infinity (JacobianPoint_add JacobianPoint_BASE JacobianPoint_ZERO)
      /\ on_curve_or_infinity (JacobianPoint_subtract JacobianPoint_BASE JacobianPoint_ZERO)).
Proof.
  split; [exact BASE_ok |]. split; [exact ZERO_ok |].
  exact (jacobian_operations_closed JacobianPoint_BASE JacobianPoint_ZERO BASE_ok ZERO_ok).
Defined.

(** X14: on a list of points that are on the curve or at infinity,
    [normalizeZ] does not throw and returns as many points, each with
    [z = 1] and either on the curve or the triple [(0, 0, 1)] that stands for
    a point at infinity. *)
Theorem normalizeZ_normalizes (points : list JacobianPoint) :
  Forall on_curve_or_infinity points ->
  exists out,
    JacobianPoint_normalizeZ points = Ok out
    /\ Forall (fun q => on_curve_or_neutral q /\ Jz q = 1) out
    /\ List.length out = List.length points.
Proof. exact (normalizeZ_ok points). Qed.

Lemma normalizeZ_normalizes_witness :
  Forall on_curve_or_infinity [JacobianPoint_BASE; JacobianPoint_ZERO]
  /\ exists out,
      JacobianPoint_normalizeZ [JacobianPoint_BASE; JacobianPoint_ZERO] = Ok out
      /\ Forall (fun q => on_curve_or_neutral q /\ Jz q = 1) out
      /\ List.length out = List.length [JacobianPoint_BASE; JacobianPoint_ZERO].
Proof.
  assert (H : Forall on_curve_or_infinity [JacobianPoint_BASE; JacobianPoint_ZERO])
    by (constructor; [exact BASE_ok | constructor; [exact ZERO_ok | constructor]]).
  split; [exact H |].
  exact (normalizeZ_normalizes [JacobianPoint_BASE; JacobianPoint_ZERO] H).
Defined.

(** X15: for a window size [W] that is a power of two up to 16,
    [precomputeWindow(W)] returns a table of [(128 / W + 1) * 2^(W - 1)]
    points, all on the curve or at infinity when the point itself is. *)
Theorem precomputeWindow_table (this : JacobianPoint) (W : Z) :
  In W [1; 2; 4; 8; 16] -> on_curve_or_infinity this ->
  Forall on_curve_or_infinity (JacobianPoint_precomputeWindow this W)
  /\ Z.of_nat (List.length (JacobianPoint_precomputeWindow this W))
     = (128 / W + 1) * 2 ^ (W - 1).
Proof.
  intros HW' Hthis.
  assert (HW : 1 <= W)
    by (cbn [In] in HW'; repeat (destruct HW' as [<- | HW']; [lia |]); contradiction). destruct (precomputeWindow_ok this W HW Hthis) as [H1 H2].
  split; [exact H1 |]. rewrite H2. f_equal. unfold window_count.
  change USE_ENDOMORPHISM with true. cbv iota.
  pose proof (Z.div_pos 128 W ltac:(lia) ltac:(lia)). lia.
Qed.

Lemma precomputeWindow_table_witness :
  In 8 [1; 2; 4; 8; 16] /\ on_curve_or_infinity JacobianPoint_BASE
  /\ (Forall on_curve_or_infinity (JacobianPoint_precomputeWindow JacobianPoint_BASE 8)
      /\ Z.of_nat (List.length (JacobianPoint_precomputeWindow JacobianPoint_BASE 8))
         = (128 / 8 + 1) * 2 ^ (8 - 1)).
Proof.
  assert (H : In 8 [1; 2; 4; 8; 16]) by (cbn [In]; tauto).
  split; [exact H |]. split; [exact BASE_ok |].
  exact (precomputeWindow_table JacobianPoint_BASE 8 H BASE_ok).
Defined.

(** X16: [JacobianPoint.multiply] by a scalar [0 < k < n] does not throw on a
    point that is on the curve or at infinity, called without an affine
    point or with the affine point it was made from, whose window size, if
    set, is a power of two up to 16; the point it returns has [z = 1] and is
    on the curve or is [(0, 0, 1)].  No table index of [wNAF] is out of
    range. *)
Theorem JacobianPoint_multiply_on_curve (this : JacobianPoint) (scalar : Z)
  (affinePoint : option Point) :
  on_curve_or_infinity this ->
  (forall ap, affinePoint = Some ap ->
              this = JacobianPoint_fromAffine ap
              /\ forall w, _WINDOW_SIZE ap = Some w -> In w [1; 2; 4; 8; 16]) ->
  0 < scalar < CURVE.n ->
  exists real,
    JacobianPoint_multiply this scalar affinePoint = Ok real
    /\ on_curve_or_neutral real /\ Jz real = 1.
Proof.
  intros Hthis Hap Hk. apply multiply_ok; [exact Hthis | | exact Hk].
  intros ap w E Ew. apply window_sizes. destruct (Hap ap E) as [_ Hw]. apply Hw, Ew.
Qed.

Lemma JacobianPoint_multiply_on_curve_witness :
  on_curve_or_infinity JacobianPoint_BASE
  /\ (forall ap, @None Point = Some ap ->
                 JacobianPoint_BASE = JacobianPoint_fromAffine ap
                 /\ forall w, _WINDOW_SIZE ap = Some w -> In w [1; 2; 4; 8; 16])
  /\ 0 < 5 < CURVE.n
  /\ exists real,
      JacobianPoint_multiply JacobianPoint_BASE 5 None = Ok real
      /\ on_curve_or_neutral real /\ Jz real = 1.
Proof.
  assert (Hw : forall ap, @None Point = Some ap ->
                          JacobianPoint_BASE = JacobianPoint_fromAffine ap
                          /\ forall w, _WINDOW_SIZE ap = Some w -> In w [1; 2; 4; 8; 16])
    by (intros ap E; discriminate E).
  assert (Hk : 0 < 5 < CURVE.n) by (split; reflexivity).
  split; [exact BASE_ok |]. split; [exact Hw |]. split; [exact Hk |].
  exact (JacobianPoint_multiply_on_curve JacobianPoint_BASE 5 None BASE_ok Hw Hk).
Defined.

Lemma multiplyUnsafe_on_curve_witness :
  on_curve_or_infinity JacobianPoint_BASE /\ 0 < 5 < CURVE.n
  /\ exists r, JacobianPoint_multiplyUnsafe JacobianPoint_BASE 5 = Ok r
               /\ on_curve_or_infinity r.
Proof.
  assert (Hk : 0 < 5 < CURVE.n) by (split; reflexivity).
  split; [exact BASE_ok |]. split; [exact Hk |].
  exact (multiplyUnsafe_on_curve JacobianPoint_BASE 5 BASE_ok Hk).
Defined.

(** X18: [Point.add] of two valid points throws the error of [invert]
    exactly when the points are opposite (same [x], different [y]: the sum
    is the point at infinity, which [toAffine] cannot convert); in every
    other case it returns a valid point. *)
Theorem Point_add_behaviour (p q : Point) :
  Point_assertValidity p = Ok tt -> Point_assertValidity q = Ok tt ->
  (Px p = Px q /\ Py p <> Py q ->
   Point_add p q = Throw (Error "invert: expected positive integers"))
  /\ (~ (Px p = Px q /\ Py p <> Py q) ->
      exists r, Point_add p q = Ok r /\ Point_assertValidity r = Ok tt).
Proof. exact (Point_add_spec p q). Qed.

Lemma Point_add_behaviour_witness :
  Point_assertValidity Point_BASE = Ok tt /\ Point_assertValidity Point_BASE = Ok tt
  /\ ((Px Point_BASE = Px Point_BASE /\ Py Point_BASE <> Py Point_BASE ->
       Point_add Point_BASE Point_BASE = Throw (Error "invert: expected positive integers"))
      /\ (~ (Px Point_BASE = Px Point_BASE /\ Py Point_BASE <> Py Point_BASE) ->
          exists r, Point_add Point_BASE Point_BASE = Ok r /\ Point_assertValidity r = Ok tt)).
Proof.
  split; [exact base_point_valid |]. split; [exact base_point_valid |].
  exact (Point_add_behaviour Point_BASE Point_BASE base_point_valid base_point_valid).
Defined.

(** X19: for a valid point [p], [negate] returns the valid point
    [(x, P - y)], [double] returns a valid point, and [p.subtract(p)]
    throws instead of returning [Point.ZERO]. *)
Theorem Point_negate_double_subtract (p : Point) :
  Point_assertValidity p = Ok tt ->
  (Point_assertValidity (Point_negate p) = Ok tt
   /\ Px (Point_negate p) = Px p /\ Py (Point_negate p) = CURVE.P - Py p)
  /\ (exists r, Point_double p = Ok r /\ Point_assertValidity r = Ok tt)
  /\ Point_subtract p p = Throw (Error "invert: expected positive integers").
Proof.
  intros Hp. pose proof (Point_negate_valid p Hp) as Hn.
  split; [exact Hn |]. split; [exact (Point_double_spec p Hp) |].
  unfold Point_subtract. destruct Hn as (Hv & Hx & Hy).
  apply (Point_add_spec p (Point_negate p) Hp Hv).
  split; [symmetry; exact Hx |]. rewrite Hy. intros E.
  apply assertValidity_iff in Hp. destruct Hp as (_ & Hy' & _).
  pose proof P_odd as Ho. rewrite P_value in *.
  assert (E2 : 2 * Py p = 115792089237316195423570985008687907853269984665640564039457584007908834671663)
    by lia.
  lia.
Qed.

Lemma Point_negate_double_subtract_witness :
  Point_assertValidity Point_BASE = Ok tt
  /\ ((Point_assertValidity (Point_negate Point_BASE) = Ok tt
       /\ Px (Point_negate Point_BASE) = Px Point_BASE
       /\ Py (Point_negate Point_BASE) = CURVE.P - Py Point_BASE)
      /\ (exists r, Point_double Point_BASE = Ok r /\ Point_assertValidity r = Ok tt)
      /\ Point_subtract Point_BASE Point_BASE
         = Throw (Error "invert: expected positive integers")).
Proof.
  split; [exact base_point_valid |].
  exact (Point_negate_double_subtract Point_BASE base_point_valid).
Defined.

(** X20: [Point.multiply] of a valid point, whose window size, if set, is a
    power of two up to 16, by a scalar [0 < k < n] does not throw and returns
    a valid point or [Point.ZERO]; it never returns a point off the curve. *)
Theorem Point_multiply_on_curve (p : Point) (scalar : Z) :
  Point_assertValidity p = Ok tt ->
  (forall w, _WINDOW_SIZE p = Some w -> In w [1; 2; 4; 8; 16]) ->
  0 < scalar < CURVE.n ->
  exists q,
    Point_multiply p scalar = Ok q
    /\ (Point_assertValidity q = Ok tt \/ q = Point_ZERO).
Proof. exact (Point_multiply_spec p scalar). Qed.

Lemma Point_multiply_on_curve_witness :
  Point_assertValidity Point_BASE = Ok tt
  /\ (forall w, _WINDOW_SIZE Point_BASE = Some w -> In w [1; 2; 4; 8; 16])
  /\ 0 < 5 < CURVE.n
  /\ exists q,
      Point_multiply Point_BASE 5 = Ok q
      /\ (Point_assertValidity q = Ok tt \/ q = Point_ZERO).
Proof.
  assert (Hk : 0 < 5 < CURVE.n) by (split; reflexivity).
  split; [exact base_point_valid |]. split; [exact BASE_window |]. split; [exact Hk |].
  exact (Point_multiply_on_curve Point_BASE 5 base_point_valid BASE_window Hk).
Defined.

Lemma toRawBytes_layout (p : Point) :
  0 <= Px p < 2 ^ 256 -> 0 <= Py p < 2 ^ 256 ->
  exists xb yb,
    List.length xb = 32%nat /\ List.length yb = 32%nat
    /\ be_value xb = Px p /\ be_value yb = Py p
    /\ Point_toRawBytes p false = Ok (x04 :: xb ++ yb)
    /\ Point_toRawBytes p true = Ok ((if Z.odd (Py p) then x03 else x02) :: xb).
Proof.
  intros Hx Hy.
  destruct (numTo32bStr_spec (Px p) ltac:(lia)) as (xb & Ex & Lx & Vx).
  destruct (numTo32bStr_spec (Py p) ltac:(lia)) as (yb & Ey & Ly & Vy).
  exists xb, yb. repeat split; try assumption.
  - unfold Point_toRawBytes, Point_toHex. rewrite Ex, Ey. cbn [bind].
    replace ("04" ++ hex_of_bytes xb ++ hex_of_bytes yb)%string
      with (hex_of_bytes ([x04] ++ xb ++ yb)) by (rewrite !hex_of_bytes_app; reflexivity).
    apply hexToBytes_hex_of_bytes.
  - unfold Point_toRawBytes, Point_toHex. rewrite Ex. cbn [bind]. unfold _1n.
    rewrite land_1_even. destruct (Z.odd (Py p)).
    + replace ("03" ++ hex_of_bytes xb)%string with (hex_of_bytes ([x03] ++ xb))
        by (rewrite !hex_of_bytes_app; reflexivity).
      apply hexToBytes_hex_of_bytes.
    + replace ("02" ++ hex_of_bytes xb)%string with (hex_of_bytes ([x02] ++ xb))
        by (rewrite !hex_of_bytes_app; reflexivity).
      apply hexToBytes_hex_of_bytes.
Qed.

Lemma valid_or_zero_range (q : Point) :
  Point_assertValidity q = Ok tt \/ q = Point_ZERO ->
  0 <= Px q < 2 ^ 256 /\ 0 <= Py q < 2 ^ 256.
Proof.
  assert (HP : CURVE.P < 2 ^ 256) by (rewrite P_value; reflexivity).
  intros [H | ->].
  - apply assertValidity_iff in H. lia.
  - pose proof P_pos. unfold Point_ZERO, new_Point, _0n. cbn [Px Py]. lia.
Qed.

(** X21: [getPublicKey] throws what [normalizePrivateKey] throws and nothing
    else; for a private key [0 < d < n] it returns the encoding of the point
    [Point.BASE.multiply(d)]: 65 bytes [04 | x | y], or 33 bytes
    [02 or 03 | x] by the parity of [y] when [isCompressed] is set. *)
Theorem getPublicKey_encoding (privateKey : PrivKey) (isCompressed : bool) :
  (forall e, normalizePrivateKey privateKey = Throw e ->
             getPublicKey privateKey isCompressed = Throw e)
  /\ (forall d, normalizePrivateKey privateKey = Ok d ->
        0 < d < CURVE.n
        /\ exists q xb yb,
            Point_multiply Point_BASE d = Ok q
            /\ List.length xb = 32%nat /\ List.length yb = 32%nat
            /\ be_value xb = Px q /\ be_value yb = Py q
            /\ getPublicKey privateKey isCompressed
               = Ok (if isCompressed then (if Z.odd (Py q) then x03 else x02) :: xb
                     else x04 :: xb ++ yb)).
Proof.
  unfold getPublicKey, Point_fromPrivateKey. split.
  - intros e ->. reflexivity.
  - intros d E. rewrite E. cbn [bind].
    assert (Hd : 0 < d < CURVE.n).
    { unfold normalizePrivateKey in E.
      destruct (match privateKey with
                | PrivHex (HexString key) => _ | PrivHex (HexBytes key) => _
                | PrivBigint key => _ | PrivNumber key => _ end) as [num | ?];
        cbn [bind] in E; [| discriminate].
      unfold isWithinCurveOrder, _0n in E.
      destruct (Z.ltb_spec 0 num); cbn [andb negb] in E; [| discriminate].
      destruct (Z.ltb_spec num CURVE.n); cbn [andb negb] in E; [| discriminate].
      injection E as <-. lia. }
    split; [exact Hd |].
    destruct (Point_multiply_spec Point_BASE d base_point_valid BASE_window Hd) as (q & Eq & Hq).
    destruct (valid_or_zero_range q Hq) as [Hx Hy].
    destruct (toRawBytes_layout q Hx Hy) as (xb & yb & Lx & Ly & Vx & Vy & Eu & Ec).
    exists q, xb, yb. rewrite Eq. cbn [bind].
    repeat split; try assumption. destruct isCompressed; assumption.
Qed.

(** X22: [toAffine] throws on a point at infinity ([z = 0]) and converts
    every other point of the curve into a valid affine point. *)
Theorem toAffine_behaviour (j : JacobianPoint) :
  on_curve_or_infinity j ->
  (Jz j = 0 -> JacobianPoint_toAffine j = Throw (Error "invert: expected positive integers"))
  /\ (Jz j <> 0 ->
      exists q, JacobianPoint_toAffine j = Ok q /\ Point_assertValidity q = Ok tt).
Proof.
  intros Hj. split; [apply toAffine_infinity | apply toAffine_finite, Hj].
Qed.

Lemma toAffine_behaviour_witness :
  on_curve_or_infinity (JacobianPoint_double JacobianPoint_BASE)
  /\ ((Jz (JacobianPoint_double JacobianPoint_BASE) = 0 ->
       JacobianPoint_toAffine (JacobianPoint_double JacobianPoint_BASE)
       = Throw (Error "invert: expected positive integers"))
      /\ (Jz (JacobianPoint_double JacobianPoint_BASE) <> 0 ->
          exists q, JacobianPoint_toAffine (JacobianPoint_double JacobianPoint_BASE) = Ok q
                    /\ Point_assertValidity q = Ok tt)).
Proof.
  pose proof (double_ok JacobianPoint_BASE BASE_ok) as H.
  split; [exact H |].
  exact (toAffine_behaviour (JacobianPoint_double JacobianPoint_BASE) H).
Defined.

(** X23: [assertValidity] accepts exactly the pairs of residues that satisfy
    [y^2 = x^3 + 7] modulo [P]: the strict lower bounds [0 < x], [0 < y] that
    it checks reject no solution, since no solution has a zero coordinate. *)
Theorem assertValidity_complete (x y : Z) :
  0 <= x < CURVE.P -> 0 <= y < CURVE.P ->
  (Point_assertValidity (new_Point x y) = Ok tt
   <-> (y * y) mod CURVE.P = (x * x * x + 7) mod CURVE.P).
Proof.
  intros Hx Hy. rewrite assertValidity_iff. cbn [Px Py new_Point]. split; [tauto |].
  intros Hc.
  assert (x <> 0).
  { intros ->. apply (seven_not_square y). rewrite Hc. rewrite P_value. reflexivity. }
  assert (y <> 0).
  { intros ->. apply (minus_seven_not_cube x). rewrite <- Hc. reflexivity. }
  repeat split; try lia; exact Hc.
Qed.

Lemma assertValidity_complete_witness :
  0 <= CURVE.Gx < CURVE.P /\ 0 <= CURVE.Gy < CURVE.P
  /\ (Point_assertValidity (new_Point CURVE.Gx CURVE.Gy) = Ok tt
      <-> (CURVE.Gy * CURVE.Gy) mod CURVE.P
          = (CURVE.Gx * CURVE.Gx * CURVE.Gx + 7) mod CURVE.P).
Proof.
  assert (Hx : 0 <= CURVE.Gx < CURVE.P) by (split; [discriminate | reflexivity]).
  assert (Hy : 0 <= CURVE.Gy < CURVE.P) by (split; [discriminate | reflexivity]).
  split; [exact Hx |]. split; [exact Hy |].
  exact (assertValidity_complete CURVE.Gx CURVE.Gy Hx Hy).
Defined.

(** *** Equality of Jacobian points *)

Lemma modP_eq_inj (u v : Z) : modP u = modP v <-> inj u = inj v.
Proof. rewrite !modP_spec. symmetry. apply inj_eq. Qed.

Lemma equals_field (a b : JacobianPoint) :
  JacobianPoint_equals a b = true
  <-> Zmod.mul (inj (Jx a)) (Zmod.mul (inj (Jz b)) (inj (Jz b)))
      = Zmod.mul (Zmod.mul (inj (Jz a)) (inj (Jz a))) (inj (Jx b))
      /\ Zmod.mul (inj (Jy a)) (Zmod.mul (inj (Jz b)) (Zmod.mul (inj (Jz b)) (inj (Jz b))))
         = Zmod.mul (Zmod.mul (inj (Jz a)) (Zmod.mul (inj (Jz a)) (inj (Jz a)))) (inj (Jy b)).
Proof.
  unfold JacobianPoint_equals. cbv zeta.
  rewrite andb_true_iff, !Z.eqb_eq, !modP_eq_inj. autorewrite with inj. reflexivity.
Qed.

Lemma toAffine_with_eq (a b : JacobianPoint) (ia ib : Z) :
  JacobianPoint_toAffine_with a ia = JacobianPoint_toAffine_with b ib
  <-> Zmod.mul (inj (Jx a)) (Zmod.mul (inj ia) (inj ia))
      = Zmod.mul (inj (Jx b)) (Zmod.mul (inj ib) (inj ib))
      /\ Zmod.mul (Zmod.mul (inj (Jy a)) (Zmod.mul (inj ia) (inj ia))) (inj ia)
         = Zmod.mul (Zmod.mul (inj (Jy b)) (Zmod.mul (inj ib) (inj ib))) (inj ib).
Proof.
  unfold JacobianPoint_toAffine_with, new_Point. cbv zeta.
  rewrite <- (inj_pow2 ia), <- (inj_pow2 ib), <- !inj_mul, <- !modP_eq_inj.
  split; [intros [= -> ->]; split; reflexivity | intros [-> ->]; reflexivity].
Qed.

Lemma inverse_in_field (z iz : Z) :
  (iz * z) mod CURVE.P = 1 -> Zmod.mul (inj iz) (inj z) = Zmod.one.
Proof.
  intros H. rewrite <- inj_mul, <- inj_1. apply inj_eq. rewrite H.
  symmetry. apply Z.mod_small. rewrite P_value. lia.
Qed.

Lemma cube_zero (z : Z) :
  0 <= z < CURVE.P -> Zmod.mul (inj z) (Zmod.mul (inj z) (inj z)) = Zmod.zero -> z = 0.
Proof.
  intros Hz H. rewrite <- !inj_mul, <- inj_0 in H. apply inj_eq in H.
  rewrite Z.mod_0_l in H by (rewrite P_value; lia).
  apply Z.mod_divide in H; [| rewrite P_value; lia].
  assert (Hd : (CURVE.P | z)).
  { apply Z.divide_prime_mul in H; [| exact prime_P]. destruct H as [Hd | Hd]; [exact Hd |].
    apply Z.divide_prime_mul in Hd; [| exact prime_P]. destruct Hd; assumption. }
  destruct (Z.eq_dec z 0) as [? | Hnz]; [assumption |].
  apply Z.divide_pos_le in Hd; lia.
Qed.

(** X30: on points with coordinates in [0, P), [equals] is symmetric; on
    two points with [z] not 0 it holds exactly when [toAffine] gives the same
    affine point for both; and [JacobianPoint.ZERO] equals exactly the
    points with [z = 0]. *)
Theorem JacobianPoint_equals_behaviour (a b : JacobianPoint) :
  reduced a -> reduced b ->
  (Jz a <> 0 -> Jz b <> 0 ->
   (JacobianPoint_equals a b = true <-> JacobianPoint_toAffine a = JacobianPoint_toAffine b))
  /\ (JacobianPoint_equals JacobianPoint_ZERO b = true <-> Jz b = 0)
  /\ JacobianPoint_equals a b = JacobianPoint_equals b a.
Proof.
  intros (_ & _ & Hza) (_ & _ & Hzb). split; [| split].
  - intros Hna Hnb.
    destruct (residue_coprime CURVE.P (Jz a) prime_P Hza) as [? | Hga]; [contradiction |].
    destruct (residue_coprime CURVE.P (Jz b) prime_P Hzb) as [? | Hgb]; [contradiction |].
    destruct (invert_spec (Jz a) CURVE.P ltac:(rewrite P_value; lia) Hga) as (ia & Ea & _ & Hia).
    destruct (invert_spec (Jz b) CURVE.P ltac:(rewrite P_value; lia) Hgb) as (ib & Eb & _ & Hib).
    unfold JacobianPoint_toAffine. rewrite Ea, Eb. cbn [bind].
    rewrite equals_field.
    assert (Hiff : JacobianPoint_toAffine_with a ia = JacobianPoint_toAffine_with b ib
                   <-> Ok (JacobianPoint_toAffine_with a ia)
                       = Ok (JacobianPoint_toAffine_with b ib) :> result Point)
      by (split; [intros ->; reflexivity |];
          intros H;
          exact (f_equal (fun r => match r with
                                   | Ok p => p
                                   | Throw _ => JacobianPoint_toAffine_with a ia
                                   end) H)).
    rewrite <- Hiff, toAffine_with_eq.
    apply inverse_in_field in Hia, Hib. revert Hia Hib.
    generalize (inj (Jx a)) (inj (Jy a)) (inj (Jz a)) (inj (Jx b)) (inj (Jy b)) (inj (Jz b))
      (inj ia) (inj ib).
    intros x y z x' y' z' i i' Hi Hi'. split; intros [H1 H2]; split.
    + transitivity (Zmod.mul (Zmod.mul (Zmod.mul x (Zmod.mul z' z')) (Zmod.mul i i))
                      (Zmod.mul i' i')).
      { transitivity (Zmod.mul (Zmod.mul x (Zmod.mul i i))
                        (Zmod.mul (Zmod.mul i' z') (Zmod.mul i' z'))); [| ring].
        rewrite Hi'. ring. }
      rewrite H1.
      transitivity (Zmod.mul (Zmod.mul x' (Zmod.mul i' i'))
                      (Zmod.mul (Zmod.mul i z) (Zmod.mul i z))); [ring |].
      rewrite Hi. ring.
    + transitivity (Zmod.mul (Zmod.mul (Zmod.mul y (Zmod.mul z' (Zmod.mul z' z')))
                                (Zmod.mul i (Zmod.mul i i)))
                      (Zmod.mul i' (Zmod.mul i' i'))).
      { transitivity (Zmod.mul (Zmod.mul y (Zmod.mul i (Zmod.mul i i)))
                        (Zmod.mul (Zmod.mul i' z')
                           (Zmod.mul (Zmod.mul i' z') (Zmod.mul i' z')))); [| ring].
        rewrite Hi'. ring. }
      rewrite H2.
      transitivity (Zmod.mul (Zmod.mul y' (Zmod.mul i' (Zmod.mul i' i')))
                      (Zmod.mul (Zmod.mul i z) (Zmod.mul (Zmod.mul i z) (Zmod.mul i z))));
        [ring |].
      rewrite Hi. ring.
    + transitivity (Zmod.mul (Zmod.mul (Zmod.mul x (Zmod.mul i i)) (Zmod.mul z z))
                      (Zmod.mul z' z')).
      { transitivity (Zmod.mul (Zmod.mul x (Zmod.mul z' z'))
                        (Zmod.mul (Zmod.mul i z) (Zmod.mul i z))); [| ring].
        rewrite Hi. ring. }
      rewrite H1.
      transitivity (Zmod.mul (Zmod.mul (Zmod.mul z z) x')
                      (Zmod.mul (Zmod.mul i' z') (Zmod.mul i' z'))); [ring |].
      rewrite Hi'. ring.
    + transitivity (Zmod.mul (Zmod.mul (Zmod.mul (Zmod.mul y (Zmod.mul i i)) i)
                                (Zmod.mul z (Zmod.mul z z)))
                      (Zmod.mul z' (Zmod.mul z' z'))).
      { transitivity (Zmod.mul (Zmod.mul y (Zmod.mul z' (Zmod.mul z' z')))
                        (Zmod.mul (Zmod.mul i z)
                           (Zmod.mul (Zmod.mul i z) (Zmod.mul i z)))); [| ring].
        rewrite Hi. ring. }
      rewrite H2.
      transitivity (Zmod.mul (Zmod.mul (Zmod.mul z (Zmod.mul z z)) y')
                      (Zmod.mul (Zmod.mul i' z')
                         (Zmod.mul (Zmod.mul i' z') (Zmod.mul i' z')))); [ring |].
      rewrite Hi'. ring.
  - rewrite equals_field. unfold JacobianPoint_ZERO, _0n, _1n. cbn [Jx Jy Jz].
    rewrite inj_0, inj_1. split.
    + intros [_ H]. apply cube_zero; [exact Hzb |].
      transitivity (Zmod.mul Zmod.one
                      (Zmod.mul (inj (Jz b)) (Zmod.mul (inj (Jz b)) (inj (Jz b))))); [ring |].
      rewrite H. ring.
    + intros ->. rewrite inj_0. split; ring.
  - unfold JacobianPoint_equals. cbv zeta.
    rewrite (Z.eqb_sym (modP (Jx a * _)) _), (Z.eqb_sym (modP (Jy a * _)) _).
    rewrite (Z.mul_comm (modP (Jz a * Jz a)) (Jx b)), (Z.mul_comm (Jx a) (modP (Jz b * Jz b))).
    rewrite (Z.mul_comm (modP (Jz a * modP (Jz a * Jz a))) (Jy b)),
      (Z.mul_comm (Jy a) (modP (Jz b * modP (Jz b * Jz b)))).
    reflexivity.
Qed.

Lemma JacobianPoint_equals_behaviour_witness :
  reduced JacobianPoint_BASE /\ reduced JacobianPoint_ZERO
  /\ ((Jz JacobianPoint_BASE <> 0 -> Jz JacobianPoint_ZERO <> 0 ->
       (JacobianPoint_equals JacobianPoint_BASE JacobianPoint_ZERO = true
        <-> JacobianPoint_toAffine JacobianPoint_BASE = JacobianPoint_toAffine JacobianPoint_ZERO))
      /\ (JacobianPoint_equals JacobianPoint_ZERO JacobianPoint_ZERO = true
          <-> Jz JacobianPoint_ZERO = 0)
      /\ JacobianPoint_equals JacobianPoint_BASE JacobianPoint_ZERO
         = JacobianPoint_equals JacobianPoint_ZERO JacobianPoint_BASE).
Proof.
  split; [exact (proj1 BASE_ok) |]. split; [exact (proj1 ZERO_ok) |].
  exact (JacobianPoint_equals_behaviour JacobianPoint_BASE JacobianPoint_ZERO
           (proj1 BASE_ok) (proj1 ZERO_ok)).
Defined.

(** ** Properties of signing *)

Lemma n_pos : 0 < CURVE.n.
Proof. rewrite n_value. reflexivity. Qed.

Lemma mod_n_spec (a : Z) : mod_ a CURVE.n = a mod CURVE.n /\ 0 <= mod_ a CURVE.n < CURVE.n.
Proof.
  rewrite mod__spec by exact n_pos. split; [reflexivity |].
  apply Z.mod_pos_bound, n_pos.
Qed.

Lemma new_Signature_valid (r s : Z) :
  0 < r < CURVE.n -> 0 < s < CURVE.n -> new_Signature r s = Ok (mkSignature r s).
Proof.
  intros Hr Hs.
  unfold new_Signature, Signature_assertValidity, isWithinCurveOrder, _0n. cbn [sig_r sig_s].
  destruct (Z.ltb_spec 0 r); [| lia]. destruct (Z.ltb_spec r CURVE.n); [| lia].
  destruct (Z.ltb_spec 0 s); [| lia]. destruct (Z.ltb_spec s CURVE.n); [| lia].
  reflexivity.
Qed.


Lemma isWithinCurveOrder_spec (k : Z) : isWithinCurveOrder k = true <-> 0 < k < CURVE.n.
Proof.
  unfold isWithinCurveOrder, _0n.
  destruct (Z.ltb_spec 0 k), (Z.ltb_spec k CURVE.n); cbn [andb]; split; intros; (lia || congruence).
Qed.

Lemma invert_mod_n (k : Z) :
  0 < k < CURVE.n ->
  exists ik, invert k CURVE.n = Ok ik /\ 0 <= ik < CURVE.n /\ (ik * k) mod CURVE.n = 1.
Proof.
  intros Hk. destruct (residue_coprime CURVE.n k prime_n ltac:(lia)) as [? | Hg]; [lia |].
  apply invert_spec; [pose proof n_pos; rewrite n_value in *; lia | exact Hg].
Qed.

(** What [kmdToSig] returns for the candidate [k] read from [kBytes]. *)
Lemma kmdToSig_spec (kBytes : list byte) (m d : Z) :
  kBytes <> [] ->
  (~ 0 < be_value kBytes < CURVE.n -> kmdToSig kBytes m d = Ok None)
  /\ (0 < be_value kBytes < CURVE.n ->
      exists q,
        Point_multiply Point_BASE (be_value kBytes) = Ok q
        /\ (kmdToSig kBytes m d = Ok None
            \/ exists r s,
                kmdToSig kBytes m d
                = Ok (Some (mkRecoveredSig (mkSignature r s)
                              (Z.lor (if Px q =? r then 0 else 2) (Z.land (Py q) _1n))))
                /\ r = Px q mod CURVE.n /\ 0 < r < CURVE.n /\ 0 < s < CURVE.n
                /\ (be_value kBytes * s) mod CURVE.n = (m + d * r) mod CURVE.n)).
Proof.
  intros Hne. unfold kmdToSig. rewrite (bytesToNumber_spec kBytes Hne). cbn [bind].
  generalize (be_value kBytes). intros k. pose proof n_pos as Hn. split.
  - intros Hk. destruct (isWithinCurveOrder k) eqn:E; [| reflexivity].
    apply isWithinCurveOrder_spec in E. contradiction.
  - intros Hk. pose proof (proj2 (isWithinCurveOrder_spec k) Hk) as ->. cbn [negb]. cbv zeta.
    destruct (Point_multiply_spec Point_BASE k base_point_valid BASE_window Hk) as (q & -> & _).
    exists q. split; [reflexivity |]. cbn [bind].
    destruct (mod_n_spec (Px q)) as [Er Hr]. rewrite Er in *. unfold _0n.
    destruct (Z.eqb_spec (Px q mod CURVE.n) 0) as [_ | Hr0]; [left; reflexivity |].
    destruct (invert_mod_n k Hk) as (ik & -> & Hik & Hinv). cbn [bind].
    destruct (mod_n_spec (m + d * (Px q mod CURVE.n))) as [EM _]. rewrite EM.
    destruct (mod_n_spec (ik * ((m + d * (Px q mod CURVE.n)) mod CURVE.n))) as [Es Hs].
    rewrite Es in *.
    destruct (Z.eqb_spec ((ik * ((m + d * (Px q mod CURVE.n)) mod CURVE.n)) mod CURVE.n) 0)
      as [_ | Hs0]; [left; reflexivity |].
    right. eexists. eexists. rewrite new_Signature_valid by lia. cbn [bind sig_r].
    split; [reflexivity |]. split; [reflexivity |]. split; [lia |]. split; [lia |].
    rewrite Z.mul_mod_idemp_r, Z.mul_assoc, (Z.mul_comm k ik) by lia.
    rewrite <- Z.mul_mod_idemp_l, Hinv, Z.mul_1_l, Z.mod_mod by lia. reflexivity.
Qed.

Lemma kmdToSig_total (kBytes : list byte) (m d : Z) :
  kBytes <> [] -> exists res, kmdToSig kBytes m d = Ok res.
Proof.
  intros Hne. destruct (kmdToSig_spec kBytes m d Hne) as [Hout Hin].
  destruct (Z_lt_dec 0 (be_value kBytes)) as [H0 |]; [| eexists; apply Hout; lia].
  destruct (Z_lt_dec (be_value kBytes) CURVE.n) as [H1 |]; [| eexists; apply Hout; lia].
  destruct (Hin (conj H0 H1)) as (q & _ & [E | (r & s & E & _)]); eexists; exact E.
Qed.

Lemma toDERRawBytes_total (r s : Z) :
  0 < r < CURVE.n -> 0 < s < CURVE.n ->
  exists bytes, Signature_toDERRawBytes (mkSignature r s) false = Ok bytes.
Proof.
  intros Hr Hs.
  assert (0 < r < 2 ^ 256) as Hr' by (rewrite n_value in Hr; lia).
  assert (0 < s < 2 ^ 256) as Hs' by (rewrite n_value in Hs; lia).
  destruct (toDERHex_layout r s Hr' Hs') as (rp & sp & _ & _ & _ & _ & Ehex).
  eexists. unfold Signature_toDERRawBytes. rewrite Ehex. apply hexToBytes_hex_of_bytes.
Qed.

Lemma toCompactRawBytes_total (r s : Z) :
  0 < r < CURVE.n -> 0 < s < CURVE.n ->
  exists bytes, Signature_toCompactRawBytes (mkSignature r s) = Ok bytes.
Proof.
  intros Hr Hs.
  assert (0 <= r < 2 ^ 256) as Hr' by (rewrite n_value in Hr; lia).
  assert (0 <= s < 2 ^ 256) as Hs' by (rewrite n_value in Hs; lia).
  destruct (numTo32bStr_spec r Hr') as (rb & Er & _).
  destruct (numTo32bStr_spec s Hs') as (sb & Es & _).
  eexists. unfold Signature_toCompactRawBytes, Signature_toCompactHex. cbn [sig_r sig_s].
  rewrite Er, Es. cbn [bind]. rewrite <- hex_of_bytes_app. apply hexToBytes_hex_of_bytes.
Qed.


(** What [finalizeSig] makes of a valid signature. *)
Lemma finalizeSig_spec (r s recovery : Z) (opts : Opts) :
  0 < r < CURVE.n -> 0 < s < CURVE.n ->
  let flip :=
    match canonical opts with Some false => false | _ => Signature_hasHighS (mkSignature r s) end in
  let s' := if flip then CURVE.n - s else s in
  let recovery' := if flip then Z.lxor recovery 1 else recovery in
  0 < s' < CURVE.n
  /\ exists bytes,
      match der opts with
      | Some false => Signature_toCompactRawBytes (mkSignature r s')
      | _ => Signature_toDERRawBytes (mkSignature r s') false
      end = Ok bytes
      /\ finalizeSig (mkRecoveredSig (mkSignature r s) recovery) opts
         = Ok (match recovered opts with
               | Some true => SignRecovered bytes recovery'
               | _ => SignBytes bytes
               end).
Proof.
  intros Hr Hs. cbv zeta.
  set (flip := match canonical opts with
               | Some false => false
               | _ => Signature_hasHighS (mkSignature r s)
               end).
  assert (Hs' : 0 < (if flip then CURVE.n - s else s) < CURVE.n) by (destruct flip; lia).
  split; [exact Hs' |].
  assert (Ebytes : exists bytes,
             match der opts with
             | Some false =>
                 Signature_toCompactRawBytes (mkSignature r (if flip then CURVE.n - s else s))
             | _ => Signature_toDERRawBytes (mkSignature r (if flip then CURVE.n - s else s)) false
             end = Ok bytes).
  { destruct (der opts) as [[|] |];
      [apply toDERRawBytes_total | apply toCompactRawBytes_total | apply toDERRawBytes_total];
      assumption. }
  destruct Ebytes as (bytes & Ebytes). exists bytes. split; [exact Ebytes |].
  unfold finalizeSig. cbn [rec_sig rec_recovery]. cbv zeta.
  assert (Estep :
            (if match canonical opts with Some c => c | None => true end
                && Signature_hasHighS (mkSignature r s)
             then let* sig := Signature_normalizeS (mkSignature r s) in
                  Ok (sig, Z.lxor recovery 1)
             else Ok (mkSignature r s, recovery))
            = Ok (mkSignature r (if flip then CURVE.n - s else s),
                  if flip then Z.lxor recovery 1 else recovery)).
  { subst flip. unfold Signature_normalizeS.
    destruct (canonical opts) as [[|] |]; cbn [andb];
      destruct (Signature_hasHighS (mkSignature r s)) eqn:Eh; try reflexivity;
      cbn [sig_r sig_s]; rewrite new_Signature_valid by lia; reflexivity. }
  rewrite Estep. cbn [bind].
  destruct (der opts) as [[|] |]; rewrite Ebytes; cbn [bind];
    destruct (recovered opts) as [[|] |]; reflexivity.
Qed.


Section SignProofs.

Variable hmac : HmacDrbg -> list (list byte) -> result (list byte).

(** The loop returns what [kmdToSig] accepted. *)
Lemma sign_loop_sound (fuel : nat) :
  forall drbg m d rs,
    sign_loop hmac fuel drbg m d = Ok rs ->
    exists kBytes, kmdToSig kBytes m d = Ok (Some rs).
Proof.
  induction fuel as [| fuel IH]; intros drbg m d rs; cbn [sign_loop]; [discriminate |].
  destruct (generate_with hmac drbg) as [[drbg' kBytes] |]; cbn [bind]; [| discriminate].
  destruct (kmdToSig kBytes m d) as [[rs' |] |] eqn:E; cbn [bind]; try discriminate.
  - intros [= <-]. exists kBytes. exact E.
  - destruct (reseed_with hmac drbg' []) as [drbg'' |]; cbn [bind]; [| discriminate].
    apply IH.
Qed.

Hypothesis hmac_returns : forall this values, exists out, hmac this values = Ok out.

Lemma reseed_total (drbg : HmacDrbg) (seed : list byte) :
  exists drbg', reseed_with hmac drbg seed = Ok drbg' /\ drbg_counter drbg' = drbg_counter drbg.
Proof.
  unfold reseed_with.
  destruct (hmac_returns drbg [drbg_v drbg; [x00]; seed]) as (k1 & ->). cbn [bind]. cbv zeta.
  match goal with |- context [hmac ?t ?v] => destruct (hmac_returns t v) as (v1 & ->) end.
  cbn [bind]. destruct (bytes_length seed =? 0); [eexists; split; reflexivity |].
  match goal with |- context [hmac ?t ?v] => destruct (hmac_returns t v) as (k2 & ->) end.
  cbn [bind].
  match goal with |- context [hmac ?t ?v] => destruct (hmac_returns t v) as (v2 & ->) end.
  cbn [bind]. eexists. split; reflexivity.
Qed.

Lemma generate_outcome (drbg : HmacDrbg) :
  (1000 <= drbg_counter drbg ->
   generate_with hmac drbg = Throw (Error "Tried 1,000 k values for sign(), all were invalid"))
  /\ (drbg_counter drbg < 1000 ->
      exists drbg' kBytes,
        generate_with hmac drbg = Ok (drbg', kBytes)
        /\ (exists this values, hmac this values = Ok kBytes)
        /\ drbg_counter drbg' = drbg_counter drbg + 1).
Proof.
  unfold generate_with, HmacDrbg_incr. split; intros Hc.
  - destruct (Z.leb_spec 1000 (drbg_counter drbg)); [reflexivity | lia].
  - destruct (Z.leb_spec 1000 (drbg_counter drbg)); [lia |]. cbn [bind].
    match goal with
    | |- context [hmac ?t ?v] => destruct (hmac_returns t v) as (v1 & Ev); rewrite Ev
    end.
    cbn [bind]. eexists. eexists. split; [reflexivity |]. split; [| reflexivity].
    eexists. eexists. exact Ev.
Qed.

Lemma kmdToSig_empty (m d : Z) :
  kmdToSig [] m d = Throw (SyntaxError "Cannot convert 0x to a BigInt").
Proof. reflexivity. Qed.

(** The loop ends: by a signature, by the error of [incr] once a thousand
    candidates were rejected, or, when the HMAC function has returned an
    empty array, by the error of [BigInt('0x')]. *)
Lemma sign_loop_outcome (fuel : nat) :
  forall drbg m d,
    drbg_counter drbg <= 1000 < Z.of_nat fuel + drbg_counter drbg ->
    (exists rs, sign_loop hmac fuel drbg m d = Ok rs)
    \/ sign_loop hmac fuel drbg m d
       = Throw (Error "Tried 1,000 k values for sign(), all were invalid")
    \/ (sign_loop hmac fuel drbg m d = Throw (SyntaxError "Cannot convert 0x to a BigInt")
        /\ exists this values, hmac this values = Ok []).
Proof.
  induction fuel as [| fuel IH]; intros drbg m d Hc; [cbn in Hc; lia |].
  cbn [sign_loop]. destruct (generate_outcome drbg) as [Hstop Hgo].
  destruct (Z_lt_dec (drbg_counter drbg) 1000) as [Hlt | Hge].
  - destruct (Hgo Hlt) as (drbg' & kBytes & -> & Hk & Hc'). cbn [bind].
    destruct kBytes as [| b kBytes].
    { right. right. rewrite kmdToSig_empty. split; [reflexivity | exact Hk]. }
    destruct (kmdToSig_total (b :: kBytes) m d ltac:(discriminate)) as ([rs |] & ->);
      cbn [bind]; [left; eauto |].
    destruct (reseed_total drbg' []) as (drbg'' & -> & Hc''). cbn [bind].
    apply IH. lia.
  - right. left. rewrite Hstop by lia. reflexivity.
Qed.

(** When every candidate is out of range, the loop ends by the error of
    [incr]. *)
Lemma sign_loop_exhausted (fuel : nat) :
  (forall this values out,
     hmac this values = Ok out -> out <> [] /\ ~ 0 < be_value out < CURVE.n) ->
  forall drbg m d,
    drbg_counter drbg <= 1000 < Z.of_nat fuel + drbg_counter drbg ->
    sign_loop hmac fuel drbg m d
    = Throw (Error "Tried 1,000 k values for sign(), all were invalid").
Proof.
  intros Hbad. induction fuel as [| fuel IH]; intros drbg m d Hc; [cbn in Hc; lia |].
  cbn [sign_loop]. destruct (generate_outcome drbg) as [Hstop Hgo].
  destruct (Z_lt_dec (drbg_counter drbg) 1000) as [Hlt | Hge].
  - destruct (Hgo Hlt) as (drbg' & kBytes & -> & (this & values & Ev) & Hc'). cbn [bind].
    destruct (Hbad this values kBytes Ev) as [Hne Hk].
    rewrite (proj1 (kmdToSig_spec kBytes m d Hne) Hk). cbn [bind].
    destruct (reseed_total drbg' []) as (drbg'' & -> & Hc''). cbn [bind].
    apply IH. lia.
  - rewrite Hstop by lia. reflexivity.
Qed.

(** When the HMAC function returns empty arrays, the first candidate makes
    [kmdToSig] throw. *)
Lemma sign_loop_empty (fuel : nat) (drbg : HmacDrbg) (m d : Z) :
  (forall this values, hmac this values = Ok []) ->
  drbg_counter drbg < 1000 ->
  sign_loop hmac (S fuel) drbg m d = Throw (SyntaxError "Cannot convert 0x to a BigInt").
Proof.
  intros Hempty Hc. cbn [sign_loop].
  destruct (proj2 (generate_outcome drbg) Hc) as (drbg' & kBytes & -> & (this & values & Ev) & _).
  rewrite Hempty in Ev. injection Ev as <-. reflexivity.
Qed.

End SignProofs.

Lemma int2octets_spec (num : Z) :
  0 <= num < 2 ^ 256 ->
  exists out, int2octets num = Ok out /\ List.length out = 32%nat /\ be_value out = num.
Proof.
  intros Hn. destruct (numTo32bStr_spec num Hn) as (bytes & E & L & V).
  exists bytes. unfold int2octets. rewrite E. cbn [bind].
  rewrite hexToBytes_hex_of_bytes. auto.
Qed.

Lemma bits2int_spec (bytes : list byte) :
  bytes <> [] ->
  bits2int bytes = Ok (be_value (firstn 32 bytes))
  /\ 0 <= be_value (firstn 32 bytes) < 2 ^ 256.
Proof.
  intros Hne. unfold bits2int, bytes_length, bytes_slice. cbn [skipn]. change (32 - 0)%nat with 32%nat.
  assert (Hf : firstn 32 bytes <> []) by (destruct bytes; [contradiction | discriminate]).
  split.
  - destruct (Z.ltb_spec 32 (Z.of_nat (List.length bytes))).
    + apply bytesToNumber_spec, Hf.
    + rewrite firstn_all2 by lia. apply bytesToNumber_spec, Hne.
  - pose proof (be_value_range (firstn 32 bytes)) as Hr.
    pose proof (firstn_le_length 32 bytes) as Hl.
    assert (256 ^ Z.of_nat (List.length (firstn 32 bytes)) <= 256 ^ 32)
      by (apply Z.pow_le_mono_r; lia).
    change (256 ^ 32) with (2 ^ 256) in *. lia.
Qed.

Lemma bits2octets_spec (bytes : list byte) :
  bytes <> [] ->
  exists out,
    bits2octets bytes = Ok out /\ List.length out = 32%nat
    /\ be_value out = be_value (firstn 32 bytes) mod CURVE.n.
Proof.
  intros Hne. destruct (bits2int_spec bytes Hne) as [E Hr]. unfold bits2octets.
  rewrite E. cbn [bind]. cbv zeta.
  destruct (mod_n_spec (be_value (firstn 32 bytes))) as [Em Hm]. rewrite Em in *. unfold _0n.
  destruct (Z.ltb_spec (be_value (firstn 32 bytes) mod CURVE.n) 0); [lia |].
  apply int2octets_spec.
  assert (CURVE.n < 2 ^ 256) by (rewrite n_value; reflexivity). lia.
Qed.

Section SignTheorems.

Variable hmac : HmacDrbg -> list (list byte) -> result (list byte).
Variable randomBytes : Z -> result (list byte).



Hypothesis hmac_returns : forall this values, exists out, hmac this values = Ok out.

Lemma sign_with_outcome (msgHash : Hex) (privKey : PrivKey) (opts : Opts) :
  is_ok (initSigArgs randomBytes msgHash privKey (extraEntropy opts)) = true ->
  ((exists out, sign_with randomBytes hmac msgHash privKey opts = Ok out)
   \/ sign_with randomBytes hmac msgHash privKey opts
      = Throw (Error "Tried 1,000 k values for sign(), all were invalid")
   \/ (sign_with randomBytes hmac msgHash privKey opts
       = Throw (SyntaxError "Cannot convert 0x to a BigInt")
       /\ exists this values, hmac this values = Ok []))
  /\ ((forall this values out,
         hmac this values = Ok out -> out <> [] /\ ~ 0 < be_value out < CURVE.n) ->
      sign_with randomBytes hmac msgHash privKey opts
      = Throw (Error "Tried 1,000 k values for sign(), all were invalid"))
  /\ ((forall this values, hmac this values = Ok []) ->
      sign_with randomBytes hmac msgHash privKey opts
      = Throw (SyntaxError "Cannot convert 0x to a BigInt")).
Proof.
  unfold sign_with.
  destruct (initSigArgs randomBytes msgHash privKey (extraEntropy opts)) as [[[seed m] d] |];
    cbn [is_ok bind]; [intros _ | discriminate].
  destruct (reseed_total hmac hmac_returns new_HmacDrbg seed) as (drbg & -> & Hc). cbn [bind].
  cbn [new_HmacDrbg drbg_counter] in Hc.
  assert (Hfuel : drbg_counter drbg <= 1000 < Z.of_nat sign_fuel + drbg_counter drbg)
    by (rewrite Hc; unfold sign_fuel; lia).
  split; [| split].
  - destruct (sign_loop_outcome hmac hmac_returns sign_fuel drbg m d Hfuel)
      as [(rs & E) | [E | [E Hempty]]];
      rewrite E; cbn [bind]; [| right; left; reflexivity | right; right; split; [reflexivity | exact Hempty]].
    left. destruct (sign_loop_sound hmac _ _ _ _ _ E) as (kBytes & Ek).
    assert (Hne : kBytes <> []).
    { intros ->. unfold kmdToSig in Ek. rewrite bytesToNumber_empty in Ek. discriminate Ek. }
    destruct (kmdToSig_spec kBytes m d Hne) as [Hout Hin].
    destruct (Z_lt_dec 0 (be_value kBytes)) as [H0 |];
      [| rewrite Hout in Ek by lia; discriminate Ek].
    destruct (Z_lt_dec (be_value kBytes) CURVE.n) as [H1 |];
      [| rewrite Hout in Ek by lia; discriminate Ek].
    destruct (Hin (conj H0 H1)) as (q & Eq & [E' | (r & s & E' & Er & Hr & Hs & Heq)]);
      rewrite E' in Ek; [discriminate Ek |].
    injection Ek as <-.
    destruct (finalizeSig_spec r s (Z.lor (if Px q =? r then 0 else 2) (Z.land (Py q) _1n)) opts
                Hr Hs) as (_ & bytes & _ & Ef).
    rewrite Ef. eauto.
  - intros Hbad. rewrite (sign_loop_exhausted hmac hmac_returns sign_fuel Hbad drbg m d Hfuel).
    reflexivity.
  - intros Hempty. unfold sign_fuel. change 1001%nat with (S 1000).
    rewrite (sign_loop_empty hmac hmac_returns 1000 drbg m d Hempty) by (rewrite Hc; lia).
    reflexivity.
Qed.

End SignTheorems.

(** *** A run of [sign] *)

Lemma hmacSha256_test_vector :
  rmap bytesToHex
    (hmacSha256 (map byte_of_ascii (list_ascii_of_string "Jefe"))
       [map byte_of_ascii (list_ascii_of_string "what do ya want ");
        map byte_of_ascii (list_ascii_of_string "for nothing?")])
  = Ok "5bdcc146bf60754e6a042426089575c75a003f089d2739839dec58b964ec3843"%string.
Proof. vm_compute. reflexivity. Qed.







(** X26: when the HMAC function returns a byte array on every call and the
    arguments are accepted, [sign] and [signSync] end: they return a
    signature, or they throw the error of [HmacDrbg.incr] after a thousand
    candidates, or, which needs an HMAC function that has returned an empty
    array, they throw the [SyntaxError] of [BigInt('0x')].  They throw the
    error of [incr] when every candidate is a non-empty array with a value
    outside (0, n), and the [SyntaxError] when the HMAC function returns
    empty arrays. *)
Theorem sign_bounded_retries
  (hmac : list byte -> list (list byte) -> result (list byte))
  (randomBytes : Z -> result (list byte))
  (msgHash : Hex) (privKey : PrivKey) (opts : Opts) :
  (forall key values, exists out, hmac key values = Ok out) ->
  is_ok (initSigArgs randomBytes msgHash privKey (extraEntropy opts)) = true ->
  ((exists out, sign hmac randomBytes msgHash privKey opts = Ok out)
   \/ sign hmac randomBytes msgHash privKey opts
      = Throw (Error "Tried 1,000 k values for sign(), all were invalid")
   \/ (sign hmac randomBytes msgHash privKey opts
       = Throw (SyntaxError "Cannot convert 0x to a BigInt")
       /\ exists key values, hmac key values = Ok []))
  /\ ((exists out, signSync (Some hmac) randomBytes msgHash privKey opts = Ok out)
      \/ signSync (Some hmac) randomBytes msgHash privKey opts
         = Throw (Error "Tried 1,000 k values for sign(), all were invalid")
      \/ (signSync (Some hmac) randomBytes msgHash privKey opts
          = Throw (SyntaxError "Cannot convert 0x to a BigInt")
          /\ exists key values, hmac key values = Ok []))
  /\ ((forall key values out,
         hmac key values = Ok out -> out <> [] /\ ~ 0 < be_value out < CURVE.n) ->
      sign hmac randomBytes msgHash privKey opts
      = Throw (Error "Tried 1,000 k values for sign(), all were invalid")
      /\ signSync (Some hmac) randomBytes msgHash privKey opts
         = Throw (Error "Tried 1,000 k values for sign(), all were invalid"))
  /\ ((forall key values, hmac key values = Ok []) ->
      sign hmac randomBytes msgHash privKey opts
      = Throw (SyntaxError "Cannot convert 0x to a BigInt")
      /\ signSync (Some hmac) randomBytes msgHash privKey opts
         = Throw (SyntaxError "Cannot convert 0x to a BigInt")).
Proof.
  intros Htotal Hargs.
  assert (H1 : forall this values, exists out, HmacDrbg_hmac hmac this values = Ok out)
    by (intros this values; apply Htotal).
  assert (H2 : forall this values,
             exists out, HmacDrbg_hmacSync (Some hmac) this values = Ok out)
    by (intros this values; apply Htotal).
  destruct (sign_with_outcome _ randomBytes H1 msgHash privKey opts Hargs) as (A1 & B1 & C1).
  destruct (sign_with_outcome _ randomBytes H2 msgHash privKey opts Hargs) as (A2 & B2 & C2).
  split.
  { destruct A1 as [A | [A | [A (this & values & E)]]]; [left; exact A | right; left; exact A |].
    right. right. split; [exact A |]. exists (drbg_k this), values. exact E. }
  split.
  { destruct A2 as [A | [A | [A (this & values & E)]]]; [left; exact A | right; left; exact A |].
    right. right. split; [exact A |]. exists (drbg_k this), values. exact E. }
  split.
  - intros Hbad. split; [apply B1 | apply B2]; intros this values out; apply Hbad.
  - intros Hempty. split; [apply C1 | apply C2]; intros this values; apply Hempty.
Qed.

Lemma sign_bounded_retries_witness :
  (forall key values, exists out, zero_hmac key values = Ok out)
  /\ is_ok (initSigArgs no_randomBytes (HexBytes satoshi_hash) (PrivBigint 1)
              (extraEntropy no_opts)) = true
  /\ sign zero_hmac no_randomBytes (HexBytes satoshi_hash) (PrivBigint 1) no_opts
     = Throw (Error "Tried 1,000 k values for sign(), all were invalid")
  /\ signSync (Some zero_hmac) no_randomBytes (HexBytes satoshi_hash) (PrivBigint 1) no_opts
     = Throw (Error "Tried 1,000 k values for sign(), all were invalid").
Proof.
  assert (H1 : forall key values, exists out, zero_hmac key values = Ok out)
    by (intros key values; eexists; reflexivity).
  assert (H2 : is_ok (initSigArgs no_randomBytes (HexBytes satoshi_hash) (PrivBigint 1)
                        (extraEntropy no_opts)) = true)
    by (vm_compute; reflexivity).
  assert (H3 : forall key values out,
             zero_hmac key values = Ok out -> out <> [] /\ ~ 0 < be_value out < CURVE.n).
  { intros key values out [= <-]. split; [discriminate |]. vm_compute. intros [H _]. discriminate H. }
  split; [exact H1 |]. split; [exact H2 |].
  exact (proj1 (proj2 (proj2 (sign_bounded_retries zero_hmac no_randomBytes
                                 (HexBytes satoshi_hash) (PrivBigint 1) no_opts H1 H2))) H3).
Defined.

Lemma sign_with_init_error (hmac : HmacDrbg -> list (list byte) -> result (list byte))
  (randomBytes : Z -> result (list byte)) (msgHash : Hex) (privKey : PrivKey) (opts : Opts)
  (e : exn) :
  initSigArgs randomBytes msgHash privKey (extraEntropy opts) = Throw e ->
  sign_with randomBytes hmac msgHash privKey opts = Throw e.
Proof. intros E. unfold sign_with. rewrite E. reflexivity. Qed.

Lemma normalizePrivateKey_range (key : PrivKey) (d : Z) :
  normalizePrivateKey key = Ok d -> 0 < d < CURVE.n.
Proof.
  unfold normalizePrivateKey.
  destruct (match key with
            | PrivHex (HexString key) => _ | PrivHex (HexBytes key) => _
            | PrivBigint key => _ | PrivNumber key => _ end) as [num | ?];
    cbn [bind]; [| discriminate].
  destruct (isWithinCurveOrder num) eqn:E; cbn [negb]; [| discriminate].
  intros [= <-]. apply isWithinCurveOrder_spec, E.
Qed.

(** The errors of [initSigArgs]. *)
Lemma initSigArgs_errors (randomBytes : Z -> result (list byte)) (msgHash : Hex)
  (privKey : PrivKey) (ent : option Ent) :
  (forall e, ensureBytes msgHash = Throw e ->
             initSigArgs randomBytes msgHash privKey ent = Throw e)
  /\ (forall h1 e, ensureBytes msgHash = Ok h1 -> normalizePrivateKey privKey = Throw e ->
                   initSigArgs randomBytes msgHash privKey ent = Throw e)
  /\ (forall d, ensureBytes msgHash = Ok [] -> normalizePrivateKey privKey = Ok d ->
                initSigArgs randomBytes msgHash privKey ent
                = Throw (SyntaxError "Cannot convert 0x to a BigInt"))
  /\ (forall h1 d hex e,
        ensureBytes msgHash = Ok h1 -> h1 <> [] -> normalizePrivateKey privKey = Ok d ->
        ent = Some (EntHex hex) -> ensureBytes hex = Ok e -> List.length e <> 32%nat ->
        initSigArgs randomBytes msgHash privKey ent
        = Throw (Error "sign: Expected 32 bytes of extra data")).
Proof.
  unfold initSigArgs. split; [intros e ->; reflexivity |].
  split; [intros h1 e -> ->; reflexivity |].
  split.
  - intros d -> E. rewrite E. cbn [bind].
    assert (CURVE.n < 2 ^ 256) by (rewrite n_value; reflexivity).
    pose proof (normalizePrivateKey_range _ _ E) as Hd.
    destruct (int2octets_spec d ltac:(lia)) as (dO & -> & _). reflexivity.
  - intros h1 d hex e -> Hne E -> Ee Hl. rewrite E. cbn [bind].
    assert (CURVE.n < 2 ^ 256) by (rewrite n_value; reflexivity).
    pose proof (normalizePrivateKey_range _ _ E) as Hd.
    destruct (int2octets_spec d ltac:(lia)) as (dO & -> & _). cbn [bind].
    destruct (bits2octets_spec h1 Hne) as (hO & -> & _). cbn [bind]. rewrite Ee. cbn [bind].
    unfold bytes_length. destruct (Z.eqb_spec (Z.of_nat (List.length e)) 32); [lia |].
    reflexivity.
Qed.

(** X27: [sign] and [signSync] throw what [ensureBytes] throws on the hash
    and what [normalizePrivateKey] throws on the key; an empty hash gives the
    [SyntaxError] of [BigInt('0x')]; extra entropy that is not 32 bytes gives
    'sign: Expected 32 bytes of extra data'; and [signSync] throws when
    [utils.hmacSha256Sync] is not set. *)
Theorem sign_errors
  (hmacSha256 : list byte -> list (list byte) -> result (list byte))
  (hmacSha256Sync : option (list byte -> list (list byte) -> result (list byte)))
  (randomBytes : Z -> result (list byte))
  (msgHash : Hex) (privKey : PrivKey) (opts : Opts) :
  (forall e, ensureBytes msgHash = Throw e ->
             sign hmacSha256 randomBytes msgHash privKey opts = Throw e
             /\ signSync hmacSha256Sync randomBytes msgHash privKey opts = Throw e)
  /\ (forall h1 e, ensureBytes msgHash = Ok h1 -> normalizePrivateKey privKey = Throw e ->
                   sign hmacSha256 randomBytes msgHash privKey opts = Throw e
                   /\ signSync hmacSha256Sync randomBytes msgHash privKey opts = Throw e)
  /\ (forall d, ensureBytes msgHash = Ok [] -> normalizePrivateKey privKey = Ok d ->
                sign hmacSha256 randomBytes msgHash privKey opts
                = Throw (SyntaxError "Cannot convert 0x to a BigInt")
                /\ signSync hmacSha256Sync randomBytes msgHash privKey opts
                   = Throw (SyntaxError "Cannot convert 0x to a BigInt"))
  /\ (forall h1 d hex e,
        ensureBytes msgHash = Ok h1 -> h1 <> [] -> normalizePrivateKey privKey = Ok d ->
        extraEntropy opts = Some (EntHex hex) -> ensureBytes hex = Ok e ->
        List.length e <> 32%nat ->
        sign hmacSha256 randomBytes msgHash privKey opts
        = Throw (Error "sign: Expected 32 bytes of extra data")
        /\ signSync hmacSha256Sync randomBytes msgHash privKey opts
           = Throw (Error "sign: Expected 32 bytes of extra data"))
  /\ (hmacSha256Sync = None ->
      is_ok (initSigArgs randomBytes msgHash privKey (extraEntropy opts)) = true ->
      signSync hmacSha256Sync randomBytes msgHash privKey opts
      = Throw (Error "utils.hmacSha256Sync is undefined, you need to set it")).
Proof.
  destruct (initSigArgs_errors randomBytes msgHash privKey (extraEntropy opts))
    as (E1 & E2 & E3 & E4).
  unfold sign, signSync.
  split; [intros e H; split; apply sign_with_init_error, E1, H |].
  split; [intros h1 e H H'; split; apply sign_with_init_error; eapply E2; eassumption |].
  split; [intros d H H'; split; apply sign_with_init_error; eapply E3; eassumption |].
  split; [intros h1 d hex e H Hne Hd He He' Hl; split; apply sign_with_init_error;
          eapply E4; eassumption |].
  intros -> Hi. unfold sign_with.
  destruct (initSigArgs randomBytes msgHash privKey (extraEntropy opts)) as [[[seed m] d] |];
    [| discriminate Hi].
  reflexivity.
Qed.

(** X28: [bits2int] reads the first 32 bytes as a big-endian number;
    [bits2octets] returns the 32 bytes of that number modulo [n] (the branch
    for a negative residue is never taken); [int2octets] returns the 32 bytes
    of a number below [2^256], throws 'Expected number < 2^256' above it,
    and at [2^256] itself throws the error of [hexToBytes] on 65 digits.  An
    empty byte array makes [bits2int] and [bits2octets] throw. *)
Theorem bits2octets_reduces (bytes : list byte) (num : Z) :
  (bytes = [] ->
   bits2int bytes = Throw (SyntaxError "Cannot convert 0x to a BigInt")
   /\ bits2octets bytes = Throw (SyntaxError "Cannot convert 0x to a BigInt"))
  /\ (bytes <> [] ->
      bits2int bytes = Ok (be_value (firstn 32 bytes))
      /\ exists out,
          bits2octets bytes = Ok out /\ List.length out = 32%nat
          /\ be_value out = be_value (firstn 32 bytes) mod CURVE.n)
  /\ (0 <= num < 2 ^ 256 ->
      exists out, int2octets num = Ok out /\ List.length out = 32%nat /\ be_value out = num)
  /\ (2 ^ 256 < num -> int2octets num = Throw (Error "Expected number < 2^256"))
  /\ int2octets (2 ^ 256) = Throw (Error "hexToBytes: received invalid unpadded hex").
Proof.
  split; [intros ->; split; reflexivity |].
  split; [intros Hne; split; [apply bits2int_spec, Hne | apply bits2octets_spec, Hne] |].
  split; [apply int2octets_spec |].
  split; [| vm_compute; reflexivity].
  intros Hn. unfold int2octets, numTo32bStr. rewrite POW_2_256_value.
  destruct (Z.ltb_spec (2 ^ 256) num); [reflexivity | lia].
Qed.

Lemma checked_point_window (x y : Z) (p : Point) :
  (let* _ := Point_assertValidity (new_Point x y) in Ok (new_Point x y)) = Ok p ->
  _WINDOW_SIZE p = None.
Proof.
  destruct (Point_assertValidity (new_Point x y)); cbn [bind]; [| discriminate].
  intros [= <-]. reflexivity.
Qed.

(** A point parsed from hex or bytes has no window size. *)
Lemma fromHex_window (hex : Hex) (p : Point) :
  Point_fromHex hex = Ok p -> _WINDOW_SIZE p = None.
Proof.
  unfold Point_fromHex. destruct (ensureBytes hex) as [bytes |]; cbn [bind]; [| discriminate].
  cbv zeta. destruct (_ || _).
  - unfold Point_fromCompressedHex. cbv zeta.
    destruct (bytesToNumber _) as [x |]; cbn [bind]; [| discriminate].
    destruct (negb (isValidFieldElement x)); [discriminate |].
    match goal with
    | |- (let* _ := Point_assertValidity (new_Point x ?y) in _) = _ -> _ => generalize y
    end.
    intros y. apply checked_point_window.
  - destruct (_ && _); [| discriminate].
    unfold Point_fromUncompressedHex.
    destruct (bytesToNumber _) as [x |]; cbn [bind]; [| discriminate].
    destruct (bytesToNumber _) as [y |]; cbn [bind]; [| discriminate].
    cbv zeta. apply checked_point_window.
Qed.

(** X29: [getSharedSecret] refuses with a [TypeError] a first argument that
    has the shape of a public key (33 or 65 bytes, 66 or 130 characters) and
    a second argument that has not (so also a 32-byte x-only key).  What it
    returns is the encoding of [B.multiply(a)] for the valid point [B] of
    the public key and the private scalar [0 < a < n]; and it does return
    it, 33 or 65 bytes, whenever both keys are accepted and the public key
    is hex or bytes, or a [Point] whose window size, if set, is a power of
    two up to 16. *)
Theorem getSharedSecret_behaviour (privateA : PrivKey) (publicB : PubKey)
  (isCompressed : bool) :
  (isPub (PrivKey_item privateA) = true ->
   getSharedSecret privateA publicB isCompressed
   = Throw (TypeError "getSharedSecret: first arg must be private key"))
  /\ (isPub (PrivKey_item privateA) = false -> isPub (PubKey_item publicB) = false ->
      getSharedSecret privateA publicB isCompressed
      = Throw (TypeError "getSharedSecret: second arg must be public key"))
  /\ (forall out,
        getSharedSecret privateA publicB isCompressed = Ok out ->
        exists b a q,
          normalizePublicKey publicB = Ok b /\ Point_assertValidity b = Ok tt
          /\ normalizePrivateKey privateA = Ok a /\ 0 < a < CURVE.n
          /\ Point_multiply b a = Ok q /\ Point_toRawBytes q isCompressed = Ok out)
  /\ (forall b a,
        isPub (PrivKey_item privateA) = false -> isPub (PubKey_item publicB) = true ->
        normalizePublicKey publicB = Ok b ->
        (forall p w, publicB = PubPoint p -> _WINDOW_SIZE p = Some w ->
                     In w [1; 2; 4; 8; 16]) ->
        normalizePrivateKey privateA = Ok a ->
        exists q xb yb,
          Point_multiply b a = Ok q
          /\ List.length xb = 32%nat /\ List.length yb = 32%nat
          /\ be_value xb = Px q /\ be_value yb = Py q
          /\ getSharedSecret privateA publicB isCompressed
             = Ok (if isCompressed then (if Z.odd (Py q) then x03 else x02) :: xb
                   else x04 :: xb ++ yb)).
Proof.
  unfold getSharedSecret. split; [intros ->; reflexivity |].
  split; [intros -> ->; reflexivity |].
  split.
  - intros out.
    destruct (isPub (PrivKey_item privateA)); [discriminate |].
    destruct (isPub (PubKey_item publicB)); cbn [negb]; [| discriminate].
    destruct (normalizePublicKey publicB) as [b |]; cbn [bind]; [| discriminate].
    destruct (Point_assertValidity b) as [[] |] eqn:Ev; cbn [bind]; [| discriminate].
    destruct (normalizePrivateKey privateA) as [a |] eqn:Ea; cbn [bind]; [| discriminate].
    destruct (Point_multiply b a) as [q |] eqn:Eq; cbn [bind]; [| discriminate].
    intros E. exists b, a, q. pose proof (normalizePrivateKey_range _ _ Ea). auto 10.
  - intros b a -> -> Eb Hw' Ea. cbn [negb]. rewrite Eb. cbn [bind].
    assert (Ev : Point_assertValidity b = Ok tt
                 /\ forall w, _WINDOW_SIZE b = Some w -> In w [1; 2; 4; 8; 16]).
    { destruct publicB as [hex | p]; cbn [normalizePublicKey] in Eb.
      - split; [eapply fromHex_valid, Eb |].
        intros w Ew. rewrite (fromHex_window hex b Eb) in Ew. discriminate Ew.
      - destruct (Point_assertValidity p) as [[] |] eqn:E; cbn [bind] in Eb; [| discriminate].
        injection Eb as <-. split; [exact E |]. intros w Ew. exact (Hw' p w eq_refl Ew). }
    destruct Ev as [Ev Hw].
    rewrite Ev, Ea. cbn [bind].
    destruct (Point_multiply_spec b a Ev Hw (normalizePrivateKey_range _ _ Ea)) as (q & Eq & Hq).
    destruct (valid_or_zero_range q Hq) as [Hx Hy].
    destruct (toRawBytes_layout q Hx Hy) as (xb & yb & Lx & Ly & Vx & Vy & Eu & Ec).
    exists q, xb, yb. rewrite Eq. cbn [bind].
    repeat split; try assumption. destruct isCompressed; assumption.
Qed.
